(** * Yankee Swap allocation framework: allocation engine and envy metrics

    A shallow embedding of [src/fair/allocation.py] (the two Yankee Swap
    engines, the exchange graph, SPIRE and the round-robin algorithms),
    [src/fair/envy.py] and the item class of [src/fair/item.py].

    Conventions of the embedding.
    - The numpy allocation matrix [X] is a list of rows of integers; every
      index that Python would reject with [IndexError] is rejected here
      too, through the [result] type.  A matrix with no rows carries no
      column count in this representation, so that every column of it
      can be read, where numpy still rejects a column beyond the count;
      when a column can be read is therefore stated for matrices with at
      least one row.
    - The array is created with [dtype=int], 64-bit signed integers: a
      capacity outside their range is an [OverflowError] when it is
      stored, and [-= 1] on an entry wraps around at the least of them.
    - [nx.shortest_path] returns one of the shortest paths and
      [list(set(...))] lists a set in the order of its hash table; the
      embedding searches breadth first in the order of the edges and lists
      a set in increasing order.  The properties proved of the engines use
      of the path only that it is a shortest one; the runs evaluated
      below have a single shortest path in every search (lemma
      [evaluated_runs_have_single_shortest_paths]).
    - Python floats (valuations, weights, gains) are rationals; [-inf] and
      [+inf] are explicit constructors of [gain].  NaN is not modelled.
    - An agent is a record of the four preference queries the engine
      consumes; the class [BaseAgent] itself is an external collaborator.
    - Item indices are natural numbers, so Python's negative indexing is
      outside the model. *)

From Stdlib Require String.
From Stdlib Require Import ZArith QArith Lia.
From stdpp Require Import base decidable option list numbers sorting.

Set Default Proof Using "Type".
Local Open Scope Z_scope.

(** ** Exceptions and fallible computations *)

Inductive exn :=
  | IndexError
  | TypeError
  | ValueError
  | ZeroDivisionError
  | OverflowError
  | NetworkXError.

Inductive result (A : Type) :=
  | Ok (a : A)
  | Err (e : exn).
Arguments Ok {A} a.
Arguments Err {A} e.

#[export] Instance result_ret : MRet result := λ A a, Ok a.
#[export] Instance result_bind : MBind result := λ A B f m,
  match m with
  | Ok a => f a
  | Err e => Err e
  end.

(** [l[i]] on a Python list. *)
Definition index {A} (l : list A) (i : nat) : result A :=
  match l !! i with
  | Some a => Ok a
  | None => Err IndexError
  end.

(** ** Items and agents *)

(** [item_hash] stands for [BaseItem.__hash__], on which [__eq__] and thus
    the test [g in bundle] are defined. *)
Record Item := mkItem {
  item_hash : Z;
  capacity : Z;
}.

Definition item_eqb (g h : Item) : bool := Z.eqb (item_hash g) (item_hash h).

(** [g in bundle] *)
Definition item_in (g : Item) (bundle : list Item) : bool :=
  existsb (item_eqb g) bundle.

Record Agent := mkAgent {
  valuation : list Item → Q;
  marginal_contribution : list Item → Item → Q;
  exchange_contribution : list Item → Item → Item → bool;
  get_desired_items_indexes : list Item → list nat;
}.

(** Python's [a < b] and [a <= b] on valuations. *)
Definition Qleb (a b : Q) : bool := Qle_bool a b.
Definition Qltb (a b : Q) : bool := negb (Qle_bool b a).

(** ** The allocation matrix *)

Abbreviation matrix := (list (list Z)).

(** The entries of the array are [np.int64] values. *)
Definition int64_min : Z := - 2 ^ 63.
Definition int64_max : Z := 2 ^ 63 - 1.

(** The integers that an entry of the array can hold. *)
Definition fits_int64 (z : Z) : bool :=
  (int64_min <=? z) && (z <=? int64_max).

(** [x - 1] on an entry [x] of the array, as [X[i, j] -= 1] computes it:
    below the least 64-bit integer the result wraps around to the
    greatest. *)
Definition int64_pred (x : Z) : Z :=
  if decide (x = int64_min) then int64_max else x - 1.

(** [X[:, j]], for a matrix with at least one row; of a matrix with no
    rows every column is the empty list. *)
Fixpoint column (X : matrix) (j : nat) : result (list Z) :=
  match X with
  | [] => Ok []
  | row :: X' =>
      x ← index row j;
      c ← column X' j;
      Ok (x :: c)
  end.

(** The loop of [get_bundle_from_allocation_matrix], from row [i] on. *)
Fixpoint bundle_loop (items : list Item) (i : nat) (items_list : list Z)
    (bundle0 : list Item) : result (list Item) :=
  match items_list with
  | [] => Ok bundle0
  | x :: rest =>
      if Z.eqb x 1 then
        g ← index items i;
        bundle_loop items (S i) rest (bundle0 ++ [g])
      else bundle_loop items (S i) rest bundle0
  end.

Definition get_bundle_from_allocation_matrix (X : matrix) (items : list Item)
    (agent_index : nat) : result (list Item) :=
  items_list ← column X agent_index;
  bundle_loop items 0 items_list [].

(** ** Envy metrics ([src/fair/envy.py]) *)

(** The inner loop of [EF_1_count] and [EF_1_agents] over the positions of
    the envied bundle: [there_is_no_item] stays [True] unless dropping one
    item brings the bundle down to the agent's own utility. *)
Fixpoint there_is_no_item_loop (agent : Agent) (current_utility : Q)
    (other_bundle : list Item) (indexes : list nat) : bool :=
  match indexes with
  | [] => true
  | index :: rest =>
      let new_bundle := delete index other_bundle in
      let new_utility := valuation agent new_bundle in
      if Qleb new_utility current_utility then false
      else there_is_no_item_loop agent current_utility other_bundle rest
  end.

Definition there_is_no_item (agent : Agent) (current_utility : Q)
    (other_bundle : list Item) : bool :=
  there_is_no_item_loop agent current_utility other_bundle
    (seq 0 (length other_bundle)).

(** The inner loop of [EF_X_count] and [EF_X_agents]: [not_for_every_item]
    becomes [True] as soon as dropping one item leaves the envy in place. *)
Fixpoint not_for_every_item_loop (agent : Agent) (current_utility : Q)
    (other_bundle : list Item) (indexes : list nat) : bool :=
  match indexes with
  | [] => false
  | index :: rest =>
      let new_bundle := delete index other_bundle in
      let new_utility := valuation agent new_bundle in
      if Qltb current_utility new_utility then true
      else not_for_every_item_loop agent current_utility other_bundle rest
  end.

Definition not_for_every_item (agent : Agent) (current_utility : Q)
    (other_bundle : list Item) : bool :=
  not_for_every_item_loop agent current_utility other_bundle
    (seq 0 (length other_bundle)).

(** The six metrics share one pair of nested loops.  They differ in the
    test applied to an envied bundle ([counts]) and in whether the inner
    loop leaves with [break] after the first increment ([once]). *)
Section envy_loops.
Variable counts : Agent → Q → list Item → bool.
Variable once : bool.
Variables (X : matrix) (agents : list Agent) (items : list Item).

(** [for agent_2_index in range(len(agents))] *)
Fixpoint envy_inner (agent : Agent) (agent_index : nat) (current_utility : Q)
    (agent_2_indexes : list nat) (envy_count : nat) : result nat :=
  match agent_2_indexes with
  | [] => Ok envy_count
  | agent_2_index :: rest =>
      if decide (agent_index ≠ agent_2_index) then
        other_bundle ← get_bundle_from_allocation_matrix X items agent_2_index;
        let other_utility := valuation agent other_bundle in
        if Qltb current_utility other_utility
           && counts agent current_utility other_bundle
        then
          if once then Ok (S envy_count)
          else envy_inner agent agent_index current_utility rest (S envy_count)
        else envy_inner agent agent_index current_utility rest envy_count
      else envy_inner agent agent_index current_utility rest envy_count
  end.

(** [for agent_index, agent in enumerate(agents)], from [agent_index] on. *)
Fixpoint envy_outer (agent_index : nat) (rest : list Agent) (envy_count : nat)
    : result nat :=
  match rest with
  | [] => Ok envy_count
  | agent :: rest' =>
      current_bundle ← get_bundle_from_allocation_matrix X items agent_index;
      let current_utility := valuation agent current_bundle in
      envy_count' ← envy_inner agent agent_index current_utility
                      (seq 0 (length agents)) envy_count;
      envy_outer (S agent_index) rest' envy_count'
  end.

Definition envy_metric : result nat := envy_outer 0 agents 0%nat.
End envy_loops.

Definition always_counts (agent : Agent) (current_utility : Q)
    (other_bundle : list Item) : bool := true.

Definition EF_count := envy_metric always_counts false.
Definition EF_agents := envy_metric always_counts true.
Definition EF_1_count := envy_metric there_is_no_item false.
Definition EF_1_agents := envy_metric there_is_no_item true.
Definition EF_X_count := envy_metric not_for_every_item false.
Definition EF_X_agents := envy_metric not_for_every_item true.

(** ** Allocation state ([src/fair/allocation.py]) *)

(** [X[i, j]] *)
Definition getX (X : matrix) (i j : nat) : result Z :=
  row ← index X i;
  index row j.

(** [X[i, j] = v] *)
Definition setX (X : matrix) (i j : nat) (v : Z) : result matrix :=
  row ← index X i;
  _ ← index row j;
  Ok (<[i := <[j := v]> row]> X).

(** [X[i, current_agent] = v] where [current_agent] is what [find_agent]
    returned.  With [None] in the column position numpy reads the index as
    [np.newaxis], so the assignment broadcasts [v] over the whole row. *)
Definition assign (X : matrix) (i : nat) (current_agent : option nat) (v : Z)
    : result matrix :=
  match current_agent with
  | Some j => setX X i j v
  | None =>
      row ← index X i;
      Ok (<[i := replicate (length row) v]> X)
  end.

(** The array that [initialize_allocation_matrix] returns: zeros, and the
    capacities in the last column. *)
Definition initial_matrix (items : list Item) (agents : list Agent)
    : matrix :=
  let m := (length agents + 1)%nat in
  map (λ item, <[(m - 1)%nat := capacity item]> (replicate m 0)) items.

(** [X[i][m - 1] = items[i].capacity] raises [OverflowError] for a
    capacity that a 64-bit integer cannot hold. *)
Definition initialize_allocation_matrix (items : list Item)
    (agents : list Agent) : result matrix :=
  if forallb (λ item, fits_int64 (capacity item)) items
  then Ok (initial_matrix items agents)
  else Err OverflowError.

(** [np.nonzero(item_list)[0]], the positions from [j] on. *)
Fixpoint nonzero_from (j : nat) (item_list : list Z) : list nat :=
  match item_list with
  | [] => []
  | x :: rest =>
      if Z.eqb x 0 then nonzero_from (S j) rest
      else j :: nonzero_from (S j) rest
  end.

Definition get_owners_list (X : matrix) (item_index : nat) : result (list nat) :=
  item_list ← index X item_index;
  Ok (nonzero_from 0 item_list).

(** The loop of [get_bundle_indexes_from_allocation_matrix]. *)
Fixpoint bundle_indexes_loop (i : nat) (items_list : list Z) : list nat :=
  match items_list with
  | [] => []
  | x :: rest =>
      if Z.eqb x 1 then i :: bundle_indexes_loop (S i) rest
      else bundle_indexes_loop (S i) rest
  end.

Definition get_bundle_indexes_from_allocation_matrix (X : matrix)
    (agent_index : nat) : result (list nat) :=
  items_list ← column X agent_index;
  Ok (bundle_indexes_loop 0 items_list).

(** The loop of [find_agent] over the owners.  Falling out of the loop
    prints "Agent not found" and the function returns [None]. *)
Fixpoint find_agent_loop (X : matrix) (agents : list Agent) (items : list Item)
    (current_item_index last_item_index : nat) (owners : list nat)
    : result (option nat) :=
  match owners with
  | [] => Ok None
  | owner :: rest =>
      agent ← index agents owner;
      bundle ← get_bundle_from_allocation_matrix X items owner;
      current_item ← index items current_item_index;
      last_item ← index items last_item_index;
      if exchange_contribution agent bundle current_item last_item
      then Ok (Some owner)
      else find_agent_loop X agents items current_item_index last_item_index rest
  end.

Definition find_agent (X : matrix) (agents : list Agent) (items : list Item)
    (current_item_index last_item_index : nat) : result (option nat) :=
  owners ← get_owners_list X current_item_index;
  find_agent_loop X agents items current_item_index last_item_index owners.

(** ** Exchange graph *)

(** Nodes of the exchange graph: the items, the sink ["t"] and the
    transient source ["s"]. *)
Inductive node :=
  | Src
  | Sink
  | It (i : nat).

#[export] Instance node_eq_dec : EqDecision node.
Proof. solve_decision. Defined.

(** A path node used as a matrix index. *)
Definition node_index (n : node) : result nat :=
  match n with
  | It i => Ok i
  | _ => Err IndexError
  end.

(** [path_og[1:-1]] *)
Definition path_items (path_og : list node) : list node :=
  removelast (tail path_og).

(** ** Executing a transfer path *)

(** A computation that mutates the matrix in place: the matrix is reported
    both on normal return and at the point where an exception leaves. *)
Inductive outcome (S A : Type) :=
  | Return (a : A) (s : S)
  | Raise (e : exn) (s : S).
Arguments Return {S A} a s.
Arguments Raise {S A} e s.

(** The [while len(path) > 0] loop of [update_allocation]; [rpath] is the
    remaining [path], last element first. *)
Fixpoint transfer_loop (agents : list Agent) (items : list Item)
    (agent_picked : nat) (rpath : list node)
    (agents_involved : list (option nat)) (X : matrix)
    : outcome matrix (list (option nat)) :=
  match rpath with
  | [] => Return agents_involved X
  | last_node :: rest =>
      match rest with
      | next_node :: _ =>
          match (next_to_last_item ← node_index next_node;
                 last_item ← node_index last_node;
                 current_agent ← find_agent X agents items next_to_last_item last_item;
                 Ok (next_to_last_item, last_item, current_agent)) with
          | Err e => Raise e X
          | Ok (next_to_last_item, last_item, current_agent) =>
              let agents_involved := agents_involved ++ [current_agent] in
              match assign X last_item current_agent 1 with
              | Err e => Raise e X
              | Ok X1 =>
                  match assign X1 next_to_last_item current_agent 0 with
                  | Err e => Raise e X1
                  | Ok X2 =>
                      transfer_loop agents items agent_picked rest agents_involved X2
                  end
              end
          end
      | [] =>
          match (last_item ← node_index last_node;
                 setX X last_item agent_picked 1) with
          | Err e => Raise e X
          | Ok X1 => Return agents_involved X1
          end
      end
  end.

Definition update_allocation (X : matrix) (agents : list Agent)
    (items : list Item) (path_og : list node) (agent_picked : nat)
    : outcome matrix (list (option nat)) :=
  let path := path_items path_og in
  match (last_node ← from_option Ok (Err IndexError) (head (rev path));
         last_item ← node_index last_node;
         slack ← getX X last_item (length agents);
         setX X last_item (length agents) (int64_pred slack)) with
  | Err e => Raise e X
  | Ok X1 => transfer_loop agents items agent_picked (rev path) [Some agent_picked] X1
  end.

(** ** The exchange graph as a list of directed edges

    [networkx.DiGraph] is an external library.  The graph is the list of
    its edges in insertion order; the nodes are implicit.  *)

Abbreviation graph := (list (node * node)).

Definition has_edge (G : graph) (a b : node) : bool :=
  bool_decide ((a, b) ∈ G).

Definition add_edge (G : graph) (a b : node) : graph :=
  if has_edge G a b then G else G ++ [(a, b)].

(** [G.remove_edge(a, b)] raises when the edge is absent. *)
Definition remove_edge (G : graph) (a b : node) : result graph :=
  if has_edge G a b then Ok (filter (λ e, e ≠ (a, b)) G)
  else Err NetworkXError.

Definition remove_node (G : graph) (n : node) : graph :=
  filter (λ e, e.1 ≠ n ∧ e.2 ≠ n) G.

Definition initialize_exchange_graph (N : nat) : graph :=
  map (λ i, (It i, Sink)) (seq 0 N).

Definition successors (G : graph) (u : node) : list node :=
  map snd (filter (λ e, e.1 = u) G).

(** Breadth-first search over a queue of paths (stored last node first).
    [nx.shortest_path] returns one shortest path; which one it returns
    among several of the same length is a matter of the library, and here
    of the order of the edge list. *)
Fixpoint bfs (G : graph) (target : node) (fuel : nat) (visited : list node)
    (queue : list (list node)) : option (list node) :=
  match fuel, queue with
  | S fuel', (u :: p) :: queue' =>
      if decide (u = target) then Some (rev (u :: p))
      else
        let fresh := remove_dups (filter (λ v, v ∉ visited) (successors G u)) in
        bfs G target fuel' (visited ++ fresh)
            (queue' ++ map (λ v, v :: u :: p) fresh)
  | _, _ => None
  end.

(** [find_shortest_path]: the path, or [None] for Python's [False]. *)
Definition find_shortest_path (G : graph) (start end_ : node)
    : option (list node) :=
  bfs G end_ (S (length G)) [start] [[start]].

(** The loop of [add_agent_to_exchange_graph] over the desired items. *)
Fixpoint add_source_edges (agent : Agent) (items : list Item)
    (bundle : list Item) (G : graph) (desired : list nat) : result graph :=
  match desired with
  | [] => Ok G
  | i :: rest =>
      g ← index items i;
      if negb (item_in g bundle)
         && Qeq_bool (marginal_contribution agent bundle g) 1
      then add_source_edges agent items bundle (add_edge G Src (It i)) rest
      else add_source_edges agent items bundle G rest
  end.

Definition add_agent_to_exchange_graph (X : matrix) (G : graph)
    (agents : list Agent) (items : list Item) (agent_picked : nat)
    : result graph :=
  bundle ← get_bundle_from_allocation_matrix X items agent_picked;
  agent ← index agents agent_picked;
  add_source_edges agent items bundle G (get_desired_items_indexes agent items).

(** [list(set(lis))]: the distinct elements, here in increasing order. *)
Definition list_set (lis : list nat) : list nat :=
  merge_sort Nat.le (remove_dups lis).

(** A list position taken from [agents_involved]: [agents[None]] is a
    [TypeError]. *)
Definition agent_at (agents : list Agent) (agent_index : option nat)
    : result Agent :=
  match agent_index with
  | Some j => index agents j
  | None => Err TypeError
  end.

Fixpoint desired_items_loop (agents : list Agent) (items : list Item)
    (agents_indexes : list (option nat)) (lis : list nat) : result (list nat) :=
  match agents_indexes with
  | [] => Ok lis
  | agent_index :: rest =>
      agent ← agent_at agents agent_index;
      desired_items_loop agents items rest
        (lis ++ get_desired_items_indexes agent items)
  end.

Definition get_multiple_agents_desired_items (agents : list Agent)
    (items : list Item) (agents_indexes : list (option nat))
    : result (list nat) :=
  lis ← desired_items_loop agents items agents_indexes [];
  Ok (list_set lis).

Fixpoint bundles_loop (X : matrix) (agents_indexes : list (option nat))
    (lis : list nat) : result (list nat) :=
  match agents_indexes with
  | [] => Ok lis
  | None :: _ => Err TypeError
  | Some agent_index :: rest =>
      b ← get_bundle_indexes_from_allocation_matrix X agent_index;
      bundles_loop X rest (lis ++ b)
  end.

Definition get_multiple_agents_bundles (X : matrix)
    (agents_indexes : list (option nat)) : result (list nat) :=
  lis ← bundles_loop X agents_indexes [];
  Ok (list_set lis).

(** [owners.remove(len(agents))], done only when it is in the list. *)
Fixpoint list_remove (x : nat) (l : list nat) : list nat :=
  match l with
  | [] => []
  | y :: rest => if decide (x = y) then rest else y :: list_remove x rest
  end.

(** The [for owner in owners] loop of [update_exchange_graph], which
    leaves with [break] at the first willing owner. *)
Fixpoint exchangeable_loop (X : matrix) (agents : list Agent)
    (items : list Item) (item_1 item_2 : Item) (owners : list nat)
    : result bool :=
  match owners with
  | [] => Ok false
  | owner :: rest =>
      if decide (owner ≠ length agents) then
        agent ← index agents owner;
        bundle_owner ← get_bundle_from_allocation_matrix X items owner;
        if exchange_contribution agent bundle_owner item_1 item_2
        then Ok true
        else exchangeable_loop X agents items item_1 item_2 rest
      else exchangeable_loop X agents items item_1 item_2 rest
  end.

(** [for item_2_idx in items_to_loop_over] *)
Fixpoint edges_from_item (X : matrix) (agents : list Agent)
    (items : list Item) (item_idx : nat) (item_1 : Item) (owners : list nat)
    (G : graph) (items_to_loop_over : list nat) : result graph :=
  match items_to_loop_over with
  | [] => Ok G
  | item_2_idx :: rest =>
      if decide (item_2_idx ≠ item_idx) then
        item_2 ← index items item_2_idx;
        exchangeable ← exchangeable_loop X agents items item_1 item_2 owners;
        G' ← (if exchangeable : bool then
                if negb (has_edge G (It item_idx) (It item_2_idx))
                then Ok (add_edge G (It item_idx) (It item_2_idx))
                else Ok G
              else
                if has_edge G (It item_idx) (It item_2_idx)
                then remove_edge G (It item_idx) (It item_2_idx)
                else Ok G);
        edges_from_item X agents items item_idx item_1 owners G' rest
      else edges_from_item X agents items item_idx item_1 owners G rest
  end.

(** [for item_idx in agents_involved_bundles] *)
Fixpoint edges_from_bundles (X : matrix) (agents : list Agent)
    (items : list Item) (agents_involved_desired_items : list nat)
    (G : graph) (agents_involved_bundles : list nat) : result graph :=
  match agents_involved_bundles with
  | [] => Ok G
  | item_idx :: rest =>
      item_1 ← index items item_idx;
      owners ← get_owners_list X item_idx;
      let owners :=
        if bool_decide (length agents ∈ owners)
        then list_remove (length agents) owners else owners in
      owners_desired_items ←
        get_multiple_agents_desired_items agents items (Some <$> owners);
      let items_to_loop_over :=
        list_set (agents_involved_desired_items ++ owners_desired_items) in
      G' ← edges_from_item X agents items item_idx item_1 owners G
             items_to_loop_over;
      edges_from_bundles X agents items agents_involved_desired_items G' rest
  end.

(** The first statements shared by [update_exchange_graph] and
    [update_exchange_graph_E]: the sink edge of the item that lost its
    last unit of slack is removed. *)
Definition drop_sink_edge (X : matrix) (G : graph) (agents : list Agent)
    (path_og : list node) : result graph :=
  let path := path_items path_og in
  last_node ← from_option Ok (Err IndexError) (head (rev path));
  last_item ← node_index last_node;
  slack ← getX X last_item (length agents);
  if Z.eqb slack 0 then remove_edge G (It last_item) Sink else Ok G.

Definition update_exchange_graph (X : matrix) (G : graph)
    (agents : list Agent) (items : list Item) (path_og : list node)
    (agents_involved : list (option nat)) : result graph :=
  G1 ← drop_sink_edge X G agents path_og;
  agents_involved_desired_items ←
    get_multiple_agents_desired_items agents items agents_involved;
  agents_involved_bundles ← get_multiple_agents_bundles X agents_involved;
  edges_from_bundles X agents items agents_involved_desired_items G1
    agents_involved_bundles.

(** ** Gain functions *)

Inductive gain :=
  | NegInf
  | Fin (q : Q)
  | PosInf.

Definition gain_leb (a b : gain) : bool :=
  match a, b with
  | NegInf, _ => true
  | _, PosInf => true
  | Fin x, Fin y => Qle_bool x y
  | _, _ => false
  end.

Definition gain_ltb (a b : gain) : bool := negb (gain_leb b a).

(** [np.argmax]: the first position that holds the maximum. *)
Fixpoint argmax_loop (i : nat) (rest : list gain) (best_i : nat) (best : gain)
    : nat :=
  match rest with
  | [] => best_i
  | g :: rest' =>
      if gain_ltb best g then argmax_loop (S i) rest' i g
      else argmax_loop (S i) rest' best_i best
  end.

Definition argmax (gain_vector : list gain) : result nat :=
  match gain_vector with
  | [] => Err ValueError
  | g :: rest => Ok (argmax_loop 1 rest 0%nat g)
  end.

(** The criteria handled by [get_gain_function]. *)
Inductive criteria :=
  | LorenzDominance
  | WeightedLeximin
  | WeightedNash
  | WeightedHarmonic.

(** *** The naive engine *)

(** The variables of [general_yankee_swap] that live across iterations.
    The elapsed-time series is not modelled. *)
Record state := mkState {
  st_X : matrix;
  st_G : graph;
  players : list nat;
  gain_vector : list gain;
  count : nat;
  agents_involved_arr : list nat;
}.

Inductive step_result (S : Type) :=
  | Next (st : S)
  | Failed (e : exn) (st : S).
Arguments Next {S} st.
Arguments Failed {S} e st.

(** How a run of an algorithm ends: normally, on an exception raised in
    its loop, with the state at that point, on an exception raised before
    the loop, or for lack of fuel. *)
Inductive run_result (S : Type) :=
  | Finished (st : S)
  | Aborted (e : exn) (st : S)
  | Raised (e : exn)
  | OutOfFuel (st : S).
Arguments Finished {S} st.
Arguments Aborted {S} e st.
Arguments Raised {S} e.
Arguments OutOfFuel {S} st.

Section engine.
(** Python's [**] on floats, used by the WeightedNash criterion. *)
Variable float_pow : Q → Q → Q.

Definition get_gain_function (X : matrix) (agents : list Agent)
    (items : list Item) (agent_picked : nat) (crit : criteria)
    (weights : list Q) : result gain :=
  agent ← index agents agent_picked;
  bundle ← get_bundle_from_allocation_matrix X items agent_picked;
  let val := valuation agent bundle in
  match crit with
  | LorenzDominance => Ok (Fin (- val)%Q)
  | WeightedLeximin =>
      w_i ← index weights agent_picked;
      if Qeq_bool w_i 0 then Err ZeroDivisionError
      else Ok (Fin (- val / w_i)%Q)
  | WeightedNash =>
      w_i ← index weights agent_picked;
      if Qeq_bool val 0 then Ok PosInf
      else Ok (Fin (float_pow (1 + 1 / val)%Q w_i))
  | WeightedHarmonic =>
      w_i ← index weights agent_picked;
      if Qeq_bool (val + 1)%Q 0 then Err ZeroDivisionError
      else Ok (Fin (w_i / (val + 1))%Q)
  end.

Variables (agents : list Agent) (items : list Item).
Variables (crit : criteria) (weights : list Q).

(** The state in which the loop starts, once the matrix is there. *)
Definition initial_state : state :=
  {| st_X := initial_matrix items agents;
     st_G := initialize_exchange_graph (length items);
     players := seq 0 (length agents);
     gain_vector := replicate (length agents) (Fin 0);
     count := 0%nat;
     agents_involved_arr := [] |}.

(** The part of an iteration up to [G.remove_node("s")]: the agent
    picked, the path found and the graph without the source. *)
Definition select_and_search (X : matrix) (G : graph) (gains : list gain)
    : result (nat * option (list node) * graph) :=
  agent_picked ← argmax gains;
  G1 ← add_agent_to_exchange_graph X G agents items agent_picked;
  let path := find_shortest_path G1 Src Sink in
  Ok (agent_picked, path, remove_node G1 Src).

(** One pass through the body of the [while] loop.  A failed pass
    reports the state at the exception: its matrix is the array as the
    exception leaves it; its graph is the graph before the call that
    raised. *)
Definition iteration (st : state) : step_result state :=
  let st := {| st_X := st_X st; st_G := st_G st; players := players st;
               gain_vector := gain_vector st; count := S (count st);
               agents_involved_arr := agents_involved_arr st |} in
  match select_and_search (st_X st) (st_G st) (gain_vector st) with
  | Err e => Failed e st
  | Ok (agent_picked, None, G) =>
      if bool_decide (agent_picked ∈ players st) then
        Next {| st_X := st_X st; st_G := G;
                players := list_remove agent_picked (players st);
                gain_vector := <[agent_picked := NegInf]> (gain_vector st);
                count := count st;
                agents_involved_arr := agents_involved_arr st ++ [0%nat] |}
      else Failed ValueError st
  | Ok (agent_picked, Some path, G) =>
      match update_allocation (st_X st) agents items path agent_picked with
      | Raise e X =>
          Failed e {| st_X := X; st_G := G; players := players st;
                     gain_vector := gain_vector st; count := count st;
                     agents_involved_arr := agents_involved_arr st |}
      | Return agents_involved X =>
          match update_exchange_graph X G agents items path agents_involved with
          | Err e =>
              Failed e {| st_X := X; st_G := G; players := players st;
                         gain_vector := gain_vector st; count := count st;
                         agents_involved_arr := agents_involved_arr st |}
          | Ok G' =>
              match get_gain_function X agents items agent_picked crit weights
              with
              | Err e =>
                  Failed e {| st_X := X; st_G := G'; players := players st;
                             gain_vector := gain_vector st; count := count st;
                             agents_involved_arr := agents_involved_arr st |}
              | Ok g =>
                  Next {| st_X := X; st_G := G'; players := players st;
                          gain_vector := <[agent_picked := g]> (gain_vector st);
                          count := count st;
                          agents_involved_arr :=
                            agents_involved_arr st ++ [length agents_involved] |}
              end
          end
      end
  end.

(** [while len(players) > 0], for at most [fuel] iterations. *)
Fixpoint yankee_loop (fuel : nat) (st : state) : run_result state :=
  match players st with
  | [] => Finished st
  | _ :: _ =>
      match fuel with
      | O => OutOfFuel st
      | S fuel' =>
          match iteration st with
          | Next st' => yankee_loop fuel' st'
          | Failed e st' => Aborted e st'
          end
      end
  end.

Definition general_yankee_swap (fuel : nat) : run_result state :=
  match initialize_allocation_matrix items agents with
  | Err e => Raised e
  | Ok X =>
      yankee_loop fuel
        {| st_X := X;
           st_G := initialize_exchange_graph (length items);
           players := seq 0 (length agents);
           gain_vector := replicate (length agents) (Fin 0);
           count := 0%nat;
           agents_involved_arr := [] |}
  end.
End engine.

(** ** The edge-matrix variant *)

(** [E[a][b]] lists the agents responsible for the edge from [a] to [b]. *)
Abbreviation edge_matrix := (list (list (list nat))).

Definition initialize_edge_matrix (N : nat) : edge_matrix :=
  replicate N (replicate N []).

(** [E[a][b]] *)
Definition getE (E : edge_matrix) (a b : nat) : result (list nat) :=
  edge_row ← index E a;
  index edge_row b.

(** [E[a][b] = l], for positions that exist. *)
Definition setE (E : edge_matrix) (a b : nat) (l : list nat) : edge_matrix :=
  match E !! a with
  | Some edge_row => <[a := <[b := l]> edge_row]> E
  | None => E
  end.

(** The [for item_index in range(len(items))] loop of
    [update_allocation_E]: [current_agent] stops being responsible for
    every edge that leaves the item it gave up. *)
Fixpoint release_edges (next_to_last_item current_agent : nat) (G : graph)
    (E : edge_matrix) (item_indexes : list nat) : result (graph * edge_matrix) :=
  match item_indexes with
  | [] => Ok (G, E)
  | item_index :: rest =>
      cell ← getE E next_to_last_item item_index;
      if bool_decide (current_agent ∈ cell) then
        let cell' := list_remove current_agent cell in
        let E' := setE E next_to_last_item item_index cell' in
        G' ← (if bool_decide (length cell' = 0%nat)
                 && has_edge G (It next_to_last_item) (It item_index)
              then remove_edge G (It next_to_last_item) (It item_index)
              else Ok G);
        release_edges next_to_last_item current_agent G' E' rest
      else release_edges next_to_last_item current_agent G E rest
  end.

(** The [while len(path) > 0] loop of [update_allocation_E]. *)
Fixpoint transfer_loop_E (items : list Item) (agent_picked : nat)
    (rpath : list node) (agents_involved : list nat)
    (s : matrix * graph * edge_matrix)
    : outcome (matrix * graph * edge_matrix) (list nat) :=
  let '(X, G, E) := s in
  match rpath with
  | [] => Return agents_involved s
  | last_node :: rest =>
      match rest with
      | next_node :: _ =>
          match (next_to_last_item ← node_index next_node;
                 last_item ← node_index last_node;
                 cell ← getE E next_to_last_item last_item;
                 current_agent ← index cell 0;
                 Ok (next_to_last_item, last_item, current_agent)) with
          | Err e => Raise e s
          | Ok (next_to_last_item, last_item, current_agent) =>
              let agents_involved := agents_involved ++ [current_agent] in
              match setX X last_item current_agent 1 with
              | Err e => Raise e s
              | Ok X1 =>
                  match setX X1 next_to_last_item current_agent 0 with
                  | Err e => Raise e (X1, G, E)
                  | Ok X2 =>
                      match release_edges next_to_last_item current_agent G E
                              (seq 0 (length items)) with
                      | Err e => Raise e (X2, G, E)
                      | Ok (G', E') =>
                          transfer_loop_E items agent_picked rest
                            agents_involved (X2, G', E')
                      end
                  end
              end
          end
      | [] =>
          match (last_item ← node_index last_node;
                 setX X last_item agent_picked 1) with
          | Err e => Raise e s
          | Ok X1 => Return agents_involved (X1, G, E)
          end
      end
  end.

Definition update_allocation_E (X : matrix) (G : graph) (E : edge_matrix)
    (agents : list Agent) (items : list Item) (path_og : list node)
    (agent_picked : nat) : outcome (matrix * graph * edge_matrix) (list nat) :=
  let path := path_items path_og in
  match (last_node ← from_option Ok (Err IndexError) (head (rev path));
         last_item ← node_index last_node;
         slack ← getX X last_item (length agents);
         setX X last_item (length agents) (int64_pred slack)) with
  | Err e => Raise e (X, G, E)
  | Ok X1 => transfer_loop_E items agent_picked (rev path) [agent_picked] (X1, G, E)
  end.

(** [for item2_idx in agent_desired_items] of [update_exchange_graph_E] *)
Fixpoint recheck_desired (agent : Agent) (agent_index : nat)
    (agent_bundle_items : list Item) (items : list Item) (item1_idx : nat)
    (item1 : Item) (G : graph) (E : edge_matrix)
    (agent_desired_items : list nat) : result (graph * edge_matrix) :=
  match agent_desired_items with
  | [] => Ok (G, E)
  | item2_idx :: rest =>
      item2 ← index items item2_idx;
      if decide (item1_idx ≠ item2_idx) then
        cell ← getE E item1_idx item2_idx;
        let willing := exchange_contribution agent agent_bundle_items item1 item2 in
        if bool_decide (agent_index ∈ cell) then
          if negb willing then
            let cell' := list_remove agent_index cell in
            let E' := setE E item1_idx item2_idx cell' in
            G' ← (if bool_decide (length cell' = 0%nat)
                     && has_edge G (It item1_idx) (It item2_idx)
                  then remove_edge G (It item1_idx) (It item2_idx)
                  else Ok G);
            recheck_desired agent agent_index agent_bundle_items items
              item1_idx item1 G' E' rest
          else recheck_desired agent agent_index agent_bundle_items items
                 item1_idx item1 G E rest
        else
          if willing then
            let E' := setE E item1_idx item2_idx (cell ++ [agent_index]) in
            let G' := if negb (has_edge G (It item1_idx) (It item2_idx))
                      then add_edge G (It item1_idx) (It item2_idx) else G in
            recheck_desired agent agent_index agent_bundle_items items
              item1_idx item1 G' E' rest
          else recheck_desired agent agent_index agent_bundle_items items
                 item1_idx item1 G E rest
      else recheck_desired agent agent_index agent_bundle_items items
             item1_idx item1 G E rest
  end.

(** [for item1_idx in agent_bundle] *)
Fixpoint recheck_bundle (agent : Agent) (agent_index : nat)
    (agent_bundle_items : list Item) (items : list Item)
    (agent_desired_items : list nat) (G : graph) (E : edge_matrix)
    (agent_bundle : list nat) : result (graph * edge_matrix) :=
  match agent_bundle with
  | [] => Ok (G, E)
  | item1_idx :: rest =>
      item1 ← index items item1_idx;
      '(G', E') ← recheck_desired agent agent_index agent_bundle_items items
                    item1_idx item1 G E agent_desired_items;
      recheck_bundle agent agent_index agent_bundle_items items
        agent_desired_items G' E' rest
  end.

(** [for agent_index in agents_involved] *)
Fixpoint recheck_agents (X : matrix) (agents : list Agent) (items : list Item)
    (G : graph) (E : edge_matrix) (agents_involved : list nat)
    : result (graph * edge_matrix) :=
  match agents_involved with
  | [] => Ok (G, E)
  | agent_index :: rest =>
      agent ← index agents agent_index;
      agent_bundle ← get_bundle_indexes_from_allocation_matrix X agent_index;
      agent_bundle_items ← get_bundle_from_allocation_matrix X items agent_index;
      let agent_desired_items := get_desired_items_indexes agent items in
      '(G', E') ← recheck_bundle agent agent_index agent_bundle_items items
                    agent_desired_items G E agent_bundle;
      recheck_agents X agents items G' E' rest
  end.

Definition update_exchange_graph_E (X : matrix) (G : graph) (E : edge_matrix)
    (agents : list Agent) (items : list Item) (path_og : list node)
    (agents_involved : list nat) : result (graph * edge_matrix) :=
  G1 ← drop_sink_edge X G agents path_og;
  recheck_agents X agents items G1 E agents_involved.

Section engine_E.
Variable float_pow : Q → Q → Q.
Variables (agents : list Agent) (items : list Item).
Variables (crit : criteria) (weights : list Q).

Record state_E := mkStateE {
  st_base : state;
  st_E : edge_matrix;
}.

Definition initial_state_E : state_E :=
  {| st_base := initial_state agents items;
     st_E := initialize_edge_matrix (length items) |}.

Definition with_count (st : state) (c : nat) : state :=
  {| st_X := st_X st; st_G := st_G st; players := players st;
     gain_vector := gain_vector st; count := c;
     agents_involved_arr := agents_involved_arr st |}.

(** One pass through the body of the [while] loop of
    [general_yankee_swap_E]. *)
Definition iteration_E (stE : state_E) : step_result state_E :=
  let st := with_count (st_base stE) (S (count (st_base stE))) in
  let E := st_E stE in
  match select_and_search agents items (st_X st) (st_G st) (gain_vector st) with
  | Err e => Failed e {| st_base := st; st_E := E |}
  | Ok (agent_picked, None, G) =>
      if bool_decide (agent_picked ∈ players st) then
        Next {| st_base :=
                  {| st_X := st_X st; st_G := G;
                     players := list_remove agent_picked (players st);
                     gain_vector := <[agent_picked := NegInf]> (gain_vector st);
                     count := count st;
                     agents_involved_arr := agents_involved_arr st ++ [0%nat] |};
                st_E := E |}
      else Failed ValueError {| st_base := st; st_E := E |}
  | Ok (agent_picked, Some path, G) =>
      match update_allocation_E (st_X st) G E agents items path agent_picked with
      | Raise e (X, G1, E1) =>
          Failed e {| st_base :=
                       {| st_X := X; st_G := G1; players := players st;
                          gain_vector := gain_vector st; count := count st;
                          agents_involved_arr := agents_involved_arr st |};
                     st_E := E1 |}
      | Return agents_involved (X, G1, E1) =>
          match update_exchange_graph_E X G1 E1 agents items path
                  agents_involved with
          | Err e =>
              Failed e {| st_base :=
                           {| st_X := X; st_G := G1; players := players st;
                              gain_vector := gain_vector st; count := count st;
                              agents_involved_arr := agents_involved_arr st |};
                         st_E := E1 |}
          | Ok (G', E') =>
              match get_gain_function float_pow X agents items agent_picked
                      crit weights with
              | Err e =>
                  Failed e {| st_base :=
                               {| st_X := X; st_G := G'; players := players st;
                                  gain_vector := gain_vector st;
                                  count := count st;
                                  agents_involved_arr := agents_involved_arr st |};
                             st_E := E' |}
              | Ok g =>
                  Next {| st_base :=
                            {| st_X := X; st_G := G'; players := players st;
                               gain_vector :=
                                 <[agent_picked := g]> (gain_vector st);
                               count := count st;
                               agents_involved_arr :=
                                 agents_involved_arr st
                                 ++ [length agents_involved] |};
                          st_E := E' |}
              end
          end
      end
  end.

Fixpoint yankee_loop_E (fuel : nat) (stE : state_E) : run_result state_E :=
  match players (st_base stE) with
  | [] => Finished stE
  | _ :: _ =>
      match fuel with
      | O => OutOfFuel stE
      | S fuel' =>
          match iteration_E stE with
          | Next stE' => yankee_loop_E fuel' stE'
          | Failed e stE' => Aborted e stE'
          end
      end
  end.

Definition general_yankee_swap_E (fuel : nat) : run_result state_E :=
  match initialize_allocation_matrix items agents with
  | Err e => Raised e
  | Ok X =>
      yankee_loop_E fuel
        {| st_base :=
             {| st_X := X;
                st_G := initialize_exchange_graph (length items);
                players := seq 0 (length agents);
                gain_vector := replicate (length agents) (Fin 0);
                count := 0%nat;
                agents_involved_arr := [] |};
           st_E := initialize_edge_matrix (length items) |}
  end.
End engine_E.

(** * Definitions used to state the properties *)

(** ** Envy metrics as counts *)

(** The bundle of agent [j] when its extraction succeeds. *)
Definition bundle_at (X : matrix) (items : list Item) (j : nat) : list Item :=
  match get_bundle_from_allocation_matrix X items j with
  | Ok b => b
  | Err _ => []
  end.

Definition bundles_defined (X : matrix) (items : list Item) (M : nat) : Prop :=
  ∀ j, (j < M)%nat → ∃ b, get_bundle_from_allocation_matrix X items j = Ok b.

(** The test the nested loops apply to the pair of agents [(i, j)]. *)
Definition envy_pair (counts : Agent → Q → list Item → bool) (X : matrix)
    (items : list Item) (agent : Agent) (i j : nat) : bool :=
  bool_decide (i ≠ j)
  && Qltb (valuation agent (bundle_at X items i))
          (valuation agent (bundle_at X items j))
  && counts agent (valuation agent (bundle_at X items i)) (bundle_at X items j).

(** What one run of the inner loop adds to [envy_count]. *)
Definition inner_count (once : bool) (p : nat → bool) (js : list nat) : nat :=
  if once then (if existsb p js then 1 else 0)%nat
  else length (List.filter p js).

Fixpoint outer_count (f : nat → Agent → nat) (i : nat) (rest : list Agent)
    : nat :=
  match rest with
  | [] => 0
  | a :: rest' => f i a + outer_count f (S i) rest'
  end.

Definition pure_metric (counts : Agent → Q → list Item → bool) (once : bool)
    (X : matrix) (agents : list Agent) (items : list Item) : nat :=
  outer_count
    (λ i a, inner_count once (envy_pair counts X items a i)
              (seq 0 (length agents)))
    0 agents.

(** Comparison of two metric results: both are numbers in the stated
    order, or both calls raise. *)
Definition result_le (r1 r2 : result nat) : Prop :=
  match r1, r2 with
  | Ok a, Ok b => (a ≤ b)%nat
  | Err _, Err _ => True
  | _, _ => False
  end.

Definition result_at_most (r : result nat) (n : nat) : Prop :=
  match r with
  | Ok a => (a ≤ n)%nat
  | Err _ => True
  end.

#[export] Instance Qlt_decision (x y : Q) : Decision (x < y)%Q.
Proof.
  refine (match Qlt_le_dec x y with left H => left H | right H => right _ end).
  by apply Qle_not_lt.
Defined.

#[export] Instance Qle_decision (x y : Q) : Decision (x <= y)%Q.
Proof.
  refine (match Qlt_le_dec y x with left H => right _ | right H => left H end).
  by apply Qlt_not_le.
Defined.

#[export] Instance forall_below_decision (P : nat → Prop)
    `{∀ k, Decision (P k)} (n : nat) : Decision (∀ k, (k < n)%nat → P k).
Proof.
  refine (cast_if (decide (Forall P (seq 0 n)))).
  - intros k Hk. eapply Forall_forall; [done|]. apply elem_of_seq. lia.
  - intros HP. apply n0, Forall_forall. intros k Hk%elem_of_seq. apply HP. lia.
Defined.

#[export] Instance exists_below_decision (P : nat → Prop)
    `{∀ k, Decision (P k)} (n : nat) : Decision (∃ k, (k < n)%nat ∧ P k).
Proof.
  refine (cast_if (decide (Exists P (seq 0 n)))).
  - apply Exists_exists in e as (k & Hk%elem_of_seq & HP).
    exists k. split; [lia|done].
  - intros (k & Hk & HP). apply n0, Exists_exists. exists k. split; [|done].
    apply elem_of_seq. lia.
Defined.

(** The wording of the specification for the EF-1 metrics. *)

(** The agent values [other] strictly above its [own] bundle. *)
Definition envies (agent : Agent) (own other : list Item) : Prop :=
  (valuation agent own < valuation agent other)%Q.

(** Dropping the item at position [k] of [other] brings its value down to
    the value of [own] or below. *)
Definition removal_cures (agent : Agent) (own other : list Item) (k : nat)
    : Prop :=
  (valuation agent (delete k other) <= valuation agent own)%Q.

(** EF-1 is violated: there is envy and no single removal cures it. *)
Definition EF1_violated (agent : Agent) (own other : list Item) : Prop :=
  envies agent own other
  ∧ ∀ k, (k < length other)%nat → ¬ removal_cures agent own other k.

#[export] Instance EF1_violated_decision agent own other :
  Decision (EF1_violated agent own other).
Proof. unfold EF1_violated, envies, removal_cures. apply _. Defined.

(** The ordered pair [(i, j)], [i ≠ j], over the bundles [B]. *)
Definition EF1_pair (agents : list Agent) (B : nat → list Item) (i j : nat)
    : Prop :=
  i ≠ j ∧ ∃ agent, agents !! i = Some agent ∧ EF1_violated agent (B i) (B j).

#[export] Instance EF1_pair_decision agents B i j :
  Decision (EF1_pair agents B i j).
Proof.
  unfold EF1_pair. destruct (agents !! i) as [a|].
  - refine (cast_if (decide (i ≠ j ∧ EF1_violated a (B i) (B j)))).
    + destruct a0; eauto.
    + intros [? (a' & [= <-] & ?)]. by apply n.
  - right. by intros [? (a' & [=] & ?)].
Defined.

Definition ordered_pairs (M : nat) : list (nat * nat) :=
  i ← seq 0 M; (λ j, (i, j)) <$> seq 0 M.

(** The number of ordered pairs of agents that satisfy [P]. *)
Definition count_pairs (P : nat → nat → Prop) `{∀ i j, Decision (P i j)}
    (M : nat) : nat :=
  length (filter (λ p, P p.1 p.2) (ordered_pairs M)).

(** The number of agents [i] for which some [j] satisfies [P i j]. *)
Definition count_agents (P : nat → nat → Prop) `{∀ i j, Decision (P i j)}
    (M : nat) : nat :=
  length (filter (λ i, ∃ j, (j < M)%nat ∧ P i j) (seq 0 M)).

(** ** Row sums and clean transfers *)

Definition row_sum (row : list Z) : Z := foldr Z.add 0 row.

(** The sum of row [i], [0] for a row that does not exist. *)
Definition rsum (X : matrix) (i : nat) : Z := from_option row_sum 0 (X !! i).

(** The slack of a row of an [N x (M+1)] matrix. *)
Definition row_slack (M : nat) (row : list Z) : Z := default 0 (row !! M).

Definition total_slack (M : nat) (X : matrix) : Z :=
  row_sum (row_slack M <$> X).

(** Along the chain, every owner that [find_agent] returns holds the item
    it gives up and does not hold the item it receives, at the time it is
    found.  [rpath] lists the items of the path, last one first. *)
Fixpoint clean_chain (agents : list Agent) (items : list Item)
    (rpath : list nat) (X : matrix) : Prop :=
  match rpath with
  | last_item :: ((next_to_last_item :: _) as rest) =>
      ∃ c X1 X2,
        find_agent X agents items next_to_last_item last_item = Ok (Some c)
        ∧ getX X next_to_last_item c = Ok 1
        ∧ getX X last_item c = Ok 0
        ∧ setX X last_item c 1 = Ok X1
        ∧ setX X1 next_to_last_item c 0 = Ok X2
        ∧ clean_chain agents items rest X2
  | _ => True
  end.

(** The same for a whole call of [update_allocation] on the path
    [s, i1, ..., ik, t], whose items are [path]. *)
Definition owners_clean (X : matrix) (agents : list Agent) (items : list Item)
    (path : list nat) : Prop :=
  ∃ ik slack X1,
    head (rev path) = Some ik
    ∧ getX X ik (length agents) = Ok slack
    ∧ setX X ik (length agents) (int64_pred slack) = Ok X1
    ∧ clean_chain agents items (rev path) X1.

(** Inversion of a successful sequence of binds. *)
Ltac inv_bind H :=
  repeat match type of H with
  | mbind _ ?m = Ok _ =>
      let E := fresh "E" in destruct m eqn:E; simpl in H; [|discriminate H]
  end.

(** ** Paths and edges of the exchange graph *)

(** Consecutive nodes of [p] are joined by edges of [G]. *)
Fixpoint path_in (G : graph) (p : list node) : Prop :=
  match p with
  | u :: ((v :: _) as rest) => (u, v) ∈ G ∧ path_in G rest
  | _ => True
  end.

(** The same for a path stored last node first. *)
Fixpoint rpath_in (G : graph) (q : list node) : Prop :=
  match q with
  | v :: ((u :: _) as rest) => (u, v) ∈ G ∧ rpath_in G rest
  | _ => True
  end.

(** A path of [G] from [start] to [target] that visits no node twice. *)
Definition simple_path (G : graph) (start target : node) (p : list node)
    : Prop :=
  head p = Some start ∧ head (rev p) = Some target ∧ path_in G p ∧ NoDup p.

(** An edge of the exchange graph proper: from an item to an item or to
    the sink. *)
Definition item_edge (e : node * node) : Prop :=
  ∃ a, e.1 = It a ∧ (e.2 = Sink ∨ ∃ b, e.2 = It b).

Definition graph_wf (G : graph) : Prop := ∀ e, e ∈ G → item_edge e.

(** [G'] comes from [G] by adding and removing edges between items. *)
Definition item_edges_changed (G G' : graph) : Prop :=
  (∀ e, e ∈ G' → e ∈ G ∨ ∃ a b, e = (It a, It b))
  ∧ (∀ u, (u, Sink) ∈ G → (u, Sink) ∈ G').

(** The invariant of the entries of the search queue. *)
Definition entry_ok (G : graph) (start : node) (visited : list node)
    (q : list node) : Prop :=
  head (rev q) = Some start ∧ rpath_in G q ∧ NoDup q ∧ ∀ x, x ∈ q → x ∈ visited.

(** ** The SELECT step *)

(** The gain vector marks exactly the agents that left [players]. *)
Record gains_inv (M : nat) (st : state) : Prop := {
  gains_length : length (gain_vector st) = M;
  players_nodup : NoDup (players st);
  players_active :
    ∀ j, j ∈ players st ↔ ∃ g, gain_vector st !! j = Some g ∧ g ≠ NegInf;
}.

(** ** Invariants of the engine *)

Definition total_capacity (items : list Item) : Z :=
  row_sum (capacity <$> items).

(** The shape of the matrix and of the graph in every state of a run,
    whatever the agents answer. *)
Record shape_inv (agents : list Agent) (items : list Item) (st : state)
    : Prop := {
  inv_rows : length (st_X st) = length items;
  inv_cols : ∀ i row, st_X st !! i = Some row → length row = S (length agents);
  inv_graph : graph_wf (st_G st);
  inv_binary :
    ∀ i j v, (j < length agents)%nat → getX (st_X st) i j = Ok v →
             v = 0 ∨ v = 1;
}.

(** The slack column in every state of a run over items of positive
    capacity: an item keeps its edge to the sink only while it has slack,
    and the iterations made so far are paid for by the slack used and the
    players removed. *)
Record slack_inv (agents : list Agent) (items : list Item) (st : state)
    : Prop := {
  inv_slack_nonneg :
    ∀ i s, getX (st_X st) i (length agents) = Ok s → 0 ≤ s;
  inv_sink :
    ∀ i, (It i, Sink) ∈ st_G st →
         ∃ s, getX (st_X st) i (length agents) = Ok s ∧ 0 < s;
  inv_measure :
    Z.of_nat (count st) + total_slack (length agents) (st_X st)
    + Z.of_nat (length (players st))
    = total_capacity items + Z.of_nat (length agents);
}.

(** ** Reachable states *)

(** The states that the loop of [general_yankee_swap] goes through. *)
Inductive reachable (float_pow : Q → Q → Q) (agents : list Agent)
    (items : list Item) (crit : criteria) (weights : list Q) : state → Prop :=
  | reachable_initial :
      reachable float_pow agents items crit weights (initial_state agents items)
  | reachable_next st st' :
      reachable float_pow agents items crit weights st →
      players st ≠ [] →
      iteration float_pow agents items crit weights st = Next st' →
      reachable float_pow agents items crit weights st'.

(** The bound of the termination claim: total capacity plus the number
    of agents. *)
Definition iteration_bound (agents : list Agent) (items : list Item) : nat :=
  (Z.to_nat (total_capacity items) + length agents)%nat.

(** ** The row-sum invariant *)

(** The invariant of the allocation matrix: row [i] has one entry per
    agent and the slack entry, and they add up to the capacity of item
    [i]. *)
Definition row_sum_invariant (X : matrix) (items : list Item) (M : nat)
    : Prop :=
  length X = length items
  ∧ ∀ i item, items !! i = Some item →
      ∃ row, X !! i = Some row ∧ length row = S M
             ∧ row_sum row = capacity item.

(** ** The two engines side by side *)

(** At every intermediate swap of the chain, the first agent stored in
    [E[a][b]] is the owner that [find_agent] returns. *)
Fixpoint owners_agree (agents : list Agent) (items : list Item)
    (rpath : list node) (X : matrix) (G : graph) (E : edge_matrix) : Prop :=
  match rpath with
  | last_node :: ((next_node :: _) as rest) =>
      ∀ next_to_last_item last_item cell c,
        node_index next_node = Ok next_to_last_item →
        node_index last_node = Ok last_item →
        getE E next_to_last_item last_item = Ok cell →
        index cell 0 = Ok c →
        find_agent X agents items next_to_last_item last_item = Ok (Some c)
        ∧ ∀ X1 X2 G' E',
            setX X last_item c 1 = Ok X1 →
            setX X1 next_to_last_item c 0 = Ok X2 →
            release_edges next_to_last_item c G E (seq 0 (length items))
            = Ok (G', E') →
            owners_agree agents items rest X2 G' E'
  | _ => True
  end.

(** The same for a whole transfer along [path_og]. *)
Definition transfer_agrees (X : matrix) (G : graph) (E : edge_matrix)
    (agents : list Agent) (items : list Item) (path_og : list node) : Prop :=
  ∀ last_item slack X1,
    head (rev (path_items path_og)) = Some (It last_item) →
    getX X last_item (length agents) = Ok slack →
    setX X last_item (length agents) (int64_pred slack) = Ok X1 →
    owners_agree agents items (rev (path_items path_og)) X1 G E.

(** In the states [st] and [stE] the two engines find the same path, and
    the transfer along it agrees. *)
Definition same_step (agents : list Agent) (items : list Item) (st : state)
    (stE : state_E) : Prop :=
  ∀ picked p G' pickedE pE GE',
    select_and_search agents items (st_X st) (st_G st) (gain_vector st)
    = Ok (picked, p, G') →
    select_and_search agents items (st_X (st_base stE)) (st_G (st_base stE))
      (gain_vector (st_base stE))
    = Ok (pickedE, pE, GE') →
    p = pE
    ∧ ∀ path, p = Some path →
        transfer_agrees (st_X st) GE' (st_E stE) agents items path.

(** Pairs of states that the two engines reach through iterations in
    which they find the same path and pick the same owners. *)
Inductive lockstep (float_pow : Q → Q → Q) (agents : list Agent)
    (items : list Item) (crit : criteria) (weights : list Q)
    : state → state_E → Prop :=
  | lockstep_initial :
      lockstep float_pow agents items crit weights
        (initial_state agents items) (initial_state_E agents items)
  | lockstep_next st stE st' stE' :
      lockstep float_pow agents items crit weights st stE →
      same_step agents items st stE →
      iteration float_pow agents items crit weights st = Next st' →
      iteration_E float_pow agents items crit weights stE = Next stE' →
      lockstep float_pow agents items crit weights st' stE'.

(** The variables that the two engines share have the same values. *)
Definition same_allocation (st : state) (stE : state_E) : Prop :=
  st_X st = st_X (st_base stE)
  ∧ players st = players (st_base stE)
  ∧ gain_vector st = gain_vector (st_base stE)
  ∧ count st = count (st_base stE)
  ∧ agents_involved_arr st = agents_involved_arr (st_base stE).

(** ** Worked instances *)

(** An agent given by a valuation [v] and its list of desired items: the
    marginal contribution of an item is the difference it makes, and the
    agent exchanges an item for one it does not hold when its value does
    not drop. *)
Definition holds (h : Z) (bundle : list Item) : bool :=
  existsb (λ g, Z.eqb (item_hash g) h) bundle.

Definition unit_if (b : bool) : Q := if b then 1 else 0.

Definition valuation_agent (v : list Item → Q) (desired : list nat) : Agent :=
  {| valuation := v;
     marginal_contribution := λ bundle g, (v (bundle ++ [g]) - v bundle)%Q;
     exchange_contribution := λ bundle g h,
       negb (item_in h bundle)
       && Qle_bool (v bundle)
            (v (filter (λ x, item_eqb x g = false) bundle ++ [h]));
     get_desired_items_indexes := λ _, desired |}.

(** The exponentiation is irrelevant under LorenzDominance. *)
Definition no_pow (a b : Q) : Q := 1%Q.

(** The matrix a run returns. *)
Definition final_matrix (r : run_result state) : option matrix :=
  match r with
  | Finished st => Some (st_X st)
  | _ => None
  end.

Definition final_matrix_E (r : run_result state_E) : option matrix :=
  match r with
  | Finished stE => Some (st_X (st_base stE))
  | _ => None
  end.

(** *** Two owners stored in the other order

    Item 0 has two units, items 1, 2 and 3 one each.  Agent 0 values
    items 0 and 1 only together with item 2; agent 1 values item 0 at 1
    and item 1 at 3; agent 2 values item 0 only together with item 3.
    In every iteration the shortest path is unique. *)
Definition order_items : list Item :=
  [mkItem 0 2; mkItem 1 1; mkItem 2 1; mkItem 3 1].

Definition order_v0 (b : list Item) : Q :=
  if holds 2 b then (1 + unit_if (holds 0 b) + 2 * unit_if (holds 1 b))%Q
  else 0%Q.

Definition order_v1 (b : list Item) : Q :=
  (unit_if (holds 0 b) + 3 * unit_if (holds 1 b))%Q.

Definition order_v2 (b : list Item) : Q :=
  if holds 3 b then (1 + unit_if (holds 0 b))%Q else 0%Q.

Definition order_agents : list Agent :=
  [valuation_agent order_v0 [0; 1; 2]%nat;
   valuation_agent order_v1 [0; 1]%nat;
   valuation_agent order_v2 [0; 3]%nat].

(** The matrix of that run after five iterations. *)
Definition order_X5 : matrix :=
  [[1; 1; 0; 0]; [0; 0; 0; 1]; [1; 0; 0; 0]; [0; 0; 1; 0]].

(** The state of the run on [order_agents] after five iterations. *)
Definition order_state5 : state :=
  Eval vm_compute in
    match general_yankee_swap no_pow order_agents order_items
            LorenzDominance [] 5 with
    | OutOfFuel st => st
    | _ => initial_state order_agents order_items
    end.

(** *** An owner that changes its mind in the middle of a chain

    Five items of one unit.  Agent 0 holds items 0 and 2 when agent 2
    asks for item 0; giving up item 2 for item 3 makes agent 0 unwilling
    to give up item 0 for item 1, which it values at nothing together
    with item 3. *)
Definition stuck_items : list Item :=
  [mkItem 0 1; mkItem 1 1; mkItem 2 1; mkItem 3 1; mkItem 4 1].

Definition stuck_v0 (b : list Item) : Q :=
  if holds 1 b && holds 3 b then 0%Q
  else if holds 2 b && holds 3 b then 0%Q
  else if holds 0 b && holds 3 b then 3%Q
  else if holds 0 b && holds 2 b then 2%Q
  else if holds 1 b && holds 2 b then 2%Q
  else if holds 0 b then 1%Q
  else 0%Q.

Definition stuck_v1 (b : list Item) : Q :=
  if holds 1 b && holds 2 b then 5%Q
  else if holds 2 b then 2%Q
  else if holds 1 b then 1%Q
  else 0%Q.

Definition stuck_v2 (b : list Item) : Q :=
  (unit_if (holds 4 b) + unit_if (holds 0 b))%Q.

Definition stuck_agents : list Agent :=
  [valuation_agent stuck_v0 [0; 1; 2; 3]%nat;
   valuation_agent stuck_v1 [1; 2]%nat;
   valuation_agent stuck_v2 [0; 4]%nat].

(** The matrix of that run after five iterations, the path of the sixth
    and the matrix the sixth leaves behind. *)
Definition stuck_X5 : matrix :=
  [[1; 0; 0; 0]; [0; 1; 0; 0]; [1; 0; 0; 0]; [0; 0; 0; 1]; [0; 0; 1; 0]].

Definition stuck_path : list node := [Src; It 0; It 1; It 2; It 3; Sink].

Definition stuck_X6 : matrix :=
  [[0; 0; 1; 0]; [1; 1; 1; 1]; [0; 1; 0; 0]; [1; 0; 0; 0]; [0; 0; 1; 0]].

(** *** One agent, one item *)
Definition single_agent : Agent :=
  valuation_agent (λ b, unit_if (holds 0 b)) [0%nat].

(** *** An owner that takes an item it already holds

    Item 1 has two units, items 0 and 2 one each.  Agent 0 answers every
    exchange query with yes; it wants item 1 first and item 0 with it.
    Agent 1 wants item 2 first and item 0 with it.  In every iteration
    the shortest path is unique. *)
Definition eager_agent (v : list Item → Q) (desired : list nat) : Agent :=
  {| valuation := v;
     marginal_contribution := λ bundle g, (v (bundle ++ [g]) - v bundle)%Q;
     exchange_contribution := λ _ _ _, true;
     get_desired_items_indexes := λ _, desired |}.

Definition eager_items : list Item := [mkItem 0 1; mkItem 1 2; mkItem 2 1].

Definition eager_v0 (b : list Item) : Q :=
  if holds 1 b then (1 + unit_if (holds 0 b))%Q else 0%Q.

Definition eager_v1 (b : list Item) : Q :=
  if holds 2 b then (1 + unit_if (holds 0 b))%Q else 0%Q.

Definition eager_agents : list Agent :=
  [eager_agent eager_v0 [0; 1]%nat; valuation_agent eager_v1 [2; 0]%nat].

(** *** Envy that one removal cures and another does not *)
Definition envy_v0 (b : list Item) : Q := if holds 0 b then 2%Q else 0%Q.

Definition envy_agents : list Agent :=
  [valuation_agent envy_v0 [0; 1]%nat; valuation_agent (λ _, 0%Q) []].

Definition envy_items : list Item := [mkItem 0 1; mkItem 1 1].

Definition envy_X : matrix := [[0; 1; 0]; [0; 1; 0]].

Definition envy_bundles (j : nat) : list Item :=
  match j with
  | 1%nat => envy_items
  | _ => []
  end.

(** The two engines after the first iteration on these agents. *)
Definition order_state1 : state :=
  {| st_X := [[0; 0; 0; 2]; [0; 0; 0; 1]; [1; 0; 0; 0]; [0; 0; 0; 1]];
     st_G := [(It 0, Sink); (It 1, Sink); (It 3, Sink)];
     players := [0; 1; 2]%nat;
     gain_vector := [Fin (-1); Fin 0; Fin 0];
     count := 1;
     agents_involved_arr := [1%nat] |}.

Definition order_state1_E : state_E :=
  {| st_base := order_state1;
     st_E := initialize_edge_matrix 4 |}.

(** ** Envy and EF-X violations *)

(** *** Envy and EF-X violations between two agents *)

(** The ordered pair [(i, j)], [i ≠ j], stands in the relation [V] that
    agent [i] sees between its own bundle and the bundle of [j]. *)
Definition violation_pair (V : Agent → list Item → list Item → Prop)
    (agents : list Agent) (B : nat → list Item) (i j : nat) : Prop :=
  i ≠ j ∧ ∃ agent, agents !! i = Some agent ∧ V agent (B i) (B j).

#[export] Instance violation_pair_decision V
    `{∀ a own other, Decision (V a own other)} agents B i j :
  Decision (violation_pair V agents B i j).
Proof.
  unfold violation_pair. destruct (agents !! i) as [a|].
  - refine (cast_if (decide (i ≠ j ∧ V a (B i) (B j)))).
    + destruct a0; eauto.
    + intros [? (a' & [= <-] & ?)]. by apply n.
  - right. by intros [? (a' & [=] & ?)].
Defined.

#[export] Instance envies_decision agent own other :
  Decision (envies agent own other).
Proof. unfold envies. apply _. Defined.

(** The envy survives the removal of the item at position [k]. *)
Definition removal_keeps_envy (agent : Agent) (own other : list Item)
    (k : nat) : Prop :=
  (valuation agent own < valuation agent (delete k other))%Q.

(** What [EF_X_count] counts: there is envy, and some single removal
    leaves it in place. *)
Definition EFX_violated (agent : Agent) (own other : list Item) : Prop :=
  envies agent own other
  ∧ ∃ k, (k < length other)%nat ∧ removal_keeps_envy agent own other k.

#[export] Instance EFX_violated_decision agent own other :
  Decision (EFX_violated agent own other).
Proof. unfold EFX_violated, removal_keeps_envy. apply _. Defined.

(** The allocation with bundles [B] is envy-free: no agent values
    another agent's bundle strictly above its own. *)
Definition envy_free (agents : list Agent) (B : nat → list Item) : Prop :=
  ∀ i j agent, agents !! i = Some agent → (j < length agents)%nat →
    (valuation agent (B j) <= valuation agent (B i))%Q.

(** ** Owners, bundles and willing agents *)

(** *** Reading owners and bundles *)

(** [[items[i] for i in indexes]] *)
Fixpoint items_at (items : list Item) (indexes : list nat)
    : result (list Item) :=
  match indexes with
  | [] => Ok []
  | i :: rest =>
      g ← index items i;
      b ← items_at items rest;
      Ok (g :: b)
  end.

(** Agent [c] would give up item [a] for item [b], going by its bundle in
    [X]: the test [find_agent] applies to an owner. *)
Definition willing (X : matrix) (agents : list Agent) (items : list Item)
    (c a b : nat) : Prop :=
  ∃ agent bundle g h,
    agents !! c = Some agent
    ∧ get_bundle_from_allocation_matrix X items c = Ok bundle
    ∧ items !! a = Some g ∧ items !! b = Some h
    ∧ exchange_contribution agent bundle g h = true.

(** Column [c] of row [a] holds a non-zero entry. *)
Definition nonzero_at (X : matrix) (a c : nat) : Prop :=
  ∃ v, getX X a c = Ok v ∧ v ≠ 0.

(** ** Walks and recomputed edges *)

(** *** Walks and the invariant of the search *)

(** [walk G start n v]: the graph has a path of [n] nodes from [start]
    to [v]. *)
Inductive walk (G : graph) (start : node) : nat → node → Prop :=
  | walk_start : walk G start 1 start
  | walk_step n u v :
      walk G start n u → (u, v) ∈ G → walk G start (S n) v.

(** The queue of the search holds, in the order of their lengths, paths
    of at most two consecutive lengths; each is a shortest path to its
    last node; a visited node whose path has left the queue has all its
    successors visited. *)
Definition bfs_inv (G : graph) (start : node) (visited : list node)
    (queue : list (list node)) : Prop :=
  start ∈ visited
  ∧ (∀ q, q ∈ queue →
       ∃ u p, q = u :: p ∧ u ∈ visited
              ∧ ∀ n, walk G start n u → (length q ≤ n)%nat)
  ∧ (∀ v, v ∈ visited →
       (∃ p, v :: p ∈ queue) ∨ ∀ w, (v, w) ∈ G → w ∈ visited)
  ∧ StronglySorted (λ q1 q2, (length q1 ≤ length q2)%nat) queue
  ∧ (∀ q0 q, head queue = Some q0 → q ∈ queue →
             (length q ≤ S (length q0))%nat).

(** *** What [update_exchange_graph] recomputes *)

(** Some agent that holds a unit of item [a] would give it up for [b]. *)
Definition has_willing_owner (X : matrix) (agents : list Agent)
    (items : list Item) (a b : nat) : Prop :=
  ∃ c, c ≠ length agents ∧ nonzero_at X a c ∧ willing X agents items c a b.

(** Item [a] is held by an agent of the list [agents_involved]. *)
Definition involved_holds (X : matrix) (agents_involved : list (option nat))
    (a : nat) : Prop :=
  ∃ j, Some j ∈ agents_involved ∧ getX X a j = Ok 1.

(** Item [b] is desired by an agent of the list [wanted_by]. *)
Definition desired_by (agents : list Agent) (items : list Item)
    (wanted_by : list (option nat)) (b : nat) : Prop :=
  ∃ j agent, Some j ∈ wanted_by ∧ agents !! j = Some agent
             ∧ b ∈ get_desired_items_indexes agent items.

(** Item [b] is desired by an agent that holds a unit of item [a]. *)
Definition owner_desires (X : matrix) (agents : list Agent)
    (items : list Item) (a b : nat) : Prop :=
  ∃ c agent, c ≠ length agents ∧ nonzero_at X a c
             ∧ agents !! c = Some agent
             ∧ b ∈ get_desired_items_indexes agent items.

(** The pairs of items whose edge [update_exchange_graph] sets anew. *)
Definition recomputed (X : matrix) (agents : list Agent) (items : list Item)
    (agents_involved : list (option nat)) (a b : nat) : Prop :=
  a ≠ b ∧ involved_holds X agents_involved a
  ∧ (desired_by agents items agents_involved b
     ∨ owner_desires X agents items a b).

(** ** Bounds on the matrix in reachable states *)

(** *** Bounds on the entries of the matrix *)

(** Every item has its row, whose slack lies between 0 and the capacity
    of the item. *)
Definition slack_bounded (X : matrix) (items : list Item) (M : nat) : Prop :=
  ∀ i item, items !! i = Some item →
    ∃ s, getX X i M = Ok s ∧ 0 ≤ s ≤ capacity item.

(** An item keeps its edge to the sink exactly while it has slack. *)
Definition sink_tracks_slack (X : matrix) (G : graph) (M : nat) : Prop :=
  ∀ i, (It i, Sink) ∈ G ↔ ∃ s, getX X i M = Ok s ∧ 0 < s.

(** The state in which the run on [order_agents] ends. *)
Definition order_final : state :=
  Eval vm_compute in
    match general_yankee_swap no_pow order_agents order_items
            LorenzDominance [] 8 with
    | Finished st => st
    | Aborted _ st => st
    | OutOfFuel st => st
    | Raised _ => initial_state order_agents order_items
    end.

(** ** The greedy allocation algorithms *)

(** [X[item, column] -= 1] *)
Definition decrement (X : matrix) (item column : nat) : result matrix :=
  slack ← getX X item column;
  setX X item column (int64_pred slack).

(** *** [SPIRE_algorithm] *)

(** The loop of [SPIRE_algorithm] over the desired items of one agent;
    [bundle] is the list the loop builds for that agent. *)
Fixpoint spire_items (agent : Agent) (agent_index : nat) (M : nat)
    (items : list Item) (desired_items : list nat) (bundle : list Item)
    (X : matrix) : result matrix :=
  match desired_items with
  | [] => Ok X
  | item :: rest =>
      slack ← getX X item M;
      if 0 <? slack then
        let current_val := valuation agent bundle in
        g ← index items item;
        let new_bundle := bundle ++ [g] in
        let new_valuation := valuation agent new_bundle in
        if Qltb current_val new_valuation then
          X1 ← setX X item agent_index 1;
          X2 ← decrement X1 item M;
          spire_items agent agent_index M items rest new_bundle X2
        else spire_items agent agent_index M items rest bundle X
      else spire_items agent agent_index M items rest bundle X
  end.

(** [for agent_index, agent in enumerate(agents)], from [agent_index] on. *)
Fixpoint spire_agents (M : nat) (items : list Item) (agent_index : nat)
    (rest : list Agent) (X : matrix) : result matrix :=
  match rest with
  | [] => Ok X
  | agent :: rest' =>
      X' ← spire_items agent agent_index M items
             (get_desired_items_indexes agent items) [] X;
      spire_agents M items (S agent_index) rest' X'
  end.

Definition SPIRE_algorithm (agents : list Agent) (items : list Item)
    : result matrix :=
  X ← initialize_allocation_matrix items agents;
  spire_agents (length agents) items 0 agents X.

(** *** [round_robin] and [round_robin_weights] *)

(** The loop over the desired items that the two round-robin functions
    share: the item kept in [current_item] is the first one of largest
    marginal contribution, above 0, among those with a positive entry in
    [column].  [round_robin] reads the slack column [len(agents)] there,
    [round_robin_weights] reads column [0]. *)
Fixpoint best_item (agent : Agent) (items : list Item) (column : nat)
    (bundle : list Item) (X : matrix) (desired_items : list nat)
    (current_item : option nat) (val : Q) : result (option nat) :=
  match desired_items with
  | [] => Ok current_item
  | item :: rest =>
      slack ← getX X item column;
      if 0 <? slack then
        g ← index items item;
        let current_val := marginal_contribution agent bundle g in
        if Qltb val current_val
        then best_item agent items column bundle X rest (Some item) current_val
        else best_item agent items column bundle X rest current_item val
      else best_item agent items column bundle X rest current_item val
  end.

(** [players.remove(player)] *)
Definition remove_player (player : nat) (players : list nat)
    : result (list nat) :=
  if bool_decide (player ∈ players) then Ok (list_remove player players)
  else Err ValueError.

(** The body of [for player in players] in [round_robin]. *)
Definition round_robin_turn (agents : list Agent) (items : list Item)
    (player : nat) (players : list nat) (X : matrix)
    : result (list nat * matrix) :=
  agent ← index agents player;
  let desired_items := get_desired_items_indexes agent items in
  bundle ← get_bundle_from_allocation_matrix X items player;
  current_item ← best_item agent items (length agents) bundle X
                   desired_items None 0%Q;
  match current_item with
  | Some item =>
      X1 ← setX X item player 1;
      X2 ← decrement X1 item (length agents);
      Ok (players, X2)
  | None =>
      players' ← remove_player player players;
      Ok (players', X)
  end.

(** [for player in players]: the iterator of a Python list keeps the
    position [i] of the next element, also when the body removes an
    element from the list.  The pass takes at most [n] turns. *)
Fixpoint round_robin_for (agents : list Agent) (items : list Item)
    (n : nat) (i : nat) (players : list nat) (X : matrix)
    : run_result (list nat * matrix) :=
  match players !! i with
  | None => Finished (players, X)
  | Some player =>
      match n with
      | O => OutOfFuel (players, X)
      | S n' =>
          match round_robin_turn agents items player players X with
          | Err e => Aborted e (players, X)
          | Ok (players', X') =>
              round_robin_for agents items n' (S i) players' X'
          end
      end
  end.

(** [while len(players) > 0], for at most [fuel] passes. *)
Fixpoint round_robin_while (agents : list Agent) (items : list Item)
    (fuel : nat) (players : list nat) (X : matrix)
    : run_result (list nat * matrix) :=
  match players with
  | [] => Finished (players, X)
  | _ :: _ =>
      match fuel with
      | O => OutOfFuel (players, X)
      | S fuel' =>
          match round_robin_for agents items (length players) 0 players X with
          | Finished (players', X') =>
              round_robin_while agents items fuel' players' X'
          | other => other
          end
      end
  end.

Definition round_robin (agents : list Agent) (items : list Item)
    (fuel : nat) : run_result (list nat * matrix) :=
  match initialize_allocation_matrix items agents with
  | Err e => Raised e
  | Ok X => round_robin_while agents items fuel (seq 0 (length agents)) X
  end.

(** [weights_aux.pop(0)] *)
Definition pop_first (weights_aux : list Q) : result (list Q) :=
  match weights_aux with
  | [] => Err IndexError
  | _ :: rest => Ok rest
  end.

(** The body of [for player in players] in [round_robin_weights]. *)
Definition round_robin_weights_turn (agents : list Agent) (items : list Item)
    (weights : list Q) (weight : Q) (player : nat)
    (st : list nat * list Q * matrix) : result (list nat * list Q * matrix) :=
  let '(players, weights_aux, X) := st in
  w ← index weights player;
  if Qeq_bool w weight then
    agent ← index agents player;
    let desired_items := get_desired_items_indexes agent items in
    bundle ← get_bundle_from_allocation_matrix X items player;
    current_item ← best_item agent items 0 bundle X desired_items None 0%Q;
    match current_item with
    | Some item =>
        X1 ← setX X item player 1;
        X2 ← decrement X1 item 0;
        Ok (players, weights_aux, X2)
    | None =>
        players' ← remove_player player players;
        weights_aux' ← pop_first weights_aux;
        Ok (players', weights_aux', X)
    end
  else Ok st.

Fixpoint round_robin_weights_for (agents : list Agent) (items : list Item)
    (weights : list Q) (weight : Q) (n : nat) (i : nat)
    (st : list nat * list Q * matrix)
    : run_result (list nat * list Q * matrix) :=
  match st.1.1 !! i with
  | None => Finished st
  | Some player =>
      match n with
      | O => OutOfFuel st
      | S n' =>
          match round_robin_weights_turn agents items weights weight player st
          with
          | Err e => Aborted e st
          | Ok st' =>
              round_robin_weights_for agents items weights weight n' (S i) st'
          end
      end
  end.

Fixpoint round_robin_weights_while (agents : list Agent) (items : list Item)
    (weights : list Q) (fuel : nat) (st : list nat * list Q * matrix)
    : run_result (list nat * list Q * matrix) :=
  match st.1.1 with
  | [] => Finished st
  | _ :: _ =>
      match fuel with
      | O => OutOfFuel st
      | S fuel' =>
          match index st.1.2 0 with
          | Err e => Aborted e st
          | Ok weight =>
              match round_robin_weights_for agents items weights weight
                      (length st.1.1) 0 st with
              | Finished st' =>
                  round_robin_weights_while agents items weights fuel' st'
              | other => other
              end
          end
      end
  end.

Definition round_robin_weights (agents : list Agent) (items : list Item)
    (weights : list Q) (fuel : nat)
    : run_result (list nat * list Q * matrix) :=
  match initialize_allocation_matrix items agents with
  | Err e => Raised e
  | Ok X =>
      round_robin_weights_while agents items weights fuel
        (seq 0 (length agents), weights, X)
  end.

(** *** Shapes and what the greedy algorithms guarantee *)

(** [X] has [N] rows of [M] agent entries and a slack entry. *)
Definition shape_ok (X : matrix) (N M : nat) : Prop :=
  length X = N ∧ ∀ i row, X !! i = Some row → length row = S M.

(** Every entry of an agent is 0 or 1. *)
Definition binary (X : matrix) (M : nat) : Prop :=
  ∀ i j v, (j < M)%nat → getX X i j = Ok v → v = 0 ∨ v = 1.

(** Every index that an agent desires is the index of an item. *)
Definition desires_in_range (agents : list Agent) (items : list Item) : Prop :=
  ∀ agent i, agent ∈ agents → i ∈ get_desired_items_indexes agent items →
             (i < length items)%nat.

(** No slack entry is negative. *)
Definition slack_nonneg (X : matrix) (M : nat) : Prop :=
  ∀ i s, getX X i M = Ok s → 0 ≤ s.

(** From [X] to [X'] no slack entry grows, and none turns negative. *)
Definition slack_shrinks (M : nat) (X X' : matrix) : Prop :=
  ∀ i s', getX X' i M = Ok s' →
    ∃ s, getX X i M = Ok s ∧ s' ≤ s ∧ (0 ≤ s → 0 ≤ s').

(** Agent [j] has nothing to gain from the units that are left: no item
    it desires that still has slack would add to its bundle. *)
Definition satisfied (agents : list Agent) (items : list Item) (X : matrix)
    (j : nat) : Prop :=
  ∀ agent, agents !! j = Some agent →
    ∃ bundle,
      get_bundle_from_allocation_matrix X items j = Ok bundle
      ∧ ∀ i g s, i ∈ get_desired_items_indexes agent items →
                 items !! i = Some g →
                 getX X i (length agents) = Ok s → 0 < s →
                 (marginal_contribution agent bundle g <= 0)%Q.

(** No agent gains from an item that is already in its bundle. *)
Definition no_gain_from_held (agents : list Agent) : Prop :=
  ∀ agent bundle g, agent ∈ agents → g ∈ bundle →
    (marginal_contribution agent bundle g <= 0)%Q.

(** What a pass of [round_robin] keeps true of the players and the
    matrix: the agents that left the game are satisfied. *)
Record round_robin_inv (agents : list Agent) (items : list Item)
    (players : list nat) (X : matrix) : Prop := {
  rr_shape : shape_ok X (length items) (length agents);
  rr_binary : binary X (length agents);
  rr_players_nodup : NoDup players;
  rr_players_lt : ∀ j, j ∈ players → (j < length agents)%nat;
  rr_satisfied :
    ∀ j, (j < length agents)%nat → j ∉ players → satisfied agents items X j;
}.

(** What [round_robin_weights] keeps true when all agents have the
    weight [w]: nothing is allocated, and [weights_aux] has one entry per
    player. *)
Definition equal_weights_inv (agents : list Agent) (items : list Item)
    (w : Q) (st : list nat * list Q * matrix) : Prop :=
  st.2 = initial_matrix items agents
  ∧ NoDup st.1.1
  ∧ (∀ j, j ∈ st.1.1 → (j < length agents)%nat)
  ∧ st.1.2 = replicate (length st.1.1) w.

(** The state that a run ends in, when it has got as far as its loop. *)
Definition run_state {S : Type} (r : run_result S) : option S :=
  match r with
  | Finished st => Some st
  | Aborted _ st => Some st
  | Raised _ => None
  | OutOfFuel st => Some st
  end.

(** ** The edge matrix *)

(** *** The edge matrix and the graph *)

(** The graph has the edge from item [a] to item [b] exactly when the
    cell [E[a][b]] names an agent, and no cell names an agent twice. *)
Definition edge_sync (G : graph) (E : edge_matrix) : Prop :=
  (∀ a b, (It a, It b) ∈ G ↔ ∃ cell, getE E a b = Ok cell ∧ cell ≠ [])
  ∧ ∀ a b cell, getE E a b = Ok cell → NoDup cell.

(** The states that the loop of [general_yankee_swap_E] goes through. *)
Inductive reachable_E (float_pow : Q → Q → Q) (agents : list Agent)
    (items : list Item) (crit : criteria) (weights : list Q)
    : state_E → Prop :=
  | reachable_E_initial :
      reachable_E float_pow agents items crit weights
        (initial_state_E agents items)
  | reachable_E_next stE stE' :
      reachable_E float_pow agents items crit weights stE →
      players (st_base stE) ≠ [] →
      iteration_E float_pow agents items crit weights stE = Next stE' →
      reachable_E float_pow agents items crit weights stE'.

(** ** Items over features ([src/fair/item.py])

    [BaseItem.__init__] and [BaseItem.value].  The values of a feature
    are of any type [V] with a decidable equality.  [BaseFeature] defines
    no [__eq__], so Python compares features by identity, in [in] and in
    [list.index]: [feature_id] stands for the identity of the object. *)

Inductive item_error :=
  | FeatureError
  | DomainError
  | Builtin (e : exn).

Inductive item_result (A : Type) :=
  | Fine (a : A)
  | Fails (e : item_error).
Arguments Fine {A} a.
Arguments Fails {A} e.

Section items.
Context {V : Type} `{EqDecision V}.

Record BaseFeature := mkFeature {
  feature_id : nat;
  feature_name : String.string;
  domain : list V;
}.

Record BaseItem := mkBaseItem {
  name : String.string;
  features : list BaseFeature;
  values : list V;
  base_capacity : Z;
}.

(** [for feature, value in zip(self.features, self.values)] *)
Fixpoint validate_domain (features : list BaseFeature) (values : list V)
    : bool :=
  match features, values with
  | feature :: features', value :: values' =>
      if bool_decide (value ∈ domain feature)
      then validate_domain features' values'
      else false
  | _, _ => true
  end.

(** [BaseItem(name, features, values, capacity)] *)
Definition new_BaseItem (name : String.string) (features : list BaseFeature)
    (values : list V) (capacity : Z) : item_result BaseItem :=
  if bool_decide (length values ≠ length features) then Fails FeatureError
  else if validate_domain features values
  then Fine (mkBaseItem name features values capacity)
  else Fails DomainError.

(** [features.index(feature)]: the first position that holds the object,
    [None] where Python raises [ValueError]. *)
Fixpoint list_index (features : list BaseFeature) (feature : BaseFeature)
    : option nat :=
  match features with
  | [] => None
  | f :: rest =>
      if Nat.eqb (feature_id f) (feature_id feature) then Some 0%nat
      else S <$> list_index rest feature
  end.

(** [BaseItem.value]: the [try] block catches [IndexError] only, so the
    [ValueError] of [list.index] leaves the method as it is. *)
Definition value (item : BaseItem) (feature : BaseFeature) : item_result V :=
  match list_index (features item) feature with
  | None => Fails (Builtin ValueError)
  | Some k =>
      match values item !! k with
      | Some v => Fine v
      | None => Fails FeatureError
      end
  end.
End items.

(** ** The edge-matrix engine *)

(** *** Invariants of the edge-matrix engine *)

(** Every agent named in a cell of the edge matrix is an agent. *)
Definition cells_lt (E : edge_matrix) (M : nat) : Prop :=
  ∀ a b cell c, getE E a b = Ok cell → c ∈ cell → (c < M)%nat.

(** What every state of a run of [general_yankee_swap_E] satisfies, over
    items of positive capacity. *)
Record engine_E_inv (agents : list Agent) (items : list Item)
    (stE : state_E) : Prop := {
  einv_gains : gains_inv (length agents) (st_base stE);
  einv_rows : length (st_X (st_base stE)) = length items;
  einv_cols :
    ∀ i row, st_X (st_base stE) !! i = Some row →
             length row = S (length agents);
  einv_graph : graph_wf (st_G (st_base stE));
  einv_slack : slack_inv agents items (st_base stE);
  einv_cells : cells_lt (st_E stE) (length agents);
  einv_sync : edge_sync (st_G (st_base stE)) (st_E stE);
}.

(** ** Searches with a single shortest path

    Which of several shortest paths [nx.shortest_path] returns is left to
    the library.  The runs evaluated in this development do not depend on
    it: in each of their searches the shortest path is the only one of its
    length. *)

(** The walks of [G] that start at [u] and have at most [k] edges. *)
Fixpoint walks (G : graph) (k : nat) (u : node) : list (list node) :=
  match k with
  | O => [[u]]
  | S k' => [u] :: (v ← successors G u; cons u <$> walks G k' v)
  end.

(** No other path of [G] from the source to the sink has as few nodes as
    [p]. *)
Definition only_shortest_path (G : graph) (p : list node) : Prop :=
  ∀ p', head p' = Some Src → head (rev p') = Some Sink → path_in G p' →
        (length p' ≤ length p)%nat → p' = p.

Definition only_shortest_pathb (G : graph) (p : list node) : bool :=
  bool_decide
    (filter (λ w, head (rev w) = Some Sink) (walks G (length p - 1) Src)
     = [p]).

(** The search that an iteration makes from the state [st] has a single
    shortest path, when it has one at all. *)
Definition single_shortest_path (agents : list Agent) (items : list Item)
    (st : state) : Prop :=
  ∀ picked G1 p,
    argmax (gain_vector st) = Ok picked →
    add_agent_to_exchange_graph (st_X st) (st_G st) agents items picked
    = Ok G1 →
    find_shortest_path G1 Src Sink = Some p →
    only_shortest_path G1 p.

Definition single_shortest_pathb (agents : list Agent) (items : list Item)
    (st : state) : bool :=
  match argmax (gain_vector st) with
  | Err _ => true
  | Ok picked =>
      match add_agent_to_exchange_graph (st_X st) (st_G st) agents items
              picked with
      | Err _ => true
      | Ok G1 =>
          match find_shortest_path G1 Src Sink with
          | None => true
          | Some p => only_shortest_pathb G1 p
          end
      end
  end.

(** The states from which a run of at most [n] iterations searches. *)
Fixpoint searched_states (float_pow : Q → Q → Q) (agents : list Agent)
    (items : list Item) (crit : criteria) (weights : list Q) (n : nat)
    (st : state) : list state :=
  match players st, n with
  | _ :: _, S n' =>
      st :: match iteration float_pow agents items crit weights st with
            | Next st' =>
                searched_states float_pow agents items crit weights n' st'
            | Failed _ _ => []
            end
  | _, _ => []
  end.

Fixpoint searched_states_E (float_pow : Q → Q → Q) (agents : list Agent)
    (items : list Item) (crit : criteria) (weights : list Q) (n : nat)
    (stE : state_E) : list state :=
  match players (st_base stE), n with
  | _ :: _, S n' =>
      st_base stE
      :: match iteration_E float_pow agents items crit weights stE with
         | Next stE' =>
             searched_states_E float_pow agents items crit weights n' stE'
         | Failed _ _ => []
         end
  | _, _ => []
  end.

(** * Properties of the envy metrics *)

Lemma bundle_at_ok X items j b :
  get_bundle_from_allocation_matrix X items j = Ok b → bundle_at X items j = b.
Proof. unfold bundle_at. by intros ->. Qed.

Section envy_facts.
Variable counts : Agent → Q → list Item → bool.
Variables (X : matrix) (agents : list Agent) (items : list Item).

Lemma envy_inner_false agent i js acc :
  get_bundle_from_allocation_matrix X items i = Ok (bundle_at X items i) →
  (∀ j, j ∈ js → ∃ b, get_bundle_from_allocation_matrix X items j = Ok b) →
  envy_inner counts false X items agent i
    (valuation agent (bundle_at X items i)) js acc
  = Ok (acc + inner_count false (envy_pair counts X items agent i) js)%nat.
Proof.
  intros Hi. revert acc. induction js as [|j js IH]; intros acc Hjs; simpl.
  - f_equal. unfold inner_count. simpl. lia.
  - destruct (Hjs j) as [b Hb]; [left|].
    assert (Hjs' : ∀ j', j' ∈ js → ∃ b, get_bundle_from_allocation_matrix X items j' = Ok b)
      by (intros; apply Hjs; by right).
    unfold inner_count in *. simpl. unfold envy_pair at 1.
    rewrite (bundle_at_ok _ _ _ _ Hb).
    destruct (decide (i ≠ j)) as [Hne|Heq].
    + rewrite Hb. simpl. rewrite bool_decide_eq_true_2 by done. simpl.
      destruct (Qltb _ _ && counts _ _ _); simpl.
      * rewrite IH by done. f_equal. lia.
      * by rewrite IH.
    + rewrite bool_decide_eq_false_2 by done. simpl. by rewrite IH.
Qed.

Lemma envy_inner_true agent i js acc :
  get_bundle_from_allocation_matrix X items i = Ok (bundle_at X items i) →
  (∀ j, j ∈ js → ∃ b, get_bundle_from_allocation_matrix X items j = Ok b) →
  envy_inner counts true X items agent i
    (valuation agent (bundle_at X items i)) js acc
  = Ok (acc + inner_count true (envy_pair counts X items agent i) js)%nat.
Proof.
  intros Hi. revert acc. induction js as [|j js IH]; intros acc Hjs; simpl.
  - f_equal. unfold inner_count. simpl. lia.
  - destruct (Hjs j) as [b Hb]; [left|].
    assert (Hjs' : ∀ j', j' ∈ js → ∃ b, get_bundle_from_allocation_matrix X items j' = Ok b)
      by (intros; apply Hjs; by right).
    unfold inner_count in *. simpl. unfold envy_pair at 1.
    rewrite (bundle_at_ok _ _ _ _ Hb).
    destruct (decide (i ≠ j)) as [Hne|Heq].
    + rewrite Hb. simpl. rewrite bool_decide_eq_true_2 by done. simpl.
      destruct (Qltb _ _ && counts _ _ _); simpl.
      * f_equal. lia.
      * by rewrite IH.
    + rewrite bool_decide_eq_false_2 by done. simpl. by rewrite IH.
Qed.

Lemma envy_inner_pure once agent i js acc :
  get_bundle_from_allocation_matrix X items i = Ok (bundle_at X items i) →
  (∀ j, j ∈ js → ∃ b, get_bundle_from_allocation_matrix X items j = Ok b) →
  envy_inner counts once X items agent i
    (valuation agent (bundle_at X items i)) js acc
  = Ok (acc + inner_count once (envy_pair counts X items agent i) js)%nat.
Proof. destruct once; [apply envy_inner_true | apply envy_inner_false]. Qed.
End envy_facts.

Section envy_outer_facts.
Variable counts : Agent → Q → list Item → bool.
Variable once : bool.
Variables (X : matrix) (agents : list Agent) (items : list Item).

Lemma envy_outer_pure i rest acc :
  bundles_defined X items (length agents) →
  (i + length rest ≤ length agents)%nat →
  envy_outer counts once X agents items i rest acc
  = Ok (acc + outer_count
          (λ i a, inner_count once (envy_pair counts X items a i)
                    (seq 0 (length agents))) i rest)%nat.
Proof.
  intros Hdef. revert i acc.
  induction rest as [|a rest IH]; intros i acc Hlen; simpl in *.
  - f_equal. lia.
  - destruct (Hdef i) as [b Hb]; [lia|].
    rewrite Hb. simpl. rewrite <- (bundle_at_ok _ _ _ _ Hb).
    rewrite envy_inner_pure.
    + simpl. rewrite IH by lia. f_equal. lia.
    + by rewrite (bundle_at_ok _ _ _ _ Hb).
    + intros j Hj. apply Hdef. apply elem_of_seq in Hj. lia.
Qed.

Lemma envy_outer_defined i rest acc n :
  envy_outer counts once X agents items i rest acc = Ok n →
  ∀ j, (i ≤ j < i + length rest)%nat →
       ∃ b, get_bundle_from_allocation_matrix X items j = Ok b.
Proof.
  revert i acc. induction rest as [|a rest IH]; intros i acc H j Hj; simpl in *.
  - lia.
  - destruct (get_bundle_from_allocation_matrix X items i) as [b|e] eqn:Hb;
      simpl in H; [|discriminate].
    destruct (envy_inner _ _ _ _ _ _ _ _ _) as [acc'|e] eqn:Hin;
      simpl in H; [|discriminate].
    destruct (decide (j = i)) as [->|Hne]; [eauto|].
    apply (IH _ _ H). lia.
Qed.

Lemma envy_metric_pure :
  bundles_defined X items (length agents) →
  envy_metric counts once X agents items
  = Ok (pure_metric counts once X agents items).
Proof.
  intros Hdef. unfold envy_metric, pure_metric.
  rewrite envy_outer_pure by (done || simpl; lia). done.
Qed.

Lemma envy_metric_defined n :
  envy_metric counts once X agents items = Ok n →
  bundles_defined X items (length agents).
Proof.
  intros H j Hj. apply (envy_outer_defined _ _ _ _ H). simpl. lia.
Qed.

Lemma envy_metric_value n :
  envy_metric counts once X agents items = Ok n →
  n = pure_metric counts once X agents items.
Proof.
  intros H. pose proof (envy_metric_defined _ H) as Hdef.
  rewrite (envy_metric_pure Hdef) in H. congruence.
Qed.
End envy_outer_facts.

Lemma inner_count_once_le p js :
  (inner_count true p js ≤ inner_count false p js)%nat.
Proof.
  unfold inner_count. induction js as [|j js IH]; simpl; [lia|].
  destruct (p j); simpl; [lia|done].
Qed.

Lemma inner_count_once_le_1 p js : (inner_count true p js ≤ 1)%nat.
Proof. unfold inner_count. destruct (existsb p js); lia. Qed.

Lemma inner_count_mono once (p q : nat → bool) js :
  (∀ j, j ∈ js → p j = true → q j = true) →
  (inner_count once p js ≤ inner_count once q js)%nat.
Proof.
  intros Hpq. destruct once; unfold inner_count.
  - induction js as [|j js IH]; simpl; [lia|].
    destruct (p j) eqn:Hp; simpl.
    + rewrite (Hpq j) by (done || left). simpl. lia.
    + etrans; [apply IH; intros; apply Hpq; by try right|].
      destruct (q j); simpl; [destruct (existsb q js); lia | lia].
  - induction js as [|j js IH]; simpl; [lia|].
    assert (IH' := IH (λ j' Hj', Hpq j' (list_elem_of_further _ _ _ Hj'))).
    destruct (p j) eqn:Hp; simpl.
    + rewrite (Hpq j) by (done || left). simpl. lia.
    + destruct (q j); simpl; lia.
Qed.

Lemma outer_count_mono (f g : nat → Agent → nat) i rest :
  (∀ k a, rest !! k = Some a → f (i + k)%nat a ≤ g (i + k)%nat a)%nat →
  (outer_count f i rest ≤ outer_count g i rest)%nat.
Proof.
  revert i. induction rest as [|a rest IH]; intros i H; simpl; [lia|].
  specialize (H 0%nat a eq_refl) as H0. rewrite Nat.add_0_r in H0.
  assert (outer_count f (S i) rest ≤ outer_count g (S i) rest)%nat; [|lia].
  apply IH. intros k a' Hk. specialize (H (S k) a' Hk).
  by replace (S i + k)%nat with (i + S k)%nat by lia.
Qed.

Lemma outer_count_le_length (f : nat → Agent → nat) i rest :
  (∀ k a, f k a ≤ 1)%nat → (outer_count f i rest ≤ length rest)%nat.
Proof.
  intros Hf. revert i. induction rest as [|a rest IH]; intros i; simpl; [lia|].
  specialize (Hf i a). specialize (IH (S i)). lia.
Qed.

Lemma Qltb_lt a b : Qltb a b = true ↔ (a < b)%Q.
Proof.
  unfold Qltb. rewrite negb_true_iff. split.
  - intros H. apply Qnot_le_lt. intros Hle%Qle_bool_iff. congruence.
  - intros H. destruct (Qle_bool b a) eqn:E; [|done].
    apply Qle_bool_iff in E. by apply Qlt_not_le in H.
Qed.

Lemma Qleb_le a b : Qleb a b = true ↔ (a <= b)%Q.
Proof. apply Qle_bool_iff. Qed.

Lemma there_is_no_item_loop_spec agent u other l :
  there_is_no_item_loop agent u other l = true
  ↔ ∀ k, k ∈ l → ¬ (valuation agent (delete k other) <= u)%Q.
Proof.
  induction l as [|k l IH]; simpl.
  - split; [|done]. intros _ k Hk. by apply elem_of_nil in Hk.
  - destruct (Qleb _ u) eqn:E.
    + split; [done|]. intros H. exfalso. apply (H k); [left|]. by apply Qleb_le.
    + rewrite IH. split.
      * intros H k' [->|Hk']%elem_of_cons; [|by apply H].
        intros Hle%Qleb_le. congruence.
      * intros H k' Hk'. apply H. by right.
Qed.

Lemma there_is_no_item_spec agent own other :
  Qltb (valuation agent own) (valuation agent other)
  && there_is_no_item agent (valuation agent own) other = true
  ↔ EF1_violated agent own other.
Proof.
  rewrite andb_true_iff, Qltb_lt. unfold there_is_no_item.
  rewrite there_is_no_item_loop_spec. unfold EF1_violated, envies, removal_cures.
  split; intros [H1 H2]; (split; [done|]).
  - intros k Hk. apply H2. apply elem_of_seq. lia.
  - intros k Hk%elem_of_seq. apply H2. lia.
Qed.

Lemma length_filter_bool_fmap {A B} (p : A → bool) (P : B → Prop)
    `{∀ x, Decision (P x)} (h : A → B) (l : list A) :
  (∀ x, x ∈ l → p x = true ↔ P (h x)) →
  length (List.filter p l) = length (filter P (h <$> l)).
Proof.
  induction l as [|x l IH]; intros Hp; [done|].
  simpl. rewrite filter_cons.
  assert (Hx := Hp x (list_elem_of_here _ _)).
  specialize (IH (λ y Hy, Hp y (list_elem_of_further _ _ _ Hy))).
  destruct (p x); destruct (decide (P (h x))); simpl; try (by rewrite IH).
  - exfalso. apply n, Hx. done.
  - apply Hx in p0. discriminate.
Qed.

Lemma existsb_exists_below (p : nat → bool) (P : nat → Prop) (M : nat) :
  (∀ j, (j < M)%nat → p j = true ↔ P j) →
  existsb p (seq 0 M) = true ↔ ∃ j, (j < M)%nat ∧ P j.
Proof.
  intros Hp. rewrite existsb_exists. split.
  - intros (j & Hj%list_elem_of_In%elem_of_seq & Hpj). exists j.
    split; [lia|]. apply Hp; [lia|done].
  - intros (j & Hj & HP). exists j. split.
    + apply list_elem_of_In, elem_of_seq. lia.
    + by apply Hp.
Qed.

Lemma outer_count_seq (f : nat → Agent → nat) (g : nat → nat) i rest :
  (∀ k a, rest !! k = Some a → f (i + k)%nat a = g (i + k)%nat) →
  outer_count f i rest = sum_list (g <$> seq i (length rest)).
Proof.
  revert i. induction rest as [|a rest IH]; intros i H; simpl; [done|].
  specialize (H 0%nat a eq_refl) as H0. rewrite Nat.add_0_r in H0. rewrite H0.
  f_equal. apply IH. intros k a' Hk. specialize (H (S k) a' Hk).
  by replace (S i + k)%nat with (i + S k)%nat by lia.
Qed.

Lemma length_filter_bind {A B} (P : B → Prop) `{∀ x, Decision (P x)}
    (h : A → list B) (l : list A) :
  length (filter P (l ≫= h)) = sum_list ((λ x, length (filter P (h x))) <$> l).
Proof.
  induction l as [|x l IH]; [done|].
  rewrite bind_cons, filter_app, length_app, IH. done.
Qed.

Lemma length_filter_indicator {A} (P : A → Prop) `{∀ x, Decision (P x)}
    (b : A → nat) (l : list A) :
  (∀ x, x ∈ l → b x = if decide (P x) then 1 else 0)%nat →
  sum_list (b <$> l) = length (filter P l).
Proof.
  induction l as [|x l IH]; intros Hb; [done|].
  rewrite fmap_cons, filter_cons.
  specialize (IH (λ y Hy, Hb y (list_elem_of_further _ _ _ Hy))).
  specialize (Hb x (list_elem_of_here _ _)).
  destruct (decide (P x)); simpl in *; lia.
Qed.

Lemma envy_pair_EF1 X agents items B agent i j :
  (∀ j, (j < length agents)%nat →
        get_bundle_from_allocation_matrix X items j = Ok (B j)) →
  agents !! i = Some agent → (j < length agents)%nat →
  envy_pair there_is_no_item X items agent i j = true ↔ EF1_pair agents B i j.
Proof.
  intros HB Hi Hj. unfold envy_pair, EF1_pair.
  assert (i < length agents)%nat by (by eapply lookup_lt_Some).
  rewrite (bundle_at_ok _ _ _ _ (HB i H)), (bundle_at_ok _ _ _ _ (HB j Hj)).
  rewrite <- andb_assoc, andb_true_iff, bool_decide_eq_true.
  rewrite there_is_no_item_spec. split.
  - intros [? ?]. eauto.
  - intros [? (a & Ha & ?)]. by simplify_eq.
Qed.

(** C8: when the bundles [B] of all agents can be read off the matrix,
    [EF_1_count] returns the number of ordered pairs [(i, j)], [i ≠ j],
    such that agent [i] values the bundle of [j] strictly above its own
    and no removal of a single item from the bundle of [j] brings it down
    to the value of [i]'s own bundle or below; [EF_1_agents] returns the
    number of agents [i] for which such a [j] exists. *)
Theorem EF_1_metrics_count_violations X agents items B :
  (∀ j, (j < length agents)%nat →
        get_bundle_from_allocation_matrix X items j = Ok (B j)) →
  EF_1_count X agents items
    = Ok (count_pairs (EF1_pair agents B) (length agents))
  ∧ EF_1_agents X agents items
    = Ok (count_agents (EF1_pair agents B) (length agents)).
Proof.
  intros HB.
  assert (Hdef : bundles_defined X items (length agents))
    by (intros j Hj; eauto).
  unfold EF_1_count, EF_1_agents.
  rewrite !envy_metric_pure by done. unfold pure_metric. split; f_equal.
  - unfold count_pairs, ordered_pairs. rewrite length_filter_bind.
    apply outer_count_seq. intros k a Hk. simpl.
    unfold inner_count. apply length_filter_bool_fmap.
    intros j Hj%elem_of_seq. simpl. apply envy_pair_EF1; [done..|lia].
  - unfold count_agents.
    rewrite <- (length_filter_indicator _
      (λ i, if decide (∃ j, (j < length agents)%nat ∧ EF1_pair agents B i j)
            then 1%nat else 0%nat)) by done.
    apply outer_count_seq. intros k a Hk. simpl. unfold inner_count.
    pose proof (existsb_exists_below
      (envy_pair there_is_no_item X items a k) (EF1_pair agents B k)
      (length agents)
      (λ j Hj, envy_pair_EF1 X agents items B a k j HB Hk Hj)) as He.
    destruct (existsb _ _); destruct (decide _) as [Hd|Hd]; try done.
    + exfalso. apply Hd, He. done.
    + apply He in Hd. discriminate.
Qed.

Lemma envy_metric_cases counts once X agents items :
  (bundles_defined X items (length agents)
   ∧ envy_metric counts once X agents items
     = Ok (pure_metric counts once X agents items))
  ∨ (¬ bundles_defined X items (length agents)
     ∧ ∃ e, envy_metric counts once X agents items = Err e).
Proof.
  destruct (envy_metric counts once X agents items) as [n|e] eqn:H.
  - left. pose proof (envy_metric_defined _ _ _ _ _ _ H) as Hdef.
    split; [done|]. by rewrite <- H, envy_metric_pure.
  - right. split; [|eauto]. intros Hdef.
    rewrite envy_metric_pure in H by done. discriminate.
Qed.

Lemma envy_metric_le counts1 once1 counts2 once2 X agents items :
  (pure_metric counts1 once1 X agents items
   ≤ pure_metric counts2 once2 X agents items)%nat →
  result_le (envy_metric counts1 once1 X agents items)
            (envy_metric counts2 once2 X agents items).
Proof.
  intros Hle.
  destruct (envy_metric_cases counts1 once1 X agents items) as [[D1 ->]|[D1 [e1 ->]]];
  destruct (envy_metric_cases counts2 once2 X agents items) as [[D2 ->]|[D2 [e2 ->]]];
    simpl; done.
Qed.

Lemma pure_metric_mono counts1 counts2 once X agents items :
  (∀ agent i j, agent ∈ agents →
     envy_pair counts1 X items agent i j = true →
     envy_pair counts2 X items agent i j = true) →
  (pure_metric counts1 once X agents items
   ≤ pure_metric counts2 once X agents items)%nat.
Proof.
  intros H. unfold pure_metric. apply outer_count_mono.
  intros k a Hk. simpl. apply inner_count_mono. intros j _.
  apply H. by eapply list_elem_of_lookup_2.
Qed.

Lemma pure_metric_once_le counts X agents items :
  (pure_metric counts true X agents items
   ≤ pure_metric counts false X agents items)%nat.
Proof.
  unfold pure_metric. apply outer_count_mono.
  intros k a Hk. simpl. apply inner_count_once_le.
Qed.

Lemma pure_metric_once_le_agents counts X agents items :
  (pure_metric counts true X agents items ≤ length agents)%nat.
Proof.
  unfold pure_metric. apply outer_count_le_length.
  intros k a. apply inner_count_once_le_1.
Qed.

Lemma envy_metric_agents_bounded counts X agents items :
  result_le (envy_metric counts true X agents items)
            (envy_metric counts false X agents items)
  ∧ result_at_most (envy_metric counts true X agents items) (length agents).
Proof.
  split.
  - apply envy_metric_le, pure_metric_once_le.
  - destruct (envy_metric_cases counts true X agents items)
      as [[D1 ->]|[D1 [e1 ->]]]; simpl; [|done].
    apply pure_metric_once_le_agents.
Qed.

(** C9: each per-agent metric and its pair-counting counterpart raise
    together or return together, and then the per-agent metric is at most
    the pair count and at most the number of agents. *)
Theorem agents_metrics_bounded X agents items :
  (result_le (EF_agents X agents items) (EF_count X agents items)
   ∧ result_at_most (EF_agents X agents items) (length agents))
  ∧ (result_le (EF_1_agents X agents items) (EF_1_count X agents items)
     ∧ result_at_most (EF_1_agents X agents items) (length agents))
  ∧ (result_le (EF_X_agents X agents items) (EF_X_count X agents items)
     ∧ result_at_most (EF_X_agents X agents items) (length agents)).
Proof. repeat split; apply envy_metric_agents_bounded. Qed.

Lemma envy_pair_weaken counts X items agent i j :
  envy_pair counts X items agent i j = true →
  envy_pair always_counts X items agent i j = true.
Proof.
  unfold envy_pair, always_counts. rewrite !andb_true_iff. tauto.
Qed.

Lemma not_for_every_item_of_no_item agent u other :
  other ≠ [] →
  there_is_no_item agent u other = true →
  not_for_every_item agent u other = true.
Proof.
  unfold there_is_no_item, not_for_every_item.
  destruct other as [|g other]; [done|]. intros _. simpl.
  unfold Qltb, Qleb. destruct (Qle_bool _ u); simpl; done.
Qed.

Lemma envy_pair_EF1_EFX X items agent i j :
  (∀ bundle, (valuation agent [] <= valuation agent bundle)%Q) →
  envy_pair there_is_no_item X items agent i j = true →
  envy_pair not_for_every_item X items agent i j = true.
Proof.
  intros Hempty. unfold envy_pair. rewrite !andb_true_iff.
  intros [[Hne Hlt] Hno]. repeat split; [done..|].
  apply not_for_every_item_of_no_item; [|done].
  intros Heq. rewrite Heq in Hlt. apply Qltb_lt in Hlt.
  apply Qlt_not_le in Hlt. apply Hlt, Hempty.
Qed.

(** C3 (amended): [EF_1_count] and [EF_X_count] are both at most
    [EF_count], for every matrix, agents and items (the three metrics
    return together or raise together).  When no agent values the empty
    bundle above another bundle, which holds for non-negative valuations
    that give the empty bundle the value 0, [EF_1_count] is at most
    [EF_X_count]. *)
Theorem envy_counts_ordering X agents items :
  result_le (EF_1_count X agents items) (EF_count X agents items)
  ∧ result_le (EF_X_count X agents items) (EF_count X agents items)
  ∧ ((∀ agent bundle, agent ∈ agents →
        (valuation agent [] <= valuation agent bundle)%Q) →
     result_le (EF_1_count X agents items) (EF_X_count X agents items)).
Proof.
  split; [|split].
  - apply envy_metric_le, pure_metric_mono. intros. by eapply envy_pair_weaken.
  - apply envy_metric_le, pure_metric_mono. intros. by eapply envy_pair_weaken.
  - intros Hempty. apply envy_metric_le, pure_metric_mono.
    intros a i j Ha. apply envy_pair_EF1_EFX. intros b. by apply Hempty.
Qed.

(** * Properties of the transfer *)

Lemma int64_pred_no_wrap x : x ≠ int64_min → int64_pred x = x - 1.
Proof. intros H. unfold int64_pred. by rewrite decide_False. Qed.

Lemma int64_pred_nonneg x : 0 ≤ x → int64_pred x = x - 1.
Proof. intros H. apply int64_pred_no_wrap. unfold int64_min. lia. Qed.

Lemma int64_pred_min : int64_pred int64_min = int64_max.
Proof. reflexivity. Qed.

Lemma int64_pred_neq x : int64_pred x ≠ x.
Proof.
  unfold int64_pred. destruct (decide (x = int64_min)) as [->|]; [done|lia].
Qed.

Lemma fits_int64_spec z : fits_int64 z = true ↔ int64_min ≤ z ≤ int64_max.
Proof. unfold fits_int64. rewrite andb_true_iff, !Z.leb_le. done. Qed.

Lemma initialize_allocation_matrix_Ok items agents X :
  initialize_allocation_matrix items agents = Ok X ↔
  X = initial_matrix items agents
  ∧ ∀ item, item ∈ items → int64_min ≤ capacity item ≤ int64_max.
Proof.
  unfold initialize_allocation_matrix.
  destruct (forallb _ items) eqn:E.
  - rewrite forallb_forall in E. split.
    + intros [= <-]. split; [done|]. intros item Hin.
      apply fits_int64_spec, E. by apply list_elem_of_In.
    + by intros [-> _].
  - split; [done|]. intros [_ H]. exfalso.
    assert (forallb (λ item, fits_int64 (capacity item)) items = true) as E'.
    { apply forallb_forall. intros item Hin%list_elem_of_In.
      by apply fits_int64_spec, H. }
    congruence.
Qed.

Lemma forallb_false_exists {A} (f : A → bool) (l : list A) :
  forallb f l = false → ∃ x, x ∈ l ∧ f x = false.
Proof.
  induction l as [|x l IH]; simpl; [done|].
  destruct (f x) eqn:Ef; simpl.
  - intros (y & Hy & Hf)%IH. exists y. split; [by right|done].
  - intros _. exists x. split; [by left|done].
Qed.

Lemma initialize_allocation_matrix_Err items agents e :
  initialize_allocation_matrix items agents = Err e ↔
  e = OverflowError
  ∧ ∃ item, item ∈ items
            ∧ (capacity item < int64_min ∨ int64_max < capacity item).
Proof.
  unfold initialize_allocation_matrix.
  destruct (forallb _ items) eqn:E.
  - rewrite forallb_forall in E. split; [done|].
    intros [_ (item & Hin & H)]. apply list_elem_of_In, E in Hin.
    apply fits_int64_spec in Hin. lia.
  - split; [|by intros [-> _]].
    intros [= <-]. split; [done|].
    apply forallb_false_exists in E as (item & Hin & Hf).
    exists item. split; [done|].
    apply not_true_iff_false in Hf. rewrite fits_int64_spec in Hf. lia.
Qed.

Lemma index_Ok {A} (l : list A) i a : index l i = Ok a ↔ l !! i = Some a.
Proof.
  unfold index. destruct (l !! i); split; intros H; by (discriminate || injection H as ->).
Qed.

Lemma index_Err {A} (l : list A) i e :
  index l i = Err e ↔ l !! i = None ∧ e = IndexError.
Proof.
  unfold index. destruct (l !! i); split.
  - discriminate.
  - intros [? ?]. discriminate.
  - intros [= <-]. done.
  - intros [_ ->]. done.
Qed.

Lemma index_lt {A} (l : list A) i a : index l i = Ok a → (i < length l)%nat.
Proof. intros H%index_Ok. by eapply lookup_lt_Some. Qed.

Lemma getX_Ok X i j v :
  getX X i j = Ok v ↔ ∃ row, X !! i = Some row ∧ row !! j = Some v.
Proof.
  unfold getX. split.
  - intros H. inv_bind H. apply index_Ok in E, H. eauto.
  - intros (row & Hr & Hv). apply index_Ok in Hr, Hv. rewrite Hr. simpl. done.
Qed.

Lemma setX_Ok X i j v X' :
  setX X i j v = Ok X' ↔
  ∃ row old, X !! i = Some row ∧ row !! j = Some old
             ∧ X' = <[i := <[j := v]> row]> X.
Proof.
  unfold setX. split.
  - intros H. inv_bind H. apply index_Ok in E, E0. injection H as <-. eauto.
  - intros (row & old & Hr & Hv & ->). apply index_Ok in Hr, Hv.
    rewrite Hr. simpl. rewrite Hv. done.
Qed.

Lemma setX_lookup X i j v X' i' :
  setX X i j v = Ok X' →
  X' !! i' = if decide (i' = i) then (λ row, <[j := v]> row) <$> X !! i
             else X !! i'.
Proof.
  intros (row & old & Hr & Hv & ->)%setX_Ok.
  destruct (decide (i' = i)) as [->|Hne].
  - rewrite Hr. simpl. apply list_lookup_insert_eq. by eapply lookup_lt_Some.
  - by apply list_lookup_insert_ne.
Qed.

Lemma setX_length X i j v X' : setX X i j v = Ok X' → length X' = length X.
Proof. intros (row & old & Hr & Hv & ->)%setX_Ok. apply length_insert. Qed.

Lemma getX_setX X i j v X' i' j' :
  setX X i j v = Ok X' →
  getX X' i' j' = if decide (i' = i ∧ j' = j) then Ok v else getX X i' j'.
Proof.
  intros H. pose proof (setX_lookup _ _ _ _ _ i' H) as Hl.
  apply setX_Ok in H as (row & old & Hr & Hv & ->).
  unfold getX, index. rewrite Hl. simpl.
  destruct (decide (i' = i)) as [->|Hne].
  - rewrite Hr. simpl.
    destruct (decide (j' = j)) as [->|Hnej].
    + rewrite list_lookup_insert_eq by (by eapply lookup_lt_Some).
      rewrite decide_True by done. done.
    + rewrite list_lookup_insert_ne by done.
      rewrite decide_False by (intros [? ?]; done). done.
  - rewrite decide_False by (intros [? ?]; done). done.
Qed.

Lemma row_sum_insert row j v old :
  row !! j = Some old → row_sum (<[j := v]> row) = row_sum row - old + v.
Proof.
  revert j. induction row as [|x row IH]; intros [|j] H; simpl in *; try done.
  - injection H as ->. lia.
  - rewrite (IH j H). lia.
Qed.

Lemma rsum_setX X i j v X' old i' :
  setX X i j v = Ok X' → getX X i j = Ok old →
  rsum X' i' = rsum X i' + (if decide (i' = i) then v - old else 0).
Proof.
  intros H (row & Hr & Hv)%getX_Ok. unfold rsum.
  rewrite (setX_lookup _ _ _ _ _ i' H).
  destruct (decide (i' = i)) as [->|Hne]; [|lia].
  rewrite Hr. simpl. rewrite (row_sum_insert _ _ _ _ Hv). lia.
Qed.

Lemma setX_row_length X i j v X' i' :
  setX X i j v = Ok X' → length <$> X' !! i' = length <$> X !! i'.
Proof.
  intros H. rewrite (setX_lookup _ _ _ _ _ i' H).
  destruct (decide (i' = i)) as [->|Hne]; [|done].
  destruct (X !! i); simpl; [|done]. by rewrite length_insert.
Qed.

Lemma elem_of_nonzero_from j row c :
  c ∈ nonzero_from j row ↔
  ∃ k v, c = (j + k)%nat ∧ row !! k = Some v ∧ v ≠ 0.
Proof.
  revert j. induction row as [|x row IH]; intros j; simpl.
  - split; [by intros ?%elem_of_nil|]. by intros (k & v & _ & ? & _).
  - destruct (Z.eqb_spec x 0) as [->|Hx].
    + rewrite IH. split.
      * intros (k & v & -> & Hk & Hv). exists (S k), v. split; [lia|done].
      * intros ([|k] & v & -> & Hk & Hv); simpl in *; [congruence|].
        exists k, v. split; [lia|done].
    + rewrite elem_of_cons, IH. split.
      * intros [->|(k & v & -> & Hk & Hv)].
        -- exists 0%nat, x. split; [lia|done].
        -- exists (S k), v. split; [lia|done].
      * intros ([|k] & v & -> & Hk & Hv); simpl in *.
        -- left. lia.
        -- right. exists k, v. split; [lia|done].
Qed.

Lemma find_agent_loop_Some X agents items a b owners c :
  find_agent_loop X agents items a b owners = Ok (Some c) →
  c ∈ owners ∧ (c < length agents)%nat.
Proof.
  induction owners as [|o owners IH]; simpl; [done|].
  intros H. inv_bind H.
  destruct (exchange_contribution _ _ _ _).
  - injection H as ->. split; [left|]. by eapply index_lt.
  - destruct (IH H). split; [by right|done].
Qed.

Lemma find_agent_Some X agents items a b c :
  find_agent X agents items a b = Ok (Some c) →
  (c < length agents)%nat ∧ ∃ v, getX X a c = Ok v ∧ v ≠ 0.
Proof.
  unfold find_agent, get_owners_list. intros H. inv_bind H.
  inv_bind E. injection E as <-.
  apply find_agent_loop_Some in H as [Hc ?].
  split; [done|]. apply elem_of_nonzero_from in Hc as (k & v & -> & Hk & Hv).
  exists v. split; [|done]. apply getX_Ok. apply index_Ok in E0. eauto.
Qed.

Lemma node_index_Ok n i : node_index n = Ok i ↔ n = It i.
Proof. destruct n; simpl; split; intros H; by simplify_eq. Qed.

(** What a transfer loop that found an owner at every step leaves
    unchanged. *)
Lemma transfer_loop_frame agents items picked rpath inv X inv' X' :
  transfer_loop agents items picked rpath inv X = Return inv' X' →
  None ∉ inv' →
  (∃ found, inv' = inv ++ (Some <$> found)
            ∧ Forall (λ c, (c < length agents)%nat) found
            ∧ length found = pred (length rpath))
  ∧ length X' = length X
  ∧ (∀ i, length <$> X' !! i = length <$> X !! i)
  ∧ (∀ i, It i ∉ rpath → X' !! i = X !! i)
  ∧ (∀ i j, Some j ∉ inv' → j ≠ picked → getX X' i j = getX X i j).
Proof.
  revert inv X. induction rpath as [|l rest IH]; intros inv X H Hnone.
  { simpl in H. injection H as <- <-. split; [|done].
    exists []. simpl. by rewrite app_nil_r. }
  destruct rest as [|n rest'].
  - simpl in H.
    destruct (node_index l) as [li|] eqn:El; simpl in H; [|discriminate].
    destruct (setX X li picked 1) as [X1|] eqn:E1; [|discriminate].
    injection H as <- <-. apply node_index_Ok in El as ->.
    split; [exists []; simpl; by rewrite app_nil_r|].
    split; [by eapply setX_length|].
    split; [intros; by eapply setX_row_length|].
    split.
    + intros i Hi. rewrite (setX_lookup _ _ _ _ _ i E1).
      rewrite decide_False; [done|]. intros ->. apply Hi. left.
    + intros i j _ Hj. rewrite (getX_setX _ _ _ _ _ i j E1).
      rewrite decide_False; [done|]. by intros [_ ?].
  - cbn [transfer_loop] in H.
    destruct (node_index n) as [ni|] eqn:En; simpl in H; [|discriminate].
    destruct (node_index l) as [li|] eqn:El; simpl in H; [|discriminate].
    destruct (find_agent X agents items ni li) as [ca|] eqn:Ef; simpl in H;
      [|discriminate].
    destruct (assign X li ca 1) as [X1|] eqn:E1; [|discriminate].
    destruct (assign X1 ni ca 0) as [X2|] eqn:E2; [|discriminate].
    apply node_index_Ok in El as ->, En as ->.
    destruct (IH _ _ H Hnone)
      as ((found & -> & Hfound & Hlen) & HL & HRL & HR & HC).
    destruct ca as [c|].
    2:{ exfalso. apply Hnone. rewrite <- app_assoc. simpl.
        apply elem_of_app. right. left. }
    simpl in E1, E2. apply find_agent_Some in Ef as [Hc _].
    split.
    { exists (c :: found). rewrite <- app_assoc. simpl. split; [done|].
      split; [by constructor|]. simpl in *. lia. }
    split; [by rewrite HL, (setX_length _ _ _ _ _ E2), (setX_length _ _ _ _ _ E1)|].
    split.
    { intros i. by rewrite HRL, (setX_row_length _ _ _ _ _ _ E2),
        (setX_row_length _ _ _ _ _ _ E1). }
    split.
    + intros i Hi. rewrite HR by (intros ?; apply Hi; by right).
      rewrite (setX_lookup _ _ _ _ _ i E2), decide_False
        by (intros ->; apply Hi; right; left).
      rewrite (setX_lookup _ _ _ _ _ i E1), decide_False
        by (intros ->; apply Hi; left). done.
    + intros i j Hj Hp. rewrite HC by done.
      assert (j ≠ c).
      { intros ->. apply Hj. rewrite <- app_assoc. simpl.
        apply elem_of_app. right. left. }
      rewrite (getX_setX _ _ _ _ _ i j E2), decide_False by (by intros [_ ?]).
      rewrite (getX_setX _ _ _ _ _ i j E1), decide_False by (by intros [_ ?]).
      done.
Qed.

Lemma getX_row_slack X i M row :
  X !! i = Some row →
  row_slack M row = match getX X i M with Ok v => v | Err _ => 0 end.
Proof.
  intros Hr. unfold getX, index, row_slack. rewrite Hr. simpl.
  by destruct (row !! M).
Qed.

Lemma total_slack_decrement M X X' k s :
  (∀ i, length <$> X' !! i = length <$> X !! i) →
  getX X k M = Ok s →
  (∀ i, getX X' i M = if decide (i = k) then Ok (s - 1) else getX X i M) →
  total_slack M X' = total_slack M X - 1.
Proof.
  intros Hlen Hk Hcol.
  assert (Hrows : row_slack M <$> X' = <[k := s - 1]> (row_slack M <$> X)).
  { apply list_eq. intros i. rewrite list_lookup_fmap.
    specialize (Hlen i). specialize (Hcol i).
    destruct (decide (i = k)) as [->|Hne].
    - apply getX_Ok in Hk as (row & Hr & Hv).
      rewrite list_lookup_insert_eq
        by (rewrite length_fmap; by eapply lookup_lt_Some).
      rewrite Hr in Hlen. destruct (X' !! k) as [row'|] eqn:Hr'; [|done].
      simpl. f_equal. rewrite (getX_row_slack _ _ _ _ Hr'), Hcol. done.
    - rewrite list_lookup_insert_ne by done. rewrite list_lookup_fmap.
      destruct (X' !! i) as [row'|] eqn:Hr', (X !! i) as [row|] eqn:Hr;
        try done.
      simpl. f_equal.
      by rewrite (getX_row_slack _ _ _ _ Hr'), (getX_row_slack _ _ _ _ Hr), Hcol. }
  unfold total_slack. rewrite Hrows.
  apply getX_Ok in Hk as (row & Hr & Hv).
  rewrite (row_sum_insert _ _ _ s).
  - lia.
  - rewrite list_lookup_fmap, Hr. simpl. unfold row_slack. by rewrite Hv.
Qed.

Lemma elem_of_rev {A} (l : list A) x : x ∈ rev l ↔ x ∈ l.
Proof. rewrite !list_elem_of_In. symmetry. apply in_rev. Qed.

Lemma update_allocation_frame X agents items path_og picked inv' X' :
  update_allocation X agents items path_og picked = Return inv' X' →
  None ∉ inv' → (picked < length agents)%nat →
  ∃ last_item s,
    head (rev (path_items path_og)) = Some (It last_item)
    ∧ getX X last_item (length agents) = Ok s
    ∧ length X' = length X
    ∧ (∀ i, length <$> X' !! i = length <$> X !! i)
    ∧ (∀ i, It i ∉ path_items path_og → X' !! i = X !! i)
    ∧ (∀ i, getX X' i (length agents)
            = if decide (i = last_item) then Ok (int64_pred s)
              else getX X i (length agents))
    ∧ (∀ i j, Some j ∉ inv' → j ≠ length agents → getX X' i j = getX X i j)
    ∧ (∀ c, Some c ∈ inv' → (c < length agents)%nat)
    ∧ Some picked ∈ inv'.
Proof.
  unfold update_allocation. intros H Hnone Hp.
  destruct (head (rev (path_items path_og))) as [ln|] eqn:Eh; simpl in H;
    [|discriminate].
  destruct (node_index ln) as [li|] eqn:El; simpl in H; [|discriminate].
  destruct (getX X li (length agents)) as [s|] eqn:Es; simpl in H;
    [|discriminate].
  destruct (setX X li (length agents) (int64_pred s)) as [X1|] eqn:E1; [|discriminate].
  apply node_index_Ok in El as ->.
  destruct (transfer_loop_frame _ _ _ _ _ _ _ _ H Hnone)
    as ((found & -> & Hfound & Hlen) & HL & HRL & HR & HC).
  assert (Hinv : ∀ c, Some c ∈ [Some picked] ++ (Some <$> found) →
                      (c < length agents)%nat).
  { intros c [Hc|Hc]%elem_of_app.
    - apply list_elem_of_singleton in Hc. by simplify_eq.
    - apply list_elem_of_fmap in Hc as (c' & [= ->] & Hc').
      by eapply Forall_forall in Hfound. }
  exists li, s. split; [done|]. split; [done|].
  split; [by rewrite HL, (setX_length _ _ _ _ _ E1)|].
  split; [intros i; by rewrite HRL, (setX_row_length _ _ _ _ _ _ E1)|].
  split.
  { intros i Hi. rewrite HR.
    - rewrite (setX_lookup _ _ _ _ _ i E1), decide_False; [done|].
      intros ->. apply Hi. apply head_Some_elem_of in Eh.
      by rewrite elem_of_rev in Eh.
    - intros Hin. apply Hi. by rewrite elem_of_rev in Hin. }
  split.
  { intros i. rewrite HC.
    - rewrite (getX_setX _ _ _ _ _ i _ E1).
      destruct (decide (i = li)) as [->|Hne].
      + by rewrite decide_True.
      + rewrite decide_False; [done|]. by intros [? _].
    - intros Hin%Hinv. lia.
    - lia. }
  split.
  { intros i j Hj HjM. destruct (decide (j = picked)) as [->|Hjp].
    - exfalso. apply Hj. apply elem_of_app. left. left.
    - rewrite HC by done.
      rewrite (getX_setX _ _ _ _ _ i j E1), decide_False; [done|].
      by intros [_ ?]. }
  split; [done|]. apply elem_of_app. left. left.
Qed.

Lemma setX_total X i j v old :
  getX X i j = Ok old → ∃ X', setX X i j v = Ok X'.
Proof.
  intros (row & Hr & Hv)%getX_Ok. eexists. apply setX_Ok. eauto.
Qed.

Lemma transfer_loop_clean agents items picked rpath inv X i1 :
  NoDup rpath → clean_chain agents items rpath X →
  head (rev rpath) = Some i1 → getX X i1 picked = Ok 0 →
  ∃ found X',
    transfer_loop agents items picked (It <$> rpath) inv X
    = Return (inv ++ (Some <$> found)) X'
    ∧ ∀ i, rsum X' i
           = rsum X i + (if decide (Some i = head rpath) then 1 else 0).
Proof.
  revert inv X. induction rpath as [|l rest IH]; intros inv X Hnd Hcl Hl Hp;
    [done|].
  destruct rest as [|n rest'].
  - simpl in Hl. injection Hl as <-.
    destruct (setX_total _ _ _ 1 _ Hp) as [X1 E1].
    exists [], X1. simpl. rewrite E1, app_nil_r. split; [done|].
    intros i. rewrite (rsum_setX _ _ _ _ _ _ i E1 Hp).
    destruct (decide (i = l)) as [->|Hne].
    + by rewrite decide_True.
    + rewrite decide_False; [done|]. by intros [= ->].
  - destruct Hcl as (c & X1 & X2 & Hf & Hn & Hlc & E1 & E2 & Hcl).
    apply NoDup_cons in Hnd as [Hl_notin Hnd].
    assert (Hln : l ≠ n) by (intros ->; apply Hl_notin; left).
    assert (Hi1 : i1 ∈ n :: rest').
    { change (rev (l :: n :: rest')) with (rev (n :: rest') ++ [l]) in Hl.
      destruct (rev (n :: rest')) as [|x r] eqn:Er.
      - apply (f_equal (@length nat)) in Er. rewrite length_rev in Er. done.
      - simpl in Hl. injection Hl as ->. apply elem_of_rev. rewrite Er. left. }
    assert (Hl' : head (rev (n :: rest')) = Some i1).
    { change (rev (l :: n :: rest')) with (rev (n :: rest') ++ [l]) in Hl.
      destruct (rev (n :: rest')) as [|x r] eqn:Er; [|done].
      apply (f_equal (@length nat)) in Er. rewrite length_rev in Er. done. }
    assert (Hi1l : i1 ≠ l) by (intros ->; done).
    assert (Hp2 : getX X2 i1 picked = Ok 0).
    { rewrite (getX_setX _ _ _ _ _ i1 picked E2).
      destruct (decide (i1 = n ∧ picked = c)); [done|].
      rewrite (getX_setX _ _ _ _ _ i1 picked E1).
      rewrite decide_False by (by intros [? _]). done. }
    destruct (IH (inv ++ [Some c]) X2 Hnd Hcl Hl' Hp2) as (found & X' & Ht & Hs).
    exists (c :: found), X'. split.
    + rewrite !fmap_cons. cbn [transfer_loop]. simpl. rewrite Hf. simpl.
      rewrite E1, E2. rewrite <- app_assoc in Ht. done.
    + intros i. rewrite Hs.
      assert (Hn1 : getX X1 n c = Ok 1).
      { rewrite (getX_setX _ _ _ _ _ n c E1).
        rewrite decide_False by (intros [? _]; done). done. }
      rewrite (rsum_setX _ _ _ _ _ _ i E2 Hn1).
      rewrite (rsum_setX _ _ _ _ _ _ i E1 Hlc). simpl.
      destruct (decide (i = l)) as [->|Hil].
      * rewrite decide_False by done.
        rewrite decide_False by (intros [= ?]; done).
        rewrite decide_True by done. lia.
      * rewrite (decide_False (P := Some i = Some l)) by (intros [= ?]; done).
        destruct (decide (i = n)) as [->|Hin].
        -- rewrite decide_True by done. lia.
        -- rewrite decide_False by (intros [= ?]; done). lia.
Qed.

Lemma rev_fmap {A B} (f : A → B) (l : list A) : rev (f <$> l) = f <$> rev l.
Proof.
  induction l as [|x l IH]; [done|].
  change (rev (f <$> x :: l)) with (rev (f <$> l) ++ [f x]).
  change (rev (x :: l)) with (rev l ++ [x]).
  by rewrite fmap_app, IH.
Qed.

Lemma NoDup_rev_list {A} (l : list A) : NoDup l → NoDup (rev l).
Proof. rewrite !NoDup_ListNoDup. apply List.NoDup_rev. Qed.

Lemma path_items_shape (l : list node) : path_items (Src :: l ++ [Sink]) = l.
Proof. unfold path_items. simpl. apply removelast_last. Qed.

Lemma update_allocation_clean X agents items path picked i1 :
  NoDup path → head path = Some i1 →
  (picked < length agents)%nat → getX X i1 picked = Ok 0 →
  (∀ ik, head (rev path) = Some ik →
         getX X ik (length agents) ≠ Ok int64_min) →
  owners_clean X agents items path →
  ∃ found X',
    update_allocation X agents items (Src :: (It <$> path) ++ [Sink]) picked
    = Return (Some picked :: (Some <$> found)) X'
    ∧ ∀ i, rsum X' i = rsum X i.
Proof.
  intros Hnd Hh Hp Hi1 Hmin (ik & s & X1 & Hk & Hs & E1 & Hcl).
  assert (int64_pred s = s - 1) as Hpred.
  { apply int64_pred_no_wrap. intros ->. by apply (Hmin ik). }
  assert (Hi1' : getX X1 i1 picked = Ok 0).
  { rewrite (getX_setX _ _ _ _ _ i1 picked E1), decide_False; [done|].
    intros [_ ->]. lia. }
  destruct (transfer_loop_clean agents items picked (rev path) [Some picked]
              X1 i1) as (found & X' & Ht & Hsum); try done.
  { by apply NoDup_rev_list. }
  { by rewrite rev_involutive. }
  exists found, X'. split.
  - unfold update_allocation. rewrite path_items_shape, rev_fmap.
    destruct (rev path) as [|k r] eqn:Er; [done|].
    simpl in Hk. injection Hk as ->. simpl. rewrite Hs. simpl. rewrite E1.
    apply Ht.
  - intros i. rewrite Hsum, Hk.
    rewrite (rsum_setX _ _ _ _ _ _ i E1 Hs).
    destruct (decide (i = ik)) as [->|Hne].
    + rewrite decide_True by done. lia.
    + rewrite decide_False by (intros [= ?]; done). lia.
Qed.

(** * Properties of the exchange graph *)

Lemma path_in_snoc G p u v :
  path_in G (p ++ [u]) → (u, v) ∈ G → path_in G ((p ++ [u]) ++ [v]).
Proof.
  induction p as [|a p IH]; simpl; [intros _ H; done|].
  destruct p as [|b p]; simpl in *.
  - intros [Ha _] Huv. done.
  - intros [Ha Hp] Huv. split; [done|]. by apply IH.
Qed.

Lemma rpath_in_rev G q : rpath_in G q → path_in G (rev q).
Proof.
  induction q as [|v q IH]; [done|].
  destruct q as [|u q]; [done|].
  intros [Huv Hq]. specialize (IH Hq).
  change (rev (v :: u :: q)) with ((rev q ++ [u]) ++ [v]).
  apply path_in_snoc; [|done]. exact IH.
Qed.

Lemma elem_of_successors G u v : v ∈ successors G u ↔ (u, v) ∈ G.
Proof.
  unfold successors. rewrite list_elem_of_fmap. split.
  - intros ([u' v'] & -> & [Hu Hin]%list_elem_of_filter). simpl in *. by subst.
  - intros H. exists (u, v). split; [done|]. by apply list_elem_of_filter.
Qed.

Lemma bfs_simple G target start fuel visited queue p :
  Forall (entry_ok G start visited) queue →
  bfs G target fuel visited queue = Some p →
  simple_path G start target p.
Proof.
  revert visited queue. induction fuel as [|fuel IH]; intros visited queue Hq H;
    [done|].
  cbn [bfs] in H. destruct queue as [|[|u q] queue]; [done..|].
  apply Forall_cons in Hq as [(Hs & Hp & Hnd & Hv) Hq].
  destruct (decide (u = target)) as [->|Hne].
  - injection H as <-.
    change (rev q ++ [target]) with (rev (target :: q)).
    split; [|split; [|split]].
    + exact Hs.
    + by rewrite rev_involutive.
    + by apply rpath_in_rev.
    + apply NoDup_ListNoDup, List.NoDup_rev, NoDup_ListNoDup. done.
  - eapply IH; [|exact H].
    apply Forall_app. split.
    + eapply Forall_impl; [exact Hq|].
      intros q' (? & ? & ? & Hv'). repeat split; try done.
      intros x Hx. apply elem_of_app. left. by apply Hv'.
    + apply Forall_fmap, Forall_forall. intros v Hv'.
      apply elem_of_remove_dups, list_elem_of_filter in Hv' as [Hfresh Hsucc].
      apply elem_of_successors in Hsucc.
      split; [|split; [|split]].
      * change (rev (v :: u :: q)) with (rev (u :: q) ++ [v]).
        destruct (rev (u :: q)); [done|]. done.
      * split; [done|]. done.
      * apply NoDup_cons. split; [|done]. intros Hin. apply Hfresh. by apply Hv.
      * intros x [->|Hx]%elem_of_cons.
        -- apply elem_of_app. right. apply elem_of_remove_dups.
           apply list_elem_of_filter. split; [done|]. by apply elem_of_successors.
        -- apply elem_of_app. left. by apply Hv.
Qed.

Lemma find_shortest_path_simple G start target p :
  find_shortest_path G start target = Some p → simple_path G start target p.
Proof.
  unfold find_shortest_path. apply bfs_simple.
  constructor; [|constructor]. split; [done|]. split; [done|].
  split; [apply NoDup_singleton|]. done.
Qed.

Lemma has_edge_true G a b : has_edge G a b = true ↔ (a, b) ∈ G.
Proof. unfold has_edge. apply bool_decide_eq_true. Qed.

Lemma elem_of_add_edge G a b e : e ∈ add_edge G a b ↔ e ∈ G ∨ e = (a, b).
Proof.
  unfold add_edge. destruct (has_edge G a b) eqn:H.
  - apply has_edge_true in H. split; [by left|]. by intros [?| ->].
  - rewrite elem_of_app, list_elem_of_singleton. done.
Qed.

Lemma elem_of_remove_edge G a b G' e :
  remove_edge G a b = Ok G' → e ∈ G' ↔ e ∈ G ∧ e ≠ (a, b).
Proof.
  unfold remove_edge. destruct (has_edge G a b); [|done].
  intros [= <-]. rewrite list_elem_of_filter. tauto.
Qed.

Lemma elem_of_remove_node G n e :
  e ∈ remove_node G n ↔ e ∈ G ∧ e.1 ≠ n ∧ e.2 ≠ n.
Proof. unfold remove_node. rewrite list_elem_of_filter. tauto. Qed.

Lemma remove_node_wf G n : graph_wf G → graph_wf (remove_node G n).
Proof. intros H e [He _]%elem_of_remove_node. by apply H. Qed.

Lemma remove_source_id G G1 :
  graph_wf G →
  (∀ e, e ∈ G1 → e ∈ G ∨ e.1 = Src) → (∀ e, e ∈ G → e ∈ G1) →
  ∀ e, e ∈ remove_node G1 Src ↔ e ∈ G.
Proof.
  intros Hwf H1 H2 e. rewrite elem_of_remove_node. split.
  - intros (He & Hs & _). by destruct (H1 e He).
  - intros He. split; [by apply H2|].
    destruct (Hwf e He) as (a & Ha & [Hb|[b Hb]]); rewrite Ha, Hb; done.
Qed.

(** The source edges that [add_agent_to_exchange_graph] adds pass the
    gate of the loop. *)
Lemma add_source_edges_spec agent items bundle G desired G1 :
  add_source_edges agent items bundle G desired = Ok G1 →
  (∀ e, e ∈ G → e ∈ G1)
  ∧ ∀ e, e ∈ G1 → e ∈ G ∨
      ∃ i g, e = (Src, It i) ∧ items !! i = Some g
             ∧ item_in g bundle = false.
Proof.
  revert G. induction desired as [|i desired IH]; intros G H; simpl in H.
  - injection H as <-. split; [done|]. by left.
  - destruct (index items i) as [g|] eqn:Eg; simpl in H; [|discriminate].
    destruct (negb (item_in g bundle) && _) eqn:Egate.
    + destruct (IH _ H) as [H1 H2]. split.
      * intros e He. apply H1, elem_of_add_edge. by left.
      * intros e He. destruct (H2 e He) as [[?| ->]%elem_of_add_edge|?];
          [by left| |by right].
        right. exists i, g. split; [done|]. split; [by apply index_Ok|].
        apply andb_true_iff in Egate as [Hg _]. by apply negb_true_iff.
    + by apply IH.
Qed.

Lemma column_lookup X j c i row :
  column X j = Ok c → X !! i = Some row → row !! j = c !! i.
Proof.
  revert c i. induction X as [|r X IH]; intros c i H Hr; [done|].
  simpl in H. inv_bind H. injection H as <-. apply index_Ok in E.
  destruct i as [|i]; simpl in *.
  - injection Hr as ->. done.
  - by apply IH.
Qed.

Lemma column_length X j c : column X j = Ok c → length c = length X.
Proof.
  revert c. induction X as [|r X IH]; intros c H; simpl in H.
  - by injection H as <-.
  - inv_bind H. injection H as <-. simpl. f_equal. by apply IH.
Qed.

Lemma bundle_loop_acc items k l acc b x :
  bundle_loop items k l acc = Ok b → x ∈ acc → x ∈ b.
Proof.
  revert k acc. induction l as [|y l IH]; intros k acc H Hx; simpl in H.
  - by injection H as <-.
  - destruct (Z.eqb y 1).
    + inv_bind H. eapply IH; [exact H|]. apply elem_of_app. by left.
    + by eapply IH.
Qed.

Lemma bundle_loop_elem items k l acc b i g :
  bundle_loop items k l acc = Ok b →
  l !! i = Some 1 → items !! (k + i)%nat = Some g → g ∈ b.
Proof.
  revert k acc i.
  induction l as [|x l IH]; intros k acc i H Hi Hg; [done|].
  simpl in H. destruct i as [|i]; simpl in Hi.
  - injection Hi as ->. simpl in H. rewrite Nat.add_0_r in Hg.
    apply index_Ok in Hg. rewrite Hg in H. simpl in H.
    eapply bundle_loop_acc; [exact H|]. apply elem_of_app. right. left.
  - replace (k + S i)%nat with (S k + i)%nat in Hg by lia.
    destruct (Z.eqb x 1).
    + inv_bind H. by eapply IH.
    + by eapply IH.
Qed.

Lemma bundle_contains X items j b i g :
  get_bundle_from_allocation_matrix X items j = Ok b →
  getX X i j = Ok 1 → items !! i = Some g → g ∈ b.
Proof.
  unfold get_bundle_from_allocation_matrix. intros H Hx Hg. inv_bind H.
  apply getX_Ok in Hx as (row & Hr & Hv).
  eapply bundle_loop_elem; [exact H| |exact Hg].
  by rewrite <- (column_lookup _ _ _ _ _ E Hr).
Qed.

Lemma item_in_elem g bundle : g ∈ bundle → item_in g bundle = true.
Proof.
  intros H. unfold item_in. apply existsb_exists. exists g.
  split; [by apply list_elem_of_In|]. unfold item_eqb. apply Z.eqb_refl.
Qed.

Lemma item_edges_changed_refl G : item_edges_changed G G.
Proof. split; [by left|done]. Qed.

Lemma item_edges_changed_trans G1 G2 G3 :
  item_edges_changed G1 G2 → item_edges_changed G2 G3 →
  item_edges_changed G1 G3.
Proof.
  intros [H1 H1'] [H2 H2']. split.
  - intros e He. destruct (H2 e He) as [?|?]; [by apply H1|by right].
  - intros u Hu. by apply H2', H1'.
Qed.

Lemma item_edges_changed_add G a b :
  item_edges_changed G (add_edge G (It a) (It b)).
Proof.
  split.
  - intros e [?| ->]%elem_of_add_edge; [by left|right; eauto].
  - intros u Hu. apply elem_of_add_edge. by left.
Qed.

Lemma item_edges_changed_remove G a b G' :
  remove_edge G (It a) (It b) = Ok G' → item_edges_changed G G'.
Proof.
  intros H. split.
  - intros e [? _]%(elem_of_remove_edge _ _ _ _ _ H). by left.
  - intros u Hu. apply (elem_of_remove_edge _ _ _ _ _ H). done.
Qed.

Lemma edges_from_item_changed X agents items item_idx item_1 owners G l G' :
  edges_from_item X agents items item_idx item_1 owners G l = Ok G' →
  item_edges_changed G G'.
Proof.
  revert G. induction l as [|i2 l IH]; intros G H; simpl in H.
  - injection H as <-. apply item_edges_changed_refl.
  - destruct (decide (i2 ≠ item_idx)); [|by apply IH].
    inv_bind H. eapply item_edges_changed_trans; [|by apply IH].
    destruct a0.
    + destruct (negb (has_edge G (It item_idx) (It i2))); injection E1 as <-.
      * apply item_edges_changed_add.
      * apply item_edges_changed_refl.
    + destruct (has_edge G (It item_idx) (It i2)).
      * by eapply item_edges_changed_remove.
      * injection E1 as <-. apply item_edges_changed_refl.
Qed.

Lemma edges_from_bundles_changed X agents items desired G l G' :
  edges_from_bundles X agents items desired G l = Ok G' →
  item_edges_changed G G'.
Proof.
  revert G. induction l as [|i l IH]; intros G H; simpl in H.
  - injection H as <-. apply item_edges_changed_refl.
  - inv_bind H. eapply item_edges_changed_trans; [|by apply IH].
    by eapply edges_from_item_changed.
Qed.

Lemma desired_items_loop_no_None agents items l acc r :
  desired_items_loop agents items l acc = Ok r → None ∉ l.
Proof.
  revert acc. induction l as [|[j|] l IH]; intros acc H; simpl in H.
  - apply not_elem_of_nil.
  - inv_bind H. apply not_elem_of_cons. split; [done|]. by eapply IH.
  - discriminate.
Qed.

(** What [update_exchange_graph] does to the graph, when it returns. *)
Lemma update_exchange_graph_spec X G agents items path_og inv G' :
  update_exchange_graph X G agents items path_og inv = Ok G' →
  (None ∉ inv)
  ∧ ∃ G1, drop_sink_edge X G agents path_og = Ok G1
          ∧ item_edges_changed G1 G'.
Proof.
  unfold update_exchange_graph. intros H. inv_bind H.
  split.
  - unfold get_multiple_agents_desired_items in E0. inv_bind E0.
    by eapply desired_items_loop_no_None.
  - eexists. split; [done|]. by eapply edges_from_bundles_changed.
Qed.

Lemma drop_sink_edge_spec X G agents path_og G1 :
  drop_sink_edge X G agents path_og = Ok G1 →
  ∃ last_item s,
    head (rev (path_items path_og)) = Some (It last_item)
    ∧ getX X last_item (length agents) = Ok s
    ∧ (∀ e, e ∈ G1 ↔ e ∈ G ∧ (s = 0 → e ≠ (It last_item, Sink))).
Proof.
  unfold drop_sink_edge. intros H.
  destruct (head (rev (path_items path_og))) as [ln|]; simpl in H;
    [|discriminate].
  inv_bind H. apply node_index_Ok in E as ->.
  exists a, a0. split; [done|]. split; [done|]. intros e.
  destruct (Z.eqb_spec a0 0) as [->|Hne].
  - rewrite (elem_of_remove_edge _ _ _ _ _ H). split.
    + intros [? ?]. done.
    + intros [? Hs]. split; [done|]. by apply Hs.
  - injection H as <-. split; [|tauto]. intros ?. split; [done|]. done.
Qed.

Lemma head_rev_cons {A} (x : A) (l : list A) :
  l ≠ [] → head (rev (x :: l)) = head (rev l).
Proof.
  intros Hl. change (rev (x :: l)) with (rev l ++ [x]).
  destruct (rev l) eqn:E; [|done].
  apply (f_equal (@length A)) in E. rewrite length_rev in E.
  destruct l; done.
Qed.

Lemma item_path_shape G G1 q a :
  graph_wf G →
  (∀ e, e ∈ G1 → e ∈ G ∨ ∃ i, e = (Src, It i)) →
  path_in G1 (It a :: q) → head (rev (It a :: q)) = Some Sink →
  ∃ path ik, It a :: q = (It <$> (a :: path)) ++ [Sink]
             ∧ head (rev (a :: path)) = Some ik ∧ (It ik, Sink) ∈ G.
Proof.
  intros Hwf HG1. revert a. induction q as [|v q IH]; intros a Hp Hl; [done|].
  destruct Hp as [Hav Hp].
  assert (Hav' : (It a, v) ∈ G).
  { destruct (HG1 _ Hav) as [?|[i [=]]]. done. }
  destruct (Hwf _ Hav') as (a' & _ & [Hv|[b Hv]]); simpl in Hv; subst v.
  - destruct q as [|w q].
    + exists [], a. done.
    + destruct Hp as [Hsw _]. exfalso.
      destruct (HG1 _ Hsw) as [Hin|[i [=]]].
      destruct (Hwf _ Hin) as (? & [=] & _).
  - rewrite head_rev_cons in Hl by done.
    destruct (IH b Hp Hl) as (path & ik & Heq & Hk & Hin).
    exists (b :: path), ik. split; [|split; [|done]].
    + rewrite fmap_cons. simpl. f_equal. exact Heq.
    + rewrite head_rev_cons by done. done.
Qed.

Lemma source_path_shape G G1 p :
  graph_wf G →
  (∀ e, e ∈ G1 → e ∈ G ∨ ∃ i, e = (Src, It i)) →
  simple_path G1 Src Sink p →
  ∃ path i1 ik,
    p = Src :: (It <$> path) ++ [Sink]
    ∧ NoDup path
    ∧ head path = Some i1 ∧ (Src, It i1) ∈ G1
    ∧ head (rev path) = Some ik ∧ (It ik, Sink) ∈ G.
Proof.
  intros Hwf HG1 (Hh & Hl & Hp & Hnd).
  destruct p as [|s p]; [done|]. injection Hh as ->.
  destruct p as [|x p]; [done|].
  destruct Hp as [Hsx Hp].
  assert (∃ i1, x = It i1) as [i1 ->].
  { destruct (HG1 _ Hsx) as [Hin|[i [= ->]]]; [|eauto].
    destruct (Hwf _ Hin) as (? & [=] & _). }
  rewrite head_rev_cons in Hl by done.
  destruct (item_path_shape G G1 p i1 Hwf HG1 Hp Hl)
    as (path & ik & Heq & Hk & Hin).
  exists (i1 :: path), i1, ik. rewrite Heq. repeat split; try done.
  apply NoDup_cons in Hnd as [_ Hnd]. rewrite Heq in Hnd.
  apply NoDup_app in Hnd as (Hnd & _ & _).
  eapply NoDup_fmap_1. exact Hnd.
Qed.

(** The fuel of the search is never what ends it: every node enters the
    queue at most once, and only the start or the head of an edge does,
    so any two amounts of fuel that cover the nodes still to be visited
    give the same answer. *)
Lemma bfs_fuel (G : graph) target (nodes : list node) (f1 f2 : nat)
    visited queue :
  NoDup visited → visited ⊆ nodes →
  (∀ e, e ∈ G → e.2 ∈ nodes) →
  (length queue + length nodes ≤ f1 + length visited)%nat →
  (length queue + length nodes ≤ f2 + length visited)%nat →
  bfs G target f1 visited queue = bfs G target f2 visited queue.
Proof.
  intros Hnd Hsub HG. revert f2 visited queue Hnd Hsub.
  assert (∀ visited : list node, NoDup visited → visited ⊆ nodes →
          (length visited ≤ length nodes)%nat) as Hlen.
  { intros v Hv Hs. apply submseteq_length, NoDup_submseteq; done. }
  assert (∀ f visited queue, NoDup visited → visited ⊆ nodes →
          (length queue + length nodes ≤ length visited)%nat →
          bfs G target f visited queue = None) as Hend.
  { intros f v q Hv Hs Hle. specialize (Hlen v Hv Hs).
    destruct q; [by destruct f|]. simpl in Hle. lia. }
  induction f1 as [|f1 IH]; intros f2 visited queue Hnd Hsub H1 H2.
  { rewrite (Hend 0%nat), (Hend f2); try done. }
  destruct f2 as [|f2].
  { rewrite (Hend (S f1)), (Hend 0%nat); try done. }
  destruct queue as [|[|u p] queue]; [done..|].
  cbn [bfs]. destruct (decide (u = target)); [done|].
  set (fresh := remove_dups (filter (λ v, v ∉ visited) (successors G u))).
  assert (NoDup (visited ++ fresh)) as Hnd'.
  { apply NoDup_app. split; [done|]. split; [|apply NoDup_remove_dups].
    intros x Hx Hf. apply elem_of_remove_dups, list_elem_of_filter in Hf.
    by destruct Hf. }
  assert (visited ++ fresh ⊆ nodes) as Hsub'.
  { intros x [Hx|Hx]%elem_of_app; [by apply Hsub|].
    apply elem_of_remove_dups, list_elem_of_filter in Hx as [_ Hx].
    apply elem_of_successors in Hx. by apply (HG (u, x)). }
  apply IH; try done;
    rewrite !length_app, length_map; simpl in H1, H2; lia.
Qed.

(** [find_shortest_path] gives the search all the fuel it can use. *)
Lemma find_shortest_path_fuel (G : graph) start end_ (fuel : nat) :
  (S (length G) ≤ fuel)%nat →
  bfs G end_ fuel [start] [[start]] = find_shortest_path G start end_.
Proof.
  intros Hf. unfold find_shortest_path.
  assert (length (remove_dups G.*2) ≤ length G)%nat as Hl.
  { rewrite <- (length_fmap snd G).
    apply submseteq_length, NoDup_submseteq; [apply NoDup_remove_dups|].
    intros x. by rewrite elem_of_remove_dups. }
  apply (bfs_fuel G end_ (start :: remove_dups (G.*2))).
  - apply NoDup_singleton.
  - intros x ->%list_elem_of_singleton. apply elem_of_cons. by left.
  - intros e He. apply elem_of_cons. right.
    apply elem_of_remove_dups, list_elem_of_fmap. by exists e.
  - simpl. lia.
  - simpl. lia.
Qed.

(** A search that ends without a path has visited a set of nodes that is
    closed under the edges of [G] and does not hold the target. *)
Lemma bfs_None_closed (G : graph) target (nodes : list node) (fuel : nat)
    visited queue :
  NoDup visited → visited ⊆ nodes →
  (∀ e, e ∈ G → e.2 ∈ nodes) →
  (length queue + length nodes ≤ fuel + length visited)%nat →
  Forall (λ q, q ≠ []) queue →
  (∀ v, v ∈ visited →
     (∃ p, v :: p ∈ queue) ∨ (v ≠ target ∧ ∀ w, (v, w) ∈ G → w ∈ visited)) →
  bfs G target fuel visited queue = None →
  ∃ closed : list node,
    visited ⊆ closed ∧ (target ∉ closed)
    ∧ ∀ v w, v ∈ closed → (v, w) ∈ G → w ∈ closed.
Proof.
  intros Hnd Hsub HG. revert visited queue Hnd Hsub.
  assert (∀ visited : list node, NoDup visited → visited ⊆ nodes →
          (length visited ≤ length nodes)%nat) as Hlen.
  { intros v Hv Hs. apply submseteq_length, NoDup_submseteq; done. }
  assert (∀ visited : list node,
    (∀ v, v ∈ visited →
       (∃ p : list node, v :: p ∈ []) ∨
       (v ≠ target ∧ ∀ w, (v, w) ∈ G → w ∈ visited)) →
    ∃ closed : list node,
      visited ⊆ closed ∧ (target ∉ closed)
      ∧ ∀ v w, v ∈ closed → (v, w) ∈ G → w ∈ closed) as Hdone.
  { intros visited Hinv. exists visited. split; [done|]. split.
    - intros Ht. destruct (Hinv _ Ht) as [[p Hp]|[Hne _]]; [|done].
      by apply elem_of_nil in Hp.
    - intros v w Hv Hvw. destruct (Hinv _ Hv) as [[p Hp]|[_ Hcl]].
      + by apply elem_of_nil in Hp.
      + by apply Hcl. }
  induction fuel as [|fuel IH]; intros visited queue Hnd Hsub Hf Hq Hinv H.
  { specialize (Hlen visited Hnd Hsub).
    destruct queue; [by apply Hdone|]. simpl in Hf. lia. }
  destruct queue as [|[|u p] queue]; [by apply Hdone| |].
  { by apply Forall_cons in Hq as [? _]. }
  apply Forall_cons in Hq as [_ Hq].
  cbn [bfs] in H. destruct (decide (u = target)) as [|Hne]; [done|].
  set (fresh := remove_dups (filter (λ v, v ∉ visited) (successors G u))) in *.
  assert (∀ x, x ∈ fresh ↔ (x ∉ visited) ∧ (u, x) ∈ G) as Hfresh.
  { intros x. unfold fresh.
    by rewrite elem_of_remove_dups, list_elem_of_filter, elem_of_successors. }
  destruct (IH (visited ++ fresh)
              (queue ++ map (λ v, v :: u :: p) fresh)) as (cl & Hc1 & Hc2 & Hc3).
  - apply NoDup_app. split; [done|]. split; [|apply NoDup_remove_dups].
    intros x Hx Hf'. apply Hfresh in Hf'. by destruct Hf'.
  - intros x [Hx|Hx]%elem_of_app; [by apply Hsub|].
    apply Hfresh in Hx as [_ Hx]. by apply (HG (u, x)).
  - rewrite !length_app, length_map. simpl in Hf. lia.
  - apply Forall_app. split; [done|]. by apply Forall_fmap, Forall_forall.
  - intros v [Hv|Hv]%elem_of_app.
    + destruct (Hinv _ Hv) as [[p' [Hp'|Hp']%elem_of_cons]|[Hvt Hcl]].
      * injection Hp' as -> ->. right. split; [done|].
        intros w Hw. apply elem_of_app.
        destruct (decide (w ∈ visited)); [by left|].
        right. by apply Hfresh.
      * left. exists p'. apply elem_of_app. by left.
      * right. split; [done|]. intros w Hw. apply elem_of_app. left.
        by apply Hcl.
    + left. exists (u :: p). apply elem_of_app. right.
      apply (list_elem_of_fmap_2 (λ v, v :: u :: p)). done.
  - exact H.
  - exists cl. split; [|done]. intros x Hx. apply Hc1, elem_of_app. by left.
Qed.

(** [find_shortest_path] answers [False] only when [G] has no path from
    the start to the end node. *)
Lemma find_shortest_path_None (G : graph) start end_ p :
  find_shortest_path G start end_ = None →
  head p = Some start → path_in G p → end_ ∉ p.
Proof.
  intros H Hh Hp. unfold find_shortest_path in H.
  assert (length (remove_dups G.*2) ≤ length G)%nat as Hl.
  { rewrite <- (length_fmap snd G).
    apply submseteq_length, NoDup_submseteq; [apply NoDup_remove_dups|].
    intros x. by rewrite elem_of_remove_dups. }
  apply (bfs_None_closed G end_ (start :: remove_dups (G.*2))) in H
    as (cl & Hc1 & Hc2 & Hc3).
  - assert (∀ x, x ∈ p → x ∈ cl) as Hall; [|intros Hin; by apply Hc2, Hall].
    assert (start ∈ cl) as Hs.
    { apply Hc1, list_elem_of_singleton. done. }
    clear Hc1 Hl. revert start Hs Hh Hp.
    induction p as [|a p IH]; intros s Hs Hh Hp x Hx; [by apply elem_of_nil in Hx|].
    injection Hh as ->.
    apply elem_of_cons in Hx as [->|Hx]; [done|].
    destruct p as [|b p]; [by apply elem_of_nil in Hx|].
    destruct Hp as [Hab Hp].
    eapply (IH b); [by eapply Hc3|done|exact Hp|exact Hx].
  - apply NoDup_singleton.
  - intros x ->%list_elem_of_singleton. apply elem_of_cons. by left.
  - intros e He. apply elem_of_cons. right.
    apply elem_of_remove_dups, list_elem_of_fmap. by exists e.
  - simpl. lia.
  - by apply Forall_singleton.
  - intros v ->%list_elem_of_singleton. left. exists []. apply list_elem_of_singleton.
    done.
Qed.

(** * Properties of SELECT *)

Lemma Qle_bool_refl a : Qle_bool a a = true.
Proof. apply Qle_bool_iff, Qle_refl. Qed.

Lemma Qle_bool_trans a b c :
  Qle_bool a b = true → Qle_bool b c = true → Qle_bool a c = true.
Proof. rewrite !Qle_bool_iff. apply Qle_trans. Qed.

Lemma Qle_bool_total a b : Qle_bool a b = false → Qle_bool b a = true.
Proof.
  intros H. apply Qle_bool_iff, Qlt_le_weak, Qnot_le_lt.
  intros Hab%Qle_bool_iff. congruence.
Qed.

Lemma gain_leb_refl a : gain_leb a a = true.
Proof. destruct a; simpl; [done| |done]. apply Qle_bool_refl. Qed.

Lemma gain_leb_trans a b c :
  gain_leb a b = true → gain_leb b c = true → gain_leb a c = true.
Proof.
  destruct a, b, c; simpl; try done. apply Qle_bool_trans.
Qed.

Lemma gain_leb_total a b : gain_leb a b = false → gain_leb b a = true.
Proof. destruct a, b; simpl; try done. apply Qle_bool_total. Qed.

Lemma gain_ltb_leb a b : gain_ltb a b = true → gain_leb a b = true.
Proof. unfold gain_ltb. intros H%negb_true_iff. by apply gain_leb_total. Qed.

Lemma gain_leb_ltb_trans a b c :
  gain_leb a b = true → gain_ltb b c = true → gain_ltb a c = true.
Proof.
  unfold gain_ltb. rewrite !negb_true_iff. intros Hab Hcb.
  destruct (gain_leb c a) eqn:Hca; [|done].
  by rewrite (gain_leb_trans _ _ _ Hca Hab) in Hcb.
Qed.

Lemma gain_leb_NegInf g : gain_leb g NegInf = true → g = NegInf.
Proof. by destruct g. Qed.

Lemma argmax_loop_spec (v : list gain) i rest best_i best :
  drop i v = rest → (best_i < i)%nat → v !! best_i = Some best →
  (∀ j g, (j < i)%nat → v !! j = Some g → gain_leb g best = true) →
  (∀ j g, (j < best_i)%nat → v !! j = Some g → gain_ltb g best = true) →
  ∃ gp, v !! argmax_loop i rest best_i best = Some gp
        ∧ (∀ j g, v !! j = Some g → gain_leb g gp = true)
        ∧ (∀ j g, (j < argmax_loop i rest best_i best)%nat →
                  v !! j = Some g → gain_ltb g gp = true).
Proof.
  revert i best_i best. induction rest as [|g rest IH];
    intros i best_i best Hd Hb Hbest Hle Hlt; simpl.
  - exists best. split; [done|]. split; [|done].
    intros j gj Hj. apply (Hle j); [|done].
    apply lookup_lt_Some in Hj. apply drop_nil_inv in Hd. lia.
  - assert (Hi : v !! i = Some g).
    { rewrite <- (Nat.add_0_r i), <- lookup_drop, Hd. done. }
    assert (Hd' : drop (S i) v = rest).
    { rewrite <- (Nat.add_1_r i), <- drop_drop, Hd. done. }
    destruct (gain_ltb best g) eqn:Hbg.
    + apply IH; try done; [lia| |].
      * intros j gj Hj Hgj. destruct (decide (j = i)) as [->|Hne].
        -- rewrite Hi in Hgj. injection Hgj as ->. apply gain_leb_refl.
        -- apply gain_ltb_leb. eapply gain_leb_ltb_trans; [|exact Hbg].
           apply (Hle j); [lia|done].
      * intros j gj Hj Hgj. eapply gain_leb_ltb_trans; [|exact Hbg].
        apply (Hle j); [lia|done].
    + apply IH; try done; [lia|].
      intros j gj Hj Hgj. destruct (decide (j = i)) as [->|Hne].
      * rewrite Hi in Hgj. injection Hgj as ->.
        unfold gain_ltb in Hbg. by apply negb_false_iff in Hbg.
      * apply (Hle j); [lia|done].
Qed.

Lemma argmax_spec (v : list gain) :
  v ≠ [] →
  ∃ p gp, argmax v = Ok p ∧ v !! p = Some gp
          ∧ (∀ j g, v !! j = Some g → gain_leb g gp = true)
          ∧ (∀ j g, (j < p)%nat → v !! j = Some g → gain_ltb g gp = true).
Proof.
  destruct v as [|g rest]; [done|]. intros _. simpl.
  assert (Hle : ∀ j gj, (j < 1)%nat → (g :: rest) !! j = Some gj →
                        gain_leb gj g = true).
  { intros [|j] gj Hj Hgj; [|lia]. injection Hgj as ->. apply gain_leb_refl. }
  assert (Hlt : ∀ j gj, (j < 0)%nat → (g :: rest) !! j = Some gj →
                        gain_ltb gj g = true) by (intros; lia).
  destruct (argmax_loop_spec (g :: rest) 1 rest 0 g eq_refl
              (Nat.lt_0_1) eq_refl Hle Hlt) as (gp & H1 & H2 & H3).
  exists (argmax_loop 1 rest 0 g), gp. done.
Qed.

(** SELECT picks an active agent of maximal gain, the lowest-indexed one
    among those of maximal gain. *)
Lemma argmax_active M st :
  gains_inv M st → players st ≠ [] →
  ∃ p gp, argmax (gain_vector st) = Ok p
    ∧ p ∈ players st
    ∧ gain_vector st !! p = Some gp
    ∧ (∀ j g, j ∈ players st → gain_vector st !! j = Some g →
              gain_leb g gp = true)
    ∧ (∀ j g, j ∈ players st → (j < p)%nat → gain_vector st !! j = Some g →
              gain_ltb g gp = true).
Proof.
  intros [Hlen Hnd Hact] Hpl.
  destruct (players st) as [|j0 pl] eqn:Epl; [done|].
  destruct (proj1 (Hact j0) (list_elem_of_here _ _)) as (g0 & Hg0 & Hne).
  destruct (argmax_spec (gain_vector st)) as (p & gp & Hp & Hgp & Hmax & Htie).
  { intros Hnil. by rewrite Hnil in Hg0. }
  exists p, gp. split; [done|]. split; [|split; [done|split]].
  - apply Hact. exists gp. split; [done|]. intros ->.
    apply Hne, gain_leb_NegInf. by eapply Hmax.
  - intros j g _ Hg. by eapply Hmax.
  - intros j g _ Hj Hg. by eapply Htie.
Qed.

Lemma list_remove_elem (x : nat) l y :
  NoDup l → y ∈ list_remove x l ↔ y ∈ l ∧ y ≠ x.
Proof.
  induction l as [|z l IH]; intros Hnd; simpl.
  - split; [by intros ?%elem_of_nil|]. by intros [?%elem_of_nil _].
  - apply NoDup_cons in Hnd as [Hz Hnd]. destruct (decide (x = z)) as [->|Hne].
    + split.
      * intros Hy. split; [by right|]. by intros ->.
      * intros [[->|Hy]%elem_of_cons Hyz]; done.
    + rewrite !elem_of_cons, (IH Hnd). split.
      * intros [->|[? ?]]; split; auto.
      * intros [[->|?] ?]; auto.
Qed.

Lemma list_remove_NoDup (x : nat) l : NoDup l → NoDup (list_remove x l).
Proof.
  induction l as [|z l IH]; intros Hnd; simpl; [done|].
  apply NoDup_cons in Hnd as [Hz Hnd]. destruct (decide (x = z)); [done|].
  apply NoDup_cons. split; [|by apply IH].
  intros [? _]%list_remove_elem; done.
Qed.

Lemma list_remove_length (x : nat) l :
  x ∈ l → S (length (list_remove x l)) = length l.
Proof.
  induction l as [|z l IH]; simpl; [by intros ?%elem_of_nil|].
  destruct (decide (x = z)) as [->|Hne]; [done|].
  intros [->|Hx]%elem_of_cons; [done|]. simpl. f_equal. by apply IH.
Qed.

Lemma get_gain_function_finite pw X agents items picked crit weights g :
  get_gain_function pw X agents items picked crit weights = Ok g →
  g ≠ NegInf.
Proof.
  unfold get_gain_function. intros H. inv_bind H.
  destruct crit.
  - by injection H as <-.
  - inv_bind H. destruct (Qeq_bool _ _); [done|]. by injection H as <-.
  - inv_bind H. destruct (Qeq_bool _ _); by injection H as <-.
  - inv_bind H. destruct (Qeq_bool _ _); [done|]. by injection H as <-.
Qed.

(** * Invariants of the engine: proofs *)

Lemma transfer_loop_values agents items picked rpath inv X inv' X' :
  transfer_loop agents items picked rpath inv X = Return inv' X' →
  None ∉ inv' →
  ∀ i j v, getX X' i j = Ok v → getX X i j = Ok v ∨ v = 0 ∨ v = 1.
Proof.
  revert inv X. induction rpath as [|l rest IH]; intros inv X H Hnone i j v Hv.
  { simpl in H. injection H as <- <-. by left. }
  destruct rest as [|n rest'].
  - simpl in H.
    destruct (node_index l) as [li|] eqn:El; simpl in H; [|discriminate].
    destruct (setX X li picked 1) as [X1|] eqn:E1; [|discriminate].
    injection H as <- <-.
    rewrite (getX_setX _ _ _ _ _ i j E1) in Hv.
    destruct (decide _); [injection Hv as <-; auto|by left].
  - cbn [transfer_loop] in H.
    destruct (node_index n) as [ni|] eqn:En; simpl in H; [|discriminate].
    destruct (node_index l) as [li|] eqn:El; simpl in H; [|discriminate].
    destruct (find_agent X agents items ni li) as [ca|] eqn:Ef; simpl in H;
      [|discriminate].
    destruct (assign X li ca 1) as [X1|] eqn:E1; [|discriminate].
    destruct (assign X1 ni ca 0) as [X2|] eqn:E2; [|discriminate].
    apply node_index_Ok in El as ->, En as ->.
    destruct (transfer_loop_frame agents items picked (It ni :: rest')
                (inv ++ [ca]) X2 inv' X' H Hnone)
      as ((found & -> & _) & _).
    destruct ca as [c|].
    2:{ exfalso. apply Hnone. rewrite <- app_assoc. simpl.
        apply elem_of_app. right. left. }
    simpl in E1, E2.
    destruct (IH (inv ++ [Some c]) X2 H Hnone i j v Hv) as [Hv2|?];
      [|by right].
    rewrite (getX_setX _ _ _ _ _ i j E2) in Hv2.
    destruct (decide _); [injection Hv2 as <-; auto|].
    rewrite (getX_setX _ _ _ _ _ i j E1) in Hv2.
    destruct (decide _); [injection Hv2 as <-; auto|by left].
Qed.

Lemma update_allocation_values X agents items path_og picked inv' X' :
  update_allocation X agents items path_og picked = Return inv' X' →
  None ∉ inv' →
  ∀ i j v, j ≠ length agents → getX X' i j = Ok v →
           getX X i j = Ok v ∨ v = 0 ∨ v = 1.
Proof.
  unfold update_allocation. intros H Hnone i j v Hj Hv.
  destruct (head (rev (path_items path_og))) as [ln|] eqn:Eh; simpl in H;
    [|discriminate].
  destruct (node_index ln) as [li|] eqn:El; simpl in H; [|discriminate].
  destruct (getX X li (length agents)) as [s|] eqn:Es; simpl in H;
    [|discriminate].
  destruct (setX X li (length agents) (int64_pred s)) as [X1|] eqn:E1; [|discriminate].
  destruct (transfer_loop_values _ _ _ _ _ _ _ _ H Hnone i j v Hv) as [Hv1|?];
    [|by right].
  rewrite (getX_setX _ _ _ _ _ i j E1) in Hv1.
  rewrite decide_False in Hv1 by (by intros [_ ?]). by left.
Qed.

(** The initial matrix. *)
Lemma initial_row (agents : list Agent) (item : Item) :
  let row := <[(length agents + 1 - 1)%nat := capacity item]>
               (replicate (length agents + 1) 0) in
  length row = S (length agents)
  ∧ row !! length agents = Some (capacity item)
  ∧ (∀ j, (j < length agents)%nat → row !! j = Some 0)
  ∧ row_sum row = capacity item.
Proof.
  replace (length agents + 1 - 1)%nat with (length agents) by lia.
  replace (length agents + 1)%nat with (S (length agents)) by lia.
  cbv zeta. split; [|split; [|split]].
  - by rewrite length_insert, length_replicate.
  - apply list_lookup_insert_eq. rewrite length_replicate. lia.
  - intros j Hj. rewrite list_lookup_insert_ne by lia.
    apply lookup_replicate. split; [done|lia].
  - rewrite (row_sum_insert _ _ _ 0).
    + assert (Hz : ∀ n, row_sum (replicate n 0) = 0).
      { induction n as [|n IH]; simpl; [done|]. rewrite IH. done. }
      rewrite Hz. lia.
    + apply lookup_replicate. split; [done|lia].
Qed.

Lemma initial_lookup (items : list Item) (agents : list Agent) i :
  initial_matrix items agents !! i
  = (λ item, <[(length agents + 1 - 1)%nat := capacity item]>
               (replicate (length agents + 1) 0)) <$> items !! i.
Proof.
  unfold initial_matrix.
  change (map ?f items) with (f <$> items). by rewrite list_lookup_fmap.
Qed.

Lemma initial_total_slack (items : list Item) (agents : list Agent) :
  total_slack (length agents) (initial_matrix items agents)
  = total_capacity items.
Proof.
  unfold total_slack, total_capacity, initial_matrix.
  change (map ?f items) with (f <$> items).
  rewrite <- list_fmap_compose. f_equal. apply list_fmap_ext.
  intros k item _. simpl.
  destruct (initial_row agents item) as (_ & Hs & _).
  unfold row_slack. by rewrite Hs.
Qed.

Lemma initial_gains_inv agents items :
  gains_inv (length agents) (initial_state agents items).
Proof.
  split; simpl.
  - apply length_replicate.
  - apply NoDup_seq.
  - intros j. rewrite elem_of_seq. split.
    + intros Hj. exists (Fin 0). split; [|done].
      apply lookup_replicate. split; [done|lia].
    + intros (g & [_ Hj]%lookup_replicate & _). lia.
Qed.

Lemma initial_shape_inv agents items :
  shape_inv agents items (initial_state agents items).
Proof.
  split; simpl.
  - unfold initial_matrix. apply length_map.
  - intros i row. rewrite initial_lookup.
    destruct (items !! i) as [item|]; simpl; [|done]. intros [= <-].
    apply initial_row.
  - intros e (i & -> & _)%list_elem_of_fmap. exists i. split; [done|]. by left.
  - intros i j v Hj (row & Hr & Hv)%getX_Ok. rewrite initial_lookup in Hr.
    destruct (items !! i) as [item|] eqn:Hi; simpl in Hr; [|done].
    injection Hr as <-. destruct (initial_row agents item) as (_ & _ & Hz & _).
    rewrite (Hz j Hj) in Hv. injection Hv as <-. by left.
Qed.

Lemma initial_slack_inv agents items :
  (∀ item, item ∈ items → 1 ≤ capacity item) →
  slack_inv agents items (initial_state agents items).
Proof.
  intros Hcap. split; simpl.
  - intros i s (row & Hr & Hs)%getX_Ok. rewrite initial_lookup in Hr.
    destruct (items !! i) as [item|] eqn:Hi; simpl in Hr; [|done].
    injection Hr as <-. destruct (initial_row agents item) as (_ & Hs' & _).
    rewrite Hs' in Hs. injection Hs as <-.
    apply list_elem_of_lookup_2 in Hi. specialize (Hcap _ Hi). lia.
  - intros i (i' & [= <-] & Hi%elem_of_seq)%list_elem_of_fmap.
    destruct (lookup_lt_is_Some_2 items i) as [item Hitem]; [lia|].
    exists (capacity item). split.
    + apply getX_Ok. eexists. rewrite initial_lookup, Hitem. split; [done|].
      apply initial_row.
    + apply list_elem_of_lookup_2 in Hitem. specialize (Hcap _ Hitem). lia.
  - rewrite initial_total_slack, length_seq. lia.
Qed.

Lemma select_and_search_spec agents items X G gains picked path G' :
  select_and_search agents items X G gains = Ok (picked, path, G') →
  graph_wf G →
  argmax gains = Ok picked
  ∧ (∀ e, e ∈ G' ↔ e ∈ G)
  ∧ ∃ G1 bundle,
      get_bundle_from_allocation_matrix X items picked = Ok bundle
      ∧ path = find_shortest_path G1 Src Sink
      ∧ (∀ e, e ∈ G1 → e ∈ G ∨
            ∃ i g, e = (Src, It i) ∧ items !! i = Some g
                   ∧ item_in g bundle = false).
Proof.
  unfold select_and_search, add_agent_to_exchange_graph. intros H Hwf.
  inv_bind H. inv_bind E0. injection H as <- <- <-.
  destruct (add_source_edges_spec _ _ _ _ _ _ E0) as [H1 H2].
  split; [done|]. split.
  - apply remove_source_id; [done| |done].
    intros e He. destruct (H2 e He) as [?|(i & g & -> & _)]; [by left|by right].
  - eauto.
Qed.

Lemma iteration_cases pw agents items crit weights st st' :
  iteration pw agents items crit weights st = Next st' →
  (∃ picked G',
      select_and_search agents items (st_X st) (st_G st) (gain_vector st)
      = Ok (picked, None, G')
      ∧ picked ∈ players st
      ∧ st' = {| st_X := st_X st; st_G := G';
                 players := list_remove picked (players st);
                 gain_vector := <[picked := NegInf]> (gain_vector st);
                 count := S (count st);
                 agents_involved_arr := agents_involved_arr st ++ [0%nat] |})
  ∨ (∃ picked p G' inv X' G'' g,
      select_and_search agents items (st_X st) (st_G st) (gain_vector st)
      = Ok (picked, Some p, G')
      ∧ update_allocation (st_X st) agents items p picked = Return inv X'
      ∧ update_exchange_graph X' G' agents items p inv = Ok G''
      ∧ get_gain_function pw X' agents items picked crit weights = Ok g
      ∧ st' = {| st_X := X'; st_G := G''; players := players st;
                 gain_vector := <[picked := g]> (gain_vector st);
                 count := S (count st);
                 agents_involved_arr :=
                   agents_involved_arr st ++ [length inv] |}).
Proof.
  unfold iteration. cbn [st_X st_G players gain_vector count agents_involved_arr].
  destruct (select_and_search _ _ _ _ _) as [[[picked [p|]] G']|e]; [| |done].
  - destruct (update_allocation _ _ _ _ _) as [inv X'|] eqn:Eu; [|done].
    destruct (update_exchange_graph _ _ _ _ _ _) as [G''|] eqn:Eg; [|done].
    destruct (get_gain_function _ _ _ _ _ _ _) as [g|] eqn:Ef; [|done].
    intros [= <-]. right. by exists picked, p, G', inv, X', G'', g.
  - destruct (bool_decide (picked ∈ players st)) eqn:Hin; [|done].
    apply bool_decide_eq_true in Hin. intros [= <-]. left.
    by exists picked, G'.
Qed.

Lemma iteration_Failed_count pw agents items crit weights st e st' :
  iteration pw agents items crit weights st = Failed e st' →
  count st' = S (count st).
Proof.
  unfold iteration. cbn [st_X st_G players gain_vector count agents_involved_arr].
  destruct (select_and_search _ _ _ _ _) as [[[picked [p|]] G']|e'].
  - destruct (update_allocation _ _ _ _ _) as [inv X'|].
    + destruct (update_exchange_graph _ _ _ _ _ _) as [G''|].
      * destruct (get_gain_function _ _ _ _ _ _ _) as [g|]; [done|].
        by intros [= <- <-].
      * by intros [= <- <-].
    + by intros [= <- <-].
  - destruct (bool_decide (picked ∈ players st)); [done|]. by intros [= <- <-].
  - by intros [= <- <-].
Qed.

Lemma select_and_search_picked agents items X G gains picked path G' :
  select_and_search agents items X G gains = Ok (picked, path, G') →
  argmax gains = Ok picked.
Proof.
  unfold select_and_search. intros H. inv_bind H. by injection H as <- _ _.
Qed.

Lemma iteration_gains_inv pw agents items crit weights st st' :
  gains_inv (length agents) st → players st ≠ [] →
  iteration pw agents items crit weights st = Next st' →
  gains_inv (length agents) st'.
Proof.
  intros Hg Hpl Hit.
  destruct (argmax_active _ _ Hg Hpl) as (p & gp & Hp & Hin & Hgp & _).
  destruct Hg as [Hlen Hnd Hact].
  apply iteration_cases in Hit
    as [(picked & G' & Hs & Hpin & ->)
       |(picked & pth & G' & inv & X' & G'' & g & Hs & Hu & Hg' & Hgain & ->)];
    apply select_and_search_picked in Hs; rewrite Hp in Hs;
    injection Hs as <-; split; simpl.
  - by rewrite length_insert.
  - by apply list_remove_NoDup.
  - intros j. rewrite list_remove_elem by done. rewrite Hact.
    destruct (decide (j = p)) as [->|Hne].
    + rewrite list_lookup_insert_eq by (by eapply lookup_lt_Some).
      split; [by intros [_ ?]|]. by intros (g & [= <-] & ?).
    + rewrite list_lookup_insert_ne by done. split; [by intros [? _]|done].
  - by rewrite length_insert.
  - done.
  - intros j. rewrite Hact.
    destruct (decide (j = p)) as [->|Hne].
    + rewrite list_lookup_insert_eq by (by eapply lookup_lt_Some).
      split.
      * intros _. exists g. split; [done|].
        by eapply get_gain_function_finite.
      * intros _. apply Hact. done.
    + by rewrite list_lookup_insert_ne.
Qed.

(** The shape of the path that an iteration finds. *)
Lemma path_found_facts agents items st picked p G' :
  graph_wf (st_G st) →
  select_and_search agents items (st_X st) (st_G st) (gain_vector st)
  = Ok (picked, Some p, G') →
  ∃ path i1 ik,
    p = Src :: (It <$> path) ++ [Sink]
    ∧ NoDup path
    ∧ head path = Some i1
    ∧ head (rev path) = Some ik
    ∧ (It ik, Sink) ∈ st_G st
    ∧ (∃ g, items !! i1 = Some g)
    ∧ getX (st_X st) i1 picked ≠ Ok 1.
Proof.
  intros Hwf Hs.
  destruct (select_and_search_spec _ _ _ _ _ _ _ _ Hs Hwf)
    as (_ & _ & G1 & bundle & Hb & Hp & HG1).
  symmetry in Hp. apply find_shortest_path_simple in Hp.
  destruct (source_path_shape (st_G st) G1 p Hwf)
    as (path & i1 & ik & -> & Hnd & Hh & Hsrc & Hl & Hsink); [|done|].
  { intros e He. destruct (HG1 e He) as [?|(i & g & -> & _)]; eauto. }
  exists path, i1, ik. repeat split; try done.
  - destruct (HG1 _ Hsrc) as [Hin|(i & g & [= <-] & Hg & _)]; [|eauto].
    destruct (Hwf _ Hin) as (? & [=] & _).
  - destruct (HG1 _ Hsrc) as [Hin|(i & g & [= <-] & Hg & Hgate)].
    + destruct (Hwf _ Hin) as (? & [=] & _).
    + intros Hx. pose proof (bundle_contains _ _ _ _ _ _ Hb Hx Hg) as Hgin.
      apply item_in_elem in Hgin. congruence.
Qed.

Lemma argmax_lt M st p :
  gains_inv M st → players st ≠ [] → argmax (gain_vector st) = Ok p →
  (p < M)%nat ∧ p ∈ players st.
Proof.
  intros Hg Hpl Hp.
  destruct (argmax_active _ _ Hg Hpl) as (p' & gp & Hp' & Hin & Hgp & _).
  rewrite Hp in Hp'. injection Hp' as <-. split; [|done].
  rewrite <- (gains_length _ _ Hg). by eapply lookup_lt_Some.
Qed.

Lemma head_rev_path_items (path : list nat) ik :
  head (rev path) = Some ik →
  head (rev (path_items (Src :: (It <$> path) ++ [Sink]))) = Some (It ik).
Proof.
  intros H. rewrite path_items_shape, rev_fmap.
  destruct (rev path); [done|]. simpl in *. by injection H as ->.
Qed.

(** What a successful transfer inside an iteration does to the matrix
    and to the graph. *)
Lemma iteration_transfer_shape agents items st picked p G' inv X' G'' :
  graph_wf (st_G st) → (picked < length agents)%nat →
  select_and_search agents items (st_X st) (st_G st) (gain_vector st)
  = Ok (picked, Some p, G') →
  update_allocation (st_X st) agents items p picked = Return inv X' →
  update_exchange_graph X' G' agents items p inv = Ok G'' →
  ∃ ik s,
    (It ik, Sink) ∈ st_G st
    ∧ getX (st_X st) ik (length agents) = Ok s
    ∧ (∀ i, getX X' i (length agents)
            = if decide (i = ik) then Ok (int64_pred s)
              else getX (st_X st) i (length agents))
    ∧ length X' = length (st_X st)
    ∧ (∀ i, length <$> X' !! i = length <$> st_X st !! i)
    ∧ (∀ e, e ∈ G'' → e ∈ st_G st ∨ ∃ a b, e = (It a, It b))
    ∧ (∀ i, (It i, Sink) ∈ G'' →
            (It i, Sink) ∈ st_G st ∧ (i = ik → int64_pred s ≠ 0)).
Proof.
  intros Hwf Hpk Hs Hu Hg.
  destruct (update_exchange_graph_spec _ _ _ _ _ _ _ Hg)
    as (Hnone & G1' & Hdrop & [Hch _]).
  destruct (update_allocation_frame _ _ _ _ _ _ _ Hu Hnone Hpk)
    as (last & s & Hlast & Hsl & HL & HRL & _ & Hcol & _).
  destruct (path_found_facts _ _ _ _ _ _ Hwf Hs)
    as (path & i1 & ik & -> & _ & _ & Hk & Hsink & _).
  rewrite (head_rev_path_items _ _ Hk) in Hlast. injection Hlast as <-.
  destruct (drop_sink_edge_spec _ _ _ _ _ Hdrop) as (last' & s' & Hl' & Hs' & HG1).
  rewrite (head_rev_path_items _ _ Hk) in Hl'. injection Hl' as <-.
  rewrite Hcol, decide_True in Hs' by done. injection Hs' as <-.
  destruct (select_and_search_spec _ _ _ _ _ _ _ _ Hs Hwf) as (_ & HG' & _).
  exists ik, s. repeat split; try done.
  - intros e He. destruct (Hch e He) as [He1|?]; [|by right].
    left. apply HG', HG1. done.
  - destruct (Hch _ H) as [He1|(a & b & [=])].
    apply HG', HG1. done.
  - intros ->. destruct (Hch _ H) as [He1|(a & b & [=])].
    apply HG1 in He1 as [_ Hne]. intros Hz. by apply Hne.
Qed.

Lemma iteration_shape_inv pw agents items crit weights st st' :
  shape_inv agents items st → gains_inv (length agents) st →
  players st ≠ [] →
  iteration pw agents items crit weights st = Next st' →
  shape_inv agents items st'.
Proof.
  intros Hinv Hg Hpl Hit.
  apply iteration_cases in Hit
    as [(picked & G' & Hs & Hpin & ->)
       |(picked & p & G' & inv & X' & G'' & g & Hs & Hu & Hg' & Hgain & ->)].
  - destruct (select_and_search_spec _ _ _ _ _ _ _ _ Hs (inv_graph _ _ _ Hinv))
      as (_ & HG' & _).
    destruct Hinv as [H1 H2 H4 H6]. split; simpl; try done.
    intros e He%HG'. by apply H4.
  - destruct (argmax_lt _ _ _ Hg Hpl (select_and_search_picked _ _ _ _ _ _ _ _ Hs))
      as [Hpk _].
    destruct (iteration_transfer_shape _ _ _ _ _ _ _ _ _
                (inv_graph _ _ _ Hinv) Hpk Hs Hu Hg')
      as (ik & s & _ & Hsl & Hcol & HL & HRL & HG & Hsink).
    destruct (update_exchange_graph_spec _ _ _ _ _ _ _ Hg') as (Hnone & _).
    pose proof (update_allocation_values _ _ _ _ _ _ _ Hu Hnone) as Hval.
    destruct Hinv as [H1 H2 H4 H6]. split; simpl.
    + by rewrite HL.
    + intros i row Hr. specialize (HRL i). rewrite Hr in HRL.
      destruct (st_X st !! i) as [row0|] eqn:Hr0; [|done].
      simpl in HRL. injection HRL as ->. by eapply H2.
    + intros e He. destruct (HG e He) as [?|(a & b & ->)]; [by apply H4|].
      exists a. split; [done|]. right. by exists b.
    + intros i j v Hj Hv.
      destruct (Hval i j v ltac:(lia) Hv) as [?|?]; [by eapply H6|done].
Qed.

Lemma iteration_slack_inv pw agents items crit weights st st' :
  shape_inv agents items st → gains_inv (length agents) st →
  slack_inv agents items st → players st ≠ [] →
  iteration pw agents items crit weights st = Next st' →
  slack_inv agents items st'.
Proof.
  intros Hsh Hg Hinv Hpl Hit.
  apply iteration_cases in Hit
    as [(picked & G' & Hs & Hpin & ->)
       |(picked & p & G' & inv & X' & G'' & g & Hs & Hu & Hg' & Hgain & ->)].
  - destruct (select_and_search_spec _ _ _ _ _ _ _ _ Hs (inv_graph _ _ _ Hsh))
      as (_ & HG' & _).
    destruct Hinv as [H3 H5 H7]. split; simpl; try done.
    + intros i Hi%HG'. by apply H5.
    + rewrite <- H7. pose proof (list_remove_length _ _ Hpin). lia.
  - destruct (argmax_lt _ _ _ Hg Hpl (select_and_search_picked _ _ _ _ _ _ _ _ Hs))
      as [Hpk _].
    destruct (iteration_transfer_shape _ _ _ _ _ _ _ _ _
                (inv_graph _ _ _ Hsh) Hpk Hs Hu Hg')
      as (ik & s & Hik & Hsl & Hcol & HL & HRL & HG & Hsink).
    destruct Hinv as [H3 H5 H7].
    destruct (H5 _ Hik) as (s0 & Hs0 & Hpos).
    rewrite Hsl in Hs0. injection Hs0 as <-.
    rewrite int64_pred_nonneg in Hcol, Hsink by lia.
    split; simpl.
    + intros i s'. rewrite Hcol. destruct (decide (i = ik)).
      * intros [= <-]. lia.
      * apply H3.
    + intros i Hi. destruct (Hsink i Hi) as [Hin Hne].
      destruct (H5 i Hin) as (si & Hsi & Hsipos).
      rewrite Hcol. destruct (decide (i = ik)) as [->|].
      * exists (s - 1). split; [done|]. specialize (Hne eq_refl). lia.
      * by exists si.
    + rewrite (total_slack_decrement _ _ _ ik s HRL Hsl Hcol). lia.
Qed.

(** * The loop stays within its bound *)

Lemma reachable_gains_inv pw agents items crit weights st :
  reachable pw agents items crit weights st → gains_inv (length agents) st.
Proof.
  induction 1 as [|st st' _ IH Hpl Hit]; [apply initial_gains_inv|].
  by eapply iteration_gains_inv.
Qed.

Lemma reachable_shape_inv pw agents items crit weights st :
  reachable pw agents items crit weights st → shape_inv agents items st.
Proof.
  induction 1 as [|st st' Hr IH Hpl Hit]; [apply initial_shape_inv|].
  eapply iteration_shape_inv; [done| |done..].
  by eapply reachable_gains_inv.
Qed.

Lemma reachable_slack_inv pw agents items crit weights st :
  (∀ item, item ∈ items → 1 ≤ capacity item) →
  reachable pw agents items crit weights st → slack_inv agents items st.
Proof.
  intros Hcap. induction 1 as [|st st' Hr IH Hpl Hit];
    [by apply initial_slack_inv|].
  eapply iteration_slack_inv; [| |done..].
  - by eapply reachable_shape_inv.
  - by eapply reachable_gains_inv.
Qed.

Lemma row_sum_nonneg (l : list Z) : Forall (λ x, 0 ≤ x) l → 0 ≤ row_sum l.
Proof. induction 1; simpl; lia. Qed.

Lemma total_slack_nonneg agents items st :
  slack_inv agents items st → 0 ≤ total_slack (length agents) (st_X st).
Proof.
  intros Hinv. unfold total_slack. apply row_sum_nonneg.
  apply Forall_fmap, Forall_forall. intros row Hrow.
  apply list_elem_of_lookup in Hrow as [i Hi]. simpl.
  unfold row_slack. destruct (row !! length agents) as [s|] eqn:Hs; [|done].
  simpl. eapply (inv_slack_nonneg _ _ _ Hinv i). apply getX_Ok. eauto.
Qed.

Lemma total_capacity_nonneg items :
  (∀ item, item ∈ items → 1 ≤ capacity item) → 0 ≤ total_capacity items.
Proof.
  intros Hcap. apply row_sum_nonneg, Forall_fmap, Forall_forall.
  intros item Hitem. simpl. specialize (Hcap _ Hitem). lia.
Qed.

Lemma iteration_Next_count pw agents items crit weights st st' :
  iteration pw agents items crit weights st = Next st' →
  count st' = S (count st).
Proof.
  intros [(? & ? & _ & _ & ->)|(? & ? & ? & ? & ? & ? & ? & _ & _ & _ & _ & ->)]
    %iteration_cases; done.
Qed.


(** The loop itself never ends the way a failed initialisation does. *)
Lemma yankee_loop_not_Raised pw agents items crit weights fuel st e :
  yankee_loop pw agents items crit weights fuel st ≠ Raised e.
Proof.
  revert st. induction fuel as [|fuel IH]; intros st; simpl.
  - by destruct (players st).
  - destruct (players st); [done|].
    destruct (iteration pw agents items crit weights st); [apply IH|done].
Qed.

(** A run either fails when the capacities are stored, or enters the loop
    in the initial state. *)
Lemma general_yankee_swap_cases pw agents items crit weights fuel :
  (general_yankee_swap pw agents items crit weights fuel = Raised OverflowError
   ∧ ∃ item, item ∈ items
             ∧ (capacity item < int64_min ∨ int64_max < capacity item))
  ∨ ((∀ item, item ∈ items → int64_min ≤ capacity item ≤ int64_max)
     ∧ general_yankee_swap pw agents items crit weights fuel
       = yankee_loop pw agents items crit weights fuel
           (initial_state agents items)).
Proof.
  unfold general_yankee_swap.
  destruct (initialize_allocation_matrix items agents) as [X|e] eqn:E.
  - apply initialize_allocation_matrix_Ok in E as [-> Hfit]. by right.
  - apply initialize_allocation_matrix_Err in E as [-> Hbad]. by left.
Qed.

Lemma yankee_loop_OutOfFuel pw agents items crit weights fuel st st' :
  reachable pw agents items crit weights st →
  yankee_loop pw agents items crit weights fuel st = OutOfFuel st' →
  reachable pw agents items crit weights st'.
Proof.
  revert st. induction fuel as [|fuel IH]; intros st Hr; simpl.
  - destruct (players st) eqn:Ep; [done|]. by intros [= <-].
  - destruct (players st) eqn:Ep; [done|].
    destruct (iteration _ _ _ _ _ st) as [st1|] eqn:Eit; [|done].
    apply IH. eapply reachable_next; [done| |done]. by rewrite Ep.
Qed.

Lemma order_state5_reachable :
  reachable no_pow order_agents order_items LorenzDominance [] order_state5.
Proof.
  apply (yankee_loop_OutOfFuel _ _ _ _ _ 5
           (initial_state order_agents order_items));
    [apply reachable_initial|vm_compute; reflexivity].
Qed.

(** * Row sums and configuration errors in the engine *)

Lemma initial_row_sum_invariant items agents :
  row_sum_invariant (initial_matrix items agents) items
    (length agents).
Proof.
  split.
  - unfold initial_matrix. apply length_map.
  - intros i item Hi. eexists. rewrite initial_lookup, Hi. split; [done|].
    destruct (initial_row agents item) as (Hl & _ & _ & Hs). done.
Qed.

Lemma row_sum_invariant_rsum X items M :
  row_sum_invariant X items M →
  ∀ i item, items !! i = Some item → rsum X i = capacity item.
Proof.
  intros [_ H] i item Hi. destruct (H i item Hi) as (row & Hr & _ & Hs).
  unfold rsum. by rewrite Hr.
Qed.

Lemma iteration_row_sum_invariant pw agents items crit weights st st' :
  reachable pw agents items crit weights st → players st ≠ [] →
  row_sum_invariant (st_X st) items (length agents) →
  (∀ i, getX (st_X st) i (length agents) ≠ Ok int64_min) →
  (∀ picked path G',
     select_and_search agents items (st_X st) (st_G st) (gain_vector st)
     = Ok (picked, Some (Src :: (It <$> path) ++ [Sink]), G') →
     owners_clean (st_X st) agents items path) →
  iteration pw agents items crit weights st = Next st' →
  row_sum_invariant (st_X st') items (length agents).
Proof.
  intros Hr Hpl Hinv Hmin Hclean Hit.
  assert (Hr' : reachable pw agents items crit weights st')
    by (by eapply reachable_next).
  pose proof (reachable_shape_inv _ _ _ _ _ _ Hr) as Hsh.
  pose proof (reachable_shape_inv _ _ _ _ _ _ Hr') as Hsh'.
  pose proof (reachable_gains_inv _ _ _ _ _ _ Hr) as Hg.
  assert (Hsum : ∀ i, rsum (st_X st') i = rsum (st_X st) i).
  { apply iteration_cases in Hit
      as [(picked & G' & Hs & Hpin & ->)
         |(picked & p & G' & inv & X' & G'' & g & Hs & Hu & Hg' & Hgain & ->)];
      [done|]. simpl.
    destruct (argmax_lt _ _ _ Hg Hpl
                (select_and_search_picked _ _ _ _ _ _ _ _ Hs)) as [Hpk _].
    destruct (path_found_facts _ _ _ _ _ _ (inv_graph _ _ _ Hsh) Hs)
      as (path & i1 & ik & -> & Hnd & Hh & Hk & Hsink & [g1 Hg1] & Hne).
    assert (Hi1 : getX (st_X st) i1 picked = Ok 0).
    { destruct (proj2 Hinv i1 g1 Hg1) as (row & Hrow & Hlen & _).
      destruct (lookup_lt_is_Some_2 row picked) as [v Hv]; [lia|].
      assert (Hx : getX (st_X st) i1 picked = Ok v) by (apply getX_Ok; eauto).
      destruct (inv_binary _ _ _ Hsh i1 picked v Hpk Hx) as [->| ->];
        [done|by rewrite Hx in Hne]. }
    destruct (update_allocation_clean _ _ _ _ _ _ Hnd Hh Hpk Hi1
                (λ ik _, Hmin ik) (Hclean _ _ _ Hs))
      as (found & X'' & Hu' & Hsum).
    rewrite Hu in Hu'. injection Hu' as _ <-. done. }
  split.
  - by rewrite (inv_rows _ _ _ Hsh').
  - intros i item Hi.
    destruct (lookup_lt_is_Some_2 (st_X st') i) as [row Hrow].
    { rewrite (inv_rows _ _ _ Hsh'). by eapply lookup_lt_Some. }
    exists row. split; [done|]. split; [by eapply inv_cols|].
    specialize (Hsum i). unfold rsum at 1 in Hsum. rewrite Hrow in Hsum.
    simpl in Hsum. rewrite Hsum. by eapply row_sum_invariant_rsum.
Qed.

Lemma column_Err X j e : column X j = Err e → e = IndexError.
Proof.
  induction X as [|row X IH]; simpl; [done|].
  destruct (index row j) eqn:E; simpl.
  - destruct (column X j); simpl; [done|]. intros [= <-]. by apply IH.
  - intros [= <-]. by apply index_Err in E as [_ ->].
Qed.

Lemma bundle_loop_Err items i l acc e :
  bundle_loop items i l acc = Err e → e = IndexError.
Proof.
  revert i acc. induction l as [|x l IH]; intros i acc; simpl; [done|].
  destruct (Z.eqb x 1); [|apply IH].
  destruct (index items i) eqn:E; simpl; [apply IH|].
  intros [= <-]. by apply index_Err in E as [_ ->].
Qed.

Lemma get_bundle_Err X items j e :
  get_bundle_from_allocation_matrix X items j = Err e → e = IndexError.
Proof.
  unfold get_bundle_from_allocation_matrix.
  destruct (column X j) eqn:E; simpl.
  - apply bundle_loop_Err.
  - intros [= <-]. by eapply column_Err.
Qed.

(** Without the weight of the agent picked, a weighted criterion makes
    [get_gain_function] raise [IndexError]. *)
Lemma get_gain_function_missing_weight pw X agents items picked crit weights :
  crit ≠ LorenzDominance → weights !! picked = None →
  get_gain_function pw X agents items picked crit weights = Err IndexError.
Proof.
  intros Hc Hw. unfold get_gain_function.
  destruct (index agents picked) eqn:Ea; simpl.
  2:{ by apply index_Err in Ea as [_ ->]. }
  destruct (get_bundle_from_allocation_matrix X items picked) eqn:Eb; simpl.
  2:{ by apply get_bundle_Err in Eb as ->. }
  assert (Hi : index weights picked = Err IndexError)
    by (apply index_Err; done).
  destruct crit; [done|..]; by rewrite Hi.
Qed.

Lemma yankee_loop_Aborted_count pw agents items crit weights fuel st e st' :
  yankee_loop pw agents items crit weights fuel st = Aborted e st' →
  (1 ≤ count st')%nat.
Proof.
  revert st. induction fuel as [|fuel IH]; intros st; simpl.
  - by destruct (players st).
  - destruct (players st); [done|].
    destruct (iteration pw agents items crit weights st) as [st1|e1 st1] eqn:Hit.
    + apply IH.
    + intros [= <- <-]. apply iteration_Failed_count in Hit. lia.
Qed.

Lemma iteration_missing_weight pw agents items crit weights st
    picked p G' inv X' G'' :
  reachable pw agents items crit weights st → players st ≠ [] →
  select_and_search agents items (st_X st) (st_G st) (gain_vector st)
  = Ok (picked, Some p, G') →
  update_allocation (st_X st) agents items p picked = Return inv X' →
  update_exchange_graph X' G' agents items p inv = Ok G'' →
  crit ≠ LorenzDominance → weights !! picked = None →
  ∃ st', iteration pw agents items crit weights st = Failed IndexError st'
         ∧ st_X st' = X' ∧ count st' = S (count st) ∧ X' ≠ st_X st.
Proof.
  intros Hr Hpl Hs Hu Hg Hc Hw.
  pose proof (get_gain_function_missing_weight pw X' agents items picked
                crit weights Hc Hw) as Hgain.
  eexists. split; [|split; [|split]].
  - unfold iteration.
    cbn [st_X st_G players gain_vector count agents_involved_arr].
    rewrite Hs, Hu, Hg, Hgain. done.
  - done.
  - done.
  - pose proof (reachable_gains_inv _ _ _ _ _ _ Hr) as Hgi.
    destruct (argmax_lt _ _ _ Hgi Hpl
                (select_and_search_picked _ _ _ _ _ _ _ _ Hs)) as [Hpk _].
    destruct (update_exchange_graph_spec _ _ _ _ _ _ _ Hg) as (Hnone & _).
    destruct (update_allocation_frame _ _ _ _ _ _ _ Hu Hnone Hpk)
      as (last & s & _ & Hsl & _ & _ & _ & Hcol & _).
    intros Heq. specialize (Hcol last). rewrite decide_True in Hcol by done.
    rewrite Heq, Hsl in Hcol. injection Hcol as Hcol.
    symmetry in Hcol. by apply int64_pred_neq in Hcol.
Qed.

(** * Agreement of the two engines *)

Lemma transfer_loop_E_agrees agents items picked rpath inv X invE G E
    inv' X' invE' XE GE EE :
  owners_agree agents items rpath X G E →
  inv = Some <$> invE →
  transfer_loop agents items picked rpath inv X = Return inv' X' →
  transfer_loop_E items picked rpath invE (X, G, E) = Return invE' (XE, GE, EE) →
  X' = XE ∧ inv' = Some <$> invE'.
Proof.
  revert inv X invE G E. induction rpath as [|l rest IH];
    intros inv X invE G E Hag Hinv H HE.
  { simpl in H, HE. injection H as <- <-. injection HE as <- <- _ _. done. }
  destruct rest as [|n rest'].
  - simpl in H, HE.
    destruct (node_index l) as [li|]; simpl in H, HE; [|discriminate].
    destruct (setX X li picked 1) as [X1|]; [|discriminate].
    injection H as <- <-. injection HE as <- <- _ _. done.
  - cbn [transfer_loop] in H. cbn [transfer_loop_E] in HE.
    destruct (node_index n) as [ni|] eqn:En; simpl in H, HE; [|discriminate].
    destruct (node_index l) as [li|] eqn:El; simpl in H, HE; [|discriminate].
    destruct (getE E ni li) as [cell|] eqn:Ec; simpl in HE; [|discriminate].
    destruct (index cell 0) as [c|] eqn:E0; simpl in HE; [|discriminate].
    destruct (Hag ni li cell c En El Ec E0) as [Hf Hnext].
    rewrite Hf in H. simpl in H.
    destruct (setX X li c 1) as [X1|] eqn:E1; [|discriminate].
    destruct (setX X1 ni c 0) as [X2|] eqn:E2; [|discriminate].
    destruct (release_edges ni c G E (seq 0 (length items))) as [[G1 E1']|]
      eqn:Er; [|discriminate].
    apply node_index_Ok in El as ->, En as ->.
    eapply (IH (inv ++ [Some c]) X2 (invE ++ [c]) G1 E1').
    + by eapply Hnext.
    + rewrite fmap_app, Hinv. done.
    + exact H.
    + exact HE.
Qed.

Lemma update_allocation_E_agrees X G E agents items path_og picked
    inv X' invE XE GE EE :
  transfer_agrees X G E agents items path_og →
  update_allocation X agents items path_og picked = Return inv X' →
  update_allocation_E X G E agents items path_og picked
  = Return invE (XE, GE, EE) →
  X' = XE ∧ inv = Some <$> invE.
Proof.
  unfold update_allocation, update_allocation_E. intros Hag H HE.
  destruct (head (rev (path_items path_og))) as [ln|] eqn:Eh; simpl in H, HE;
    [|discriminate].
  destruct (node_index ln) as [li|] eqn:El; simpl in H, HE; [|discriminate].
  destruct (getX X li (length agents)) as [s|] eqn:Es; simpl in H, HE;
    [|discriminate].
  destruct (setX X li (length agents) (int64_pred s)) as [X1|] eqn:E1; [|discriminate].
  apply node_index_Ok in El as ->.
  eapply (transfer_loop_E_agrees agents items picked _ [Some picked] X1
            [picked]); [|done|exact H|exact HE].
  by eapply Hag.
Qed.

Lemma iteration_E_cases pw agents items crit weights stE stE' :
  iteration_E pw agents items crit weights stE = Next stE' →
  let st := st_base stE in
  (∃ picked G',
      select_and_search agents items (st_X st) (st_G st) (gain_vector st)
      = Ok (picked, None, G')
      ∧ picked ∈ players st
      ∧ stE' = {| st_base :=
                    {| st_X := st_X st; st_G := G';
                       players := list_remove picked (players st);
                       gain_vector := <[picked := NegInf]> (gain_vector st);
                       count := S (count st);
                       agents_involved_arr := agents_involved_arr st ++ [0%nat] |};
                  st_E := st_E stE |})
  ∨ (∃ picked p G' inv X' G1 E1 G'' E'' g,
      select_and_search agents items (st_X st) (st_G st) (gain_vector st)
      = Ok (picked, Some p, G')
      ∧ update_allocation_E (st_X st) G' (st_E stE) agents items p picked
        = Return inv (X', G1, E1)
      ∧ get_gain_function pw X' agents items picked crit weights = Ok g
      ∧ stE' = {| st_base :=
                    {| st_X := X'; st_G := G''; players := players st;
                       gain_vector := <[picked := g]> (gain_vector st);
                       count := S (count st);
                       agents_involved_arr :=
                         agents_involved_arr st ++ [length inv] |};
                  st_E := E'' |}).
Proof.
  unfold iteration_E, with_count.
  cbn [st_X st_G players gain_vector count agents_involved_arr].
  destruct (select_and_search _ _ _ _ _) as [[[picked [p|]] G']|e]; [| |done].
  - destruct (update_allocation_E _ _ _ _ _ _ _) as [inv [[X' G1] E1]|e [[? ?] ?]]
      eqn:Eu; [|done].
    destruct (update_exchange_graph_E _ _ _ _ _ _ _) as [[G'' E'']|] eqn:Eg;
      [|done].
    destruct (get_gain_function _ _ _ _ _ _ _) as [g|] eqn:Ef; [|done].
    intros [= <-]. right. by exists picked, p, G', inv, X', G1, E1, G'', E'', g.
  - destruct (bool_decide (picked ∈ players (st_base stE))) eqn:Hin; [|done].
    apply bool_decide_eq_true in Hin. intros [= <-]. left.
    by exists picked, G'.
Qed.

Lemma lockstep_same_allocation pw agents items crit weights st stE :
  lockstep pw agents items crit weights st stE → same_allocation st stE.
Proof.
  induction 1 as [|st stE st' stE' _ IH Hsame Hit HitE]; [done|].
  destruct IH as (HX & Hpl & Hgv & Hc & Harr).
  apply iteration_cases in Hit
    as [(picked & G' & Hs & Hpin & ->)
       |(picked & p & G' & inv & X' & G'' & g & Hs & Hu & Hg' & Hgain & ->)];
  apply iteration_E_cases in HitE
    as [(pickedE & GE' & HsE & HpinE & ->)
       |(pickedE & pE & GE' & invE & XE & G1 & E1 & GE'' & EE'' & gE
         & HsE & HuE & HgainE & ->)];
  destruct (Hsame _ _ _ _ _ _ Hs HsE) as [Hp Hag]; try discriminate;
  pose proof (select_and_search_picked _ _ _ _ _ _ _ _ Hs) as Hpk;
  pose proof (select_and_search_picked _ _ _ _ _ _ _ _ HsE) as HpkE;
  rewrite Hgv, HpkE in Hpk; injection Hpk as <-.
  - unfold same_allocation. simpl. by rewrite HX, Hpl, Hgv, Hc, Harr.
  - injection Hp as <-. rewrite <- HX in HuE.
    destruct (update_allocation_E_agrees _ _ _ _ _ _ _ _ _ _ _ _ _
                (Hag p eq_refl) Hu HuE) as [<- ->].
    rewrite Hgain in HgainE. injection HgainE as <-.
    unfold same_allocation. simpl.
    by rewrite Hpl, Hgv, Hc, Harr, length_fmap.
Qed.

Lemma yankee_loop_E_not_Raised pw agents items crit weights fuel stE e :
  yankee_loop_E pw agents items crit weights fuel stE ≠ Raised e.
Proof.
  revert stE. induction fuel as [|fuel IH]; intros stE; simpl.
  - by destruct (players (st_base stE)).
  - destruct (players (st_base stE)); [done|].
    destruct (iteration_E pw agents items crit weights stE); [apply IH|done].
Qed.

(** A run of the edge-matrix engine either fails when the capacities are
    stored, or enters the loop in the initial state. *)
Lemma general_yankee_swap_E_cases pw agents items crit weights fuel :
  (general_yankee_swap_E pw agents items crit weights fuel
   = Raised OverflowError
   ∧ ∃ item, item ∈ items
             ∧ (capacity item < int64_min ∨ int64_max < capacity item))
  ∨ ((∀ item, item ∈ items → int64_min ≤ capacity item ≤ int64_max)
     ∧ general_yankee_swap_E pw agents items crit weights fuel
       = yankee_loop_E pw agents items crit weights fuel
           (initial_state_E agents items)).
Proof.
  unfold general_yankee_swap_E.
  destruct (initialize_allocation_matrix items agents) as [X|e] eqn:E.
  - apply initialize_allocation_matrix_Ok in E as [-> Hfit]. by right.
  - apply initialize_allocation_matrix_Err in E as [-> Hbad]. by left.
Qed.

(** * Main theorems *)

(** C1 (the code at the failing input): on the same agents, items and
    criterion the two engines return different matrices, although
    [general_yankee_swap_E] is documented as equivalent to
    [general_yankee_swap].  In the sixth iteration agent 2 asks for item
    0, both of whose owners would take item 1 instead: [find_agent] hands
    the swap to agent 0, the edge matrix to agent 1, stored first.  Every
    search of the two runs has a single shortest path. *)
Theorem engines_return_different_matrices :
  ∃ X XE,
    final_matrix
      (general_yankee_swap no_pow order_agents order_items LorenzDominance [] 8)
    = Some X
    ∧ final_matrix_E
        (general_yankee_swap_E no_pow order_agents order_items
           LorenzDominance [] 8)
      = Some XE
    ∧ X = [[0; 1; 1; 0]; [1; 0; 0; 0]; [1; 0; 0; 0]; [0; 0; 1; 0]]
    ∧ XE = [[1; 0; 1; 0]; [0; 1; 0; 0]; [1; 0; 0; 0]; [0; 0; 1; 0]]
    ∧ X ≠ XE.
Proof.
  eexists _, _. split; [vm_compute; reflexivity|].
  split; [vm_compute; reflexivity|]. split; [done|]. split; [done|].
  discriminate.
Qed.

Lemma yankee_loop_no_players pw agents items crit weights fuel st :
  players st = [] →
  yankee_loop pw agents items crit weights fuel st = Finished st.
Proof. intros H. destruct fuel; simpl; by rewrite H. Qed.

Lemma yankee_loop_E_no_players pw agents items crit weights fuel stE :
  players (st_base stE) = [] →
  yankee_loop_E pw agents items crit weights fuel stE = Finished stE.
Proof. intros H. destruct fuel; simpl; by rewrite H. Qed.

(** Where the two engines agree: they hold the same matrix, players,
    gains and counters after every pair of runs in which, in each
    iteration, both find the same path and, at each intermediate swap,
    the first agent stored in [E[a][b]] is the owner that [find_agent]
    returns. *)
Lemma engines_agree_in_lockstep float_pow agents items crit weights st stE :
  lockstep float_pow agents items crit weights st stE →
  same_allocation st stE
  ∧ (players st = [] →
     ∀ fuel,
       final_matrix (yankee_loop float_pow agents items crit weights fuel st)
       = Some (st_X st)
       ∧ final_matrix_E
           (yankee_loop_E float_pow agents items crit weights fuel stE)
         = Some (st_X st)).
Proof.
  intros Hl. pose proof (lockstep_same_allocation _ _ _ _ _ _ _ Hl) as Hs.
  split; [done|]. intros Hpl fuel. destruct Hs as (HX & HP & _).
  rewrite yankee_loop_no_players by done.
  rewrite yankee_loop_E_no_players by (by rewrite <- HP).
  simpl. by rewrite HX.
Qed.

Lemma engines_agree_in_lockstep_witness :
  lockstep no_pow order_agents order_items LorenzDominance []
    order_state1 order_state1_E
  ∧ same_allocation order_state1 order_state1_E.
Proof.
  assert (Hl : lockstep no_pow order_agents order_items LorenzDominance []
                 order_state1 order_state1_E).
  { eapply lockstep_next.
    - apply lockstep_initial.
    - intros picked p G' pickedE pE GE' H1 H2.
      vm_compute in H1, H2. injection H1 as <- <- <-. injection H2 as <- <- <-.
      split; [done|]. intros path [= <-] last_item slack X1 _ _ _.
      exact I.
    - vm_compute. reflexivity.
    - vm_compute. reflexivity. }
  split; [exact Hl|].
  exact (proj1 (engines_agree_in_lockstep _ _ _ _ _ _ _ Hl)).
Defined.

(** C2 (counterexample): two completed iterations of the engine that
    change a row sum.  In the first run agent 0, which answers every
    exchange query with yes, holds items 0 and 1 after three iterations.
    In the fourth, agent 1 asks for item 0 along the path [s, 0, 1, t],
    the only shortest one: the last unit of slack of item 1 is taken,
    [find_agent] returns agent 0 as the owner of item 0 that takes item
    1, which it already holds, and the sum of row 1 drops from 2 to 1.
    In the second run the capacity of the item is the least 64-bit
    integer: the first iteration takes a unit of slack, the entry wraps
    around, and the sum of the row is no longer the capacity.  Last,
    [update_allocation] on its own, called for an agent that already
    holds the first item of the path, which the engine never does: no
    owner is looked for and the row sum drops from 2 to 1. *)
Theorem engine_iteration_changes_row_sum :
  (∃ st st',
     general_yankee_swap no_pow eager_agents eager_items LorenzDominance [] 3
     = OutOfFuel st
     ∧ row_sum_invariant (st_X st) eager_items (length eager_agents)
     ∧ iteration no_pow eager_agents eager_items LorenzDominance [] st
       = Next st'
     ∧ find_agent [[1; 0; 0]; [1; 0; 0]; [0; 1; 0]] eager_agents eager_items
         0 1
       = Ok (Some 0%nat)
     ∧ st_X st = [[1; 0; 0]; [1; 0; 1]; [0; 1; 0]]
     ∧ st_X st' = [[0; 1; 0]; [1; 0; 0]; [0; 1; 0]]
     ∧ rsum (st_X st) 1 = 2 ∧ rsum (st_X st') 1 = 1
     ∧ final_matrix
         (general_yankee_swap no_pow eager_agents eager_items
            LorenzDominance [] 6)
       = Some (st_X st'))
  ∧ (∃ st',
       initialize_allocation_matrix [mkItem 0 int64_min] [single_agent]
       = Ok [[0; int64_min]]
       ∧ iteration no_pow [single_agent] [mkItem 0 int64_min] LorenzDominance
           [] (initial_state [single_agent] [mkItem 0 int64_min])
         = Next st'
       ∧ st_X st' = [[1; int64_max]]
       ∧ rsum [[0; int64_min]] 0 = int64_min
       ∧ rsum (st_X st') 0 = int64_max + 1)
  ∧ (NoDup [0%nat]
     ∧ owners_clean [[1; 1]] [single_agent] [mkItem 0 2] [0%nat]
     ∧ update_allocation [[1; 1]] [single_agent] [mkItem 0 2]
         [Src; It 0; Sink] 0
       = Return [Some 0%nat] [[1; 0]]
     ∧ rsum [[1; 1]] 0 = 2 ∧ rsum [[1; 0]] 0 = 1).
Proof.
  split; [|split].
  - eexists _, _. split; [vm_compute; reflexivity|]. split.
    { split; [reflexivity|]. intros [|[|[|i]]] item [= <-]; eexists;
        (split; [reflexivity|]); split; reflexivity. }
    split; [vm_compute; reflexivity|]. split; [vm_compute; reflexivity|].
    split; [reflexivity|]. split; [reflexivity|]. split; [reflexivity|].
    split; [reflexivity|]. vm_compute; reflexivity.
  - eexists. split; [reflexivity|]. split; [vm_compute; reflexivity|].
    split; [reflexivity|]. split; reflexivity.
  - split; [apply NoDup_singleton|]. split; [|done].
    exists 0%nat, 1, [[1; 0]]. done.
Qed.

(** C2 (amended): when [initialize_allocation_matrix] returns, its
    matrix satisfies the row-sum invariant.  [update_allocation] on a
    path [s, i1, ..., ik, t] of distinct items returns and leaves every
    row sum unchanged when the slack of [ik] is not the least 64-bit
    integer, the agent picked does not hold [i1] (the engine sees to
    that) and every owner found holds the item it gives up and not the
    one it receives.  An iteration of the engine preserves the invariant
    when no slack entry is the least 64-bit integer and the owners found
    in it satisfy that condition. *)
Theorem row_sum_invariant_preserved :
  (∀ items agents X,
     initialize_allocation_matrix items agents = Ok X →
     row_sum_invariant X items (length agents))
  ∧ (∀ X agents items path picked i1,
       NoDup path → head path = Some i1 →
       (picked < length agents)%nat → getX X i1 picked = Ok 0 →
       (∀ ik, head (rev path) = Some ik →
              getX X ik (length agents) ≠ Ok int64_min) →
       owners_clean X agents items path →
       ∃ found X',
         update_allocation X agents items (Src :: (It <$> path) ++ [Sink])
           picked
         = Return (Some picked :: (Some <$> found)) X'
         ∧ ∀ i, rsum X' i = rsum X i)
  ∧ (∀ float_pow agents items crit weights st st',
       reachable float_pow agents items crit weights st →
       players st ≠ [] →
       row_sum_invariant (st_X st) items (length agents) →
       (∀ i, getX (st_X st) i (length agents) ≠ Ok int64_min) →
       (∀ picked path G',
          select_and_search agents items (st_X st) (st_G st) (gain_vector st)
          = Ok (picked, Some (Src :: (It <$> path) ++ [Sink]), G') →
          owners_clean (st_X st) agents items path) →
       iteration float_pow agents items crit weights st = Next st' →
       row_sum_invariant (st_X st') items (length agents)).
Proof.
  split; [|split].
  - intros items agents X [-> _]%initialize_allocation_matrix_Ok.
    apply initial_row_sum_invariant.
  - intros. by eapply update_allocation_clean.
  - intros. by eapply iteration_row_sum_invariant.
Qed.

Lemma row_sum_invariant_preserved_witness :
  NoDup [0; 1]%nat
  ∧ (2 < length order_agents)%nat
  ∧ getX order_X5 0 2 = Ok 0
  ∧ (∀ ik, head (rev [0; 1]%nat) = Some ik →
           getX order_X5 ik (length order_agents) ≠ Ok int64_min)
  ∧ owners_clean order_X5 order_agents order_items [0; 1]%nat
  ∧ (∃ found X',
       update_allocation order_X5 order_agents order_items
         (Src :: (It <$> [0; 1]%nat) ++ [Sink]) 2
       = Return (Some 2%nat :: (Some <$> found)) X'
       ∧ ∀ i, rsum X' i = rsum order_X5 i)
  ∧ reachable no_pow order_agents order_items LorenzDominance [] order_state5
  ∧ players order_state5 ≠ []
  ∧ row_sum_invariant (st_X order_state5) order_items (length order_agents)
  ∧ (∀ i, getX (st_X order_state5) i (length order_agents) ≠ Ok int64_min)
  ∧ (∀ picked path G',
       select_and_search order_agents order_items (st_X order_state5)
         (st_G order_state5) (gain_vector order_state5)
       = Ok (picked, Some (Src :: (It <$> path) ++ [Sink]), G') →
       owners_clean (st_X order_state5) order_agents order_items path)
  ∧ ∃ st',
      iteration no_pow order_agents order_items LorenzDominance []
        order_state5
      = Next st'
      ∧ row_sum_invariant (st_X st') order_items (length order_agents).
Proof.
  assert (Hnd : NoDup [0; 1]%nat).
  { apply NoDup_cons. split; [|apply NoDup_singleton].
    intros H%list_elem_of_singleton. discriminate. }
  assert (Hlt : (2 < length order_agents)%nat) by (simpl; lia).
  assert (Hget : getX order_X5 0 2 = Ok 0) by reflexivity.
  assert (Hmin : ∀ ik, head (rev [0; 1]%nat) = Some ik →
                   getX order_X5 ik (length order_agents) ≠ Ok int64_min).
  { intros ik [= <-]. discriminate. }
  assert (Hcl : owners_clean order_X5 order_agents order_items [0; 1]%nat).
  { exists 1%nat, 1,
      [[1; 1; 0; 0]; [0; 0; 0; 0]; [1; 0; 0; 0]; [0; 0; 1; 0]].
    split; [reflexivity|]. split; [reflexivity|]. split; [reflexivity|].
    exists 0%nat,
      [[1; 1; 0; 0]; [1; 0; 0; 0]; [1; 0; 0; 0]; [0; 0; 1; 0]],
      [[0; 1; 0; 0]; [1; 0; 0; 0]; [1; 0; 0; 0]; [0; 0; 1; 0]].
    split; [vm_compute; reflexivity|]. repeat split. }
  assert (Hr : reachable no_pow order_agents order_items LorenzDominance []
                 order_state5) by exact order_state5_reachable.
  assert (Hpl : players order_state5 ≠ []) by discriminate.
  assert (Hinv : row_sum_invariant (st_X order_state5) order_items
                   (length order_agents)).
  { split; [reflexivity|]. intros [|[|[|[|i]]]] item [= <-]; eexists;
      (split; [reflexivity|]); split; reflexivity. }
  assert (Hmin5 : ∀ i, getX (st_X order_state5) i (length order_agents)
                       ≠ Ok int64_min).
  { intros [|[|[|[|i]]]]; discriminate. }
  assert (Hclean : ∀ picked path G',
             select_and_search order_agents order_items (st_X order_state5)
               (st_G order_state5) (gain_vector order_state5)
             = Ok (picked, Some (Src :: (It <$> path) ++ [Sink]), G') →
             owners_clean (st_X order_state5) order_agents order_items path).
  { intros picked path G' H.
    assert (select_and_search order_agents order_items (st_X order_state5)
              (st_G order_state5) (gain_vector order_state5)
            = Ok (2%nat, Some [Src; It 0; It 1; Sink], st_G order_state5))
      as Hsel by (vm_compute; reflexivity).
    rewrite Hsel in H. injection H as _ Hpath _.
    assert (path = [0; 1]%nat) as ->.
    { destruct path as [|a [|b [|c path]]]; simplify_eq/=; done. }
    exact Hcl. }
  split; [exact Hnd|]. split; [exact Hlt|]. split; [exact Hget|].
  split; [exact Hmin|]. split; [exact Hcl|].
  split.
  { exact (proj1 (proj2 row_sum_invariant_preserved) order_X5 order_agents
             order_items [0; 1]%nat 2%nat 0%nat Hnd eq_refl Hlt Hget Hmin
             Hcl). }
  split; [exact Hr|]. split; [exact Hpl|]. split; [exact Hinv|].
  split; [exact Hmin5|]. split; [exact Hclean|].
  eexists. split; [vm_compute; reflexivity|].
  eapply (proj2 (proj2 row_sum_invariant_preserved) no_pow order_agents
            order_items LorenzDominance [] order_state5);
    [exact Hr|exact Hpl|exact Hinv|exact Hmin5|exact Hclean|].
  vm_compute. reflexivity.
Defined.

(** C3 (counterexample): agent 0 holds nothing and values only item 0;
    agent 1 holds items 0 and 1.  Dropping item 0 cures the envy of agent
    0, dropping item 1 does not: the pair counts for EF-X and not for
    EF-1, so [EF_X_count] is 1 and [EF_1_count] is 0. *)
Lemma EF_X_count_exceeds_EF_1_count :
  EF_count envy_X envy_agents envy_items = Ok 1%nat
  ∧ EF_1_count envy_X envy_agents envy_items = Ok 0%nat
  ∧ EF_X_count envy_X envy_agents envy_items = Ok 1%nat
  ∧ ¬ (1 ≤ 0)%nat.
Proof. repeat split; try (vm_compute; reflexivity). lia. Qed.

Lemma envy_counts_ordering_witness :
  (∀ agent bundle, agent ∈ envy_agents →
     (valuation agent [] <= valuation agent bundle)%Q)
  ∧ result_le (EF_1_count envy_X envy_agents envy_items)
              (EF_X_count envy_X envy_agents envy_items).
Proof.
  assert (H : ∀ agent bundle, agent ∈ envy_agents →
                (valuation agent [] <= valuation agent bundle)%Q).
  { intros agent bundle [->|[->|[]%elem_of_nil]%elem_of_cons]%elem_of_cons;
      simpl.
    - unfold envy_v0. simpl. destruct (holds 0 bundle); [|apply Qle_refl].
      apply Qle_bool_iff. reflexivity.
    - apply Qle_refl. }
  split; [exact H|].
  exact (proj2 (proj2 (envy_counts_ordering envy_X envy_agents envy_items)) H).
Defined.

Lemma EF_1_metrics_count_violations_witness :
  (∀ j, (j < length envy_agents)%nat →
        get_bundle_from_allocation_matrix envy_X envy_items j
        = Ok (envy_bundles j))
  ∧ EF_1_count envy_X envy_agents envy_items
    = Ok (count_pairs (EF1_pair envy_agents envy_bundles) (length envy_agents))
  ∧ EF_1_agents envy_X envy_agents envy_items
    = Ok (count_agents (EF1_pair envy_agents envy_bundles)
            (length envy_agents)).
Proof.
  assert (H : ∀ j, (j < length envy_agents)%nat →
                get_bundle_from_allocation_matrix envy_X envy_items j
                = Ok (envy_bundles j)).
  { intros [|[|j]] Hj; [reflexivity..|simpl in Hj; lia]. }
  split; [exact H|].
  exact (EF_1_metrics_count_violations envy_X envy_agents envy_items
           envy_bundles H).
Defined.

(** C4 (counterexample): one agent, one item and the criterion
    WeightedLeximin with an empty list of weights.  The run fails in its
    first iteration, with [IndexError], after the transfer has changed the
    matrix.  A capacity of zero is not rejected either: the run ends
    normally and leaves a slack of -1. *)
Theorem missing_weight_fails_inside_the_loop :
  (∃ st,
     general_yankee_swap no_pow [single_agent] [mkItem 0 1] WeightedLeximin
       [] 3
     = Aborted IndexError st
     ∧ count st = 1%nat
     ∧ st_X st = [[1; 0]]
     ∧ initialize_allocation_matrix [mkItem 0 1] [single_agent]
       = Ok [[0; 1]])
  ∧ final_matrix
      (general_yankee_swap no_pow [single_agent] [mkItem 0 0] LorenzDominance
         [] 3)
    = Some [[1; -1]].
Proof.
  split; [|vm_compute; reflexivity].
  eexists. split; [vm_compute; reflexivity|]. done.
Qed.

(** C4 (amended): before their loops [general_yankee_swap] and
    [general_yankee_swap_E] check neither the weights nor the sign of the
    capacities.  A run of either fails before the first iteration exactly
    when a capacity does not fit a 64-bit integer, with the
    [OverflowError] of storing it.  In [general_yankee_swap], with a
    weighted criterion and no weight for the agent picked, the iteration
    that transfers an item to that agent fails with [IndexError] at its
    end, when the matrix has already been changed. *)
Theorem weights_and_capacities_are_not_checked_before_the_loop
    float_pow agents items crit weights :
  (∀ fuel e,
     general_yankee_swap float_pow agents items crit weights fuel = Raised e
     ↔ e = OverflowError
       ∧ ∃ item, item ∈ items
                 ∧ (capacity item < int64_min ∨ int64_max < capacity item))
  ∧ (∀ fuel e,
       general_yankee_swap_E float_pow agents items crit weights fuel
       = Raised e
       ↔ e = OverflowError
         ∧ ∃ item, item ∈ items
                   ∧ (capacity item < int64_min ∨ int64_max < capacity item))
  ∧ (∀ st picked p G' inv X' G'',
       reachable float_pow agents items crit weights st →
       players st ≠ [] →
       select_and_search agents items (st_X st) (st_G st) (gain_vector st)
       = Ok (picked, Some p, G') →
       update_allocation (st_X st) agents items p picked = Return inv X' →
       update_exchange_graph X' G' agents items p inv = Ok G'' →
       crit ≠ LorenzDominance → weights !! picked = None →
       ∃ st',
         iteration float_pow agents items crit weights st
         = Failed IndexError st'
         ∧ st_X st' = X' ∧ count st' = S (count st) ∧ X' ≠ st_X st).
Proof.
  split.
  - intros fuel e.
    destruct (general_yankee_swap_cases float_pow agents items crit weights
                fuel) as [[Hr Hbad]|[Hfit Hr]]; rewrite Hr.
    + split; [by intros [= <-]|by intros [-> _]].
    + split.
      * intros H. by apply yankee_loop_not_Raised in H.
      * intros [_ (item & Hin & Hout)]. specialize (Hfit item Hin). lia.
  - split; [|intros; by eapply iteration_missing_weight].
    intros fuel e.
    destruct (general_yankee_swap_E_cases float_pow agents items crit weights
                fuel) as [[Hr Hbad]|[Hfit Hr]]; rewrite Hr.
    + split; [by intros [= <-]|by intros [-> _]].
    + split.
      * intros H. by apply yankee_loop_E_not_Raised in H.
      * intros [_ (item & Hin & Hout)]. specialize (Hfit item Hin). lia.
Qed.

Lemma weights_and_capacities_are_not_checked_before_the_loop_witness :
  let agents := [single_agent] in
  let items := [mkItem 0 1] in
  let st := initial_state agents items in
  reachable no_pow agents items WeightedLeximin [] st
  ∧ players st ≠ []
  ∧ select_and_search agents items (st_X st) (st_G st) (gain_vector st)
    = Ok (0%nat, Some [Src; It 0; Sink], [(It 0, Sink)])
  ∧ update_allocation (st_X st) agents items [Src; It 0; Sink] 0
    = Return [Some 0%nat] [[1; 0]]
  ∧ update_exchange_graph [[1; 0]] [(It 0, Sink)] agents items
      [Src; It 0; Sink] [Some 0%nat]
    = Ok []
  ∧ WeightedLeximin ≠ LorenzDominance
  ∧ ([] : list Q) !! 0%nat = None
  ∧ ∃ st',
      iteration no_pow agents items WeightedLeximin [] st
      = Failed IndexError st'
      ∧ st_X st' = [[1; 0]] ∧ count st' = S (count st)
      ∧ [[1; 0]] ≠ st_X st.
Proof.
  cbv zeta.
  assert (H1 : reachable no_pow [single_agent] [mkItem 0 1] WeightedLeximin []
                 (initial_state [single_agent] [mkItem 0 1]))
    by apply reachable_initial.
  assert (H2 : players (initial_state [single_agent] [mkItem 0 1]) ≠ [])
    by discriminate.
  assert (H3 : select_and_search [single_agent] [mkItem 0 1]
                 (st_X (initial_state [single_agent] [mkItem 0 1]))
                 (st_G (initial_state [single_agent] [mkItem 0 1]))
                 (gain_vector (initial_state [single_agent] [mkItem 0 1]))
               = Ok (0%nat, Some [Src; It 0; Sink], [(It 0, Sink)]))
    by (vm_compute; reflexivity).
  assert (H4 : update_allocation
                 (st_X (initial_state [single_agent] [mkItem 0 1]))
                 [single_agent] [mkItem 0 1] [Src; It 0; Sink] 0
               = Return [Some 0%nat] [[1; 0]])
    by (vm_compute; reflexivity).
  assert (H5 : update_exchange_graph [[1; 0]] [(It 0, Sink)] [single_agent]
                 [mkItem 0 1] [Src; It 0; Sink] [Some 0%nat]
               = Ok [])
    by (vm_compute; reflexivity).
  assert (H6 : WeightedLeximin ≠ LorenzDominance) by discriminate.
  assert (H7 : ([] : list Q) !! 0%nat = None) by reflexivity.
  repeat (split; [assumption|]).
  exact (proj2 (proj2 (weights_and_capacities_are_not_checked_before_the_loop
                         no_pow [single_agent] [mkItem 0 1] WeightedLeximin
                         []))
           _ _ _ _ _ _ _ H1 H2 H3 H4 H5 H6 H7).
Defined.

(** C5 (the code at the failing input): in the sixth iteration of the
    run on [stuck_agents], agent 0 gives up item 2 for item 3 and is then
    no longer willing to give up item 0 for item 1.  [find_agent] finds no
    owner; [update_allocation] goes on, returns normally with [None]
    among the agents involved, and leaves row 1 filled with ones: four
    entries for an item of capacity 1.  The run stops afterwards, on
    [agents[None]] in the graph update, with that matrix. *)
Theorem no_willing_owner_leaves_corrupted_matrix :
  find_agent
    [[1; 0; 0; 0]; [0; 0; 0; 0]; [0; 1; 0; 0]; [1; 0; 0; 0]; [0; 0; 1; 0]]
    stuck_agents stuck_items 0 1
  = Ok None
  ∧ update_allocation stuck_X5 stuck_agents stuck_items stuck_path 2
    = Return [Some 2%nat; Some 0%nat; Some 1%nat; None] stuck_X6
  ∧ rsum stuck_X5 1 = 1 ∧ rsum stuck_X6 1 = 4
  ∧ ∃ st,
      general_yankee_swap no_pow stuck_agents stuck_items LorenzDominance
        [] 6
      = Aborted TypeError st
      ∧ count st = 6%nat ∧ st_X st = stuck_X6.
Proof.
  split; [vm_compute; reflexivity|]. split; [vm_compute; reflexivity|].
  split; [reflexivity|]. split; [reflexivity|].
  eexists. split; [vm_compute; reflexivity|]. done.
Qed.

(** C10 (the code at the failing input): on the same call the slack
    entry of row 1, which is not the last item of the path, goes from 0
    to 1, and the slack entry of row 3, the last item, goes from 1 to 0. *)
Theorem update_allocation_frame_fails_without_owner :
  update_allocation stuck_X5 stuck_agents stuck_items stuck_path 2
  = Return [Some 2%nat; Some 0%nat; Some 1%nat; None] stuck_X6
  ∧ getX stuck_X5 1 (length stuck_agents) = Ok 0
  ∧ getX stuck_X6 1 (length stuck_agents) = Ok 1
  ∧ getX stuck_X5 3 (length stuck_agents) = Ok 1
  ∧ getX stuck_X6 3 (length stuck_agents) = Ok 0.
Proof. split; [vm_compute; reflexivity|]. repeat split. Qed.

Lemma iteration_progress pw agents items crit weights st st' :
  (∀ item, item ∈ items → 1 ≤ capacity item) →
  reachable pw agents items crit weights st → players st ≠ [] →
  iteration pw agents items crit weights st = Next st' →
  count st' = S (count st)
  ∧ (st_X st' = st_X st
     ∧ (∃ picked,
          picked ∈ players st
          ∧ players st' = list_remove picked (players st)
          ∧ (picked ∉ players st')
          ∧ gain_vector st' !! picked = Some NegInf)
     ∧ S (length (players st')) = length (players st)
     ∨ players st' = players st
       ∧ total_slack (length agents) (st_X st')
         = total_slack (length agents) (st_X st) - 1)
  ∧ (∀ i s', getX (st_X st') i (length agents) = Ok s' →
             ∃ s, getX (st_X st) i (length agents) = Ok s ∧ s' ≤ s)
  ∧ (∀ j, j ∈ players st' → j ∈ players st).
Proof.
  intros Hcap Hr Hpl Hit.
  pose proof (reachable_gains_inv _ _ _ _ _ _ Hr) as Hg.
  pose proof (reachable_shape_inv _ _ _ _ _ _ Hr) as Hsh.
  pose proof (reachable_slack_inv _ _ _ _ _ _ Hcap Hr) as Hsl0.
  split; [by eapply iteration_Next_count|].
  apply iteration_cases in Hit
    as [(picked & G' & Hs & Hpin & ->)
       |(picked & p & G' & inv & X' & G'' & g & Hs & Hu & Hg' & Hgain & ->)];
    simpl.
  - split; [|split].
    + left. split; [done|]. split.
      * exists picked. split; [done|]. split; [done|]. split.
        -- intros [_ ?]%list_remove_elem; [done|]. apply Hg.
        -- apply list_lookup_insert_eq.
           destruct (argmax_lt _ _ _ Hg Hpl
                       (select_and_search_picked _ _ _ _ _ _ _ _ Hs)) as [? _].
           by rewrite (gains_length _ _ Hg).
      * by apply list_remove_length.
    + intros i s' Hs'. exists s'. split; [done|lia].
    + intros j [? _]%list_remove_elem; [done|]. apply Hg.
  - destruct (argmax_lt _ _ _ Hg Hpl
                (select_and_search_picked _ _ _ _ _ _ _ _ Hs)) as [Hpk _].
    destruct (iteration_transfer_shape _ _ _ _ _ _ _ _ _
                (inv_graph _ _ _ Hsh) Hpk Hs Hu Hg')
      as (ik & s & Hik & Hsl & Hcol & HL & HRL & HG & Hsink).
    destruct (inv_sink _ _ _ Hsl0 _ Hik) as (s0 & Hs0 & Hpos).
    rewrite Hsl in Hs0. injection Hs0 as <-.
    rewrite int64_pred_nonneg in Hcol by lia.
    split; [|split; [|done]].
    + right. split; [done|]. by eapply total_slack_decrement.
    + intros i s'. rewrite Hcol. destruct (decide (i = ik)) as [->|Hne].
      * intros [= <-]. exists s. split; [done|lia].
      * intros Hs'. exists s'. split; [done|lia].
Qed.




(** C7: in every state that the loop of [general_yankee_swap] reaches
    with players left, [np.argmax] over the whole gain vector returns a
    player: its gain is not [-inf], no player has a larger gain, every
    player of lower index has a strictly smaller gain, and every agent
    that is no longer a player has gain [-inf].  The iteration picks that
    agent. *)
Theorem select_picks_best_active float_pow agents items crit weights st :
  reachable float_pow agents items crit weights st →
  players st ≠ [] →
  ∃ p gp,
    argmax (gain_vector st) = Ok p
    ∧ p ∈ players st
    ∧ gain_vector st !! p = Some gp
    ∧ gp ≠ NegInf
    ∧ (∀ j g, j ∈ players st → gain_vector st !! j = Some g →
              gain_leb g gp = true)
    ∧ (∀ j g, j ∈ players st → (j < p)%nat →
              gain_vector st !! j = Some g → gain_ltb g gp = true)
    ∧ (∀ j, (j < length agents)%nat → j ∉ players st →
            gain_vector st !! j = Some NegInf)
    ∧ (∀ picked path G',
         select_and_search agents items (st_X st) (st_G st) (gain_vector st)
         = Ok (picked, path, G') →
         picked = p).
Proof.
  intros Hr Hpl. pose proof (reachable_gains_inv _ _ _ _ _ _ Hr) as Hg.
  destruct (argmax_active _ _ Hg Hpl) as (p & gp & Hp & Hin & Hgp & Hmax & Htie).
  exists p, gp. repeat split; try done.
  - intros ->. apply (players_active _ _ Hg) in Hin as (g & Hg' & Hne).
    congruence.
  - intros j Hj Hnot.
    destruct (lookup_lt_is_Some_2 (gain_vector st) j) as [g Hgj].
    { by rewrite (gains_length _ _ Hg). }
    destruct g; [done| |]; exfalso; apply Hnot, (players_active _ _ Hg);
      eexists; split; try done.
  - intros picked path G' Hs. apply select_and_search_picked in Hs. congruence.
Qed.

Lemma select_picks_best_active_witness :
  let st := initial_state order_agents order_items in
  reachable no_pow order_agents order_items LorenzDominance [] st
  ∧ players st ≠ []
  ∧ ∃ p gp,
      argmax (gain_vector st) = Ok p
      ∧ p ∈ players st
      ∧ gain_vector st !! p = Some gp
      ∧ gp ≠ NegInf
      ∧ (∀ j g, j ∈ players st → gain_vector st !! j = Some g →
                gain_leb g gp = true)
      ∧ (∀ j g, j ∈ players st → (j < p)%nat →
                gain_vector st !! j = Some g → gain_ltb g gp = true)
      ∧ (∀ j, (j < length order_agents)%nat → j ∉ players st →
              gain_vector st !! j = Some NegInf)
      ∧ (∀ picked path G',
           select_and_search order_agents order_items (st_X st) (st_G st)
             (gain_vector st)
           = Ok (picked, path, G') →
           picked = p).
Proof.
  cbv zeta.
  assert (H1 : reachable no_pow order_agents order_items LorenzDominance []
                 (initial_state order_agents order_items))
    by apply reachable_initial.
  assert (H2 : players (initial_state order_agents order_items) ≠ [])
    by discriminate.
  split; [exact H1|]. split; [exact H2|].
  exact (select_picks_best_active no_pow order_agents order_items
           LorenzDominance [] _ H1 H2).
Defined.

(** * More on the envy metrics *)

Lemma envy_metric_counts counts (V : Agent → list Item → list Item → Prop)
    `{∀ a own other, Decision (V a own other)} X agents items B :
  (∀ j, (j < length agents)%nat →
        get_bundle_from_allocation_matrix X items j = Ok (B j)) →
  (∀ agent own other,
     Qltb (valuation agent own) (valuation agent other)
     && counts agent (valuation agent own) other = true
     ↔ V agent own other) →
  envy_metric counts false X agents items
    = Ok (count_pairs (violation_pair V agents B) (length agents))
  ∧ envy_metric counts true X agents items
    = Ok (count_agents (violation_pair V agents B) (length agents)).
Proof.
  intros HB HV.
  assert (Hdef : bundles_defined X items (length agents))
    by (intros j Hj; eauto).
  assert (Hpair : ∀ a i j, agents !! i = Some a → (j < length agents)%nat →
            envy_pair counts X items a i j = true
            ↔ violation_pair V agents B i j).
  { intros a i j Hi Hj. unfold envy_pair, violation_pair.
    assert (i < length agents)%nat as Hlt by (by eapply lookup_lt_Some).
    rewrite (bundle_at_ok _ _ _ _ (HB i Hlt)), (bundle_at_ok _ _ _ _ (HB j Hj)).
    rewrite <- andb_assoc, andb_true_iff, bool_decide_eq_true, HV. split.
    - intros [? ?]. eauto.
    - intros [? (a' & Ha & ?)]. by simplify_eq. }
  rewrite !envy_metric_pure by done. unfold pure_metric. split; f_equal.
  - unfold count_pairs, ordered_pairs. rewrite length_filter_bind.
    apply outer_count_seq. intros k a Hk. simpl.
    unfold inner_count. apply length_filter_bool_fmap.
    intros j Hj%elem_of_seq. simpl. apply Hpair; [done|lia].
  - unfold count_agents.
    rewrite <- (length_filter_indicator _
      (λ i, if decide (∃ j, (j < length agents)%nat
                            ∧ violation_pair V agents B i j)
            then 1%nat else 0%nat)) by done.
    apply outer_count_seq. intros k a Hk. simpl. unfold inner_count.
    pose proof (existsb_exists_below
      (envy_pair counts X items a k) (violation_pair V agents B k)
      (length agents) (λ j Hj, Hpair a k j Hk Hj)) as He.
    destruct (existsb _ _); destruct (decide _) as [Hd|Hd]; try done.
    + exfalso. apply Hd, He. done.
    + apply He in Hd. discriminate.
Qed.

Lemma not_for_every_item_loop_spec agent u other l :
  not_for_every_item_loop agent u other l = true
  ↔ ∃ k, k ∈ l ∧ (u < valuation agent (delete k other))%Q.
Proof.
  induction l as [|k l IH]; simpl.
  - split; [done|]. intros (k & Hk & _). by apply elem_of_nil in Hk.
  - destruct (Qltb u (valuation agent (delete k other))) eqn:E.
    + split; [|done]. intros _. exists k. split; [left|]. by apply Qltb_lt.
    + rewrite IH. split.
      * intros (k' & Hk' & Hv). exists k'. split; [by right|done].
      * intros (k' & [->|Hk']%elem_of_cons & Hv); [|eauto].
        apply Qltb_lt in Hv. congruence.
Qed.

(** X1: [EF_count] returns the number of ordered pairs [(i, j)], [i ≠ j],
    in which agent [i] values the bundle of [j] strictly above its own;
    [EF_agents] returns the number of agents that envy somebody. *)
Theorem EF_metrics_count_envy X agents items B :
  (∀ j, (j < length agents)%nat →
        get_bundle_from_allocation_matrix X items j = Ok (B j)) →
  EF_count X agents items
    = Ok (count_pairs (violation_pair envies agents B) (length agents))
  ∧ EF_agents X agents items
    = Ok (count_agents (violation_pair envies agents B) (length agents)).
Proof.
  intros HB. apply envy_metric_counts; [done|].
  intros agent own other. unfold always_counts, envies.
  by rewrite andb_true_r, Qltb_lt.
Qed.

(** X2: [EF_X_count] returns the number of ordered pairs [(i, j)],
    [i ≠ j], in which agent [i] envies [j] and still does after some
    single item is removed from the bundle of [j]; [EF_X_agents] returns
    the number of agents [i] for which such a [j] exists. *)
Theorem EF_X_metrics_count_violations X agents items B :
  (∀ j, (j < length agents)%nat →
        get_bundle_from_allocation_matrix X items j = Ok (B j)) →
  EF_X_count X agents items
    = Ok (count_pairs (violation_pair EFX_violated agents B) (length agents))
  ∧ EF_X_agents X agents items
    = Ok (count_agents (violation_pair EFX_violated agents B) (length agents)).
Proof.
  intros HB. apply envy_metric_counts; [done|].
  intros agent own other.
  unfold not_for_every_item, EFX_violated, envies, removal_keeps_envy.
  rewrite andb_true_iff, Qltb_lt, not_for_every_item_loop_spec.
  split; intros [He (k & Hk & Hv)]; (split; [done|]); exists k.
  - apply elem_of_seq in Hk. split; [lia|done].
  - split; [|done]. apply elem_of_seq. lia.
Qed.

Lemma length_filter_zero {A} (P : A → Prop) `{∀ x, Decision (P x)}
    (l : list A) :
  length (filter P l) = 0%nat ↔ ∀ x, x ∈ l → ¬ P x.
Proof.
  induction l as [|x l IH].
  - split; [|done]. intros _ x Hx. by apply elem_of_nil in Hx.
  - rewrite filter_cons. destruct (decide (P x)) as [HP|HP]; simpl.
    + split; [done|]. intros Hall. exfalso. apply (Hall x); [left|done].
    + rewrite IH. split.
      * intros Hall y [->|Hy]%elem_of_cons; [done|by apply Hall].
      * intros Hall y Hy. apply Hall. by right.
Qed.

Lemma elem_of_ordered_pairs M i j :
  (i, j) ∈ ordered_pairs M ↔ (i < M)%nat ∧ (j < M)%nat.
Proof.
  unfold ordered_pairs. rewrite list_elem_of_bind. split.
  - intros (i' & Hj & Hi). apply list_elem_of_fmap in Hj as (j' & [= -> ->] & Hj).
    apply elem_of_seq in Hi, Hj. lia.
  - intros [Hi Hj]. exists i. split.
    + apply list_elem_of_fmap. exists j. split; [done|]. apply elem_of_seq. lia.
    + apply elem_of_seq. lia.
Qed.

Lemma count_pairs_zero (P : nat → nat → Prop) `{∀ i j, Decision (P i j)} M :
  count_pairs P M = 0%nat ↔ ∀ i j, (i < M)%nat → (j < M)%nat → ¬ P i j.
Proof.
  unfold count_pairs. rewrite length_filter_zero. split.
  - intros Hall i j Hi Hj. apply (Hall (i, j)). by apply elem_of_ordered_pairs.
  - intros Hall [i j] Hin. apply elem_of_ordered_pairs in Hin as [Hi Hj].
    by apply Hall.
Qed.

Lemma count_agents_zero (P : nat → nat → Prop) `{∀ i j, Decision (P i j)} M :
  count_agents P M = 0%nat ↔ ∀ i j, (i < M)%nat → (j < M)%nat → ¬ P i j.
Proof.
  unfold count_agents. rewrite length_filter_zero. split.
  - intros Hall i j Hi Hj HP. apply (Hall i); [apply elem_of_seq; lia|eauto].
  - intros Hall i Hin%elem_of_seq (j & Hj & HP). apply (Hall i j); [lia|done..].
Qed.

Lemma envy_free_no_pair V agents B :
  (∀ a own other, V a own other → envies a own other) →
  envy_free agents B →
  ∀ i j, (i < length agents)%nat → (j < length agents)%nat →
         ¬ violation_pair V agents B i j.
Proof.
  intros HV Hfree i j Hi Hj [Hne (a & Ha & Hv)].
  apply HV in Hv. unfold envies in Hv.
  specialize (Hfree i j a Ha Hj). by apply Qle_not_lt in Hfree.
Qed.

(** X3: [EF_count] returns 0 exactly on the envy-free allocations, and
    so does [EF_agents]; on these the four EF-1 and EF-X metrics return 0
    as well. *)
Theorem envy_metrics_zero_iff_envy_free X agents items B :
  (∀ j, (j < length agents)%nat →
        get_bundle_from_allocation_matrix X items j = Ok (B j)) →
  (EF_count X agents items = Ok 0%nat ↔ envy_free agents B)
  ∧ (EF_agents X agents items = Ok 0%nat ↔ envy_free agents B)
  ∧ (envy_free agents B →
     EF_1_count X agents items = Ok 0%nat
     ∧ EF_1_agents X agents items = Ok 0%nat
     ∧ EF_X_count X agents items = Ok 0%nat
     ∧ EF_X_agents X agents items = Ok 0%nat).
Proof.
  intros HB.
  assert (Hfree : envy_free agents B ↔
            ∀ i j, (i < length agents)%nat → (j < length agents)%nat →
                   ¬ violation_pair envies agents B i j).
  { split; [by apply envy_free_no_pair|].
    intros Hno i j a Ha Hj.
    destruct (Qlt_le_dec (valuation a (B i)) (valuation a (B j))) as [Hlt|]; [|done].
    exfalso. destruct (decide (i = j)) as [->|Hne].
    - by apply Qlt_irrefl in Hlt.
    - apply (Hno i j); [by eapply lookup_lt_Some|done|].
      split; [done|]. by exists a. }
  destruct (envy_metric_counts always_counts envies X agents items B HB)
    as [Hc Ha].
  { intros agent own other. unfold always_counts, envies.
    by rewrite andb_true_r, Qltb_lt. }
  destruct (envy_metric_counts there_is_no_item EF1_violated X agents items B HB)
    as [Hc1 Ha1]; [apply there_is_no_item_spec|].
  destruct (envy_metric_counts not_for_every_item EFX_violated X agents items B HB)
    as [HcX HaX].
  { intros agent own other.
    unfold not_for_every_item, EFX_violated, envies, removal_keeps_envy.
    rewrite andb_true_iff, Qltb_lt, not_for_every_item_loop_spec.
    split; intros [He (k & Hk & Hv)]; (split; [done|]); exists k.
    - apply elem_of_seq in Hk. split; [lia|done].
    - split; [|done]. apply elem_of_seq. lia. }
  unfold EF_count, EF_agents, EF_1_count, EF_1_agents, EF_X_count, EF_X_agents.
  rewrite Hc, Ha, Hc1, Ha1, HcX, HaX. split; [|split].
  - rewrite Hfree, <- count_pairs_zero. split; [by intros [= ->]|by intros ->].
  - rewrite Hfree, <- count_agents_zero. split; [by intros [= ->]|by intros ->].
  - intros Hf.
    pose proof (envy_free_no_pair EF1_violated agents B
                  (λ a own other H, proj1 H) Hf) as H1.
    pose proof (envy_free_no_pair EFX_violated agents B
                  (λ a own other H, proj1 H) Hf) as HX.
    repeat split; f_equal;
      first [by apply count_pairs_zero | by apply count_agents_zero].
Qed.

Lemma envy_inner_Err counts once X items agent i u js acc e :
  envy_inner counts once X items agent i u js acc = Err e → e = IndexError.
Proof.
  revert acc. induction js as [|j js IH]; intros acc; simpl; [done|].
  destruct (decide (i ≠ j)); [|apply IH].
  destruct (get_bundle_from_allocation_matrix X items j) as [b|e'] eqn:Eb; simpl.
  - destruct (_ && _); [destruct once; [done|]|]; apply IH.
  - intros [= <-]. by eapply get_bundle_Err.
Qed.

Lemma envy_outer_Err counts once X agents items i rest acc e :
  envy_outer counts once X agents items i rest acc = Err e → e = IndexError.
Proof.
  revert i acc. induction rest as [|a rest IH]; intros i acc; simpl; [done|].
  destruct (get_bundle_from_allocation_matrix X items i) as [b|e'] eqn:Eb; simpl.
  2:{ intros [= <-]. by eapply get_bundle_Err. }
  destruct (envy_inner _ _ _ _ _ _ _ _ _) as [n|e'] eqn:Ei; simpl.
  - apply IH.
  - intros [= <-]. by eapply envy_inner_Err.
Qed.

Lemma envy_metric_Err counts once X agents items :
  ¬ bundles_defined X items (length agents) →
  envy_metric counts once X agents items = Err IndexError.
Proof.
  intros Hn.
  destruct (envy_metric_cases counts once X agents items)
    as [[Hd _]|[_ [e He]]]; [done|].
  rewrite He. f_equal. unfold envy_metric in He. by eapply envy_outer_Err.
Qed.

Lemma bundles_defined_dec X items M :
  bundles_defined X items M
  ∨ ∃ j, (j < M)%nat
         ∧ get_bundle_from_allocation_matrix X items j = Err IndexError.
Proof.
  induction M as [|M [IH|(j & Hj & He)]].
  - left. intros j Hj. lia.
  - destruct (get_bundle_from_allocation_matrix X items M) as [b|e] eqn:Eb.
    + left. intros j Hj. destruct (decide (j = M)) as [->|]; [eauto|].
      apply IH. lia.
    + right. exists M. split; [lia|].
      by rewrite (get_bundle_Err _ _ _ _ Eb) in Eb.
  - right. exists j. split; [lia|done].
Qed.

(** X4: the six metrics return together or raise together.  They
    raise, with [IndexError], exactly when the bundle of some agent cannot
    be read off the matrix. *)
Theorem envy_metrics_raise_together X agents items :
  (bundles_defined X items (length agents)
   ∧ ∃ n1 n2 n3 n4 n5 n6,
       EF_count X agents items = Ok n1
       ∧ EF_agents X agents items = Ok n2
       ∧ EF_1_count X agents items = Ok n3
       ∧ EF_1_agents X agents items = Ok n4
       ∧ EF_X_count X agents items = Ok n5
       ∧ EF_X_agents X agents items = Ok n6)
  ∨ ((∃ j, (j < length agents)%nat
           ∧ get_bundle_from_allocation_matrix X items j = Err IndexError)
     ∧ EF_count X agents items = Err IndexError
     ∧ EF_agents X agents items = Err IndexError
     ∧ EF_1_count X agents items = Err IndexError
     ∧ EF_1_agents X agents items = Err IndexError
     ∧ EF_X_count X agents items = Err IndexError
     ∧ EF_X_agents X agents items = Err IndexError).
Proof.
  destruct (bundles_defined_dec X items (length agents)) as [Hd|Hex].
  - left. split; [done|].
    unfold EF_count, EF_agents, EF_1_count, EF_1_agents, EF_X_count, EF_X_agents.
    rewrite !envy_metric_pure by done. do 6 eexists. repeat split.
  - right. split; [done|].
    assert (¬ bundles_defined X items (length agents)) as Hn.
    { intros Hd. destruct Hex as (j & Hj & He).
      destruct (Hd j Hj) as [b Hb]. congruence. }
    unfold EF_count, EF_agents, EF_1_count, EF_1_agents, EF_X_count, EF_X_agents.
    by rewrite !envy_metric_Err.
Qed.

Lemma envy_bundles_read j :
  (j < length envy_agents)%nat →
  get_bundle_from_allocation_matrix envy_X envy_items j = Ok (envy_bundles j).
Proof. destruct j as [|[|j]]; intros Hj; [reflexivity..|simpl in Hj; lia]. Qed.

Lemma EF_metrics_count_envy_witness :
  (∀ j, (j < length envy_agents)%nat →
        get_bundle_from_allocation_matrix envy_X envy_items j
        = Ok (envy_bundles j))
  ∧ EF_count envy_X envy_agents envy_items
    = Ok (count_pairs (violation_pair envies envy_agents envy_bundles)
            (length envy_agents))
  ∧ EF_agents envy_X envy_agents envy_items
    = Ok (count_agents (violation_pair envies envy_agents envy_bundles)
            (length envy_agents)).
Proof.
  split; [exact envy_bundles_read|].
  exact (EF_metrics_count_envy envy_X envy_agents envy_items envy_bundles
           envy_bundles_read).
Defined.

Lemma EF_X_metrics_count_violations_witness :
  (∀ j, (j < length envy_agents)%nat →
        get_bundle_from_allocation_matrix envy_X envy_items j
        = Ok (envy_bundles j))
  ∧ EF_X_count envy_X envy_agents envy_items
    = Ok (count_pairs (violation_pair EFX_violated envy_agents envy_bundles)
            (length envy_agents))
  ∧ EF_X_agents envy_X envy_agents envy_items
    = Ok (count_agents (violation_pair EFX_violated envy_agents envy_bundles)
            (length envy_agents)).
Proof.
  split; [exact envy_bundles_read|].
  exact (EF_X_metrics_count_violations envy_X envy_agents envy_items
           envy_bundles envy_bundles_read).
Defined.

Lemma envy_metrics_zero_iff_envy_free_witness :
  (∀ j, (j < length envy_agents)%nat →
        get_bundle_from_allocation_matrix envy_X envy_items j
        = Ok (envy_bundles j))
  ∧ (EF_count envy_X envy_agents envy_items = Ok 0%nat
     ↔ envy_free envy_agents envy_bundles).
Proof.
  split; [exact envy_bundles_read|].
  exact (proj1 (envy_metrics_zero_iff_envy_free envy_X envy_agents envy_items
                  envy_bundles envy_bundles_read)).
Defined.

(** * Reading owners and bundles off the matrix *)

Lemma nonzero_from_sorted j row : StronglySorted lt (nonzero_from j row).
Proof.
  revert j. induction row as [|x row IH]; intros j; simpl; [constructor|].
  destruct (Z.eqb x 0); [apply IH|].
  constructor; [apply IH|].
  apply Forall_forall. intros c (k & v & -> & _)%elem_of_nonzero_from. lia.
Qed.

(** X5: [get_owners_list] returns, in increasing order, exactly the
    columns of the row that hold a non-zero entry, the slack column
    included; a row that does not exist is an [IndexError]. *)
Theorem get_owners_list_spec X item_index :
  match X !! item_index with
  | Some row =>
      ∃ owners,
        get_owners_list X item_index = Ok owners
        ∧ StronglySorted lt owners
        ∧ ∀ c, c ∈ owners ↔ ∃ v, row !! c = Some v ∧ v ≠ 0
  | None => get_owners_list X item_index = Err IndexError
  end.
Proof.
  unfold get_owners_list, index. destruct (X !! item_index) as [row|]; [|done].
  simpl. eexists. split; [done|]. split; [apply nonzero_from_sorted|].
  intros c. rewrite elem_of_nonzero_from. split.
  - intros (k & v & -> & Hk & Hv). eauto.
  - intros (v & Hc & Hv). exists c, v. done.
Qed.

Lemma bundle_indexes_loop_sorted k l : StronglySorted lt (bundle_indexes_loop k l).
Proof.
  revert k. induction l as [|x l IH]; intros k; simpl; [constructor|].
  destruct (Z.eqb x 1); [|apply IH].
  constructor; [apply IH|].
  apply Forall_forall. intros i Hi.
  assert (∀ k l i, i ∈ bundle_indexes_loop k l → (k ≤ i)%nat) as Hge.
  { clear. intros k l. revert k. induction l as [|x l IH]; intros k i; simpl.
    - intros H. by apply elem_of_nil in H.
    - destruct (Z.eqb x 1).
      + intros [->|H]%elem_of_cons; [lia|]. apply IH in H. lia.
      + intros H. apply IH in H. lia. }
  apply Hge in Hi. lia.
Qed.

Lemma elem_of_bundle_indexes_loop k l i :
  i ∈ bundle_indexes_loop k l ↔ ∃ n, i = (k + n)%nat ∧ l !! n = Some 1.
Proof.
  revert k. induction l as [|x l IH]; intros k; simpl.
  - split; [intros H; by apply elem_of_nil in H|]. by intros (n & _ & ?).
  - destruct (Z.eqb_spec x 1) as [->|Hx].
    + rewrite elem_of_cons, IH. split.
      * intros [->|(n & -> & Hn)].
        -- exists 0%nat. split; [lia|done].
        -- exists (S n). split; [lia|done].
      * intros ([|n] & -> & Hn).
        -- left. lia.
        -- right. exists n. split; [lia|done].
    + rewrite IH. split.
      * intros (n & -> & Hn). exists (S n). split; [lia|done].
      * intros ([|n] & -> & Hn); simpl in Hn.
        -- congruence.
        -- exists n. split; [lia|done].
Qed.

Lemma column_Err_row X j :
  (∃ e, column X j = Err e) ↔ ∃ i row, X !! i = Some row ∧ (length row ≤ j)%nat.
Proof.
  induction X as [|row X IH]; simpl.
  - split; [by intros [? ?]|]. by intros (i & row & ? & _).
  - unfold index at 1. destruct (row !! j) as [x|] eqn:Ex; simpl.
    + destruct (column X j) as [c|e] eqn:Ec; simpl.
      * split; [by intros [? ?]|]. intros ([|i] & row' & Hr & Hl); simpl in Hr.
        -- injection Hr as <-. apply lookup_lt_Some in Ex. lia.
        -- destruct (proj2 IH) as [? ?]; [eauto|done].
      * split; [|eauto]. intros _.
        destruct (proj1 IH) as (i & row' & Hr & Hl); [eauto|].
        exists (S i), row'. done.
    + split; [|eauto]. intros _. exists 0%nat, row. split; [done|].
      by apply lookup_ge_None.
Qed.

Lemma get_bundle_indexes_Ok X agent_index bundle_indexes :
  get_bundle_indexes_from_allocation_matrix X agent_index = Ok bundle_indexes →
  StronglySorted lt bundle_indexes
  ∧ ∀ i, i ∈ bundle_indexes ↔ getX X i agent_index = Ok 1.
Proof.
  unfold get_bundle_indexes_from_allocation_matrix. intros H. inv_bind H.
  injection H as <-. rename E into Ec.
  split; [apply bundle_indexes_loop_sorted|].
  intros i. rewrite elem_of_bundle_indexes_loop, getX_Ok. split.
  - intros (n & -> & Hn). simpl in *.
    pose proof (column_length _ _ _ Ec) as Hlen.
    destruct (X !! n) as [row|] eqn:Er.
    + exists row. split; [done|]. by rewrite (column_lookup _ _ _ _ _ Ec Er).
    + apply lookup_lt_Some in Hn. apply lookup_ge_None in Er. lia.
  - intros (row & Hr & Hv). exists i. split; [done|].
    by rewrite <- (column_lookup _ _ _ _ _ Ec Hr).
Qed.

(** X6: on a matrix with at least one row,
    [get_bundle_indexes_from_allocation_matrix] returns, in increasing
    order, exactly the rows that hold a 1 in the column of the agent; it
    raises, with [IndexError], exactly when the rows have no such column.
    (Of a matrix with no rows numpy still knows the number of columns,
    which a list of rows does not record.) *)
Theorem get_bundle_indexes_spec X agent_index :
  X ≠ [] →
  match get_bundle_indexes_from_allocation_matrix X agent_index with
  | Ok bundle_indexes =>
      StronglySorted lt bundle_indexes
      ∧ (∀ i, i ∈ bundle_indexes ↔ getX X i agent_index = Ok 1)
      ∧ ∀ i row, X !! i = Some row → (agent_index < length row)%nat
  | Err e =>
      e = IndexError
      ∧ ∃ i row, X !! i = Some row ∧ (length row ≤ agent_index)%nat
  end.
Proof.
  intros _.
  destruct (get_bundle_indexes_from_allocation_matrix X agent_index)
    as [idx|e] eqn:E.
  - destruct (get_bundle_indexes_Ok _ _ _ E) as [Hs Hi].
    split; [done|]. split; [done|]. intros i row Hr.
    destruct (decide (agent_index < length row)%nat) as [|Hn]; [done|].
    destruct (proj2 (column_Err_row X agent_index)) as [e He].
    { exists i, row. split; [done|lia]. }
    unfold get_bundle_indexes_from_allocation_matrix in E.
    by rewrite He in E.
  - unfold get_bundle_indexes_from_allocation_matrix in E.
    destruct (column X agent_index) as [c|e'] eqn:Ec; simpl in E; [done|].
    injection E as <-. split; [by eapply column_Err|].
    apply column_Err_row. eauto.
Qed.

Lemma bundle_loop_items_at items k l acc :
  bundle_loop items k l acc
  = b ← items_at items (bundle_indexes_loop k l); Ok (acc ++ b).
Proof.
  revert k acc. induction l as [|x l IH]; intros k acc; simpl.
  - by rewrite app_nil_r.
  - destruct (Z.eqb x 1); [|apply IH]. simpl.
    destruct (index items k) as [g|e]; simpl; [|done].
    rewrite IH. destruct (items_at items _) as [b|e]; simpl; [|done].
    by rewrite <- app_assoc.
Qed.

(** X7: the bundle of an agent is the list of the items at its bundle
    indexes, in that order, and the two functions raise together; on top
    of that the bundle raises [IndexError] when a held row has no item. *)
Theorem bundle_is_items_at_bundle_indexes X items agent_index :
  get_bundle_from_allocation_matrix X items agent_index
  = (bundle_indexes ← get_bundle_indexes_from_allocation_matrix X agent_index;
     items_at items bundle_indexes).
Proof.
  unfold get_bundle_from_allocation_matrix,
    get_bundle_indexes_from_allocation_matrix.
  destruct (column X agent_index) as [c|e]; simpl; [|done].
  rewrite bundle_loop_items_at.
  by destruct (items_at items _).
Qed.

Lemma find_agent_loop_spec X agents items a b owners r :
  find_agent_loop X agents items a b owners = Ok r →
  match r with
  | Some c =>
      ∃ pre post, owners = pre ++ c :: post
        ∧ willing X agents items c a b
        ∧ ∀ c', c' ∈ pre →
                (c' < length agents)%nat ∧ ¬ willing X agents items c' a b
  | None =>
      ∀ c', c' ∈ owners →
            (c' < length agents)%nat ∧ ¬ willing X agents items c' a b
  end.
Proof.
  induction owners as [|o owners IH]; simpl.
  - intros [= <-]. intros c' Hc'. by apply elem_of_nil in Hc'.
  - intros H. inv_bind H.
    apply index_Ok in E, E1, E2.
    destruct (exchange_contribution _ _ _ _) eqn:Ex.
    + injection H as <-. exists [], owners. split; [done|]. split.
      * unfold willing. eauto 10.
      * intros c' Hc'. by apply elem_of_nil in Hc'.
    + assert ((o < length agents)%nat ∧ ¬ willing X agents items o a b) as Ho.
      { split; [by eapply lookup_lt_Some|].
        intros (ag & bu & g & h & Hag & Hbu & Hg & Hh & Hw). congruence. }
      specialize (IH H). destruct r as [c|].
      * destruct IH as (pre & post & -> & Hw & Hpre).
        exists (o :: pre), post. split; [done|]. split; [done|].
        intros c' [->|Hc']%elem_of_cons; [done|by apply Hpre].
      * intros c' [->|Hc']%elem_of_cons; [done|by apply IH].
Qed.

(** X8: when [find_agent] returns an agent, it is the lowest column of
    the row with a non-zero entry whose agent is willing to make the
    exchange, and every non-zero column before it belongs to an unwilling
    agent.  It returns [None] only when every non-zero column of the row
    belongs to an unwilling agent; in particular the slack entry of the
    row is then zero, since the slack column has no agent. *)
Theorem find_agent_spec X agents items current_item_index last_item_index r :
  find_agent X agents items current_item_index last_item_index = Ok r →
  match r with
  | Some owner =>
      (owner < length agents)%nat
      ∧ nonzero_at X current_item_index owner
      ∧ willing X agents items owner current_item_index last_item_index
      ∧ ∀ c, (c < owner)%nat → nonzero_at X current_item_index c →
             ¬ willing X agents items c current_item_index last_item_index
  | None =>
      (∀ c, nonzero_at X current_item_index c →
            (c < length agents)%nat
            ∧ ¬ willing X agents items c current_item_index last_item_index)
      ∧ ∀ s, getX X current_item_index (length agents) = Ok s → s = 0
  end.
Proof.
  unfold find_agent. intros H. inv_bind H.
  unfold get_owners_list in E. inv_bind E. injection E as <-.
  rename a0 into a. rename E0 into E. apply index_Ok in E.
  assert (∀ c, nonzero_at X current_item_index c ↔ c ∈ nonzero_from 0 a) as Hnz.
  { intros c. unfold nonzero_at. rewrite elem_of_nonzero_from. split.
    - intros (v & (row & Hr & Hv)%getX_Ok & Hne). exists c, v.
      by simplify_eq.
    - intros (k & v & -> & Hk & Hv). exists v. split; [|done].
      apply getX_Ok. eauto. }
  apply find_agent_loop_spec in H. destruct r as [owner|].
  - destruct H as (pre & post & Hown & Hw & Hpre).
    assert (owner ∈ nonzero_from 0 a) as Hin.
    { rewrite Hown. apply elem_of_app. right. left. }
    split; [|split; [by apply Hnz|split; [done|]]].
    { destruct Hw as (ag & _ & _ & _ & Hag & _). by eapply lookup_lt_Some. }
    intros c Hc Hnzc. apply Hnz in Hnzc.
    pose proof (nonzero_from_sorted 0 a) as Hs. rewrite Hown in Hs, Hnzc.
    apply elem_of_app in Hnzc as [Hc'|Hc']; [by apply Hpre|].
    apply StronglySorted_app_1_r, StronglySorted_cons in Hs as [Hall _].
    apply elem_of_cons in Hc' as [->|Hc']; [lia|].
    eapply Forall_forall in Hall; [|exact Hc']. lia.
  - split.
    + intros c Hc. apply H. by apply Hnz.
    + intros s Hs. destruct (decide (s = 0)) as [|Hne]; [done|].
      destruct (H (length agents)) as [Hlt _]; [|lia].
      apply Hnz. by exists s.
Qed.

Lemma list_set_spec lis :
  NoDup (list_set lis) ∧ ∀ i, i ∈ list_set lis ↔ i ∈ lis.
Proof.
  unfold list_set.
  pose proof (merge_sort_Permutation Nat.le (remove_dups lis)) as HP.
  split.
  - rewrite HP. apply NoDup_remove_dups.
  - intros i. by rewrite HP, elem_of_remove_dups.
Qed.

Lemma desired_items_loop_spec agents items inv lis r :
  desired_items_loop agents items inv lis = Ok r →
  ∀ i, i ∈ r ↔
       i ∈ lis ∨ ∃ j agent, Some j ∈ inv ∧ agents !! j = Some agent
                            ∧ i ∈ get_desired_items_indexes agent items.
Proof.
  revert lis. induction inv as [|[j|] inv IH]; intros lis; simpl.
  - intros [= <-] i. split; [by left|].
    intros [?|(j & ? & Hj & _)]; [done|]. by apply elem_of_nil in Hj.
  - intros H. inv_bind H. apply index_Ok in E. intros i.
    rewrite (IH _ H), elem_of_app. split.
    + intros [[?|?]|(j' & a' & ? & ? & ?)]; [by left|right..].
      * exists j, a. split; [left|done].
      * exists j', a'. split; [by right|done].
    + intros [?|(j' & a' & [[= ->]|?]%elem_of_cons & Ha & ?)].
      * left. by left.
      * left. right. by simplify_eq.
      * right. eauto.
  - done.
Qed.

Lemma bundles_loop_spec X inv lis r :
  bundles_loop X inv lis = Ok r →
  (None ∉ inv)
  ∧ ∀ i, i ∈ r ↔ i ∈ lis ∨ ∃ j, Some j ∈ inv ∧ getX X i j = Ok 1.
Proof.
  revert lis. induction inv as [|[j|] inv IH]; intros lis; simpl.
  - intros [= <-]. split; [by intros ?%elem_of_nil|]. intros i.
    split; [by left|]. intros [?|(j & Hj & _)]; [done|].
    by apply elem_of_nil in Hj.
  - intros H. inv_bind H.
    destruct (get_bundle_indexes_Ok _ _ _ E) as [_ Hb].
    destruct (IH _ H) as [Hn Hr]. split.
    { intros [[=]|?]%elem_of_cons. done. }
    intros i. rewrite Hr, elem_of_app, Hb. split.
    + intros [[?|?]|(j' & ? & ?)]; [by left|right..].
      * exists j. split; [left|done].
      * exists j'. split; [by right|done].
    + intros [?|(j' & [[= ->]|?]%elem_of_cons & ?)].
      * left. by left.
      * left. by right.
      * right. eauto.
  - done.
Qed.

(** X9: the two unions over the agents involved hold no index twice.
    [get_multiple_agents_desired_items] returns exactly the indexes that
    some listed agent desires, [get_multiple_agents_bundles] exactly the
    rows in which some listed agent holds a 1; they return together only
    when the list holds no [None], the answer of [find_agent] for an
    owner that was not found. *)
Theorem multiple_agents_unions_spec X agents items agents_indexes desired held :
  get_multiple_agents_desired_items agents items agents_indexes = Ok desired →
  get_multiple_agents_bundles X agents_indexes = Ok held →
  (None ∉ agents_indexes)
  ∧ NoDup desired
  ∧ (∀ i, i ∈ desired ↔
          ∃ j agent, Some j ∈ agents_indexes ∧ agents !! j = Some agent
                     ∧ i ∈ get_desired_items_indexes agent items)
  ∧ NoDup held
  ∧ (∀ i, i ∈ held ↔ ∃ j, Some j ∈ agents_indexes ∧ getX X i j = Ok 1).
Proof.
  unfold get_multiple_agents_desired_items, get_multiple_agents_bundles.
  intros Hd Hh. inv_bind Hd. inv_bind Hh.
  injection Hd as <-. injection Hh as <-.
  destruct (list_set_spec a) as [Hnd Hin].
  destruct (list_set_spec a0) as [Hnd0 Hin0].
  destruct (bundles_loop_spec _ _ _ _ E0) as [Hnone Hb].
  pose proof (desired_items_loop_spec _ _ _ _ _ E) as Hdes.
  split; [done|]. split; [done|]. split; [|split; [done|]].
  - intros i. rewrite Hin, Hdes. split; [|by right].
    intros [Hi|?]; [by apply elem_of_nil in Hi|done].
  - intros i. rewrite Hin0, Hb. split; [|by right].
    intros [Hi|?]; [by apply elem_of_nil in Hi|done].
Qed.

Lemma get_bundle_indexes_spec_witness :
  envy_X ≠ []
  ∧ match get_bundle_indexes_from_allocation_matrix envy_X 1 with
    | Ok bundle_indexes =>
        StronglySorted lt bundle_indexes
        ∧ (∀ i, i ∈ bundle_indexes ↔ getX envy_X i 1 = Ok 1)
        ∧ ∀ i row, envy_X !! i = Some row → (1 < length row)%nat
    | Err e =>
        e = IndexError
        ∧ ∃ i row, envy_X !! i = Some row ∧ (length row ≤ 1)%nat
    end.
Proof.
  assert (H : envy_X ≠ []) by discriminate.
  split; [exact H|]. exact (get_bundle_indexes_spec envy_X 1 H).
Defined.

Lemma find_agent_spec_witness :
  find_agent order_X5 order_agents order_items 0 1 = Ok (Some 0%nat)
  ∧ (0 < length order_agents)%nat
  ∧ nonzero_at order_X5 0 0
  ∧ willing order_X5 order_agents order_items 0 0 1
  ∧ ∀ c, (c < 0)%nat → nonzero_at order_X5 0 c →
         ¬ willing order_X5 order_agents order_items c 0 1.
Proof.
  assert (H : find_agent order_X5 order_agents order_items 0 1
              = Ok (Some 0%nat)) by (vm_compute; reflexivity).
  split; [exact H|].
  exact (find_agent_spec order_X5 order_agents order_items 0 1 (Some 0%nat) H).
Defined.

Lemma multiple_agents_unions_spec_witness :
  get_multiple_agents_desired_items order_agents order_items
    [Some 0%nat; Some 1%nat] = Ok [0; 1; 2]%nat
  ∧ get_multiple_agents_bundles order_X5 [Some 0%nat; Some 1%nat]
    = Ok [0; 2]%nat
  ∧ NoDup [0; 2]%nat
  ∧ ∀ i, i ∈ [0; 2]%nat ↔
         ∃ j, Some j ∈ [Some 0%nat; Some 1%nat] ∧ getX order_X5 i j = Ok 1.
Proof.
  assert (H1 : get_multiple_agents_desired_items order_agents order_items
                 [Some 0%nat; Some 1%nat] = Ok [0; 1; 2]%nat)
    by (vm_compute; reflexivity).
  assert (H2 : get_multiple_agents_bundles order_X5 [Some 0%nat; Some 1%nat]
               = Ok [0; 2]%nat) by (vm_compute; reflexivity).
  split; [exact H1|]. split; [exact H2|].
  exact (proj2 (proj2 (proj2
    (multiple_agents_unions_spec order_X5 order_agents order_items
       [Some 0%nat; Some 1%nat] [0; 1; 2]%nat [0; 2]%nat H1 H2)))).
Defined.

(** * Shortest paths and the edges of the exchange graph *)

Lemma walk_prepend G a b n v :
  (a, b) ∈ G → walk G b n v → walk G a (S n) v.
Proof.
  intros Hab Hw. induction Hw as [|n u v Hw IH Huv].
  - eapply walk_step; [apply walk_start|done].
  - eapply walk_step; [exact IH|done].
Qed.

Lemma path_walk G p start v :
  head p = Some start → head (rev p) = Some v → path_in G p →
  walk G start (length p) v.
Proof.
  revert start. induction p as [|a p IH]; intros start Hh Hl Hp; [done|].
  injection Hh as ->. destruct p as [|b p].
  - injection Hl as <-. apply walk_start.
  - destruct Hp as [Hab Hp]. rewrite head_rev_cons in Hl by done.
    apply (walk_prepend G start b); [done|]. by apply IH.
Qed.

Lemma bfs_inv_within G start visited q0 queue n v :
  bfs_inv G start visited (q0 :: queue) →
  walk G start n v → (n ≤ length q0)%nat → v ∈ visited.
Proof.
  intros (Hs & J1 & J2 & J3 & J4) Hw. induction Hw as [|n u v Hw IH Huv].
  - done.
  - intros Hn. specialize (IH ltac:(lia)).
    destruct (J2 u IH) as [[p Hp]|Hcl]; [|by apply Hcl].
    exfalso. destruct (J1 _ Hp) as (u' & p' & [= <- <-] & _ & Hmin).
    specialize (Hmin n Hw).
    apply StronglySorted_cons in J3 as [Hall _].
    apply elem_of_cons in Hp as [<-|Hp]; [simpl in *; lia|].
    eapply Forall_forall in Hall; [|exact Hp]. simpl in *. lia.
Qed.

Lemma bfs_inv_step G start visited u p queue :
  bfs_inv G start visited ((u :: p) :: queue) →
  let fresh := remove_dups (filter (λ v, v ∉ visited) (successors G u)) in
  bfs_inv G start (visited ++ fresh) (queue ++ map (λ v, v :: u :: p) fresh).
Proof.
  intros Hinv fresh.
  assert (∀ x, x ∈ fresh ↔ (x ∉ visited) ∧ (u, x) ∈ G) as Hfresh.
  { intros x. unfold fresh.
    by rewrite elem_of_remove_dups, list_elem_of_filter, elem_of_successors. }
  pose proof (λ n v, bfs_inv_within G start visited (u :: p) queue n v Hinv)
    as Hwithin.
  destruct Hinv as (Hs & J1 & J2 & J3 & J4).
  apply StronglySorted_cons in J3 as [Hall J3].
  assert (∀ q, q ∈ queue →
            (S (length p) ≤ length q ≤ S (S (length p)))%nat) as Hlen.
  { intros q Hq. split.
    - eapply Forall_forall in Hall; [|exact Hq]. simpl in Hall. lia.
    - specialize (J4 (u :: p) q eq_refl ltac:(by right)). simpl in J4. lia. }
  split; [|split; [|split; [|split]]].
  - apply elem_of_app. by left.
  - intros q [Hq|Hq]%elem_of_app.
    + destruct (J1 q ltac:(by right)) as (u' & p' & -> & Hv & Hmin).
      exists u', p'. split; [done|]. split; [|done]. apply elem_of_app. by left.
    + apply (list_elem_of_fmap_1 (λ v, v :: u :: p)) in Hq as (v & -> & Hv).
      exists v, (u :: p). split; [done|]. split.
      * apply elem_of_app. by right.
      * intros n Hw. simpl.
        destruct (decide (n ≤ S (length p))%nat) as [Hle|]; [|lia].
        exfalso. apply Hfresh in Hv as [Hv _]. apply Hv.
        by apply (Hwithin n v).
  - intros v [Hv|Hv]%elem_of_app.
    + destruct (J2 v Hv) as [[p' [Hp'|Hp']%elem_of_cons]|Hcl].
      * injection Hp' as -> ->. right. intros w Hw. apply elem_of_app.
        destruct (decide (w ∈ visited)); [by left|]. right. by apply Hfresh.
      * left. exists p'. apply elem_of_app. by left.
      * right. intros w Hw. apply elem_of_app. left. by apply Hcl.
    + left. exists (u :: p). apply elem_of_app. right.
      by apply (list_elem_of_fmap_2 (λ v, v :: u :: p)).
  - apply StronglySorted_app_2; [|done|].
    + intros q1 q2 Hq1 Hq2.
      apply (list_elem_of_fmap_1 (λ v, v :: u :: p)) in Hq2 as (v & -> & _).
      specialize (Hlen q1 Hq1). simpl. lia.
    + clear. induction fresh as [|v l IH]; [constructor|].
      simpl. constructor; [done|]. apply Forall_forall.
      intros q (w & -> & _)%(list_elem_of_fmap_1 (λ v, v :: u :: p)). done.
  - intros q0 q Hq0 Hq.
    assert ((S (length p) ≤ length q0)%nat) as H0.
    { destruct queue as [|q1 queue]; simpl in Hq0.
      - destruct fresh; [done|]. injection Hq0 as <-. simpl. lia.
      - injection Hq0 as <-. apply Hlen. left. }
    apply elem_of_app in Hq as [Hq|Hq].
    + specialize (Hlen q Hq). lia.
    + apply (list_elem_of_fmap_1 (λ v, v :: u :: p)) in Hq as (v & -> & _).
      simpl. lia.
Qed.

Lemma bfs_shortest G start target fuel visited queue p :
  bfs_inv G start visited queue →
  bfs G target fuel visited queue = Some p →
  ∀ n, walk G start n target → (length p ≤ n)%nat.
Proof.
  revert visited queue. induction fuel as [|fuel IH]; intros visited queue Hinv H;
    [done|].
  cbn [bfs] in H. destruct queue as [|[|u q] queue]; [done..|].
  destruct (decide (u = target)) as [->|Hne].
  - injection H as <-. intros n Hw.
    destruct Hinv as (_ & J1 & _).
    destruct (J1 (target :: q) ltac:(left)) as (? & ? & [= <- <-] & _ & Hmin).
    specialize (Hmin n Hw). pose proof (List.length_rev (target :: q)) as Hl.
    simpl in *. lia.
  - eapply IH; [|exact H]. by apply bfs_inv_step.
Qed.

Lemma bfs_inv_initial G start : bfs_inv G start [start] [[start]].
Proof.
  split; [left|]. split; [|split; [|split]].
  - intros q ->%list_elem_of_singleton. exists start, []. split; [done|].
    split; [left|]. intros n Hw. simpl. inversion Hw; lia.
  - intros v ->%list_elem_of_singleton. left. exists []. left.
  - repeat constructor.
  - intros q0 q [= <-] ->%list_elem_of_singleton. simpl. lia.
Qed.

(** X10: for distinct nodes, [find_shortest_path] returns a path of the
    graph from the start to the end node that visits no node twice and
    that no other path from the start to the end undercuts in length; it
    returns [False] exactly when the graph has no path between them.
    (For equal nodes networkx answers by whether the node is in the
    graph, which the list of edges does not record.) *)
Theorem find_shortest_path_correct G start end_ :
  start ≠ end_ →
  match find_shortest_path G start end_ with
  | Some p =>
      simple_path G start end_ p
      ∧ ∀ p', head p' = Some start → head (rev p') = Some end_ →
              path_in G p' → (length p ≤ length p')%nat
  | None =>
      ∀ p', head p' = Some start → path_in G p' → end_ ∉ p'
  end.
Proof.
  intros _. destruct (find_shortest_path G start end_) as [p|] eqn:E.
  - split; [by apply find_shortest_path_simple|].
    intros p' Hh Hl Hp. unfold find_shortest_path in E.
    eapply bfs_shortest; [apply bfs_inv_initial|exact E|].
    by apply path_walk.
  - intros p'. by apply find_shortest_path_None.
Qed.

Lemma add_source_edges_exact agent items bundle G desired G1 :
  add_source_edges agent items bundle G desired = Ok G1 →
  ∀ e, e ∈ G1 ↔
       e ∈ G ∨ ∃ i g, i ∈ desired ∧ e = (Src, It i) ∧ items !! i = Some g
                      ∧ item_in g bundle = false
                      ∧ (marginal_contribution agent bundle g == 1)%Q.
Proof.
  revert G. induction desired as [|i desired IH]; intros G; simpl.
  - intros [= <-] e. split; [by left|].
    intros [?|(i & g & Hi & _)]; [done|]. by apply elem_of_nil in Hi.
  - intros H. inv_bind H. apply index_Ok in E.
    destruct (negb (item_in a bundle) && Qeq_bool _ 1) eqn:Eg.
    + apply andb_true_iff in Eg as [Hb Hm].
      apply negb_true_iff in Hb. apply Qeq_bool_iff in Hm.
      intros e. rewrite (IH _ H e), elem_of_add_edge. split.
      * intros [[?| ->]|(i' & g & ? & ? & ?)]; [by left|right..].
        -- exists i, a. split; [left|done].
        -- exists i', g. split; [by right|done].
      * intros [?|(i' & g & [-> | ?]%elem_of_cons & -> & Hg & ?)].
        -- left. by left.
        -- left. by right.
        -- right. exists i', g. done.
    + intros e. rewrite (IH _ H e). split.
      * intros [?|(i' & g & ? & ? & ?)]; [by left|right].
        exists i', g. split; [by right|done].
      * intros [?|(i' & g & [-> | ?]%elem_of_cons & -> & Hg & Hb & Hm)].
        -- by left.
        -- exfalso. simplify_eq. apply Qeq_bool_iff in Hm.
           rewrite Hb, Hm in Eg. done.
        -- right. exists i', g. done.
Qed.

(** X11: [add_agent_to_exchange_graph] keeps every edge of the graph and
    adds exactly the edges from the source to the items that the agent
    picked desires, does not hold, and whose marginal contribution to its
    bundle equals 1. *)
Theorem add_agent_to_exchange_graph_spec X G agents items agent_picked G1 :
  add_agent_to_exchange_graph X G agents items agent_picked = Ok G1 →
  ∃ agent bundle,
    agents !! agent_picked = Some agent
    ∧ get_bundle_from_allocation_matrix X items agent_picked = Ok bundle
    ∧ ∀ e, e ∈ G1 ↔
        e ∈ G ∨ ∃ i g, i ∈ get_desired_items_indexes agent items
                       ∧ e = (Src, It i) ∧ items !! i = Some g
                       ∧ item_in g bundle = false
                       ∧ (marginal_contribution agent bundle g == 1)%Q.
Proof.
  unfold add_agent_to_exchange_graph. intros H. inv_bind H.
  apply index_Ok in E0. exists a0, a. split; [done|]. split; [done|].
  by apply add_source_edges_exact.
Qed.

Lemma exchangeable_loop_spec X agents items a b item_1 item_2 owners r :
  items !! a = Some item_1 → items !! b = Some item_2 →
  exchangeable_loop X agents items item_1 item_2 owners = Ok r →
  r = true ↔
  ∃ c, c ∈ owners ∧ c ≠ length agents ∧ willing X agents items c a b.
Proof.
  intros Ha Hb. induction owners as [|o owners IH]; simpl.
  - intros [= <-]. split; [done|]. intros (c & Hc & _). by apply elem_of_nil in Hc.
  - destruct (decide (o ≠ length agents)) as [Hne|Heq].
    + intros H. inv_bind H. apply index_Ok in E.
      destruct (exchange_contribution _ _ _ _) eqn:Ex.
      * injection H as <-. split; [|done]. intros _. exists o.
        split; [left|]. split; [done|]. unfold willing. eauto 10.
      * rewrite (IH H). split.
        -- intros (c & Hc & ?). exists c. split; [by right|done].
        -- intros (c & [-> | Hc]%elem_of_cons & Hcne & Hw); [|eauto].
           destruct Hw as (ag & bu & g & h & ? & ? & ? & ? & Hw). congruence.
    + intros H. rewrite (IH H). split.
      * intros (c & Hc & ?). exists c. split; [by right|done].
      * intros (c & [-> | Hc]%elem_of_cons & Hcne & Hw); [|eauto].
        exfalso. apply Heq. done.
Qed.

Lemma edges_from_item_spec X agents items a item_1 owners G L G' :
  items !! a = Some item_1 →
  edges_from_item X agents items a item_1 owners G L = Ok G' →
  (∀ b, b ∈ L → b ≠ a →
        (It a, It b) ∈ G' ↔
        ∃ c, c ∈ owners ∧ c ≠ length agents ∧ willing X agents items c a b)
  ∧ (∀ e, (∀ b, b ∈ L → b ≠ a → e ≠ (It a, It b)) → e ∈ G' ↔ e ∈ G).
Proof.
  intros Ha. revert G. induction L as [|b0 L IH]; intros G; simpl.
  - intros [= <-]. split; [|done]. intros b Hb. by apply elem_of_nil in Hb.
  - destruct (decide (b0 ≠ a)) as [Hne|Heq].
    2:{ intros H. destruct (IH _ H) as [IH1 IH2]. split.
        - intros b [-> | Hb]%elem_of_cons Hba; [done|by apply IH1].
        - intros e He. apply IH2. intros b Hb. apply He. by right. }
    intros H. inv_bind H. apply index_Ok in E.
    rename a1 into exchangeable. rename a2 into G2.
    pose proof (exchangeable_loop_spec _ _ _ a b0 _ _ _ _ Ha E E0) as Hex.
    assert (∀ e, e ∈ G2 ↔
              if decide (e = (It a, It b0)) then exchangeable = true
              else e ∈ G) as HG2.
    { intros e. destruct exchangeable.
      - destruct (negb (has_edge G (It a) (It b0))) eqn:Eh;
          injection E1 as <-.
        + rewrite elem_of_add_edge.
          destruct (decide _) as [->|Hne'];
            [split; [done|by right]|split; [by intros [?|?]|by left]].
        + apply negb_false_iff, has_edge_true in Eh.
          destruct (decide _) as [->|]; [split; done|done].
      - destruct (has_edge G (It a) (It b0)) eqn:Eh.
        + rewrite (elem_of_remove_edge _ _ _ _ _ E1).
          destruct (decide _) as [->|Hne'];
            [split; [by intros [_ ?]|done]|split; [by intros [? _]|done]].
        + injection E1 as <-.
          destruct (decide _) as [->|]; [|done].
          split; [|done]. intros Hin%has_edge_true. congruence. }
    destruct (IH _ H) as [IH1 IH2]. split.
    + intros b Hb Hba. destruct (decide (b ∈ L)) as [HbL|HbL]; [by apply IH1|].
      apply elem_of_cons in Hb as [-> | Hb]; [|done].
      rewrite IH2, HG2.
      * rewrite decide_True by done. done.
      * intros b' Hb' _ [= <-]. done.
    + intros e He. rewrite IH2, HG2.
      * rewrite decide_False; [done|]. apply He; [left|done].
      * intros b Hb. apply He. by right.
Qed.

Lemma StronglySorted_lt_NoDup (l : list nat) : StronglySorted lt l → NoDup l.
Proof.
  induction 1 as [|x l Hs IH Hall]; constructor; [|done].
  intros Hx. eapply Forall_forall in Hall; [|exact Hx]. lia.
Qed.

Lemma edges_from_bundles_spec X agents items D inv G Bs G' :
  (∀ b, b ∈ D ↔ desired_by agents items inv b) →
  edges_from_bundles X agents items D G Bs = Ok G' →
  (∀ a b, a ∈ Bs → a ≠ b →
          b ∈ D ∨ owner_desires X agents items a b →
          (It a, It b) ∈ G' ↔ has_willing_owner X agents items a b)
  ∧ (∀ e, (∀ a b, a ∈ Bs → a ≠ b →
                  b ∈ D ∨ owner_desires X agents items a b →
                  e ≠ (It a, It b)) → e ∈ G' ↔ e ∈ G).
Proof.
  intros HD. revert G. induction Bs as [|a0 Bs IH]; intros G; simpl.
  - intros [= <-]. split; [|done]. intros a b Ha. by apply elem_of_nil in Ha.
  - intros H. inv_bind H. apply index_Ok in E.
    rename a into item_1. rename a1 into owners0. rename a2 into od.
    rename a3 into G1.
    unfold get_owners_list in E0.
    destruct (index X a0) as [row|] eqn:E3; simpl in E0; [|done].
    injection E0 as E0. apply index_Ok in E3.
    set (owners := if bool_decide (length agents ∈ owners0)
                   then list_remove (length agents) owners0 else owners0) in *.
    assert (∀ c, c ∈ owners ↔
              nonzero_at X a0 c ∧ c ≠ length agents) as Hown.
    { intros c.
      assert (c ∈ owners0 ↔ nonzero_at X a0 c) as H0.
      { rewrite <- E0. unfold nonzero_at. rewrite elem_of_nonzero_from. split.
        - intros (k & v & -> & Hk & Hv). exists v. split; [|done].
          apply getX_Ok. eauto.
        - intros (v & (row' & Hr & Hv)%getX_Ok & Hne). exists c, v.
          by simplify_eq. }
      unfold owners. destruct (bool_decide_reflect (length agents ∈ owners0)).
      - rewrite list_remove_elem, H0; [done|].
        rewrite <- E0. apply StronglySorted_lt_NoDup, nonzero_from_sorted.
      - rewrite <- H0. split; [|by intros [? _]].
        intros Hc. split; [done|]. intros ->. done. }
    assert (∀ b, b ∈ od ↔ owner_desires X agents items a0 b) as Hod.
    { intros b. unfold get_multiple_agents_desired_items in E1. inv_bind E1.
      injection E1 as <-. destruct (list_set_spec a) as [_ ->].
      rewrite (desired_items_loop_spec _ _ _ _ _ E4). unfold owner_desires.
      split.
      - intros [Hb|(j & ag & Hj & Hag & Hb)]; [by apply elem_of_nil in Hb|].
        apply list_elem_of_fmap in Hj as (c & [= <-] & Hc).
        apply Hown in Hc as [? ?]. exists j, ag. done.
      - intros (c & ag & Hne & Hnz & Hag & Hb). right. exists c, ag.
        split; [|done]. apply list_elem_of_fmap. exists c. split; [done|].
        by apply Hown. }
    assert (∀ b, b ∈ list_set (D ++ od) ↔
              b ∈ D ∨ owner_desires X agents items a0 b) as HL.
    { intros b. destruct (list_set_spec (D ++ od)) as [_ ->].
      by rewrite elem_of_app, Hod. }
    destruct (edges_from_item_spec _ _ _ _ _ _ _ _ _ E E2) as [Hi1 Hi2].
    destruct (IH _ H) as [IH1 IH2]. split.
    + intros a b Ha Hab Hb.
      destruct (decide (a ∈ Bs)) as [HaB|HaB]; [by apply IH1|].
      apply elem_of_cons in Ha as [-> | Ha]; [|done].
      rewrite IH2.
      * rewrite Hi1; [|by apply HL|done]. unfold has_willing_owner. split.
        -- intros (c & Hc & Hne & Hw). apply Hown in Hc as [? ?]. eauto.
        -- intros (c & Hne & Hnz & Hw). exists c. split; [|done].
           by apply Hown.
      * intros a' b' Ha' _ _ [= <- <-]. done.
    + intros e He. rewrite IH2, Hi2; [done|..].
      * intros b Hb Hba. apply He; [left|done|by apply HL].
      * intros a b Ha. apply He. by right.
Qed.

(** X12: [update_exchange_graph] sets anew the edge from [a] to [b] for
    every item [a] held by an agent involved in the transfer and every
    other item [b] that an involved agent or an owner of [a] desires:
    after the call the edge is in the graph exactly when some agent that
    holds [a] is willing to give it up for [b].  Every other edge is as
    the removal of the sink edge left it. *)
Theorem update_exchange_graph_edges X G agents items path_og agents_involved
    G' :
  update_exchange_graph X G agents items path_og agents_involved = Ok G' →
  ∃ G1,
    drop_sink_edge X G agents path_og = Ok G1
    ∧ (∀ a b, recomputed X agents items agents_involved a b →
              (It a, It b) ∈ G' ↔ has_willing_owner X agents items a b)
    ∧ (∀ e, (∀ a b, recomputed X agents items agents_involved a b →
                    e ≠ (It a, It b)) →
            e ∈ G' ↔ e ∈ G1).
Proof.
  unfold update_exchange_graph. intros H. inv_bind H.
  rename a into G1. rename a0 into D. rename a1 into Bs.
  exists G1. split; [done|].
  assert (∀ b, b ∈ D ↔ desired_by agents items agents_involved b) as HD.
  { intros b. unfold get_multiple_agents_desired_items in E0. inv_bind E0.
    injection E0 as <-. destruct (list_set_spec a) as [_ ->].
    rewrite (desired_items_loop_spec _ _ _ _ _ E2). unfold desired_by.
    split; [|by right]. intros [Hb|?]; [by apply elem_of_nil in Hb|done]. }
  assert (∀ a, a ∈ Bs ↔ involved_holds X agents_involved a) as HB.
  { intros a. unfold get_multiple_agents_bundles in E1. inv_bind E1.
    injection E1 as <-. destruct (list_set_spec a0) as [_ ->].
    destruct (bundles_loop_spec _ _ _ _ E2) as [_ ->]. unfold involved_holds.
    split; [|by right]. intros [Hb|?]; [by apply elem_of_nil in Hb|done]. }
  destruct (edges_from_bundles_spec _ _ _ _ _ _ _ _ HD H) as [H1 H2]. split.
  - intros a b (Hab & Ha & Hb). apply H1; [by apply HB|done|].
    by rewrite HD.
  - intros e He. apply H2. intros a b Ha Hab Hb. apply He.
    split; [done|]. split; [by apply HB|]. by rewrite <- HD.
Qed.

Lemma find_shortest_path_correct_witness :
  Src ≠ Sink
  ∧ simple_path [(It 0, Sink); (It 1, Sink); (Src, It 1)] Src Sink
      [Src; It 1; Sink]
  ∧ ∀ p', head p' = Some Src → head (rev p') = Some Sink →
          path_in [(It 0, Sink); (It 1, Sink); (Src, It 1)] p' →
          (length [Src; It 1; Sink] ≤ length p')%nat.
Proof.
  assert (H : Src ≠ Sink) by discriminate.
  split; [exact H|].
  exact (find_shortest_path_correct [(It 0, Sink); (It 1, Sink); (Src, It 1)]
           Src Sink H).
Defined.

Lemma add_agent_to_exchange_graph_spec_witness :
  add_agent_to_exchange_graph
    (initial_matrix order_items order_agents)
    (initialize_exchange_graph 4) order_agents order_items 1
  = Ok [(It 0, Sink); (It 1, Sink); (It 2, Sink); (It 3, Sink); (Src, It 0)]
  ∧ ∃ agent bundle,
      order_agents !! 1%nat = Some agent
      ∧ get_bundle_from_allocation_matrix
          (initial_matrix order_items order_agents)
          order_items 1 = Ok bundle
      ∧ ∀ e, e ∈ [(It 0, Sink); (It 1, Sink); (It 2, Sink); (It 3, Sink);
                  (Src, It 0)] ↔
          e ∈ initialize_exchange_graph 4
          ∨ ∃ i g, i ∈ get_desired_items_indexes agent order_items
                   ∧ e = (Src, It i) ∧ order_items !! i = Some g
                   ∧ item_in g bundle = false
                   ∧ (marginal_contribution agent bundle g == 1)%Q.
Proof.
  assert (H : add_agent_to_exchange_graph
                (initial_matrix order_items order_agents)
                (initialize_exchange_graph 4) order_agents order_items 1
              = Ok [(It 0, Sink); (It 1, Sink); (It 2, Sink); (It 3, Sink);
                    (Src, It 0)]) by (vm_compute; reflexivity).
  split; [exact H|].
  exact (add_agent_to_exchange_graph_spec _ _ _ _ _ _ H).
Defined.

Lemma update_exchange_graph_edges_witness :
  update_exchange_graph (st_X order_state1) (initialize_exchange_graph 4)
    order_agents order_items [Src; It 2; Sink] [Some 0%nat]
  = Ok [(It 0, Sink); (It 1, Sink); (It 3, Sink)]
  ∧ ∃ G1,
      drop_sink_edge (st_X order_state1) (initialize_exchange_graph 4)
        order_agents [Src; It 2; Sink] = Ok G1
      ∧ (∀ a b, recomputed (st_X order_state1) order_agents order_items
                  [Some 0%nat] a b →
                (It a, It b) ∈ [(It 0, Sink); (It 1, Sink); (It 3, Sink)] ↔
                has_willing_owner (st_X order_state1) order_agents
                  order_items a b)
      ∧ (∀ e, (∀ a b, recomputed (st_X order_state1) order_agents order_items
                        [Some 0%nat] a b → e ≠ (It a, It b)) →
              e ∈ [(It 0, Sink); (It 1, Sink); (It 3, Sink)] ↔ e ∈ G1).
Proof.
  assert (H : update_exchange_graph (st_X order_state1)
                (initialize_exchange_graph 4) order_agents order_items
                [Src; It 2; Sink] [Some 0%nat]
              = Ok [(It 0, Sink); (It 1, Sink); (It 3, Sink)])
    by (vm_compute; reflexivity).
  split; [exact H|].
  exact (update_exchange_graph_edges _ _ _ _ _ _ _ H).
Defined.

(** * Invariants of the reachable states *)

Section reachable_states.
Variable float_pow : Q → Q → Q.
Variables (agents : list Agent) (items : list Item).
Variables (crit : criteria) (weights : list Q).

Lemma reachable_slack_bounded st :
  (∀ item, item ∈ items → 1 ≤ capacity item) →
  reachable float_pow agents items crit weights st →
  slack_bounded (st_X st) items (length agents).
Proof.
  intros positive_capacity Hr. pose proof Hr as Hr0.
  induction Hr as [|st st' Hr IH Hpl Hit].
  - intros i item Hi. exists (capacity item). split.
    + apply getX_Ok. eexists. split.
      * simpl. rewrite initial_lookup, Hi. done.
      * apply initial_row.
    + assert (1 ≤ capacity item); [|lia].
      apply positive_capacity. by eapply list_elem_of_lookup_2.
  - specialize (IH Hr). intros i item Hi.
    destruct (IH i item Hi) as (s & Hs & Hb).
    pose proof (reachable_shape_inv _ _ _ _ _ _ Hr0) as Hsh.
    pose proof (reachable_slack_inv _ _ _ _ _ _ positive_capacity Hr0) as Hsl.
    destruct (st_X st' !! i) as [row|] eqn:Er.
    2:{ apply lookup_ge_None in Er. rewrite (inv_rows _ _ _ Hsh) in Er.
        apply lookup_lt_Some in Hi. lia. }
    pose proof (inv_cols _ _ _ Hsh _ _ Er) as Hlen.
    destruct (row !! length agents) as [s'|] eqn:Es.
    2:{ apply lookup_ge_None in Es. lia. }
    assert (getX (st_X st') i (length agents) = Ok s') as Hs'.
    { apply getX_Ok. eauto. }
    exists s'. split; [done|]. split.
    + by eapply inv_slack_nonneg.
    + destruct (iteration_progress _ _ _ _ _ _ _ positive_capacity Hr Hpl Hit)
        as (_ & _ & Hmono & _).
      destruct (Hmono _ _ Hs') as (s0 & Hs0 & Hle).
      rewrite Hs in Hs0. injection Hs0 as <-. lia.
Qed.

Lemma iteration_sink_complete st st' :
  (∀ item, item ∈ items → 1 ≤ capacity item) →
  reachable float_pow agents items crit weights st → players st ≠ [] →
  iteration float_pow agents items crit weights st = Next st' →
  (∀ i s, getX (st_X st) i (length agents) = Ok s → 0 < s →
          (It i, Sink) ∈ st_G st) →
  ∀ i s, getX (st_X st') i (length agents) = Ok s → 0 < s →
         (It i, Sink) ∈ st_G st'.
Proof.
  intros Hcap Hr Hpl Hit Hc i s' Hs' Hpos.
  pose proof (reachable_shape_inv _ _ _ _ _ _ Hr) as Hsh.
  pose proof (reachable_slack_inv _ _ _ _ _ _ Hcap Hr) as Hsl.
  pose proof (reachable_gains_inv _ _ _ _ _ _ Hr) as Hg.
  apply iteration_cases in Hit
    as [(picked & G' & Hs & Hpin & ->)
       |(picked & p & G' & inv & X' & G'' & g & Hs & Hu & Hg' & Hgain & ->)];
    simpl in *.
  - destruct (select_and_search_spec _ _ _ _ _ _ _ _ Hs (inv_graph _ _ _ Hsh))
      as (_ & HG & _).
    apply HG. by eapply Hc.
  - destruct (select_and_search_spec _ _ _ _ _ _ _ _ Hs (inv_graph _ _ _ Hsh))
      as (Ha & HG & _).
    destruct (argmax_lt _ _ _ Hg Hpl Ha) as [Hlt _].
    destruct (iteration_transfer_shape _ _ _ _ _ _ _ _ _
                (inv_graph _ _ _ Hsh) Hlt Hs Hu Hg')
      as (ik & s & _ & Hsk & Hslack & _).
    rewrite int64_pred_nonneg in Hslack
      by (by eapply (inv_slack_nonneg _ _ _ Hsl)).
    destruct (update_exchange_graph_spec _ _ _ _ _ _ _ Hg')
      as (_ & G1 & Hd & _ & Hkeep).
    destruct (drop_sink_edge_spec _ _ _ _ _ Hd)
      as (last_item & s1 & Hlast & Hs1 & HG1).
    apply Hkeep, HG1. split.
    + apply HG. rewrite Hslack in Hs'.
      destruct (decide (i = ik)) as [->|Hne].
      * eapply Hc; [exact Hsk|]. injection Hs' as <-. lia.
      * by eapply Hc.
    + intros -> [= ->]. rewrite Hs1 in Hs'. injection Hs' as <-. lia.
Qed.

Lemma reachable_sink_complete st :
  (∀ item, item ∈ items → 1 ≤ capacity item) →
  reachable float_pow agents items crit weights st →
  ∀ i s, getX (st_X st) i (length agents) = Ok s → 0 < s →
         (It i, Sink) ∈ st_G st.
Proof.
  intros Hcap. induction 1 as [|st st' Hr IH Hpl Hit].
  - intros i s Hs _. simpl in *. apply getX_Ok in Hs as (row & Hr & _).
    apply lookup_lt_Some in Hr.
    unfold initial_matrix in Hr. rewrite length_map in Hr.
    unfold initialize_exchange_graph.
    apply (list_elem_of_fmap_2 (λ i, (It i, Sink))), elem_of_seq. lia.
  - by eapply iteration_sink_complete.
Qed.

(** X13: over items of capacity at least 1, in every state that the loop
    of [general_yankee_swap] reaches the matrix has one row per item and
    one column per agent plus the slack column, every entry of an agent
    is 0 or 1, and the slack of every item lies between 0 and its
    capacity: no item is handed out beyond its capacity. *)
Theorem reachable_matrix_bounds st :
  (∀ item, item ∈ items → 1 ≤ capacity item) →
  reachable float_pow agents items crit weights st →
  length (st_X st) = length items
  ∧ (∀ i row, st_X st !! i = Some row → length row = S (length agents))
  ∧ (∀ i j v, (j < length agents)%nat → getX (st_X st) i j = Ok v →
              v = 0 ∨ v = 1)
  ∧ slack_bounded (st_X st) items (length agents).
Proof.
  intros Hcap Hr. pose proof (reachable_shape_inv _ _ _ _ _ _ Hr) as Hsh.
  split; [apply Hsh|]. split; [apply Hsh|]. split; [apply Hsh|].
  by apply reachable_slack_bounded.
Qed.

(** X14: over items of capacity at least 1, between two iterations of
    [general_yankee_swap] every edge of the exchange graph leaves an item
    (the source node is gone), and an item has its edge to the sink
    exactly while its slack is positive. *)
Theorem reachable_graph_tracks_slack st :
  (∀ item, item ∈ items → 1 ≤ capacity item) →
  reachable float_pow agents items crit weights st →
  graph_wf (st_G st)
  ∧ sink_tracks_slack (st_X st) (st_G st) (length agents).
Proof.
  intros Hcap Hr. split; [by eapply inv_graph, reachable_shape_inv|].
  intros i. split.
  - by eapply inv_sink, reachable_slack_inv.
  - intros (s & Hs & Hpos). by eapply reachable_sink_complete.
Qed.

Lemma yankee_loop_Finished fuel st st' :
  reachable float_pow agents items crit weights st →
  yankee_loop float_pow agents items crit weights fuel st = Finished st' →
  reachable float_pow agents items crit weights st' ∧ players st' = [].
Proof.
  revert st. induction fuel as [|fuel IH]; intros st Hr; simpl.
  - destruct (players st) eqn:Ep; [|done]. by intros [= <-].
  - destruct (players st) eqn:Ep; [by intros [= <-]|].
    destruct (iteration _ _ _ _ _ st) as [st1|] eqn:Eit; [|done].
    apply IH. eapply reachable_next; [done| |done]. by rewrite Ep.
Qed.

(** X15: when a run of [general_yankee_swap] over items of capacity at
    least 1 ends normally, no player is left, the gain of every agent is
    [-inf], and the number of iterations made is the number of units
    handed out plus the number of agents. *)
Theorem finished_run_accounting fuel st :
  (∀ item, item ∈ items → 1 ≤ capacity item) →
  general_yankee_swap float_pow agents items crit weights fuel = Finished st →
  players st = []
  ∧ (∀ j, (j < length agents)%nat → gain_vector st !! j = Some NegInf)
  ∧ Z.of_nat (count st)
    = (total_capacity items - total_slack (length agents) (st_X st))
      + Z.of_nat (length agents).
Proof.
  intros positive_capacity H.
  destruct (general_yankee_swap_cases float_pow agents items crit weights
              fuel) as [[Hov _]|[_ Heq]]; [congruence|].
  rewrite Heq in H.
  apply yankee_loop_Finished in H as [Hr Hpl]; [|apply reachable_initial].
  split; [done|]. split.
  - pose proof (reachable_gains_inv _ _ _ _ _ _ Hr) as Hg.
    intros j Hj. rewrite <- (gains_length _ _ Hg) in Hj.
    apply lookup_lt_is_Some in Hj as [g Hgj].
    assert (g ≠ NegInf → False) as Hno.
    { intros Hne. assert (j ∈ players st) as Hin by (apply Hg; eauto).
      rewrite Hpl in Hin. by apply elem_of_nil in Hin. }
    destruct g; [done|exfalso; by apply Hno..].
  - pose proof (inv_measure _ _ _
      (reachable_slack_inv _ _ _ _ _ _ positive_capacity Hr)) as Hm.
    rewrite Hpl in Hm. simpl in Hm. lia.
Qed.
End reachable_states.

Lemma order_items_positive item : item ∈ order_items → 1 ≤ capacity item.
Proof.
  intros Hin. unfold order_items in Hin.
  repeat (apply elem_of_cons in Hin as [->|Hin]; [simpl; lia|]).
  by apply elem_of_nil in Hin.
Qed.

Lemma order_state1_reachable :
  reachable no_pow order_agents order_items LorenzDominance [] order_state1.
Proof.
  apply (reachable_next _ _ _ _ _ (initial_state order_agents order_items));
    [apply reachable_initial|discriminate|vm_compute; reflexivity].
Qed.

Lemma reachable_matrix_bounds_witness :
  (∀ item, item ∈ order_items → 1 ≤ capacity item)
  ∧ reachable no_pow order_agents order_items LorenzDominance [] order_state1
  ∧ length (st_X order_state1) = length order_items
  ∧ (∀ i row, st_X order_state1 !! i = Some row →
              length row = S (length order_agents))
  ∧ (∀ i j v, (j < length order_agents)%nat →
              getX (st_X order_state1) i j = Ok v → v = 0 ∨ v = 1)
  ∧ slack_bounded (st_X order_state1) order_items (length order_agents).
Proof.
  split; [exact order_items_positive|].
  split; [exact order_state1_reachable|].
  exact (reachable_matrix_bounds no_pow order_agents order_items
           LorenzDominance [] order_state1 order_items_positive
           order_state1_reachable).
Defined.

Lemma reachable_graph_tracks_slack_witness :
  (∀ item, item ∈ order_items → 1 ≤ capacity item)
  ∧ reachable no_pow order_agents order_items LorenzDominance [] order_state1
  ∧ graph_wf (st_G order_state1)
  ∧ sink_tracks_slack (st_X order_state1) (st_G order_state1)
      (length order_agents).
Proof.
  split; [exact order_items_positive|].
  split; [exact order_state1_reachable|].
  exact (reachable_graph_tracks_slack no_pow order_agents order_items
           LorenzDominance [] order_state1 order_items_positive
           order_state1_reachable).
Defined.

Lemma finished_run_accounting_witness :
  (∀ item, item ∈ order_items → 1 ≤ capacity item)
  ∧ general_yankee_swap no_pow order_agents order_items LorenzDominance [] 8
    = Finished order_final
  ∧ players order_final = []
  ∧ (∀ j, (j < length order_agents)%nat →
          gain_vector order_final !! j = Some NegInf)
  ∧ Z.of_nat (count order_final)
    = (total_capacity order_items
       - total_slack (length order_agents) (st_X order_final))
      + Z.of_nat (length order_agents).
Proof.
  assert (H : general_yankee_swap no_pow order_agents order_items
                LorenzDominance [] 8 = Finished order_final)
    by (vm_compute; reflexivity).
  split; [exact order_items_positive|]. split; [exact H|].
  exact (finished_run_accounting no_pow order_agents order_items
           LorenzDominance [] 8 order_final order_items_positive H).
Defined.

(** * SPIRE and round robin *)

(** ** Shapes *)

Lemma initial_shape_ok items agents :
  shape_ok (initial_matrix items agents) (length items)
    (length agents).
Proof.
  split; [unfold initial_matrix; by rewrite length_map|].
  intros i row. rewrite initial_lookup.
  destruct (items !! i) as [item|]; [|done]. intros [= <-]. apply initial_row.
Qed.

Lemma setX_shape_ok X i j v X' N M :
  setX X i j v = Ok X' → shape_ok X N M → shape_ok X' N M.
Proof.
  intros H [Hl Hr]. split; [by rewrite (setX_length _ _ _ _ _ H)|].
  intros i' row Hi'.
  pose proof (setX_row_length _ _ _ _ _ i' H) as Hlen. rewrite Hi' in Hlen.
  destruct (X !! i') as [row0|] eqn:E0; [|done].
  injection Hlen as ->. by eapply Hr.
Qed.

Lemma getX_total X N M i j :
  shape_ok X N M → (i < N)%nat → (j ≤ M)%nat → ∃ v, getX X i j = Ok v.
Proof.
  intros [Hl Hr] Hi Hj. rewrite <- Hl in Hi.
  apply lookup_lt_is_Some in Hi as [row Hrow].
  pose proof (Hr _ _ Hrow) as Hlen.
  destruct (lookup_lt_is_Some_2 row j) as [v Hv]; [lia|].
  exists v. apply getX_Ok. eauto.
Qed.

Lemma getX_row_Err X N M i j :
  shape_ok X N M → (N ≤ i)%nat → getX X i j = Err IndexError.
Proof.
  intros [Hl _] Hi. unfold getX, index.
  rewrite (proj2 (lookup_ge_None X i)); [done|lia].
Qed.

Lemma getX_lt X N M i j v :
  shape_ok X N M → getX X i j = Ok v → (i < N)%nat ∧ (j ≤ M)%nat.
Proof.
  intros [Hl Hr] (row & Hrow & Hv)%getX_Ok. split.
  - rewrite <- Hl. by eapply lookup_lt_Some.
  - apply lookup_lt_Some in Hv. rewrite (Hr _ _ Hrow) in Hv. lia.
Qed.

Lemma decrement_Ok X i c X' :
  decrement X i c = Ok X' ↔
  ∃ s, getX X i c = Ok s ∧ setX X i c (int64_pred s) = Ok X'.
Proof.
  unfold decrement. destruct (getX X i c) as [s|e]; simpl.
  - split; [eauto|]. by intros (s' & [= <-] & ?).
  - split; [done|]. by intros (s' & [=] & _).
Qed.

Lemma take_item_Ok X N M i j :
  shape_ok X N M → (i < N)%nat → (j < M)%nat →
  ∃ X1 X2 s,
    setX X i j 1 = Ok X1 ∧ decrement X1 i M = Ok X2
    ∧ getX X i M = Ok s ∧ shape_ok X2 N M
    ∧ (∀ i' j', getX X2 i' j'
         = if decide (i' = i ∧ j' = M) then Ok (int64_pred s)
           else if decide (i' = i ∧ j' = j) then Ok 1
           else getX X i' j').
Proof.
  intros Hsh Hi Hj.
  destruct (getX_total _ _ _ i j Hsh Hi ltac:(lia)) as [v Hv].
  destruct (setX_total _ _ _ 1 _ Hv) as [X1 HX1].
  pose proof (setX_shape_ok _ _ _ _ _ _ _ HX1 Hsh) as Hsh1.
  destruct (getX_total _ _ _ i M Hsh1 Hi ltac:(lia)) as [s Hs].
  destruct (setX_total _ _ _ (int64_pred s) _ Hs) as [X2 HX2].
  exists X1, X2, s. split; [done|]. split; [apply decrement_Ok; eauto|].
  rewrite (getX_setX _ _ _ _ _ i M HX1) in Hs.
  rewrite decide_False in Hs by lia.
  split; [done|]. split; [by eapply setX_shape_ok|].
  intros i' j'. rewrite (getX_setX _ _ _ _ _ i' j' HX2).
  destruct (decide (i' = i ∧ j' = M)); [done|].
  by rewrite (getX_setX _ _ _ _ _ i' j' HX1).
Qed.

(** ** [SPIRE_algorithm] *)

Lemma spire_items_Ok agent j M items desired bundle X :
  shape_ok X (length items) M → (j < M)%nat →
  (∀ i, i ∈ desired → (i < length items)%nat) →
  ∃ X', spire_items agent j M items desired bundle X = Ok X'
    ∧ shape_ok X' (length items) M
    ∧ (∀ i c, c ≠ j → c ≠ M → getX X' i c = getX X i c)
    ∧ (∀ i v, getX X' i j = Ok v →
              getX X i j = Ok v ∨ (v = 1 ∧ i ∈ desired))
    ∧ (∀ i s', getX X' i M = Ok s' →
               ∃ s, getX X i M = Ok s ∧ s' ≤ s ∧ (0 ≤ s → 0 ≤ s')).
Proof.
  intros Hsh Hj. revert bundle X Hsh.
  induction desired as [|i desired IH]; intros bundle X Hsh Hin; simpl.
  - exists X. split; [done|]. split; [done|]. split; [done|].
    split; [by left|]. intros i s' Hs'. exists s'. split; [done|]. lia.
  - assert (i < length items)%nat as Hi by (apply Hin; left).
    assert (∀ i', i' ∈ desired → (i' < length items)%nat) as Hin'
      by (intros; apply Hin; by right).
    assert (∀ X0, shape_ok X0 (length items) M →
              (∀ i' c', getX X0 i' c' = getX X i' c') →
              ∃ X', spire_items agent j M items desired bundle X0 = Ok X'
                ∧ shape_ok X' (length items) M
                ∧ (∀ i0 c, c ≠ j → c ≠ M → getX X' i0 c = getX X i0 c)
                ∧ (∀ i0 v, getX X' i0 j = Ok v →
                     getX X i0 j = Ok v ∨ (v = 1 ∧ i0 ∈ i :: desired))
                ∧ (∀ i0 s', getX X' i0 M = Ok s' →
                     ∃ s, getX X i0 M = Ok s ∧ s' ≤ s ∧ (0 ≤ s → 0 ≤ s')))
      as Hskip.
    { intros X0 Hsh0 Heq.
      destruct (IH bundle X0 Hsh0 Hin') as (X' & HX' & Hsh' & Hc & Hj' & Hs).
      exists X'. split; [done|]. split; [done|]. split; [|split].
      - intros i0 c ? ?. by rewrite Hc, Heq.
      - intros i0 v Hv. destruct (Hj' _ _ Hv) as [?|[? ?]].
        + left. by rewrite <- Heq.
        + right. split; [done|by right].
      - intros i0 s' Hs'. destruct (Hs _ _ Hs') as (s & ? & ?).
        exists s. by rewrite <- Heq. }
    destruct (getX_total _ _ _ i M Hsh Hi ltac:(lia)) as [slack Hslack].
    rewrite Hslack. simpl.
    destruct (Z.ltb_spec 0 slack) as [Hpos|Hnp]; [|by apply Hskip].
    destruct (lookup_lt_is_Some_2 items i Hi) as [g Hg].
    rewrite (proj2 (index_Ok items i g) Hg). simpl.
    destruct (Qltb _ _); [|by apply Hskip].
    destruct (take_item_Ok _ _ _ i j Hsh Hi Hj)
      as (X1 & X2 & s & HX1 & HX2 & Hs & Hsh2 & Hget).
    rewrite HX1. simpl. rewrite HX2. simpl.
    rewrite Hslack in Hs. injection Hs as <-.
    rewrite int64_pred_nonneg in Hget by lia.
    destruct (IH (bundle ++ [g]) X2 Hsh2 Hin')
      as (X' & HX' & Hsh' & Hc & Hj' & Hsl).
    exists X'. split; [done|]. split; [done|]. split; [|split].
    + intros i0 c Hcj HcM. rewrite Hc, Hget by done.
      rewrite !decide_False; [done|intros [_ ?]; done..].
    + intros i0 v Hv. destruct (Hj' _ _ Hv) as [Hv2|[? ?]].
      * rewrite Hget in Hv2. rewrite decide_False in Hv2 by lia.
        destruct (decide (i0 = i ∧ j = j)) as [[-> _]|]; [|by left].
        injection Hv2 as <-. right. split; [done|left].
      * right. split; [done|by right].
    + intros i0 s' Hs'. destruct (Hsl _ _ Hs') as (s2 & Hs2 & Hle & Hnn).
      rewrite Hget in Hs2.
      destruct (decide (i0 = i ∧ M = M)) as [[-> _]|Hne].
      * injection Hs2 as <-. exists slack. split; [done|]. lia.
      * rewrite decide_False in Hs2 by lia. exists s2. done.
Qed.

Lemma spire_items_Err agent j M items desired bundle X i :
  shape_ok X (length items) M → (j < M)%nat →
  i ∈ desired → (length items ≤ i)%nat →
  spire_items agent j M items desired bundle X = Err IndexError.
Proof.
  intros Hsh Hj Hin Hi. revert bundle X Hsh.
  induction desired as [|i0 desired IH]; intros bundle X Hsh;
    [by apply elem_of_nil in Hin|].
  simpl. destruct (decide (i0 < length items)%nat) as [Hlt|Hge].
  - apply elem_of_cons in Hin as [-> | Hin]; [lia|].
    specialize (IH Hin).
    destruct (getX_total _ _ _ i0 M Hsh Hlt ltac:(lia)) as [slack Hslack].
    rewrite Hslack. simpl. destruct (0 <? slack); [|by apply IH].
    destruct (lookup_lt_is_Some_2 items i0 Hlt) as [g Hg].
    rewrite (proj2 (index_Ok items i0 g) Hg). simpl.
    destruct (Qltb _ _); [|by apply IH].
    destruct (take_item_Ok _ _ _ i0 j Hsh Hlt Hj)
      as (X1 & X2 & s & HX1 & HX2 & Hs & Hsh2 & Hget).
    rewrite HX1. simpl. rewrite HX2. simpl. by apply IH.
  - rewrite (getX_row_Err _ _ _ i0 M Hsh); [done|lia].
Qed.

Lemma spire_items_rsum agent j M items desired bundle X X' :
  shape_ok X (length items) M → (j < M)%nat →
  NoDup desired → (∀ i, i ∈ desired → getX X i j = Ok 0) →
  spire_items agent j M items desired bundle X = Ok X' →
  ∀ i, rsum X' i = rsum X i.
Proof.
  intros Hsh Hj. revert bundle X Hsh.
  induction desired as [|i0 desired IH]; intros bundle X Hsh Hnd Hz; simpl.
  - by intros [= <-].
  - apply NoDup_cons in Hnd as [Hni Hnd].
    assert (∀ i, i ∈ desired → getX X i j = Ok 0) as Hz'
      by (intros; apply Hz; by right).
    intros H. inv_bind H. rename a into slack.
    destruct (Z.ltb_spec 0 slack) as [Hpos|]; [|by eapply IH].
    inv_bind H. rename a into g.
    destruct (Qltb _ _); [|by eapply IH].
    inv_bind H. rename a into X1. rename a0 into X2.
    apply decrement_Ok in E2 as (s & Hs & HX2).
    assert (s = slack) as Hss.
    { rewrite (getX_setX _ _ _ _ _ i0 M E1) in Hs.
      rewrite decide_False in Hs by lia. congruence. }
    rewrite int64_pred_nonneg in HX2 by lia.
    pose proof (setX_shape_ok _ _ _ _ _ _ _ E1 Hsh) as Hsh1.
    pose proof (setX_shape_ok _ _ _ _ _ _ _ HX2 Hsh1) as Hsh2.
    intros i. rewrite (IH (bundle ++ [g]) X2 Hsh2 Hnd); [| |exact H].
    2:{ intros i' Hi'. rewrite (getX_setX _ _ _ _ _ i' j HX2).
        rewrite decide_False by lia.
        rewrite (getX_setX _ _ _ _ _ i' j E1).
        rewrite decide_False; [by apply Hz'|]. intros [-> _]. done. }
    rewrite (rsum_setX _ _ _ _ _ _ i HX2 Hs).
    rewrite (rsum_setX _ _ _ _ _ _ i E1 (Hz i0 ltac:(left))).
    destruct (decide (i = i0)); lia.
Qed.

Lemma desired_range_dec (items : list Item) (desired : list nat) :
  (∀ i, i ∈ desired → (i < length items)%nat)
  ∨ ∃ i, i ∈ desired ∧ (length items ≤ i)%nat.
Proof.
  induction desired as [|i desired [IH|(i' & Hi' & Hge)]].
  - left. intros i Hi. by apply elem_of_nil in Hi.
  - destruct (decide (i < length items)%nat) as [Hlt|Hge].
    + left. intros i' [-> | Hi']%elem_of_cons; [done|by apply IH].
    + right. exists i. split; [left|lia].
  - right. exists i'. split; [by right|done].
Qed.

Lemma spire_agents_spec agents items k rest X :
  drop k agents = rest →
  shape_ok X (length items) (length agents) →
  (∀ i c, (k ≤ c < length agents)%nat → (i < length items)%nat →
          getX X i c = Ok 0) →
  match spire_agents (length agents) items k rest X with
  | Ok X' =>
      (∀ agent i, agent ∈ rest → i ∈ get_desired_items_indexes agent items →
                  (i < length items)%nat)
      ∧ shape_ok X' (length items) (length agents)
      ∧ (∀ i c v, (c < length agents)%nat → getX X' i c = Ok v →
           getX X i c = Ok v
           ∨ (v = 1 ∧ ∃ agent, agents !! c = Some agent
                       ∧ i ∈ get_desired_items_indexes agent items))
      ∧ (∀ i s', getX X' i (length agents) = Ok s' →
           ∃ s, getX X i (length agents) = Ok s ∧ s' ≤ s ∧ (0 ≤ s → 0 ≤ s'))
      ∧ ((∀ agent, agent ∈ rest →
            NoDup (get_desired_items_indexes agent items)) →
         ∀ i, rsum X' i = rsum X i)
  | Err e =>
      e = IndexError
      ∧ ∃ agent i, agent ∈ rest ∧ i ∈ get_desired_items_indexes agent items
                   ∧ (length items ≤ i)%nat
  end.
Proof.
  revert k X. induction rest as [|agent rest IH]; intros k X Hdrop Hsh Hzero.
  - simpl. split; [intros ? ? H; by apply elem_of_nil in H|].
    split; [done|]. split; [by left|]. split; [|done].
    intros i s' Hs'. exists s'. split; [done|]. lia.
  - assert (agents !! k = Some agent) as Hk.
    { rewrite <- (Nat.add_0_r k), <- lookup_drop, Hdrop. done. }
    assert (k < length agents)%nat as Hlt by (by eapply lookup_lt_Some).
    assert (drop (S k) agents = rest) as Hdrop'.
    { rewrite <- (Nat.add_1_r k), <- drop_drop, Hdrop. done. }
    simpl.
    destruct (desired_range_dec items (get_desired_items_indexes agent items))
      as [Hin|(i & Hi & Hge)].
    2:{ rewrite (spire_items_Err _ _ _ _ _ _ _ i Hsh Hlt Hi Hge). simpl.
        split; [done|]. exists agent, i. split; [left|done]. }
    destruct (spire_items_Ok agent k (length agents) items _ [] X Hsh Hlt Hin)
      as (X1 & HX1 & Hsh1 & Hc & Hj & Hs).
    rewrite HX1. simpl.
    specialize (IH (S k) X1 Hdrop' Hsh1).
    destruct (spire_agents (length agents) items (S k) rest X1) as [X'|e].
    + destruct IH as (Hr & Hsh' & Hv & Hsl & Hrs).
      { intros i c Hc' Hi. rewrite Hc by lia. apply Hzero; [lia|done]. }
      split; [|split; [done|split; [|split]]].
      * intros a i [-> | Ha]%elem_of_cons Hi; [by apply Hin|by eapply Hr].
      * intros i c v Hc' Hv'. destruct (Hv i c v Hc' Hv') as [Hv1|?]; [|by right].
        destruct (decide (c = k)) as [->|Hne].
        -- destruct (Hj _ _ Hv1) as [?|[-> ?]]; [by left|]. right. eauto.
        -- left. rewrite <- Hc; [done..|lia].
      * intros i s' Hs'. destruct (Hsl _ _ Hs') as (s1 & Hs1 & Hle1 & Hnn1).
        destruct (Hs _ _ Hs1) as (s & Hs0 & Hle & Hnn).
        exists s. split; [done|]. split; [lia|]. intros ?. apply Hnn1, Hnn. done.
      * intros Hnd i. rewrite Hrs.
        -- eapply spire_items_rsum; [exact Hsh|exact Hlt| | |exact HX1].
           ++ apply Hnd. left.
           ++ intros i' Hi'. apply Hzero; [lia|by apply Hin].
        -- intros a Ha. apply Hnd. by right.
    + destruct IH as (-> & a & i & Ha & Hi & Hge).
      { intros i c Hc' Hi. rewrite Hc by lia. apply Hzero; [lia|done]. }
      split; [done|]. exists a, i. split; [by right|done].
Qed.

Lemma initial_getX items agents i j v :
  getX (initial_matrix items agents) i j = Ok v →
  ∃ item, items !! i = Some item
    ∧ (if decide (j = length agents) then v = capacity item else v = 0).
Proof.
  intros (row & Hrow & Hv)%getX_Ok. rewrite initial_lookup in Hrow.
  destruct (items !! i) as [item|]; [|done]. injection Hrow as <-.
  exists item. split; [done|].
  destruct (initial_row agents item) as (Hlen & Hcap & Hz & _).
  cbv zeta in *. destruct (decide (j = length agents)) as [->|Hne].
  - congruence.
  - apply lookup_lt_Some in Hv as Hlt. rewrite Hlen in Hlt.
    rewrite Hz in Hv by lia. congruence.
Qed.

Lemma initial_agent_entries items agents i c :
  (0 ≤ c < length agents)%nat → (i < length items)%nat →
  getX (initial_matrix items agents) i c = Ok 0.
Proof.
  intros Hc Hi.
  destruct (getX_total _ _ _ i c (initial_shape_ok items agents) Hi
              ltac:(lia)) as [v Hv].
  rewrite Hv. destruct (initial_getX _ _ _ _ _ Hv) as (item & _ & Hv').
  rewrite decide_False in Hv' by lia. by subst.
Qed.

(** X16: [SPIRE_algorithm] returns exactly when every capacity fits a
    64-bit integer and every index that an agent desires is the index of
    an item; it raises [OverflowError] in the first case and
    [IndexError] in the second.  The matrix returned has the shape of the
    initial one, every entry of an agent is 0 or 1, and an agent holds
    only items it desires. *)
Theorem SPIRE_algorithm_spec agents items :
  match SPIRE_algorithm agents items with
  | Ok X =>
      (∀ item, item ∈ items → int64_min ≤ capacity item ≤ int64_max)
      ∧ desires_in_range agents items
      ∧ shape_ok X (length items) (length agents)
      ∧ binary X (length agents)
      ∧ ∀ i j, (j < length agents)%nat → getX X i j = Ok 1 →
               ∃ agent, agents !! j = Some agent
                        ∧ i ∈ get_desired_items_indexes agent items
  | Err e =>
      e = OverflowError
      ∧ (∃ item, item ∈ items
                 ∧ (capacity item < int64_min ∨ int64_max < capacity item))
      ∨ e = IndexError
        ∧ (∀ item, item ∈ items → int64_min ≤ capacity item ≤ int64_max)
        ∧ ∃ agent i, agent ∈ agents
                     ∧ i ∈ get_desired_items_indexes agent items
                     ∧ (length items ≤ i)%nat
  end.
Proof.
  unfold SPIRE_algorithm.
  destruct (initialize_allocation_matrix items agents) as [X0|e0] eqn:E0;
    simpl.
  2:{ left. by apply initialize_allocation_matrix_Err in E0. }
  apply initialize_allocation_matrix_Ok in E0 as [-> Hfit].
  pose proof (spire_agents_spec agents items 0 agents
                (initial_matrix items agents) eq_refl
                (initial_shape_ok items agents)) as H.
  destruct (spire_agents _ _ _ _ _) as [X|e].
  2:{ right. destruct H as [-> H]; [apply initial_agent_entries|]. done. }
  destruct H as (Hr & Hsh & Hv & _); [apply initial_agent_entries|].
  split; [done|]. split; [done|]. split; [done|]. split.
  - intros i j v Hj Hget. destruct (Hv i j v Hj Hget) as [H0|[-> _]]; [|by right].
    destruct (initial_getX _ _ _ _ _ H0) as (item & _ & Hv').
    rewrite decide_False in Hv' by lia. by left.
  - intros i j Hj Hget. destruct (Hv i j 1 Hj Hget) as [H0|[_ ?]]; [|done].
    destruct (initial_getX _ _ _ _ _ H0) as (item & _ & Hv').
    rewrite decide_False in Hv' by lia. done.
Qed.

(** X17: over items of non-negative capacity and agents whose lists of
    desired items name no item twice, the matrix that [SPIRE_algorithm]
    returns satisfies the row-sum invariant, and the slack of every item
    lies between 0 and its capacity. *)
Theorem SPIRE_algorithm_feasible agents items X :
  (∀ item, item ∈ items → 0 ≤ capacity item) →
  (∀ agent, agent ∈ agents → NoDup (get_desired_items_indexes agent items)) →
  SPIRE_algorithm agents items = Ok X →
  row_sum_invariant X items (length agents)
  ∧ slack_bounded X items (length agents).
Proof.
  intros Hcap Hnd HX. unfold SPIRE_algorithm in HX.
  destruct (initialize_allocation_matrix items agents) as [X0|e0] eqn:E0;
    simpl in HX; [|done].
  apply initialize_allocation_matrix_Ok in E0 as [-> Hfit].
  pose proof (spire_agents_spec agents items 0 agents
                (initial_matrix items agents) eq_refl
                (initial_shape_ok items agents)) as H.
  rewrite HX in H. destruct H as (_ & Hsh & _ & Hsl & Hrs);
    [apply initial_agent_entries|].
  specialize (Hrs Hnd). split.
  - split; [apply Hsh|]. intros i item Hi.
    assert (i < length X)%nat as Hlt.
    { rewrite (proj1 Hsh). by eapply lookup_lt_Some. }
    apply lookup_lt_is_Some in Hlt as [row Hrow].
    exists row. split; [done|]. split; [by eapply (proj2 Hsh)|].
    specialize (Hrs i). unfold rsum in Hrs. rewrite Hrow in Hrs. simpl in Hrs.
    rewrite Hrs.
    by apply (row_sum_invariant_rsum _ _ _
                (initial_row_sum_invariant items agents)).
  - intros i item Hi.
    destruct (getX_total _ _ _ i (length agents) Hsh) as [s' Hs'];
      [by eapply lookup_lt_Some|lia|].
    exists s'. split; [done|].
    destruct (Hsl _ _ Hs') as (s & Hs & Hle & Hnn).
    destruct (initial_getX _ _ _ _ _ Hs) as (item' & Hi' & Hv).
    rewrite decide_True in Hv by done.
    assert (item' = item) as -> by congruence.
    assert (0 ≤ capacity item) by (apply Hcap; by eapply list_elem_of_lookup_2).
    lia.
Qed.

(** ** [round_robin] *)

Lemma column_ext (X X' : matrix) j :
  length X' = length X → (∀ i, getX X' i j = getX X i j) →
  column X' j = column X j.
Proof.
  revert X'. induction X as [|row X IH]; intros [|row' X'] Hlen Hget;
    try done.
  simpl. pose proof (Hget 0%nat) as H0. unfold getX in H0. simpl in H0.
  rewrite H0. rewrite (IH X'); [done|by injection Hlen|].
  intros i. apply (Hget (S i)).
Qed.

Lemma get_bundle_ext (X X' : matrix) items j :
  length X' = length X → (∀ i, getX X' i j = getX X i j) →
  get_bundle_from_allocation_matrix X' items j
  = get_bundle_from_allocation_matrix X items j.
Proof.
  intros Hlen Hget. unfold get_bundle_from_allocation_matrix.
  by rewrite (column_ext X X' j Hlen Hget).
Qed.

Lemma column_total X N M j :
  shape_ok X N M → (j ≤ M)%nat → ∃ c, column X j = Ok c ∧ length c = N.
Proof.
  intros [Hl Hr] Hj. subst N. induction X as [|row X IH]; simpl.
  - by exists [].
  - destruct (lookup_lt_is_Some_2 row j) as [x Hx].
    { rewrite (Hr 0%nat row eq_refl). lia. }
    rewrite (proj2 (index_Ok row j x) Hx). simpl.
    destruct IH as (c & -> & Hc); [intros i r Hi; by apply (Hr (S i))|].
    simpl. exists (x :: c). split; [done|]. simpl. by rewrite Hc.
Qed.

Lemma bundle_loop_total items k l acc :
  (k + length l ≤ length items)%nat →
  ∃ b, bundle_loop items k l acc = Ok b.
Proof.
  revert k acc. induction l as [|x l IH]; intros k acc Hk; simpl; [eauto|].
  simpl in Hk. destruct (Z.eqb x 1); [|apply IH; lia].
  destruct (lookup_lt_is_Some_2 items k) as [g Hg]; [lia|].
  rewrite (proj2 (index_Ok items k g) Hg). simpl. apply IH. lia.
Qed.

Lemma get_bundle_total X items M j :
  shape_ok X (length items) M → (j ≤ M)%nat →
  ∃ b, get_bundle_from_allocation_matrix X items j = Ok b.
Proof.
  intros Hsh Hj. unfold get_bundle_from_allocation_matrix.
  destruct (column_total _ _ _ j Hsh Hj) as (c & -> & Hc). simpl.
  apply bundle_loop_total. simpl. lia.
Qed.

Lemma best_item_Some agent items column bundle X desired cur val it :
  (0 <= val)%Q →
  best_item agent items column bundle X desired cur val = Ok (Some it) →
  cur = Some it
  ∨ ∃ g s, it ∈ desired ∧ items !! it = Some g ∧ getX X it column = Ok s
           ∧ 0 < s ∧ (0 < marginal_contribution agent bundle g)%Q.
Proof.
  revert cur val. induction desired as [|i desired IH]; intros cur val Hval;
    simpl.
  - intros [= ->]. by left.
  - intros H. inv_bind H. rename a into slack.
    assert (∀ cur', best_item agent items column bundle X desired cur' val
                    = Ok (Some it) →
              cur' = Some it
              ∨ ∃ g s, it ∈ i :: desired ∧ items !! it = Some g
                       ∧ getX X it column = Ok s ∧ 0 < s
                       ∧ (0 < marginal_contribution agent bundle g)%Q) as Hskip.
    { intros cur' H'. destruct (IH _ _ Hval H') as [?|(g & s & ? & ?)];
        [by left|]. right. exists g, s. split; [by right|done]. }
    destruct (Z.ltb_spec 0 slack) as [Hpos|]; [|by apply Hskip].
    inv_bind H. rename a into g. apply index_Ok in E0.
    destruct (Qltb val _) eqn:Elt; [|by apply Hskip].
    apply Qltb_lt in Elt.
    destruct (IH _ _ (Qle_trans _ _ _ Hval (Qlt_le_weak _ _ Elt)) H)
      as [[= <-]|(g' & s & ? & ?)].
    + right. exists g, slack. split; [left|]. split; [done|]. split; [done|].
      split; [done|]. by eapply Qle_lt_trans.
    + right. exists g', s. split; [by right|done].
Qed.

Lemma best_item_None agent items column bundle X desired cur val :
  best_item agent items column bundle X desired cur val = Ok None →
  cur = None
  ∧ ∀ i g s, i ∈ desired → items !! i = Some g → getX X i column = Ok s →
             0 < s → (marginal_contribution agent bundle g <= val)%Q.
Proof.
  revert cur val. induction desired as [|i desired IH]; intros cur val; simpl.
  - intros [= ->]. split; [done|]. intros i g s Hi. by apply elem_of_nil in Hi.
  - intros H. inv_bind H. rename a into slack.
    destruct (Z.ltb_spec 0 slack) as [Hpos|Hnp].
    + inv_bind H. rename a into g. apply index_Ok in E0.
      destruct (Qltb val _) eqn:Elt.
      * by destruct (IH _ _ H) as [[=] _].
      * destruct (IH _ _ H) as [-> Hall]. split; [done|].
        intros i' g' s' [-> | Hi']%elem_of_cons Hg' Hs' Hpos'; [|by eapply Hall].
        assert (g' = g) as -> by congruence.
        destruct (Qlt_le_dec val (marginal_contribution agent bundle g))
          as [Hlt|Hle]; [|done].
        apply Qltb_lt in Hlt. congruence.
    + destruct (IH _ _ H) as [-> Hall]. split; [done|].
      intros i' g' s' [-> | Hi']%elem_of_cons Hg' Hs' Hpos'; [|by eapply Hall].
      rewrite E in Hs'. injection Hs' as <-. lia.
Qed.

Lemma best_item_total agent items column bundle X N M desired cur val :
  shape_ok X N M → length items = N → (column ≤ M)%nat →
  (∀ i, i ∈ desired → (i < N)%nat) →
  ∃ r, best_item agent items column bundle X desired cur val = Ok r.
Proof.
  intros Hsh Hn Hc. revert cur val.
  induction desired as [|i desired IH]; intros cur val Hin; simpl; [eauto|].
  assert (i < N)%nat as Hi by (apply Hin; left).
  assert (∀ i', i' ∈ desired → (i' < N)%nat) as Hin'
    by (intros; apply Hin; by right).
  destruct (getX_total _ _ _ i column Hsh Hi Hc) as [slack ->]. simpl.
  destruct (0 <? slack); [|by apply IH].
  destruct (lookup_lt_is_Some_2 items i) as [g Hg]; [lia|].
  rewrite (proj2 (index_Ok items i g) Hg). simpl.
  destruct (Qltb _ _); by apply IH.
Qed.

Lemma best_item_Err agent items column bundle X N M desired cur val i :
  shape_ok X N M → length items = N → (column ≤ M)%nat →
  i ∈ desired → (N ≤ i)%nat →
  best_item agent items column bundle X desired cur val = Err IndexError.
Proof.
  intros Hsh Hn Hc Hin Hi. revert cur val.
  induction desired as [|i0 desired IH]; intros cur val;
    [by apply elem_of_nil in Hin|].
  simpl. destruct (decide (i0 < N)%nat) as [Hlt|Hge].
  - apply elem_of_cons in Hin as [-> | Hin]; [lia|]. specialize (IH Hin).
    destruct (getX_total _ _ _ i0 column Hsh Hlt Hc) as [slack ->]. simpl.
    destruct (0 <? slack); [|by apply IH].
    destruct (lookup_lt_is_Some_2 items i0) as [g Hg]; [lia|].
    rewrite (proj2 (index_Ok items i0 g) Hg). simpl.
    destruct (Qltb _ _); by apply IH.
  - rewrite (getX_row_Err _ _ _ i0 column Hsh); [done|lia].
Qed.

Lemma round_robin_turn_spec agents items player players X :
  round_robin_inv agents items players X → player ∈ players →
  match round_robin_turn agents items player players X with
  | Ok (players', X') =>
      round_robin_inv agents items players' X'
      ∧ total_slack (length agents) X' + Z.of_nat (length players')
        = total_slack (length agents) X + Z.of_nat (length players) - 1
      ∧ (length players' ≤ length players)%nat
      ∧ (∀ i s', getX X' i (length agents) = Ok s' →
           ∃ s, getX X i (length agents) = Ok s ∧ s' ≤ s ∧ (0 ≤ s → 0 ≤ s'))
      ∧ (no_gain_from_held agents → ∀ i, rsum X' i = rsum X i)
  | Err e =>
      e = IndexError
      ∧ ∃ agent i, agent ∈ agents
                   ∧ i ∈ get_desired_items_indexes agent items
                   ∧ (length items ≤ i)%nat
  end.
Proof.
  intros Hinv Hin. pose proof Hinv as [Hsh Hbin Hnd Hlt Hsat].
  pose proof (Hlt _ Hin) as Hp.
  destruct (lookup_lt_is_Some_2 agents player Hp) as [agent Hagent].
  unfold round_robin_turn.
  rewrite (proj2 (index_Ok agents player agent) Hagent). simpl.
  destruct (get_bundle_total X items (length agents) player Hsh ltac:(lia))
    as [bundle Hb].
  rewrite Hb. simpl.
  destruct (desired_range_dec items (get_desired_items_indexes agent items))
    as [Hrange|(i & Hi & Hge)].
  2:{ rewrite (best_item_Err _ _ _ _ _ _ _ _ _ _ i Hsh eq_refl
                 (Nat.le_refl _) Hi Hge). simpl.
      split; [done|]. exists agent, i. split; [|done].
      by eapply list_elem_of_lookup_2. }
  destruct (best_item_total agent items (length agents) bundle X _ _
              (get_desired_items_indexes agent items) None 0%Q Hsh eq_refl
              (Nat.le_refl _) Hrange) as [[it|] Hbest];
    rewrite Hbest; simpl.
  - destruct (best_item_Some _ _ _ _ _ _ _ _ _ (Qle_refl 0) Hbest)
      as [[=]|(g & s & Hit & Hg & Hs & Hpos & Hmc)].
    assert (it < length items)%nat as Hitlt by (by eapply lookup_lt_Some).
    destruct (take_item_Ok _ _ _ it player Hsh Hitlt Hp)
      as (X1 & X2 & s0 & HX1 & HX2 & Hs0 & Hsh2 & Hget).
    rewrite HX1. simpl. rewrite HX2. simpl.
    rewrite Hs in Hs0. injection Hs0 as <-.
    rewrite int64_pred_nonneg in Hget by lia.
    assert (∀ i, getX X2 i (length agents)
                 = if decide (i = it) then Ok (s - 1)
                   else getX X i (length agents)) as Hslack.
    { intros i. rewrite Hget. destruct (decide (i = it)) as [->|Hne].
      - by rewrite decide_True.
      - rewrite !decide_False; [done|intros [? _]; done..]. }
    split; [|split; [|split; [done|split]]].
    + split; [done| |done|done|].
      * intros i j v Hj Hv. rewrite Hget in Hv.
        rewrite decide_False in Hv by lia.
        destruct (decide (i = it ∧ j = player)).
        -- injection Hv as <-. by right.
        -- by eapply Hbin.
      * intros j Hj Hnot a Ha. destruct (Hsat j Hj Hnot a Ha) as (b & Hbj & Hall).
        exists b. split.
        -- rewrite <- Hbj. apply get_bundle_ext.
           ++ by rewrite (proj1 Hsh2), (proj1 Hsh).
           ++ intros i. rewrite Hget. rewrite !decide_False; [done|..].
              ** intros [_ ->]. done.
              ** intros [_ ?]. lia.
        -- intros i g' s' Hi Hg' Hs' Hpos'. rewrite Hslack in Hs'.
           destruct (decide (i = it)) as [->|Hne].
           ++ injection Hs' as <-. eapply (Hall it); [done..|lia].
           ++ by eapply (Hall i).
    + rewrite (total_slack_decrement (length agents) X X2 it s); [lia| |done..].
      intros i.
      apply decrement_Ok in HX2 as (? & _ & HX2).
      by rewrite (setX_row_length _ _ _ _ _ i HX2),
        (setX_row_length _ _ _ _ _ i HX1).
    + intros i s' Hs'. rewrite Hslack in Hs'.
      destruct (decide (i = it)) as [->|Hne].
      * injection Hs' as <-. exists s. split; [done|]. lia.
      * exists s'. split; [done|]. lia.
    + intros Hng i.
      assert (getX X it player = Ok 0) as Hzero.
      { destruct (getX_total _ _ _ it player Hsh Hitlt ltac:(lia)) as [v Hv].
        destruct (Hbin _ _ _ Hp Hv) as [-> | ->]; [done|]. exfalso.
        pose proof (bundle_contains _ _ _ _ _ _ Hb Hv Hg) as Hgb.
        apply (Qlt_not_le _ _ Hmc). apply Hng; [|done].
        by eapply list_elem_of_lookup_2. }
      apply decrement_Ok in HX2 as (s1 & Hs1 & HX2).
      assert (s1 = s) as Hss.
      { rewrite (getX_setX _ _ _ _ _ it (length agents) HX1) in Hs1.
        rewrite decide_False in Hs1 by lia. congruence. }
      rewrite int64_pred_nonneg in HX2 by lia.
      rewrite (rsum_setX _ _ _ _ _ _ i HX2 Hs1).
      rewrite (rsum_setX _ _ _ _ _ _ i HX1 Hzero).
      destruct (decide (i = it)); lia.
  - destruct (best_item_None _ _ _ _ _ _ _ _ Hbest) as [_ Hall].
    unfold remove_player. rewrite bool_decide_eq_true_2 by done. simpl.
    split; [|split; [|split; [|split; [|done]]]].
    + split; [done|done|by apply list_remove_NoDup| |].
      * intros j [Hj _]%list_remove_elem; [by apply Hlt|done].
      * intros j Hj Hnot. destruct (decide (j = player)) as [->|Hne].
        -- intros a Ha. assert (a = agent) as -> by congruence.
           exists bundle. split; [done|]. intros i g s Hi Hg Hs Hpos.
           by eapply Hall.
        -- apply Hsat; [done|]. intros Hjin. apply Hnot.
           by apply list_remove_elem.
    + pose proof (list_remove_length player players Hin). lia.
    + pose proof (list_remove_length player players Hin). lia.
    + intros i s' Hs'. exists s'. split; [done|]. lia.
Qed.

Lemma slack_shrinks_refl M X : slack_shrinks M X X.
Proof. intros i s Hs. exists s. split; [done|]. lia. Qed.

Lemma slack_shrinks_trans M X1 X2 X3 :
  slack_shrinks M X1 X2 → slack_shrinks M X2 X3 → slack_shrinks M X1 X3.
Proof.
  intros H12 H23 i s3 Hs3. destruct (H23 _ _ Hs3) as (s2 & Hs2 & Hle2 & Hnn2).
  destruct (H12 _ _ Hs2) as (s1 & Hs1 & Hle1 & Hnn1).
  exists s1. split; [done|]. split; [lia|]. intros ?. apply Hnn2, Hnn1. done.
Qed.

Lemma slack_shrinks_nonneg M X X' :
  slack_shrinks M X X' → slack_nonneg X M → slack_nonneg X' M.
Proof.
  intros Hsh Hnn i s' Hs'. destruct (Hsh _ _ Hs') as (s & Hs & _ & Hk).
  apply Hk. by eapply Hnn.
Qed.

Lemma slack_nonneg_total X M : slack_nonneg X M → 0 ≤ total_slack M X.
Proof.
  intros Hnn. unfold total_slack. apply row_sum_nonneg, Forall_fmap, Forall_forall.
  intros row Hrow. apply list_elem_of_lookup_1 in Hrow as [i Hi].
  simpl. unfold row_slack. destruct (row !! M) as [s|] eqn:Es; simpl; [|done].
  apply (Hnn i). apply getX_Ok. eauto.
Qed.

Lemma round_robin_for_spec agents items n i players X :
  round_robin_inv agents items players X → (length players ≤ i + n)%nat →
  match round_robin_for agents items n i players X with
  | Finished (players', X') =>
      round_robin_inv agents items players' X'
      ∧ total_slack (length agents) X' + Z.of_nat (length players')
        ≤ total_slack (length agents) X + Z.of_nat (length players)
          - (if decide (i < length players)%nat then 1 else 0)
      ∧ slack_shrinks (length agents) X X'
      ∧ (no_gain_from_held agents → ∀ k, rsum X' k = rsum X k)
  | Aborted e _ =>
      e = IndexError
      ∧ ∃ agent k, agent ∈ agents
                   ∧ k ∈ get_desired_items_indexes agent items
                   ∧ (length items ≤ k)%nat
  | Raised _ => False
  | OutOfFuel _ => False
  end.
Proof.
  revert i players X. induction n as [|n IH]; intros i players X Hinv Hfuel.
  - simpl. destruct (players !! i) as [player|] eqn:Ep.
    + apply lookup_lt_Some in Ep. lia.
    + apply lookup_ge_None in Ep. rewrite decide_False by lia.
      split; [done|]. split; [lia|]. split; [apply slack_shrinks_refl|done].
  - simpl. destruct (players !! i) as [player|] eqn:Ep.
    2:{ apply lookup_ge_None in Ep. rewrite decide_False by lia.
        split; [done|]. split; [lia|]. split; [apply slack_shrinks_refl|done]. }
    pose proof (round_robin_turn_spec agents items player players X Hinv
                  (list_elem_of_lookup_2 _ _ _ Ep)) as Ht.
    destruct (round_robin_turn agents items player players X)
      as [[players1 X1]|e]; [|done].
    destruct Ht as (Hinv1 & Hm1 & Hlen1 & Hsl1 & Hrs1).
    specialize (IH (S i) players1 X1 Hinv1 ltac:(lia)).
    destruct (round_robin_for agents items n (S i) players1 X1)
      as [[players' X']|e st|e|st]; [|done..].
    destruct IH as (Hinv' & Hm' & Hsl' & Hrs').
    split; [done|]. split; [|split].
    + apply lookup_lt_Some in Ep. rewrite decide_True by done.
      destruct (decide (S i < length players1)%nat); lia.
    + by eapply slack_shrinks_trans.
    + intros Hng k. by rewrite Hrs', Hrs1.
Qed.

Lemma round_robin_while_spec agents items fuel players X :
  round_robin_inv agents items players X →
  match round_robin_while agents items fuel players X with
  | Finished (players', X') =>
      players' = []
      ∧ round_robin_inv agents items players' X'
      ∧ slack_shrinks (length agents) X X'
      ∧ (no_gain_from_held agents → ∀ k, rsum X' k = rsum X k)
  | Aborted e _ =>
      e = IndexError
      ∧ ∃ agent k, agent ∈ agents
                   ∧ k ∈ get_desired_items_indexes agent items
                   ∧ (length items ≤ k)%nat
  | Raised _ => False
  | OutOfFuel _ =>
      slack_nonneg X (length agents) →
      total_slack (length agents) X + Z.of_nat (length players)
      ≤ Z.of_nat fuel → False
  end.
Proof.
  revert players X. induction fuel as [|fuel IH]; intros players X Hinv.
  - simpl. destruct players as [|p players].
    + split; [done|]. split; [done|]. split; [apply slack_shrinks_refl|done].
    + intros Hnn Hle. apply slack_nonneg_total in Hnn. simpl in Hle. lia.
  - simpl. destruct players as [|p players].
    { split; [done|]. split; [done|]. split; [apply slack_shrinks_refl|done]. }
    pose proof (round_robin_for_spec agents items (length (p :: players)) 0
                  (p :: players) X Hinv ltac:(lia)) as Hf.
    destruct (round_robin_for agents items (length (p :: players)) 0
                (p :: players) X) as [[players1 X1]|e st|e|st]; [|done..].
    destruct Hf as (Hinv1 & Hm1 & Hsl1 & Hrs1).
    rewrite decide_True in Hm1 by (simpl; lia).
    specialize (IH players1 X1 Hinv1).
    destruct (round_robin_while agents items fuel players1 X1)
      as [[players' X']|e st|e|st]; [|done|done|].
    + destruct IH as (-> & Hinv' & Hsl' & Hrs').
      split; [done|]. split; [done|]. split; [by eapply slack_shrinks_trans|].
      intros Hng k. by rewrite Hrs', Hrs1.
    + intros Hnn Hle. apply IH; [by eapply slack_shrinks_nonneg|lia].
Qed.

Lemma initial_round_robin_inv agents items :
  round_robin_inv agents items (seq 0 (length agents))
    (initial_matrix items agents).
Proof.
  split.
  - apply initial_shape_ok.
  - intros i j v Hj Hv. destruct (initial_getX _ _ _ _ _ Hv) as (item & _ & Hv').
    rewrite decide_False in Hv' by lia. by left.
  - apply NoDup_seq.
  - intros j Hj%elem_of_seq. lia.
  - intros j Hj Hnot. exfalso. apply Hnot, elem_of_seq. lia.
Qed.

Lemma initial_slack_nonneg agents items :
  (∀ item, item ∈ items → 0 ≤ capacity item) →
  slack_nonneg (initial_matrix items agents) (length agents).
Proof.
  intros Hcap i s Hs. destruct (initial_getX _ _ _ _ _ Hs) as (item & Hi & Hv).
  rewrite decide_True in Hv by done. subst.
  apply Hcap. by eapply list_elem_of_lookup_2.
Qed.

(** X18: over items of non-negative capacity, [C + M] passes are enough
    for [round_robin], [C] being the total capacity and [M] the number of
    agents: the run ends, with no player left, or it raises
    [OverflowError] before the loop because a capacity does not fit a
    64-bit integer, or [IndexError] because an agent desires an index
    that is not the index of an item.  No pass of the [for] loop runs
    past the end of the list of players, although the loop removes
    players from the list it iterates over. *)
Theorem round_robin_terminates agents items fuel :
  (∀ item, item ∈ items → 0 ≤ capacity item) →
  (iteration_bound agents items ≤ fuel)%nat →
  match round_robin agents items fuel with
  | Finished (players, X) => players = []
  | Aborted e _ =>
      e = IndexError
      ∧ ∃ agent i, agent ∈ agents
                   ∧ i ∈ get_desired_items_indexes agent items
                   ∧ (length items ≤ i)%nat
  | Raised e =>
      e = OverflowError
      ∧ ∃ item, item ∈ items ∧ int64_max < capacity item
  | OutOfFuel _ => False
  end.
Proof.
  intros Hcap Hfuel. unfold round_robin.
  destruct (initialize_allocation_matrix items agents) as [X0|e0] eqn:E0.
  2:{ apply initialize_allocation_matrix_Err in E0
        as [-> (item & Hin & Hout)].
      split; [done|]. exists item. split; [done|].
      specialize (Hcap item Hin). unfold int64_min in Hout. lia. }
  apply initialize_allocation_matrix_Ok in E0 as [-> _].
  pose proof (round_robin_while_spec agents items fuel _ _
                (initial_round_robin_inv agents items)) as H.
  destruct (round_robin_while _ _ _ _ _) as [[players X]|e st|e|st].
  - apply H.
  - apply H.
  - done.
  - apply H; [by apply initial_slack_nonneg|].
    rewrite initial_total_slack, length_seq.
    pose proof (slack_nonneg_total _ _ (initial_slack_nonneg agents items Hcap))
      as Hnn.
    rewrite initial_total_slack in Hnn. unfold iteration_bound in Hfuel. lia.
Qed.

(** X19: the matrix that [round_robin] returns has the shape of the
    initial one and every entry of an agent is 0 or 1.  Over items of
    non-negative capacity the slack of every item lies between 0 and its
    capacity; when no agent gains from an item it already holds, the
    matrix satisfies the row-sum invariant. *)
Theorem round_robin_feasible agents items fuel players X :
  round_robin agents items fuel = Finished (players, X) →
  shape_ok X (length items) (length agents)
  ∧ binary X (length agents)
  ∧ ((∀ item, item ∈ items → 0 ≤ capacity item) →
     slack_bounded X items (length agents))
  ∧ (no_gain_from_held agents →
     row_sum_invariant X items (length agents)).
Proof.
  intros HX. unfold round_robin in HX.
  destruct (initialize_allocation_matrix items agents) as [X0|e0] eqn:E0;
    [|done].
  apply initialize_allocation_matrix_Ok in E0 as [-> _].
  pose proof (round_robin_while_spec agents items fuel _ _
                (initial_round_robin_inv agents items)) as H.
  rewrite HX in H. destruct H as (_ & Hinv & Hsl & Hrs).
  pose proof (rr_shape _ _ _ _ Hinv) as Hsh.
  split; [done|]. split; [apply Hinv|]. split.
  - intros Hcap i item Hi.
    destruct (getX_total _ _ _ i (length agents) Hsh) as [s' Hs'];
      [by eapply lookup_lt_Some|lia|].
    exists s'. split; [done|].
    destruct (Hsl _ _ Hs') as (s & Hs & Hle & Hnn).
    destruct (initial_getX _ _ _ _ _ Hs) as (item' & Hi' & Hv).
    rewrite decide_True in Hv by done.
    assert (item' = item) as -> by congruence.
    assert (0 ≤ capacity item) by (apply Hcap; by eapply list_elem_of_lookup_2).
    lia.
  - intros Hng. specialize (Hrs Hng).
    split; [apply Hsh|]. intros i item Hi.
    assert (i < length X)%nat as Hlt.
    { rewrite (proj1 Hsh). by eapply lookup_lt_Some. }
    apply lookup_lt_is_Some in Hlt as [row Hrow].
    exists row. split; [done|]. split; [by eapply (proj2 Hsh)|].
    specialize (Hrs i). unfold rsum in Hrs. rewrite Hrow in Hrs. simpl in Hrs.
    rewrite Hrs.
    by apply (row_sum_invariant_rsum _ _ _
                (initial_row_sum_invariant items agents)).
Qed.

(** X20: when [round_robin] returns, no player is left and no agent has
    anything to gain from the units that remain: whatever item an agent
    desires that still has slack, its marginal contribution to the
    bundle of that agent is at most 0. *)
Theorem round_robin_leaves_nothing_wanted agents items fuel players X :
  round_robin agents items fuel = Finished (players, X) →
  players = []
  ∧ ∀ j, (j < length agents)%nat → satisfied agents items X j.
Proof.
  intros HX. unfold round_robin in HX.
  destruct (initialize_allocation_matrix items agents) as [X0|e0] eqn:E0;
    [|done].
  apply initialize_allocation_matrix_Ok in E0 as [-> _].
  pose proof (round_robin_while_spec agents items fuel _ _
                (initial_round_robin_inv agents items)) as H.
  rewrite HX in H. destruct H as (-> & Hinv & _).
  split; [done|]. intros j Hj. apply (rr_satisfied _ _ _ _ Hinv); [done|].
  by intros ?%elem_of_nil.
Qed.

(** ** [round_robin_weights] *)

Lemma best_item_no_entry agent items column bundle X desired cur val r :
  (∀ i v, getX X i column = Ok v → v ≤ 0) →
  best_item agent items column bundle X desired cur val = Ok r → r = cur.
Proof.
  intros Hno. revert cur val. induction desired as [|i desired IH];
    intros cur val; simpl.
  - by intros [= <-].
  - intros H. inv_bind H. rename a into slack.
    destruct (Z.ltb_spec 0 slack) as [Hpos|_]; [|by eapply IH].
    apply Hno in E. lia.
Qed.

Lemma initial_column_0 agents items player i v :
  (player < length agents)%nat →
  getX (initial_matrix items agents) i 0 = Ok v → v ≤ 0.
Proof.
  intros Hp Hv. destruct (initial_getX _ _ _ _ _ Hv) as (item & _ & Hv').
  rewrite decide_False in Hv' by lia. lia.
Qed.

Lemma round_robin_weights_turn_matrix agents items weights weight player
    players weights_aux st' :
  round_robin_weights_turn agents items weights weight player
    (players, weights_aux, initial_matrix items agents)
  = Ok st' →
  st'.2 = initial_matrix items agents.
Proof.
  unfold round_robin_weights_turn. intros H. inv_bind H.
  destruct (Qeq_bool a weight); [|by injection H as <-].
  inv_bind H. apply index_lt in E0.
  apply best_item_no_entry in E2 as ->;
    [|intros i v; by apply (initial_column_0 agents items player)].
  inv_bind H. by injection H as <-.
Qed.

Lemma round_robin_weights_for_matrix agents items weights weight n i st :
  st.2 = initial_matrix items agents →
  ∃ st', run_state (round_robin_weights_for agents items weights weight n i st)
         = Some st'
    ∧ st'.2 = initial_matrix items agents.
Proof.
  revert i st. induction n as [|n IH]; intros i st Hst; simpl.
  - destruct (st.1.1 !! i); by exists st.
  - destruct (st.1.1 !! i) as [player|]; [|by exists st].
    destruct (round_robin_weights_turn _ _ _ _ _ st) as [st'|e] eqn:Et;
      [|by exists st].
    apply IH. destruct st as [[players aux] X]. simpl in Hst. subst X.
    by eapply round_robin_weights_turn_matrix.
Qed.

Lemma round_robin_weights_while_matrix agents items weights fuel st :
  st.2 = initial_matrix items agents →
  ∃ st', run_state (round_robin_weights_while agents items weights fuel st)
         = Some st'
    ∧ st'.2 = initial_matrix items agents.
Proof.
  revert st. induction fuel as [|fuel IH]; intros st Hst; simpl.
  - destruct (st.1.1); by exists st.
  - destruct (st.1.1); [by exists st|].
    destruct (index st.1.2 0) as [weight|e]; [|by exists st].
    destruct (round_robin_weights_for_matrix agents items weights weight
                (length (n :: l)) 0 st Hst) as (st1 & Hf & Hst1).
    destruct (round_robin_weights_for _ _ _ _ _ _ _) as [st'|e st'|e|st'];
      simpl in Hf; [|by exists st1..].
    injection Hf as ->. by apply IH.
Qed.

Section equal_weights.
Variables (agents : list Agent) (items : list Item) (w : Q).
Hypothesis in_range : desires_in_range agents items.

Lemma round_robin_weights_turn_equal player st :
  equal_weights_inv agents items w st → player ∈ st.1.1 →
  ∃ st', round_robin_weights_turn agents items
           (replicate (length agents) w) w player st = Ok st'
    ∧ equal_weights_inv agents items w st'
    ∧ S (length st'.1.1) = length st.1.1.
Proof using in_range.
  destruct st as [[players aux] X]. unfold equal_weights_inv. simpl.
  intros (HX & Hnd & Hlt & Haux) Hin. subst X aux.
  pose proof (Hlt _ Hin) as Hp. unfold round_robin_weights_turn.
  assert (index (replicate (length agents) w) player = Ok w) as Hw
    by (unfold index; by rewrite lookup_replicate_2).
  rewrite Hw. simpl.
  rewrite (proj2 (Qeq_bool_iff w w) (Qeq_refl w)).
  destruct (lookup_lt_is_Some_2 agents player Hp) as [agent Hagent].
  rewrite (proj2 (index_Ok agents player agent) Hagent). simpl.
  pose proof (initial_shape_ok items agents) as Hsh.
  destruct (get_bundle_total _ items (length agents) player Hsh ltac:(lia))
    as [bundle ->]. simpl.
  destruct (best_item_total agent items 0 bundle _ _ _
              (get_desired_items_indexes agent items) None 0%Q Hsh eq_refl
              ltac:(lia)) as [r Hr].
  { intros i Hi. eapply in_range; [|done]. by eapply list_elem_of_lookup_2. }
  rewrite Hr. simpl.
  apply best_item_no_entry in Hr as ->;
    [|intros i v; by apply (initial_column_0 agents items player)].
  unfold remove_player. rewrite bool_decide_eq_true_2 by done. simpl.
  pose proof (list_remove_length player players Hin) as Hlen.
  rewrite <- Hlen. simpl. eexists. split; [done|]. simpl.
  split; [|done]. split; [done|]. split; [by apply list_remove_NoDup|].
  split; [|done]. intros j [Hj _]%list_remove_elem; [by apply Hlt|done].
Qed.

Lemma round_robin_weights_for_equal n i st :
  equal_weights_inv agents items w st → (length st.1.1 ≤ i + n)%nat →
  ∃ st', round_robin_weights_for agents items
           (replicate (length agents) w) w n i st = Finished st'
    ∧ equal_weights_inv agents items w st'
    ∧ (length st'.1.1 + (if decide (i < length st.1.1)%nat then 1 else 0)
       ≤ length st.1.1)%nat.
Proof using in_range.
  revert i st. induction n as [|n IH]; intros i st Hinv Hfuel; simpl.
  - destruct (st.1.1 !! i) as [player|] eqn:Ep.
    + apply lookup_lt_Some in Ep. lia.
    + apply lookup_ge_None in Ep. exists st. rewrite decide_False by lia.
      split; [done|]. split; [done|lia].
  - destruct (st.1.1 !! i) as [player|] eqn:Ep.
    2:{ apply lookup_ge_None in Ep. exists st. rewrite decide_False by lia.
        split; [done|]. split; [done|lia]. }
    destruct (round_robin_weights_turn_equal player st Hinv
                (list_elem_of_lookup_2 _ _ _ Ep)) as (st1 & -> & Hinv1 & Hlen1).
    destruct (IH (S i) st1 Hinv1 ltac:(lia)) as (st' & -> & Hinv' & Hlen').
    exists st'. split; [done|]. split; [done|].
    apply lookup_lt_Some in Ep. rewrite decide_True by done.
    destruct (decide (S i < length st1.1.1)%nat); lia.
Qed.

Lemma round_robin_weights_while_equal fuel st :
  equal_weights_inv agents items w st → (length st.1.1 ≤ fuel)%nat →
  round_robin_weights_while agents items (replicate (length agents) w) fuel st
  = Finished ([], [], initial_matrix items agents).
Proof using in_range.
  revert st. induction fuel as [|fuel IH]; intros st Hinv Hfuel.
  - destruct st as [[players aux] X]. destruct Hinv as (HX & _ & _ & Haux).
    simpl in *. destruct players; [|simpl in Hfuel; lia].
    simpl in Haux. by subst.
  - destruct st as [[players aux] X]. pose proof Hinv as (HX & _ & _ & Haux).
    simpl in *. destruct players as [|p players].
    { simpl in Haux. by subst. }
    subst aux. simpl.
    destruct (round_robin_weights_for_equal (length (p :: players)) 0
                (p :: players, w :: replicate (length players) w, X) Hinv
                ltac:(simpl; lia)) as (st' & Hf & Hinv' & Hlen').
    simpl in Hf. rewrite Hf. apply IH; [done|].
    rewrite decide_True in Hlen' by (simpl; lia). simpl in Hlen', Hfuel. lia.
Qed.
End equal_weights.

(** X21: [round_robin_weights] hands out nothing: it tests and
    decrements column [0] of the matrix, the column of the first agent,
    where [round_robin] uses the slack column, so that no item ever
    passes the test.  A run that gets past the initialisation ends,
    however it ends, with the matrix that [initialize_allocation_matrix]
    returned.  When all agents have the same weight and every index
    desired is the index of an item, the run removes one player after
    the other and returns that matrix after at most [M] passes. *)
Theorem round_robin_weights_allocates_nothing agents items weights fuel :
  match round_robin_weights agents items weights fuel with
  | Raised e => initialize_allocation_matrix items agents = Err e
  | Finished st | Aborted _ st | OutOfFuel st =>
      initialize_allocation_matrix items agents = Ok st.2
  end
  ∧ (∀ w X, weights = replicate (length agents) w →
            desires_in_range agents items → (length agents ≤ fuel)%nat →
            initialize_allocation_matrix items agents = Ok X →
            round_robin_weights agents items weights fuel
            = Finished ([], [], X)).
Proof.
  unfold round_robin_weights.
  destruct (initialize_allocation_matrix items agents) as [X0|e0] eqn:E0.
  2:{ split; [done|]. by intros. }
  apply initialize_allocation_matrix_Ok in E0 as [-> _]. split.
  - destruct (round_robin_weights_while_matrix agents items weights fuel
                (seq 0 (length agents), weights, initial_matrix items agents)
                eq_refl) as (st' & Hrun & Hst').
    destruct (round_robin_weights_while _ _ _ _ _) as [st|e st|e|st];
      simpl in Hrun; [| |done|]; injection Hrun as ->; by rewrite Hst'.
  - intros w X -> Hrange Hfuel [= <-].
    apply round_robin_weights_while_equal; [done| |simpl; by rewrite length_seq].
    split; [done|]. simpl. split; [apply NoDup_seq|]. split.
    + intros j Hj%elem_of_seq. lia.
    + by rewrite length_seq.
Qed.

(** ** The greedy algorithms on the agents of the worked example *)

Lemma order_items_nonneg item : item ∈ order_items → 0 ≤ capacity item.
Proof. intros Hin. pose proof (order_items_positive item Hin). lia. Qed.

Lemma order_agents_desired_NoDup agent :
  agent ∈ order_agents → NoDup (get_desired_items_indexes agent order_items).
Proof.
  intros Hin. unfold order_agents in Hin.
  repeat (apply elem_of_cons in Hin as [-> | Hin];
          [simpl; by apply (bool_decide_unpack _)|]).
  by apply elem_of_nil in Hin.
Qed.

Lemma SPIRE_algorithm_feasible_witness :
  (∀ item, item ∈ order_items → 0 ≤ capacity item)
  ∧ (∀ agent, agent ∈ order_agents →
       NoDup (get_desired_items_indexes agent order_items))
  ∧ SPIRE_algorithm order_agents order_items
    = Ok [[0; 1; 0; 1]; [0; 1; 0; 0]; [1; 0; 0; 0]; [0; 0; 1; 0]]
  ∧ row_sum_invariant
      [[0; 1; 0; 1]; [0; 1; 0; 0]; [1; 0; 0; 0]; [0; 0; 1; 0]]
      order_items (length order_agents)
  ∧ slack_bounded
      [[0; 1; 0; 1]; [0; 1; 0; 0]; [1; 0; 0; 0]; [0; 0; 1; 0]]
      order_items (length order_agents).
Proof.
  assert (H : SPIRE_algorithm order_agents order_items
              = Ok [[0; 1; 0; 1]; [0; 1; 0; 0]; [1; 0; 0; 0]; [0; 0; 1; 0]])
    by (vm_compute; reflexivity).
  split; [exact order_items_nonneg|].
  split; [exact order_agents_desired_NoDup|]. split; [exact H|].
  exact (SPIRE_algorithm_feasible order_agents order_items _
           order_items_nonneg order_agents_desired_NoDup H).
Defined.

Lemma round_robin_terminates_witness :
  (∀ item, item ∈ order_items → 0 ≤ capacity item)
  ∧ (iteration_bound order_agents order_items ≤ 10)%nat
  ∧ match round_robin order_agents order_items 10 with
    | Finished (players, X) => players = []
    | Aborted e _ =>
        e = IndexError
        ∧ ∃ agent i, agent ∈ order_agents
                     ∧ i ∈ get_desired_items_indexes agent order_items
                     ∧ (length order_items ≤ i)%nat
    | Raised e =>
        e = OverflowError
        ∧ ∃ item, item ∈ order_items ∧ int64_max < capacity item
    | OutOfFuel _ => False
    end.
Proof.
  assert (H : (iteration_bound order_agents order_items ≤ 10)%nat)
    by (vm_compute; lia).
  split; [exact order_items_nonneg|]. split; [exact H|].
  exact (round_robin_terminates order_agents order_items 10
           order_items_nonneg H).
Defined.

Lemma round_robin_feasible_witness :
  round_robin order_agents order_items 10
  = Finished ([], [[1; 1; 0; 0]; [0; 1; 0; 0]; [1; 0; 0; 0]; [0; 0; 1; 0]])
  ∧ shape_ok [[1; 1; 0; 0]; [0; 1; 0; 0]; [1; 0; 0; 0]; [0; 0; 1; 0]]
      (length order_items) (length order_agents)
  ∧ binary [[1; 1; 0; 0]; [0; 1; 0; 0]; [1; 0; 0; 0]; [0; 0; 1; 0]]
      (length order_agents)
  ∧ ((∀ item, item ∈ order_items → 0 ≤ capacity item) →
     slack_bounded [[1; 1; 0; 0]; [0; 1; 0; 0]; [1; 0; 0; 0]; [0; 0; 1; 0]]
       order_items (length order_agents))
  ∧ (no_gain_from_held order_agents →
     row_sum_invariant
       [[1; 1; 0; 0]; [0; 1; 0; 0]; [1; 0; 0; 0]; [0; 0; 1; 0]]
       order_items (length order_agents)).
Proof.
  assert (H : round_robin order_agents order_items 10
              = Finished ([], [[1; 1; 0; 0]; [0; 1; 0; 0]; [1; 0; 0; 0];
                               [0; 0; 1; 0]])) by (vm_compute; reflexivity).
  split; [exact H|].
  exact (round_robin_feasible order_agents order_items 10 _ _ H).
Defined.

Lemma round_robin_leaves_nothing_wanted_witness :
  round_robin order_agents order_items 10
  = Finished ([], [[1; 1; 0; 0]; [0; 1; 0; 0]; [1; 0; 0; 0]; [0; 0; 1; 0]])
  ∧ ∀ j, (j < length order_agents)%nat →
         satisfied order_agents order_items
           [[1; 1; 0; 0]; [0; 1; 0; 0]; [1; 0; 0; 0]; [0; 0; 1; 0]] j.
Proof.
  assert (H : round_robin order_agents order_items 10
              = Finished ([], [[1; 1; 0; 0]; [0; 1; 0; 0]; [1; 0; 0; 0];
                               [0; 0; 1; 0]])) by (vm_compute; reflexivity).
  split; [exact H|].
  exact (proj2 (round_robin_leaves_nothing_wanted order_agents order_items 10
                  _ _ H)).
Defined.

(** * The gain of an agent *)

Lemma Qdiv_antitone (w a b : Q) :
  (0 <= w)%Q → (0 < a)%Q → (a <= b)%Q → (w / b <= w / a)%Q.
Proof.
  intros Hw Ha Hab.
  assert (0 < b)%Q as Hb by (by eapply Qlt_le_trans).
  apply Qle_shift_div_r; [done|].
  assert (a * (w / a) == w)%Q as Heq.
  { apply Qmult_div_r. intros H0. rewrite H0 in Ha. by apply Qlt_irrefl in Ha. }
  rewrite <- Heq at 1. rewrite (Qmult_comm (w / a) b).
  apply Qmult_le_compat_r; [done|].
  apply Qle_shift_div_l; [done|]. by rewrite Qmult_0_l.
Qed.

(** X22: under LorenzDominance, WeightedLeximin and WeightedHarmonic
    (with a positive weight) the gain of an agent does not rise when the
    value of its bundle, non-negative, does not fall: an agent that has
    just received an item never moves up in the order of play. *)
Theorem gain_falls_as_utility_rises float_pow X1 X2 agents items agent_picked
    crit weights agent bundle1 bundle2 g1 g2 :
  agents !! agent_picked = Some agent →
  get_bundle_from_allocation_matrix X1 items agent_picked = Ok bundle1 →
  get_bundle_from_allocation_matrix X2 items agent_picked = Ok bundle2 →
  crit ≠ WeightedNash →
  (∀ w, weights !! agent_picked = Some w → (0 < w)%Q) →
  (0 <= valuation agent bundle1)%Q →
  (valuation agent bundle1 <= valuation agent bundle2)%Q →
  get_gain_function float_pow X1 agents items agent_picked crit weights
  = Ok g1 →
  get_gain_function float_pow X2 agents items agent_picked crit weights
  = Ok g2 →
  gain_leb g2 g1 = true.
Proof.
  intros Ha Hb1 Hb2 Hcrit Hw H0 Hle. unfold get_gain_function.
  rewrite (proj2 (index_Ok agents agent_picked agent) Ha), Hb1, Hb2. simpl.
  destruct crit; [| |done|].
  - intros [= <-] [= <-]. simpl. apply Qle_bool_iff. by apply Qopp_le_compat.
  - destruct (index weights agent_picked) as [w|] eqn:Ew; simpl; [|done].
    apply index_Ok in Ew. specialize (Hw w Ew).
    destruct (Qeq_bool w 0); [done|].
    intros [= <-] [= <-]. simpl. apply Qle_bool_iff.
    unfold Qdiv. apply Qmult_le_compat_r; [by apply Qopp_le_compat|].
    apply Qinv_le_0_compat. by apply Qlt_le_weak.
  - destruct (index weights agent_picked) as [w|] eqn:Ew; simpl; [|done].
    apply index_Ok in Ew. specialize (Hw w Ew).
    destruct (Qeq_bool (valuation agent bundle1 + 1) 0); [done|].
    destruct (Qeq_bool (valuation agent bundle2 + 1) 0); [done|].
    intros [= <-] [= <-]. simpl. apply Qle_bool_iff.
    apply Qdiv_antitone; [by apply Qlt_le_weak| |].
    + apply (Qlt_le_trans _ (0 + 1)); [done|]. by apply Qplus_le_compat.
    + by apply Qplus_le_compat.
Qed.

Lemma gain_falls_as_utility_rises_witness :
  [single_agent] !! 0%nat = Some single_agent
  ∧ (0 <= valuation single_agent [])%Q
  ∧ (valuation single_agent [] <= valuation single_agent [mkItem 0 1])%Q
  ∧ gain_leb (Fin (-1)) (Fin 0) = true.
Proof.
  assert (Hw : ∀ w : Q, ([] : list Q) !! 0%nat = Some w → (0 < w)%Q)
    by (intros w H; discriminate H).
  assert (H0 : (0 <= valuation single_agent [])%Q) by (vm_compute; discriminate).
  assert (H1 : (valuation single_agent []
                <= valuation single_agent [mkItem 0 1])%Q)
    by (vm_compute; discriminate).
  split; [reflexivity|]. split; [exact H0|]. split; [exact H1|].
  exact (gain_falls_as_utility_rises no_pow [[0; 1]] [[1; 0]] [single_agent]
           [mkItem 0 1] 0 LorenzDominance [] single_agent [] [mkItem 0 1]
           (Fin 0) (Fin (-1)) eq_refl eq_refl eq_refl
           ltac:(discriminate) Hw H0 H1 eq_refl eq_refl).
Defined.

(** * The edge matrix and the graph *)

Lemma getE_Ok E a b cell :
  getE E a b = Ok cell ↔ ∃ row, E !! a = Some row ∧ row !! b = Some cell.
Proof.
  unfold getE, index. destruct (E !! a) as [row|]; simpl.
  - destruct (row !! b) as [c|] eqn:Eb.
    + split; [intros [= <-]; eauto|]. intros (r & [= <-] & Hc). congruence.
    + split; [done|]. intros (r & [= <-] & Hc). congruence.
  - split; [done|]. by intros (r & [=] & _).
Qed.

Lemma getE_setE E a b l cell a' b' :
  getE E a b = Ok cell →
  getE (setE E a b l) a' b'
  = if decide (a' = a ∧ b' = b) then Ok l else getE E a' b'.
Proof.
  intros (row & Hrow & Hcell)%getE_Ok. unfold setE. rewrite Hrow.
  unfold getE, index.
  destruct (decide (a' = a)) as [->|Hne].
  - rewrite list_lookup_insert_eq by (by eapply lookup_lt_Some). simpl.
    rewrite Hrow. simpl.
    destruct (decide (b' = b)) as [->|Hneb].
    + rewrite decide_True by done.
      by rewrite list_lookup_insert_eq by (by eapply lookup_lt_Some).
    + rewrite decide_False by (intros [_ ?]; done).
      by rewrite list_lookup_insert_ne.
  - rewrite decide_False by (intros [? _]; done).
    by rewrite list_lookup_insert_ne.
Qed.

Lemma edge_sync_update G E a b cell cell' G' :
  edge_sync G E → getE E a b = Ok cell → NoDup cell' →
  (∀ e, e ∈ G' ↔ if decide (e = (It a, It b)) then cell' ≠ [] else e ∈ G) →
  edge_sync G' (setE E a b cell').
Proof.
  intros [Hs Hnd] Hcell Hnd' HG'. split.
  - intros a' b'. rewrite HG', (getE_setE _ _ _ _ _ _ _ Hcell).
    destruct (decide (a' = a ∧ b' = b)) as [[-> ->]|Hne].
    + rewrite decide_True by done. split; [eauto|]. by intros (c & [= <-] & ?).
    + rewrite decide_False; [apply Hs|]. intros [= -> ->]. by apply Hne.
  - intros a' b' c. rewrite (getE_setE _ _ _ _ _ _ _ Hcell).
    destruct (decide _); [by intros [= <-]|apply Hnd].
Qed.

Lemma graph_wf_subset G G' :
  graph_wf G → (∀ e, e ∈ G' → e ∈ G ∨ ∃ a b, e = (It a, It b)) → graph_wf G'.
Proof.
  intros Hwf Hsub e He. destruct (Hsub e He) as [Hin|(a & b & ->)].
  - by apply Hwf.
  - exists a. split; [done|]. right. by exists b.
Qed.

(** Taking an agent out of a cell, as both loops do it. *)
Lemma edge_sync_forget G E a b cell agent G' :
  edge_sync G E → getE E a b = Ok cell → agent ∈ cell →
  (if bool_decide (length (list_remove agent cell) = 0%nat)
      && has_edge G (It a) (It b)
   then remove_edge G (It a) (It b) else Ok G) = Ok G' →
  edge_sync G' (setE E a b (list_remove agent cell))
  ∧ ∀ e, e ∈ G' → e ∈ G.
Proof.
  intros Hsync Hcell Hin HG'.
  assert ((It a, It b) ∈ G) as Hedge.
  { apply Hsync. exists cell. split; [done|]. intros ->.
    by apply elem_of_nil in Hin. }
  assert (has_edge G (It a) (It b) = true) as Hh by (by apply has_edge_true).
  rewrite Hh, andb_true_r in HG'.
  destruct (bool_decide_reflect (length (list_remove agent cell) = 0%nat))
    as [Hlen|Hlen].
  - apply nil_length_inv in Hlen. split.
    + eapply edge_sync_update; [done..| |].
      * apply list_remove_NoDup. by eapply (proj2 Hsync).
      * intros e. rewrite (elem_of_remove_edge _ _ _ _ _ HG'), Hlen.
        destruct (decide _) as [->|]; [|split; [by intros [? _]|done]].
        split; [by intros [_ ?]|done].
    + intros e. rewrite (elem_of_remove_edge _ _ _ _ _ HG'). by intros [? _].
  - injection HG' as <-. split; [|done].
    eapply edge_sync_update; [done..| |].
    + apply list_remove_NoDup. by eapply (proj2 Hsync).
    + intros e. destruct (decide _) as [->|]; [|done].
      split; [|done]. intros _ Hnil. apply Hlen. by rewrite Hnil.
Qed.

Lemma release_edges_sync a agent G E l G' E' :
  edge_sync G E → release_edges a agent G E l = Ok (G', E') →
  edge_sync G' E' ∧ ∀ e, e ∈ G' → e ∈ G.
Proof.
  revert G E. induction l as [|b l IH]; intros G E Hsync; simpl.
  - intros [= <- <-]. done.
  - intros H. inv_bind H. rename a0 into cell.
    destruct (bool_decide_reflect (agent ∈ cell)) as [Hin|Hnot].
    + inv_bind H. rename a0 into G1.
      destruct (edge_sync_forget _ _ _ _ _ _ _ Hsync E0 Hin E1) as [Hs1 Hsub1].
      destruct (IH _ _ Hs1 H) as [Hs' Hsub']. split; [done|].
      intros e He. by apply Hsub1, Hsub'.
    + by eapply IH.
Qed.

Lemma transfer_loop_E_sync items picked rpath inv X G E inv' X' G' E' :
  edge_sync G E →
  transfer_loop_E items picked rpath inv (X, G, E) = Return inv' (X', G', E') →
  edge_sync G' E' ∧ ∀ e, e ∈ G' → e ∈ G.
Proof.
  revert inv X G E. induction rpath as [|last rpath IH]; intros inv X G E Hsync.
  - simpl. by intros [= _ _ <- <-].
  - cbn [transfer_loop_E]. destruct rpath as [|next rpath].
    + destruct (_ ≫= _) as [X1|e]; [|done]. by intros [= _ _ <- <-].
    + destruct (_ ≫= _) as [[[nl li] ca]|e]; [|done].
      destruct (setX X li ca 1) as [X1|e]; [|done].
      destruct (setX X1 nl ca 0) as [X2|e]; [|done].
      destruct (release_edges nl ca G E (seq 0 (length items)))
        as [[G1 E1]|e] eqn:Er; [|done].
      destruct (release_edges_sync _ _ _ _ _ _ _ Hsync Er) as [Hs1 Hsub1].
      intros H. destruct (IH _ _ _ _ Hs1 H) as [Hs' Hsub']. split; [done|].
      intros e He. by apply Hsub1, Hsub'.
Qed.

Lemma update_allocation_E_sync X G E agents items path picked inv' X' G' E' :
  edge_sync G E →
  update_allocation_E X G E agents items path picked
  = Return inv' (X', G', E') →
  edge_sync G' E' ∧ ∀ e, e ∈ G' → e ∈ G.
Proof.
  intros Hsync. unfold update_allocation_E.
  destruct (_ ≫= _) as [X1|e]; [|done]. by apply transfer_loop_E_sync.
Qed.

Lemma recheck_desired_sync agent j bundle items a item1 G E l G' E' :
  edge_sync G E →
  recheck_desired agent j bundle items a item1 G E l = Ok (G', E') →
  edge_sync G' E' ∧ ∀ e, e ∈ G' → e ∈ G ∨ ∃ a b, e = (It a, It b).
Proof.
  revert G E. induction l as [|b l IH]; intros G E Hsync; simpl.
  - intros [= <- <-]. split; [done|]. by left.
  - intros H. inv_bind H. rename a0 into item2.
    destruct (decide (a ≠ b)) as [Hne|]; [|by eapply IH].
    inv_bind H. rename a0 into cell.
    destruct (bool_decide_reflect (j ∈ cell)) as [Hin|Hnot].
    + destruct (negb _); [|by eapply IH].
      inv_bind H. rename a0 into G1.
      destruct (edge_sync_forget _ _ _ _ _ _ _ Hsync E1 Hin E2) as [Hs1 Hsub1].
      destruct (IH _ _ Hs1 H) as [Hs' Hsub']. split; [done|].
      intros e He. destruct (Hsub' e He) as [?|?]; [left; by apply Hsub1|by right].
    + destruct (exchange_contribution _ _ _ _); [|by eapply IH].
      assert (edge_sync
                (if negb (has_edge G (It a) (It b))
                 then add_edge G (It a) (It b) else G)
                (setE E a b (cell ++ [j]))) as Hs1.
      { eapply edge_sync_update; [done..| |].
        - apply NoDup_app. split; [by eapply (proj2 Hsync)|].
          split; [|apply NoDup_singleton].
          intros x Hx ->%list_elem_of_singleton. done.
        - intros e. destruct (negb (has_edge G (It a) (It b))) eqn:Eh.
          + rewrite elem_of_add_edge.
            destruct (decide _) as [->|];
              [split; [by destruct cell|by right]
              |split; [by intros [?|?]|by left]].
          + apply negb_false_iff, has_edge_true in Eh.
            destruct (decide _) as [->|]; [|done].
            split; [by destruct cell|done]. }
      destruct (IH _ _ Hs1 H) as [Hs' Hsub']. split; [done|].
      intros e He. destruct (Hsub' e He) as [Hin|?]; [|by right].
      destruct (negb (has_edge G (It a) (It b))); [|by left].
      apply elem_of_add_edge in Hin as [?| ->]; [by left|right; eauto].
Qed.

Lemma recheck_bundle_sync agent j bundle items desired G E l G' E' :
  edge_sync G E →
  recheck_bundle agent j bundle items desired G E l = Ok (G', E') →
  edge_sync G' E' ∧ ∀ e, e ∈ G' → e ∈ G ∨ ∃ a b, e = (It a, It b).
Proof.
  revert G E. induction l as [|a l IH]; intros G E Hsync; simpl.
  - intros [= <- <-]. split; [done|]. by left.
  - intros H. inv_bind H. destruct a1 as [G1 EE1].
    destruct (recheck_desired_sync _ _ _ _ _ _ _ _ _ _ _ Hsync E1)
      as [Hs1 Hsub1].
    destruct (IH _ _ Hs1 H) as [Hs' Hsub']. split; [done|].
    intros e He. destruct (Hsub' e He) as [?|?]; [by apply Hsub1|by right].
Qed.

Lemma recheck_agents_sync X agents items G E l G' E' :
  edge_sync G E →
  recheck_agents X agents items G E l = Ok (G', E') →
  edge_sync G' E' ∧ ∀ e, e ∈ G' → e ∈ G ∨ ∃ a b, e = (It a, It b).
Proof.
  revert G E. induction l as [|j l IH]; intros G E Hsync; simpl.
  - intros [= <- <-]. split; [done|]. by left.
  - intros H. inv_bind H. destruct a2 as [G1 EE1].
    destruct (recheck_bundle_sync _ _ _ _ _ _ _ _ _ _ Hsync E3)
      as [Hs1 Hsub1].
    destruct (IH _ _ Hs1 H) as [Hs' Hsub']. split; [done|].
    intros e He. destruct (Hsub' e He) as [?|?]; [by apply Hsub1|by right].
Qed.

Lemma edge_sync_same_items G G' E :
  edge_sync G E → (∀ a b, (It a, It b) ∈ G' ↔ (It a, It b) ∈ G) →
  edge_sync G' E.
Proof.
  intros [Hs Hnd] Heq. split; [|done]. intros a b. by rewrite Heq.
Qed.

Lemma update_exchange_graph_E_sync X G E agents items path inv G' E' :
  edge_sync G E →
  update_exchange_graph_E X G E agents items path inv = Ok (G', E') →
  edge_sync G' E' ∧ ∀ e, e ∈ G' → e ∈ G ∨ ∃ a b, e = (It a, It b).
Proof.
  intros Hsync. unfold update_exchange_graph_E. intros H. inv_bind H.
  rename a into G1.
  destruct (drop_sink_edge_spec _ _ _ _ _ E0) as (li & s & _ & _ & HG1).
  assert (edge_sync G1 E) as Hs1.
  { eapply edge_sync_same_items; [done|]. intros a b. rewrite HG1.
    split; [by intros [? _]|]. intros Hin. split; [done|]. by intros _ [=]. }
  destruct (recheck_agents_sync _ _ _ _ _ _ _ _ Hs1 H) as [Hs' Hsub'].
  split; [done|]. intros e He. destruct (Hsub' e He) as [Hin|?]; [|by right].
  left. by apply HG1 in Hin as [? _].
Qed.

Lemma iteration_E_steps pw agents items crit weights stE stE' :
  iteration_E pw agents items crit weights stE = Next stE' →
  (∃ picked G',
      select_and_search agents items (st_X (st_base stE)) (st_G (st_base stE))
        (gain_vector (st_base stE)) = Ok (picked, None, G')
      ∧ st_G (st_base stE') = G' ∧ st_E stE' = st_E stE)
  ∨ (∃ picked p G' inv X' G1 E1,
      select_and_search agents items (st_X (st_base stE)) (st_G (st_base stE))
        (gain_vector (st_base stE)) = Ok (picked, Some p, G')
      ∧ update_allocation_E (st_X (st_base stE)) G' (st_E stE) agents items p
          picked = Return inv (X', G1, E1)
      ∧ update_exchange_graph_E X' G1 E1 agents items p inv
        = Ok (st_G (st_base stE'), st_E stE')).
Proof.
  unfold iteration_E, with_count.
  cbn [st_X st_G players gain_vector count agents_involved_arr].
  destruct (select_and_search _ _ _ _ _) as [[[picked [p|]] G']|e]; [| |done].
  - destruct (update_allocation_E _ _ _ _ _ _ _)
      as [inv [[X' G1] E1]|e [[? ?] ?]] eqn:Eu; [|done].
    destruct (update_exchange_graph_E _ _ _ _ _ _ _) as [[G'' E'']|] eqn:Eg;
      [|done].
    destruct (get_gain_function _ _ _ _ _ _ _) as [g|] eqn:Ef; [|done].
    intros [= <-]. right. by exists picked, p, G', inv, X', G1, E1.
  - destruct (bool_decide (picked ∈ players (st_base stE))) eqn:Hin; [|done].
    intros [= <-]. left. by exists picked, G'.
Qed.

Lemma initial_edge_sync agents items :
  edge_sync (st_G (st_base (initial_state_E agents items)))
    (st_E (initial_state_E agents items)).
Proof.
  simpl. unfold initialize_exchange_graph, initialize_edge_matrix.
  assert (∀ a b cell,
            getE (replicate (length items) (replicate (length items) []))
              a b = Ok cell → cell = []) as Hcell.
  { intros a b cell (row & Hrow & Hc)%getE_Ok.
    apply lookup_replicate in Hrow as [-> _].
    by apply lookup_replicate in Hc as [-> _]. }
  split.
  - intros a b. split.
    + by intros (i & [=] & _)%list_elem_of_fmap.
    + intros (cell & Hc & Hne). by apply Hcell in Hc.
  - intros a b cell ->%Hcell. constructor.
Qed.

(** X23: in every state that the loop of [general_yankee_swap_E]
    reaches, every edge of the graph leaves an item, the graph has the
    edge from item [a] to item [b] exactly when the cell [E[a][b]] of the
    edge matrix names an agent, and no cell names an agent twice. *)
Theorem edge_matrix_tracks_graph float_pow agents items crit weights stE :
  reachable_E float_pow agents items crit weights stE →
  graph_wf (st_G (st_base stE))
  ∧ edge_sync (st_G (st_base stE)) (st_E stE).
Proof.
  induction 1 as [|stE stE' Hr [Hwf Hsync] Hpl Hit].
  - split; [apply (inv_graph _ _ _ (initial_shape_inv agents items))|].
    apply initial_edge_sync.
  - apply iteration_E_steps in Hit
      as [(picked & G' & Hs & -> & ->)
         |(picked & p & G' & inv & X' & G1 & E1 & Hs & Hu & Hg)].
    + destruct (select_and_search_spec _ _ _ _ _ _ _ _ Hs Hwf) as (_ & HG & _).
      split.
      * intros e He. apply Hwf. by apply HG.
      * eapply edge_sync_same_items; [done|]. intros a b. apply HG.
    + destruct (select_and_search_spec _ _ _ _ _ _ _ _ Hs Hwf) as (_ & HG & _).
      assert (edge_sync G' (st_E stE)) as Hs0.
      { eapply edge_sync_same_items; [done|]. intros a b. apply HG. }
      destruct (update_allocation_E_sync _ _ _ _ _ _ _ _ _ _ _ Hs0 Hu)
        as [Hs1 Hsub1].
      destruct (update_exchange_graph_E_sync _ _ _ _ _ _ _ _ _ Hs1 Hg)
        as [Hs2 Hsub2].
      split; [|done].
      apply (graph_wf_subset (st_G (st_base stE))); [done|].
      intros e He. destruct (Hsub2 e He) as [Hin|?]; [|by right].
      left. by apply HG, Hsub1.
Qed.

Lemma order_state1_E_reachable :
  reachable_E no_pow order_agents order_items LorenzDominance []
    order_state1_E.
Proof.
  apply (reachable_E_next _ _ _ _ _ (initial_state_E order_agents order_items));
    [apply reachable_E_initial|discriminate|vm_compute; reflexivity].
Qed.

Lemma edge_matrix_tracks_graph_witness :
  reachable_E no_pow order_agents order_items LorenzDominance []
    order_state1_E
  ∧ graph_wf (st_G (st_base order_state1_E))
  ∧ edge_sync (st_G (st_base order_state1_E)) (st_E order_state1_E).
Proof.
  split; [exact order_state1_E_reachable|].
  exact (edge_matrix_tracks_graph no_pow order_agents order_items
           LorenzDominance [] order_state1_E order_state1_E_reachable).
Defined.

(** * Items over features *)

Section items_facts.
Context {V : Type} `{EqDecision V}.

Lemma list_index_Some (fs : list (@BaseFeature V)) f k :
  list_index fs f = Some k →
  ∃ f', fs !! k = Some f' ∧ feature_id f' = feature_id f
        ∧ ∀ k' f'', (k' < k)%nat → fs !! k' = Some f'' →
                    feature_id f'' ≠ feature_id f.
Proof.
  revert k. induction fs as [|f0 fs IH]; intros k; simpl; [done|].
  destruct (Nat.eqb_spec (feature_id f0) (feature_id f)) as [Heq|Hne].
  - intros [= <-]. exists f0. split; [done|]. split; [done|]. intros; lia.
  - destruct (list_index fs f) as [k0|]; simpl; [|done]. intros [= <-].
    destruct (IH k0 eq_refl) as (f' & Hk & Hid & Hfirst).
    exists f'. split; [done|]. split; [done|].
    intros [|k'] f'' Hlt Hk'.
    + by simplify_eq/=.
    + eapply (Hfirst k'); [lia|done].
Qed.

Lemma list_index_None (fs : list (@BaseFeature V)) f :
  list_index fs f = None → ∀ f', f' ∈ fs → feature_id f' ≠ feature_id f.
Proof.
  induction fs as [|f0 fs IH]; simpl.
  - intros _ f' Hf'. by apply elem_of_nil in Hf'.
  - destruct (Nat.eqb_spec (feature_id f0) (feature_id f)) as [Heq|Hne];
      [done|].
    destruct (list_index fs f); [done|]. intros _ f' [-> | Hf']%elem_of_cons;
      [done|by apply IH].
Qed.

Lemma validate_domain_lookup (fs : list (@BaseFeature V)) vs k f v :
  validate_domain fs vs = true → fs !! k = Some f → vs !! k = Some v →
  v ∈ domain f.
Proof.
  revert vs k. induction fs as [|f0 fs IH]; intros vs k Hval Hf Hv.
  - by rewrite lookup_nil in Hf.
  - destruct vs as [|v0 vs]; [by rewrite lookup_nil in Hv|].
    simpl in Hval.
    destruct (bool_decide_reflect (v0 ∈ domain f0)) as [Hin|]; [|done].
    destruct k as [|k]; simplify_eq/=; [done|by eapply IH].
Qed.

(** X24: [BaseItem] accepts its arguments exactly when there is one
    value per feature and each value lies in the domain of its feature;
    the count is checked first.  On an item so built, [value] returns,
    for a registered feature, the value given for the first occurrence of
    that feature, which lies in its domain; for a feature that is not
    registered it raises the [ValueError] of [list.index], and never the
    [FeatureError] that it documents. *)
Theorem BaseItem_value_spec (nm : String.string)
    (fs : list (@BaseFeature V)) (vs : list V) (c : Z) :
  match new_BaseItem nm fs vs c with
  | Fine item =>
      length vs = length fs
      ∧ (∀ k f v, fs !! k = Some f → vs !! k = Some v → v ∈ domain f)
      ∧ item = mkBaseItem nm fs vs c
      ∧ ∀ f,
          match value item f with
          | Fine v =>
              ∃ k f', fs !! k = Some f' ∧ feature_id f' = feature_id f
                      ∧ vs !! k = Some v ∧ v ∈ domain f'
                      ∧ ∀ k' f'', (k' < k)%nat → fs !! k' = Some f'' →
                                  feature_id f'' ≠ feature_id f
          | Fails e =>
              e = Builtin ValueError
              ∧ ∀ f', f' ∈ fs → feature_id f' ≠ feature_id f
          end
  | Fails e =>
      if decide (length vs = length fs)
      then e = DomainError
           ∧ ∃ k f v, fs !! k = Some f ∧ vs !! k = Some v ∧ v ∉ domain f
      else e = FeatureError
  end.
Proof.
  unfold new_BaseItem.
  destruct (bool_decide_reflect (length vs ≠ length fs)) as [Hne|Heq].
  { by rewrite decide_False. }
  assert (length vs = length fs) as Hlen.
  { destruct (decide (length vs = length fs)); [done|]. by exfalso. }
  destruct (validate_domain fs vs) eqn:Ev.
  - split; [done|]. split; [intros; by eapply validate_domain_lookup|].
    split; [done|]. intros f. unfold value. simpl.
    destruct (list_index fs f) as [k|] eqn:Ek.
    + destruct (list_index_Some _ _ _ Ek) as (f' & Hk & Hid & Hfirst).
      destruct (lookup_lt_is_Some_2 vs k) as [v Hv].
      { rewrite Hlen. by eapply lookup_lt_Some. }
      rewrite Hv. exists k, f'. split; [done|]. split; [done|].
      split; [done|]. split; [by eapply validate_domain_lookup|done].
    + split; [done|]. by apply list_index_None.
  - rewrite decide_True by done. split; [done|].
    clear Hlen Heq. revert vs Ev.
    induction fs as [|f0 fs IH]; intros [|v0 vs]; simpl; try done.
    destruct (bool_decide_reflect (v0 ∈ domain f0)) as [Hin|Hnot].
    + intros Hv. destruct (IH _ Hv) as (k & f & v & ? & ? & ?).
      by exists (S k), f, v.
    + intros _. by exists 0%nat, f0, v0.
Qed.
End items_facts.

(** * The edge-matrix engine terminates *)

Lemma list_remove_subset (x : nat) l y : y ∈ list_remove x l → y ∈ l.
Proof.
  induction l as [|z l IH]; simpl; [done|].
  destruct (decide (x = z)); [by right|].
  intros [-> | Hy]%elem_of_cons; [left|right; by apply IH].
Qed.

Lemma cells_lt_update E M a b cell cell' :
  cells_lt E M → getE E a b = Ok cell →
  (∀ c, c ∈ cell' → (c < M)%nat) → cells_lt (setE E a b cell') M.
Proof.
  intros Hlt Hcell Hnew a' b' c' c. rewrite (getE_setE _ _ _ _ _ _ _ Hcell).
  destruct (decide _); [intros [= <-]; apply Hnew|apply Hlt].
Qed.

Lemma release_edges_cells a agent G E l G' E' M :
  cells_lt E M → release_edges a agent G E l = Ok (G', E') → cells_lt E' M.
Proof.
  revert G E. induction l as [|b l IH]; intros G E Hlt; simpl.
  - by intros [= _ <-].
  - intros H. inv_bind H. rename a0 into cell.
    destruct (bool_decide (agent ∈ cell)); [|by eapply IH].
    inv_bind H. eapply IH; [|exact H].
    eapply cells_lt_update; [done..|].
    intros c Hc%list_remove_subset. by eapply Hlt.
Qed.

Lemma transfer_loop_E_frame items picked rpath inv X G E inv' X' G' E' M :
  cells_lt E M → (picked < M)%nat →
  transfer_loop_E items picked rpath inv (X, G, E) = Return inv' (X', G', E') →
  length X' = length X
  ∧ (∀ i, length <$> X' !! i = length <$> X !! i)
  ∧ (∀ i, getX X' i M = getX X i M)
  ∧ cells_lt E' M.
Proof.
  intros Hlt Hp. revert inv X G E Hlt.
  induction rpath as [|last rpath IH]; intros inv X G E Hlt.
  - simpl. by intros [= _ <- _ <-].
  - cbn [transfer_loop_E]. destruct rpath as [|next rpath].
    + destruct (node_index last) as [li|] eqn:El; simpl; [|done].
      destruct (setX X li picked 1) as [X1|] eqn:EX1; [|done].
      intros [= _ <- _ <-]. split; [by eapply setX_length|].
      split; [intros; by eapply setX_row_length|]. split; [|done].
      intros i. rewrite (getX_setX _ _ _ _ _ i M EX1).
      rewrite decide_False; [done|lia].
    + destruct (_ ≫= _) as [[[nl li] ca]|e] eqn:Eb; [|done].
      inv_bind Eb. injection Eb as -> -> ->.
      rename a1 into cell. apply index_Ok in E3.
      assert (ca < M)%nat as Hca.
      { eapply Hlt; [exact E2|]. by eapply list_elem_of_lookup_2. }
      destruct (setX X li ca 1) as [X1|] eqn:EX1; [|done].
      destruct (setX X1 nl ca 0) as [X2|] eqn:EX2; [|done].
      destruct (release_edges nl ca G E (seq 0 (length items)))
        as [[G1 E1']|e] eqn:Er; [|done].
      intros H.
      destruct (IH _ _ _ _ (release_edges_cells _ _ _ _ _ _ _ _ Hlt Er) H)
        as (HL & HRL & Hcol & Hlt').
      split; [|split; [|split; [|done]]].
      * by rewrite HL, (setX_length _ _ _ _ _ EX2), (setX_length _ _ _ _ _ EX1).
      * intros i. by rewrite HRL, (setX_row_length _ _ _ _ _ i EX2),
          (setX_row_length _ _ _ _ _ i EX1).
      * intros i. rewrite Hcol, (getX_setX _ _ _ _ _ i M EX2).
        rewrite decide_False by lia.
        rewrite (getX_setX _ _ _ _ _ i M EX1). rewrite decide_False; [done|lia].
Qed.

Lemma update_allocation_E_frame X G E agents items path_og picked inv' X' G' E' :
  cells_lt E (length agents) → (picked < length agents)%nat →
  update_allocation_E X G E agents items path_og picked
  = Return inv' (X', G', E') →
  ∃ last_item s,
    head (rev (path_items path_og)) = Some (It last_item)
    ∧ getX X last_item (length agents) = Ok s
    ∧ length X' = length X
    ∧ (∀ i, length <$> X' !! i = length <$> X !! i)
    ∧ (∀ i, getX X' i (length agents)
            = if decide (i = last_item) then Ok (int64_pred s)
              else getX X i (length agents))
    ∧ cells_lt E' (length agents).
Proof.
  intros Hlt Hp. unfold update_allocation_E.
  destruct (_ ≫= _) as [X1|e] eqn:Eb; [|done].
  inv_bind Eb. rename a into last_node. rename a0 into last_item.
  rename a1 into s.
  destruct (head (rev (path_items path_og))) as [n|] eqn:Eh; [|done].
  simpl in E0. injection E0 as ->. apply node_index_Ok in E1 as ->.
  intros H.
  destruct (transfer_loop_E_frame _ _ _ _ _ _ _ _ _ _ _ _ Hlt Hp H)
    as (HL & HRL & Hcol & Hlt').
  exists last_item, s. split; [done|]. split; [done|].
  split; [by rewrite HL, (setX_length _ _ _ _ _ Eb)|].
  split; [intros i; by rewrite HRL, (setX_row_length _ _ _ _ _ i Eb)|].
  split; [|done]. intros i. rewrite Hcol, (getX_setX _ _ _ _ _ i _ Eb).
  destruct (decide (i = last_item)) as [->|Hne].
  - by rewrite decide_True.
  - rewrite decide_False; [done|]. by intros [? _].
Qed.

Lemma recheck_desired_cells agent j bundle items a item1 G E l G' E' M :
  cells_lt E M → (j < M)%nat →
  recheck_desired agent j bundle items a item1 G E l = Ok (G', E') →
  cells_lt E' M.
Proof.
  intros Hlt Hj. revert G E Hlt. induction l as [|b l IH]; intros G E Hlt; simpl.
  - by intros [= _ <-].
  - intros H. inv_bind H.
    destruct (decide (a ≠ b)); [|by eapply IH].
    inv_bind H. rename a1 into cell.
    destruct (bool_decide (j ∈ cell)).
    + destruct (negb _); [|by eapply IH].
      inv_bind H. eapply IH; [|exact H].
      eapply cells_lt_update; [done..|].
      intros c Hc%list_remove_subset. by eapply Hlt.
    + destruct (exchange_contribution _ _ _ _); [|by eapply IH].
      eapply IH; [|exact H].
      eapply cells_lt_update; [done..|].
      intros c [Hc| ->%list_elem_of_singleton]%elem_of_app; [|done].
      by eapply Hlt.
Qed.

Lemma recheck_bundle_cells agent j bundle items desired G E l G' E' M :
  cells_lt E M → (j < M)%nat →
  recheck_bundle agent j bundle items desired G E l = Ok (G', E') →
  cells_lt E' M.
Proof.
  intros Hlt Hj. revert G E Hlt. induction l as [|a l IH]; intros G E Hlt; simpl.
  - by intros [= _ <-].
  - intros H. inv_bind H. destruct a1 as [G1 EE1].
    eapply IH; [|exact H]. by eapply recheck_desired_cells.
Qed.

Lemma recheck_agents_cells X agents items G E l G' E' :
  cells_lt E (length agents) →
  recheck_agents X agents items G E l = Ok (G', E') →
  cells_lt E' (length agents).
Proof.
  revert G E. induction l as [|j l IH]; intros G E Hlt; simpl.
  - by intros [= _ <-].
  - intros H. inv_bind H. destruct a2 as [G1 EE1].
    eapply IH; [|exact H].
    eapply recheck_bundle_cells; [done| |done]. by eapply index_lt.
Qed.

Lemma iteration_E_full pw agents items crit weights stE stE' :
  iteration_E pw agents items crit weights stE = Next stE' →
  let st := st_base stE in
  (∃ picked G',
      select_and_search agents items (st_X st) (st_G st) (gain_vector st)
      = Ok (picked, None, G')
      ∧ picked ∈ players st
      ∧ stE' = {| st_base :=
                    {| st_X := st_X st; st_G := G';
                       players := list_remove picked (players st);
                       gain_vector := <[picked := NegInf]> (gain_vector st);
                       count := S (count st);
                       agents_involved_arr := agents_involved_arr st ++ [0%nat] |};
                  st_E := st_E stE |})
  ∨ (∃ picked p G' inv X' G1 E1 G'' E'' g,
      select_and_search agents items (st_X st) (st_G st) (gain_vector st)
      = Ok (picked, Some p, G')
      ∧ update_allocation_E (st_X st) G' (st_E stE) agents items p picked
        = Return inv (X', G1, E1)
      ∧ update_exchange_graph_E X' G1 E1 agents items p inv = Ok (G'', E'')
      ∧ get_gain_function pw X' agents items picked crit weights = Ok g
      ∧ stE' = {| st_base :=
                    {| st_X := X'; st_G := G''; players := players st;
                       gain_vector := <[picked := g]> (gain_vector st);
                       count := S (count st);
                       agents_involved_arr :=
                         agents_involved_arr st ++ [length inv] |};
                  st_E := E'' |}).
Proof.
  unfold iteration_E, with_count.
  cbn [st_X st_G players gain_vector count agents_involved_arr].
  destruct (select_and_search _ _ _ _ _) as [[[picked [p|]] G']|e]; [| |done].
  - destruct (update_allocation_E _ _ _ _ _ _ _)
      as [inv [[X' G1] E1]|e [[? ?] ?]] eqn:Eu; [|done].
    destruct (update_exchange_graph_E _ _ _ _ _ _ _) as [[G'' E'']|] eqn:Eg;
      [|done].
    destruct (get_gain_function _ _ _ _ _ _ _) as [g|] eqn:Ef; [|done].
    intros [= <-]. right. by exists picked, p, G', inv, X', G1, E1, G'', E'', g.
  - destruct (bool_decide (picked ∈ players (st_base stE))) eqn:Hin; [|done].
    apply bool_decide_eq_true in Hin. intros [= <-]. left.
    by exists picked, G'.
Qed.

Lemma initial_engine_E_inv agents items :
  (∀ item, item ∈ items → 1 ≤ capacity item) →
  engine_E_inv agents items (initial_state_E agents items).
Proof.
  intros Hcap. pose proof (initial_shape_inv agents items) as Hsh. split.
  - apply initial_gains_inv.
  - apply Hsh.
  - apply Hsh.
  - apply Hsh.
  - by apply initial_slack_inv.
  - intros a b cell c (row & Hrow & Hc)%getE_Ok.
    simpl in Hrow. unfold initialize_edge_matrix in Hrow.
    apply lookup_replicate in Hrow as [-> _].
    apply lookup_replicate in Hc as [-> _]. by intros ?%elem_of_nil.
  - apply initial_edge_sync.
Qed.

Lemma iteration_E_inv pw agents items crit weights stE stE' :
  engine_E_inv agents items stE → players (st_base stE) ≠ [] →
  iteration_E pw agents items crit weights stE = Next stE' →
  engine_E_inv agents items stE'
  ∧ count (st_base stE') = S (count (st_base stE)).
Proof.
  intros [Hg Hrows Hcols Hwf Hsl Hcells Hsync] Hpl Hit.
  destruct (argmax_active _ _ Hg Hpl) as (p0 & gp & Hp0 & Hin0 & Hgp0 & _).
  pose proof Hg as [Hlen Hnd Hact].
  apply iteration_E_full in Hit
    as [(picked & G' & Hs & Hpin & ->)
       |(picked & p & G' & inv & X' & G1 & E1 & G'' & E'' & g & Hs & Hu & Hgr
         & Hgain & ->)].
  - destruct (select_and_search_spec _ _ _ _ _ _ _ _ Hs Hwf) as (Ha & HG' & _).
    rewrite Hp0 in Ha. injection Ha as <-.
    split; [|done]. split; simpl; try done.
    + split; simpl.
      * by rewrite length_insert.
      * by apply list_remove_NoDup.
      * intros j. rewrite list_remove_elem by done. rewrite Hact.
        destruct (decide (j = p0)) as [->|Hne].
        -- rewrite list_lookup_insert_eq by (by eapply lookup_lt_Some).
           split; [by intros [_ ?]|]. by intros (g & [= <-] & ?).
        -- rewrite list_lookup_insert_ne by done.
           split; [by intros [? _]|done].
    + intros e He%HG'. by apply Hwf.
    + destruct Hsl as [H3 H5 H7]. split; simpl; try done.
      * intros i Hi%HG'. by apply H5.
      * rewrite <- H7. pose proof (list_remove_length _ _ Hpin). lia.
    + eapply edge_sync_same_items; [done|]. intros a b. apply HG'.
  - destruct (select_and_search_spec _ _ _ _ _ _ _ _ Hs Hwf) as (Ha & HG' & _).
    rewrite Hp0 in Ha. injection Ha as <-.
    assert (p0 < length agents)%nat as Hpk.
    { rewrite <- Hlen. by eapply lookup_lt_Some. }
    destruct (update_allocation_E_frame _ _ _ _ _ _ _ _ _ _ _ Hcells Hpk Hu)
      as (last & s & Hlast & Hs0 & HL & HRL & Hcol & Hcells1).
    destruct (path_found_facts _ _ _ _ _ _ Hwf Hs)
      as (path & i1 & ik & -> & _ & _ & Hk & Hsink & _).
    rewrite (head_rev_path_items _ _ Hk) in Hlast. injection Hlast as <-.
    assert (edge_sync G' (st_E stE)) as Hsync0.
    { eapply edge_sync_same_items; [done|]. intros a b. apply HG'. }
    destruct (update_allocation_E_sync _ _ _ _ _ _ _ _ _ _ _ Hsync0 Hu)
      as [Hsync1 Hsub1].
    destruct (update_exchange_graph_E_sync _ _ _ _ _ _ _ _ _ Hsync1 Hgr)
      as [Hsync2 Hsub2'].
    unfold update_exchange_graph_E in Hgr. inv_bind Hgr. rename a into Gd.
    destruct (drop_sink_edge_spec _ _ _ _ _ E) as (last' & s' & Hl' & Hs' & HGd).
    rewrite (head_rev_path_items _ _ Hk) in Hl'. injection Hl' as <-.
    rewrite Hcol, decide_True in Hs' by done. injection Hs' as <-.
    destruct (recheck_agents_sync _ _ _ _ _ _ _ _
                (edge_sync_same_items _ Gd _ Hsync1
                   ltac:(intros a b; rewrite HGd;
                         split; [by intros [? _]|intros ?; split; [done|];
                                 by intros _ [=]])) Hgr) as [_ Hsub2].
    destruct Hsl as [H3 H5 H7].
    destruct (H5 _ Hsink) as (s0 & Hs0' & Hpos).
    rewrite Hs0 in Hs0'. injection Hs0' as <-.
    rewrite int64_pred_nonneg in Hcol, HGd by lia.
    split; [|done]. split; simpl.
    + split; simpl.
      * by rewrite length_insert.
      * done.
      * intros j. rewrite Hact.
        destruct (decide (j = p0)) as [->|Hne].
        -- rewrite list_lookup_insert_eq by (by eapply lookup_lt_Some).
           split.
           ++ intros _. exists g. split; [done|].
              by eapply get_gain_function_finite.
           ++ intros _. apply Hact. done.
        -- by rewrite list_lookup_insert_ne.
    + by rewrite HL.
    + intros i row Hr. specialize (HRL i). rewrite Hr in HRL.
      destruct (st_X (st_base stE) !! i) as [row0|] eqn:Hr0; [|done].
      simpl in HRL. injection HRL as ->. by eapply Hcols.
    + apply (graph_wf_subset (st_G (st_base stE))); [done|].
      intros e He. destruct (Hsub2 e He) as [Hin|?]; [|by right].
      left. apply HG', Hsub1. by apply HGd in Hin as [? _].
    + split; simpl.
      * intros i s'. rewrite Hcol. destruct (decide (i = ik)).
        -- intros [= <-]. lia.
        -- apply H3.
      * intros i Hi. destruct (Hsub2 _ Hi) as [Hin|(a & b & [=])].
        apply HGd in Hin as [Hin Hne].
        apply Hsub1, HG' in Hin. destruct (H5 i Hin) as (si & Hsi & Hsipos).
        rewrite Hcol. destruct (decide (i = ik)) as [->|].
        -- exists (s - 1). split; [done|].
           assert (s - 1 ≠ 0); [|lia]. intros Hz. by apply Hne.
        -- by exists si.
      * rewrite (total_slack_decrement _ _ _ ik s HRL Hs0 Hcol). lia.
    + by eapply recheck_agents_cells.
    + done.
Qed.

Lemma reachable_engine_E_inv pw agents items crit weights stE :
  (∀ item, item ∈ items → 1 ≤ capacity item) →
  reachable_E pw agents items crit weights stE →
  engine_E_inv agents items stE.
Proof.
  intros Hcap. induction 1 as [|stE stE' Hr IH Hpl Hit];
    [by apply initial_engine_E_inv|].
  by eapply iteration_E_inv.
Qed.

Lemma iteration_E_Failed_count pw agents items crit weights stE e stE' :
  iteration_E pw agents items crit weights stE = Failed e stE' →
  count (st_base stE') = S (count (st_base stE)).
Proof.
  unfold iteration_E, with_count.
  cbn [st_X st_G players gain_vector count agents_involved_arr].
  destruct (select_and_search _ _ _ _ _) as [[[picked [p|]] G']|e'].
  - destruct (update_allocation_E _ _ _ _ _ _ _)
      as [inv [[X' G1] E1]|e1 [[X' G1] E1]].
    + destruct (update_exchange_graph_E _ _ _ _ _ _ _) as [[G'' E'']|].
      * destruct (get_gain_function _ _ _ _ _ _ _) as [g|]; [done|].
        by intros [= <- <-].
      * by intros [= <- <-].
    + by intros [= <- <-].
  - destruct (bool_decide (picked ∈ players (st_base stE))); [done|].
    by intros [= <- <-].
  - by intros [= <- <-].
Qed.

(** The loop of the edge-matrix engine ends within the fuel that the
    slack and the players left allow. *)
Lemma yankee_loop_E_bound pw agents items crit weights fuel stE :
  reachable_E pw agents items crit weights stE →
  (∀ item, item ∈ items → 1 ≤ capacity item) →
  total_slack (length agents) (st_X (st_base stE))
  + Z.of_nat (length (players (st_base stE))) ≤ Z.of_nat fuel →
  ∃ stE', reachable_E pw agents items crit weights stE'
    ∧ (yankee_loop_E pw agents items crit weights fuel stE = Finished stE'
       ∧ players (st_base stE') = []
       ∨ ∃ e stE'',
           iteration_E pw agents items crit weights stE' = Failed e stE''
           ∧ players (st_base stE') ≠ []
           ∧ yankee_loop_E pw agents items crit weights fuel stE
             = Aborted e stE'')
    ∧ (count (st_base stE') < iteration_bound agents items
       ∨ players (st_base stE') = []
         ∧ count (st_base stE') ≤ iteration_bound agents items)%nat.
Proof.
  intros Hr Hcap. revert stE Hr.
  induction fuel as [|fuel IH]; intros stE Hr Hfuel;
    pose proof (einv_slack _ _ _ (reachable_engine_E_inv _ _ _ _ _ _ Hcap Hr))
      as Hinv;
    pose proof (total_slack_nonneg _ _ _ Hinv) as Hts;
    pose proof (total_capacity_nonneg _ Hcap) as Htc;
    pose proof (inv_measure _ _ _ Hinv) as Hm.
  - destruct (players (st_base stE)) as [|j pl] eqn:Epl; [|simpl in Hfuel; lia].
    exists stE. split; [done|]. simpl. rewrite Epl. split; [by left|].
    right. split; [done|]. unfold iteration_bound. simpl in Hm. lia.
  - destruct (players (st_base stE)) as [|j pl] eqn:Epl.
    + exists stE. split; [done|]. simpl. rewrite Epl. split; [by left|].
      right. split; [done|]. unfold iteration_bound. simpl in Hm. lia.
    + assert (Hpl : players (st_base stE) ≠ []) by (by rewrite Epl).
      destruct (iteration_E pw agents items crit weights stE)
        as [st1|e st1] eqn:Hit.
      * assert (Hr1 : reachable_E pw agents items crit weights st1)
          by (by eapply reachable_E_next).
        pose proof (einv_slack _ _ _
                      (reachable_engine_E_inv _ _ _ _ _ _ Hcap Hr1)) as Hinv1.
        pose proof (inv_measure _ _ _ Hinv1) as Hm1.
        destruct (iteration_E_inv _ _ _ _ _ _ _
                    (reachable_engine_E_inv _ _ _ _ _ _ Hcap Hr) Hpl Hit)
          as [_ Hc].
        destruct (IH st1 Hr1) as (st' & Hr' & Hres & Hcount).
        { simpl in Hm, Hfuel. lia. }
        exists st'. split; [done|]. split; [|done].
        simpl. rewrite Epl, Hit. done.
      * exists stE. split; [done|]. split.
        -- right. exists e, st1. split; [done|]. split; [done|].
           simpl. rewrite Epl, Hit. done.
        -- left. unfold iteration_bound. simpl in Hm. lia.
Qed.

(** X25: over items of capacity at least 1, and with fuel for total
    capacity plus the number of agents iterations,
    [general_yankee_swap_E] ends within that many iterations: by raising
    [OverflowError] before the loop because a capacity does not fit a
    64-bit integer, by raising in an iteration, or by emptying the list
    of players; when it returns, the iterations made and the slack left
    add up to the total capacity plus the number of agents, and no slack
    is negative. *)
Theorem general_yankee_swap_E_terminates float_pow agents items crit weights
    fuel :
  (∀ item, item ∈ items → 1 ≤ capacity item) →
  (iteration_bound agents items ≤ fuel)%nat →
  general_yankee_swap_E float_pow agents items crit weights fuel
  = Raised OverflowError
  ∧ (∃ item, item ∈ items ∧ int64_max < capacity item)
  ∨ ∃ stE,
      (general_yankee_swap_E float_pow agents items crit weights fuel
       = Finished stE
       ∧ players (st_base stE) = []
       ∧ Z.of_nat (count (st_base stE))
         + total_slack (length agents) (st_X (st_base stE))
         = total_capacity items + Z.of_nat (length agents)
       ∧ (∀ i s, getX (st_X (st_base stE)) i (length agents) = Ok s → 0 ≤ s)
       ∨ ∃ e, general_yankee_swap_E float_pow agents items crit weights fuel
              = Aborted e stE)
      ∧ (count (st_base stE) ≤ iteration_bound agents items)%nat.
Proof.
  intros Hcap Hfuel.
  destruct (general_yankee_swap_E_cases float_pow agents items crit weights
              fuel) as [[Hov (item & Hin & Hout)]|[Hfit ->]].
  { left. split; [done|]. exists item. split; [done|].
    specialize (Hcap item Hin). unfold int64_min in Hout. lia. }
  right.
  destruct (yankee_loop_E_bound float_pow agents items crit weights fuel
              (initial_state_E agents items)) as (st & Hr & Hres & Hcount).
  - apply reachable_E_initial.
  - done.
  - simpl. rewrite initial_total_slack, length_seq.
    pose proof (total_capacity_nonneg _ Hcap). unfold iteration_bound in Hfuel.
    lia.
  - destruct Hres as [[Hfin Hpl]|(e & st'' & Hit & Hpl & Hab)].
    + exists st. split; [|lia]. left. split; [done|]. split; [done|].
      pose proof (einv_slack _ _ _
                    (reachable_engine_E_inv _ _ _ _ _ _ Hcap Hr)) as Hinv.
      pose proof (inv_measure _ _ _ Hinv) as Hm. rewrite Hpl in Hm.
      split; [simpl in Hm; lia|]. apply Hinv.
    + exists st''. split; [right; by exists e|].
      apply iteration_E_Failed_count in Hit.
      destruct Hcount as [?|[? _]]; [lia|done].
Qed.

Lemma general_yankee_swap_E_terminates_witness :
  (∀ item, item ∈ order_items → 1 ≤ capacity item)
  ∧ (iteration_bound order_agents order_items ≤ 8)%nat
  ∧ (general_yankee_swap_E no_pow order_agents order_items LorenzDominance
       [] 8
     = Raised OverflowError
     ∧ (∃ item, item ∈ order_items ∧ int64_max < capacity item)
     ∨ ∃ stE,
         (general_yankee_swap_E no_pow order_agents order_items
            LorenzDominance [] 8
          = Finished stE
          ∧ players (st_base stE) = []
          ∧ Z.of_nat (count (st_base stE))
            + total_slack (length order_agents) (st_X (st_base stE))
            = total_capacity order_items + Z.of_nat (length order_agents)
          ∧ (∀ i s, getX (st_X (st_base stE)) i (length order_agents) = Ok s
                    → 0 ≤ s)
          ∨ ∃ e, general_yankee_swap_E no_pow order_agents order_items
                   LorenzDominance [] 8
                 = Aborted e stE)
         ∧ (count (st_base stE)
            ≤ iteration_bound order_agents order_items)%nat).
Proof.
  assert (H1 : ∀ item, item ∈ order_items → 1 ≤ capacity item).
  { intros item Hin. unfold order_items in Hin.
    repeat (apply elem_of_cons in Hin as [->|Hin]; [simpl; lia|]).
    by apply elem_of_nil in Hin. }
  assert (H2 : (iteration_bound order_agents order_items ≤ 8)%nat)
    by (vm_compute; lia).
  split; [exact H1|]. split; [exact H2|].
  exact (general_yankee_swap_E_terminates no_pow order_agents order_items
           LorenzDominance [] 8 H1 H2).
Defined.

(** * The runs evaluated do not depend on the choice of a shortest path *)

Lemma walks_complete G k u p :
  head p = Some u → path_in G p → (length p ≤ S k)%nat → p ∈ walks G k u.
Proof.
  revert u p. induction k as [|k IH]; intros u [|x [|v r]] Hh Hp Hlen;
    simplify_eq/=; try lia.
  - by left.
  - by left.
  - destruct Hp as [He Hp]. right. apply list_elem_of_bind.
    exists v. split; [|by apply elem_of_successors].
    apply list_elem_of_fmap. exists (v :: r). split; [done|].
    apply IH; [done|done|simpl; lia].
Qed.

Lemma only_shortest_pathb_spec G p :
  only_shortest_pathb G p = true → only_shortest_path G p.
Proof.
  unfold only_shortest_pathb. intros H%bool_decide_eq_true p' Hh Hl Hp Hlen.
  assert (p' ∈ filter (λ w, head (rev w) = Some Sink)
                 (walks G (length p - 1) Src)) as Hin.
  { apply list_elem_of_filter. split; [done|].
    apply walks_complete; [done|done|].
    destruct p' as [|x p']; [done|]. simpl in *. lia. }
  rewrite H in Hin. by apply list_elem_of_singleton in Hin.
Qed.

Lemma single_shortest_pathb_spec agents items st :
  single_shortest_pathb agents items st = true →
  single_shortest_path agents items st.
Proof.
  unfold single_shortest_pathb. intros H picked G1 p Ha HG Hp.
  rewrite Ha, HG, Hp in H. by apply only_shortest_pathb_spec.
Qed.

Lemma Forall_single_shortest_path agents items l :
  forallb (single_shortest_pathb agents items) l = true →
  Forall (single_shortest_path agents items) l.
Proof.
  intros H. apply Forall_forall. intros st Hst.
  apply single_shortest_pathb_spec.
  rewrite forallb_forall in H. apply H. by apply list_elem_of_In.
Qed.

(** Every search of the runs evaluated in this development has a single
    shortest path: the naive and the edge-matrix engine on
    [order_agents], the naive engine on [stuck_agents], on
    [eager_agents], and on one agent with one item, of capacity 0, of
    the least capacity, and of capacity 1 without weights. *)
Lemma evaluated_runs_have_single_shortest_paths :
  Forall (single_shortest_path order_agents order_items)
    (searched_states no_pow order_agents order_items LorenzDominance [] 8
       (initial_state order_agents order_items))
  ∧ Forall (single_shortest_path order_agents order_items)
      (searched_states_E no_pow order_agents order_items LorenzDominance [] 8
         (initial_state_E order_agents order_items))
  ∧ Forall (single_shortest_path stuck_agents stuck_items)
      (searched_states no_pow stuck_agents stuck_items LorenzDominance [] 6
         (initial_state stuck_agents stuck_items))
  ∧ Forall (single_shortest_path eager_agents eager_items)
      (searched_states no_pow eager_agents eager_items LorenzDominance [] 6
         (initial_state eager_agents eager_items))
  ∧ Forall (single_shortest_path [single_agent] [mkItem 0 0])
      (searched_states no_pow [single_agent] [mkItem 0 0] LorenzDominance []
         2 (initial_state [single_agent] [mkItem 0 0]))
  ∧ Forall (single_shortest_path [single_agent] [mkItem 0 int64_min])
      (searched_states no_pow [single_agent] [mkItem 0 int64_min]
         LorenzDominance [] 2
         (initial_state [single_agent] [mkItem 0 int64_min]))
  ∧ Forall (single_shortest_path [single_agent] [mkItem 0 1])
      (searched_states no_pow [single_agent] [mkItem 0 1] WeightedLeximin []
         1 (initial_state [single_agent] [mkItem 0 1])).
Proof.
  repeat split; apply Forall_single_shortest_path; vm_compute; reflexivity.
Qed.

(** The lists of states above are those of the whole runs. *)
Lemma evaluated_runs_lengths :
  length (searched_states no_pow order_agents order_items LorenzDominance []
            8 (initial_state order_agents order_items)) = 8%nat
  ∧ length (searched_states_E no_pow order_agents order_items LorenzDominance
              [] 8 (initial_state_E order_agents order_items)) = 8%nat
  ∧ length (searched_states no_pow stuck_agents stuck_items LorenzDominance
              [] 6 (initial_state stuck_agents stuck_items)) = 6%nat
  ∧ length (searched_states no_pow eager_agents eager_items LorenzDominance
              [] 6 (initial_state eager_agents eager_items)) = 6%nat.
Proof. repeat split; vm_compute; reflexivity. Qed.
